(** * A model of [src/src/tmx.js]: the TMX translation-memory document

    The JavaScript class [TMX] keeps its translation units in an array
    ([this.tu]) and in an object used as a hash table ([this.tuhash]).
    Units are mutable objects that several documents may reference at the
    same time ([merge] and [diff] hand the very same unit objects to the
    document they build), so the model keeps units and documents in an
    explicit store and lets documents hold references into it. *)

From Stdlib Require Import Ascii.
From stdpp Require Import gmap strings list fin_maps.

Open Scope string_scope.
Open Scope list_scope.
Open Scope nat_scope.

(** ** JavaScript values *)

(** A value that is either a string or [undefined]. *)
Definition jsstr := option string.

(** JavaScript truthiness of such a value: [undefined] and the empty string
    are falsy. *)
Definition truthy (s : jsstr) : bool :=
  match s with
  | Some s => negb (String.eqb s "")
  | None => false
  end.

(** [a || b] *)
Definition js_or (a b : jsstr) : jsstr := if truthy a then a else b.

(** ["" + v] *)
Definition js_show (v : jsstr) : string := default "undefined" v.

(** A plain object used as an ordered string-keyed record: the pairs are in
    property-enumeration order and the keys are pairwise distinct. *)
Definition obj (A : Type) := list (string * A).

(** [o[k]], where a missing property reads as [undefined]. *)
Fixpoint obj_get (o : obj jsstr) (k : string) : jsstr :=
  match o with
  | [] => None
  | (k', v) :: o => if String.eqb k' k then v else obj_get o k
  end.

(** [o[k]] for an object whose properties hold values of type [A]. *)
Fixpoint obj_lookup {A} (o : obj A) (k : string) : option A :=
  match o with
  | [] => None
  | (k', v) :: o => if String.eqb k' k then Some v else obj_lookup o k
  end.

(** [o[k] = v]: an existing property keeps its place, a new one goes last. *)
Fixpoint obj_set {A} (o : obj A) (k : string) (v : A) : obj A :=
  match o with
  | [] => [(k, v)]
  | (k', v') :: o =>
      if String.eqb k' k then (k, v) :: o else (k', v') :: obj_set o k v
  end.

(** ** Translation variants and units

    [TranslationVariant] and [TranslationUnit] are imported by [tmx.js] from
    the package [ilib-tools-common]; their fields are the ones [tmx.js]
    reads and writes. *)

Record TranslationVariant := mkVariant {
  tv_locale : jsstr;
  tv_string : jsstr
}.

Record TranslationUnit := mkUnit {
  tu_source : jsstr;
  tu_sourceLocale : jsstr;
  tu_target : jsstr;
  tu_targetLocale : jsstr;
  tu_datatype : jsstr;
  tu_comment : jsstr;
  tu_pre : jsstr;
  tu_post : jsstr;
  tu_properties : obj jsstr;
  tu_variants : list TranslationVariant
}.

(** [new TranslationUnit()] *)
Definition empty_unit : TranslationUnit :=
  mkUnit None None None None None None None None [] [].

Global Instance TranslationUnit_inhabited : Inhabited TranslationUnit :=
  populate empty_unit.

Definition set_variants (u : TranslationUnit) (vs : list TranslationVariant)
  : TranslationUnit :=
  mkUnit (tu_source u) (tu_sourceLocale u) (tu_target u) (tu_targetLocale u)
         (tu_datatype u) (tu_comment u) (tu_pre u) (tu_post u)
         (tu_properties u) vs.

Definition set_properties (u : TranslationUnit) (p : obj jsstr)
  : TranslationUnit :=
  mkUnit (tu_source u) (tu_sourceLocale u) (tu_target u) (tu_targetLocale u)
         (tu_datatype u) (tu_comment u) (tu_pre u) (tu_post u)
         p (tu_variants u).

Definition set_source (u : TranslationUnit) (s l : jsstr) : TranslationUnit :=
  mkUnit s l (tu_target u) (tu_targetLocale u)
         (tu_datatype u) (tu_comment u) (tu_pre u) (tu_post u)
         (tu_properties u) (tu_variants u).

Definition set_comment (u : TranslationUnit) (c : jsstr) : TranslationUnit :=
  mkUnit (tu_source u) (tu_sourceLocale u) (tu_target u) (tu_targetLocale u)
         (tu_datatype u) c (tu_pre u) (tu_post u)
         (tu_properties u) (tu_variants u).

Definition set_pre (u : TranslationUnit) (p : jsstr) : TranslationUnit :=
  mkUnit (tu_source u) (tu_sourceLocale u) (tu_target u) (tu_targetLocale u)
         (tu_datatype u) (tu_comment u) p (tu_post u)
         (tu_properties u) (tu_variants u).

Definition set_post (u : TranslationUnit) (p : jsstr) : TranslationUnit :=
  mkUnit (tu_source u) (tu_sourceLocale u) (tu_target u) (tu_targetLocale u)
         (tu_datatype u) (tu_comment u) (tu_pre u) p
         (tu_properties u) (tu_variants u).

(** References into the store. *)
Abbreviation uref := nat (only parsing).
Abbreviation dref := nat (only parsing).

(** ** The document *)

(** [this.version] is a number that the code only ever turns back into text
    (["" + num] in [versionString]); it is kept as that decimal text.
    [this.properties] is kept by value: the constructor and [setProperties]
    store the object their caller passes, so two documents can share one
    property object, and what [parse] writes into it is then seen by both.
    The store has no such sharing, and the properties of a document are
    only spoken of for the document a method is called on. *)
Record TMX {UKey : Type} `{Countable UKey} := mkTMX {
  version : string;
  properties : obj jsstr;
  sourceLocale : jsstr;
  adminLocale : jsstr;
  path : jsstr;
  tu : list uref;
  tuhash : gmap UKey uref
}.
Global Arguments TMX UKey {_ _}.
Global Arguments mkTMX {_ _ _} _ _ _ _ _ _ _.

(** ** The logger *)

Inductive LogLevel := TRACE | WARN | ERROR.

Definition LogEvent : Type := LogLevel * string.

(** ** Errors raised by the JavaScript runtime or by a collaborator *)

Inductive JsError :=
| TypeError (what : string)
| PlainError (what : string)
| XmlError.

Inductive Outcome (A : Type) :=
| Returned (a : A)
| Thrown (e : JsError).
Global Arguments Returned {A} a.
Global Arguments Thrown {A} e.

(** ** The wire tree

    The compact object tree of the XML collaborator ([xml-js] with
    [compact: true]), restricted to the members [tmx.js] writes or reads.
    A child element that may repeat is [undefined], a single object or an
    array of objects. *)

Inductive Multi (A : Type) :=
| Absent
| One (a : A)
| Many (l : list A).
Global Arguments Absent {A}.
Global Arguments One {A} a.
Global Arguments Many {A} l.

(** [makeArray], called on a defined value only. *)
Definition makeArray {A} (m : Multi A) : list A :=
  match m with
  | Absent => []
  | One a => [a]
  | Many l => l
  end.

(** Truthiness of such a member: only [undefined] is falsy. *)
Definition present {A} (m : Multi A) : bool :=
  match m with Absent => false | _ => true end.

Record PropElem := mkProp {
  prop_attributes : option (obj jsstr);
  prop_text : jsstr
}.

Record SegElem := mkSeg { seg_text : jsstr }.

Record NoteElem := mkNote { note_text : jsstr }.

Record TuvElem := mkTuv {
  tuv_attributes : option (obj jsstr);
  tuv_seg : option SegElem;
  tuv_prop : Multi PropElem
}.

Record TuElem := mkTu {
  tue_attributes : option (obj jsstr);
  tue_prop : Multi PropElem;
  tue_note : option NoteElem;
  tue_tuv : Multi TuvElem
}.

Record HeaderElem := mkHeader {
  header_attributes : option (obj jsstr);
  header_prop : Multi PropElem
}.

Record BodyElem := mkBody { body_tu : Multi TuElem }.

Record TmxElem := mkTmxElem {
  tmx_attributes : option (obj jsstr);
  tmx_header : option HeaderElem;
  tmx_body : option BodyElem
}.

Record Json := mkJson { json_tmx : option TmxElem }.

(** The object a nested [xml2js] call returns for the markup held by an
    [x-context-pre] or [x-context-post] property. *)
Record NestedJson := mkNested { nested_seg : option SegElem }.

(** ** Resources handed to [addResource] *)

Inductive ResPayload :=
| ResString (source target : jsstr)
| ResArray (sourceArray : list jsstr) (targetArray : option (list jsstr))
| ResPlural (sourcePlurals : obj jsstr) (targetPlurals : option (obj jsstr)).

Record Resource := mkResource {
  res_sourceLocale : jsstr;
  res_targetLocale : jsstr;
  res_dataType : jsstr;
  res_context : jsstr;
  res_flavor : jsstr;
  res_project : jsstr;
  res_payload : ResPayload
}.

(** [versionString]: the text before the first dot, a dot, and the text
    between the first and second dot, or ["0"] when that is missing or empty. *)
Fixpoint split_dot (s : string) : list string :=
  match s with
  | EmptyString => [""]
  | String c s' =>
      if Ascii.eqb c "."%char then "" :: split_dot s'
      else match split_dot s' with
           | [] => [String c ""]
           | p :: ps => String c p :: ps
           end
  end.

Definition versionString (num : string) : string :=
  let parts := split_dot num in
  let integral := default "" (parts !! 0) in
  let fraction := default "0" (js_or (parts !! 1) (Some "0")) in
  integral +:+ "." +:+ fraction.

Definition headerAttrs : list string :=
  [ "segtype"; "creationtool"; "creationtoolversion"; "adminlang"; "srclang";
    "datatype" ].

Global Instance TranslationVariant_eq_dec : EqDecision TranslationVariant.
Proof. solve_decision. Defined.

(** ** Collaborators

    The identity keys are computed by [hashKey] methods of the imported
    unit and variant classes: a deterministic function of the source text,
    source locale and datatype for a unit, and of the locale and text for a
    variant. They are kept abstract, as are the XML library, the sentence
    splitter, the string trimming functions and the package version. *)
Class Collaborators := {
  UKey : Type;
  UKey_eq :: EqDecision UKey;
  UKey_countable :: Countable UKey;
  VKey : Type;
  VKey_eq :: EqDecision VKey;
  VKey_countable :: Countable VKey;
  (** [TranslationUnit.hashKey], from source, source locale and datatype *)
  unit_hash : jsstr → jsstr → jsstr → UKey;
  (** [TranslationVariant.hashKey], from locale and string *)
  variant_hash : jsstr → jsstr → VKey;
  (** [cldrSegmentation.sentenceSplit(string, suppressions)] with the
      suppressions of the language of the locale *)
  sentenceSplit : string → jsstr → list string;
  trim : string → string;
  trimStart : string → string;
  (** [xmljs.js2xml] and [xmljs.xml2js]; [None] stands for a parse error
      raised by the parser *)
  js2xml : Json → string;
  xml2js : string → option Json;
  xml2js_nested : string → option NestedJson;
  (** the [version] member of [package.json], read by [getVersion] *)
  getVersion : jsstr
}.

Section Model.

Context {collaborators : Collaborators}.

(** ** The store *)

Definition empty_doc : TMX UKey := mkTMX "" [] None None None [] ∅.

Global Instance TMX_inhabited : Inhabited (TMX UKey) := populate empty_doc.

Record Store := mkStore {
  units : list TranslationUnit;
  docs : list (TMX UKey);
  log : list LogEvent
}.

Definition get_unit (st : Store) (r : uref) : TranslationUnit :=
  units st !!! r.

Definition get_doc (st : Store) (d : dref) : TMX UKey := docs st !!! d.

Definition set_unit (r : uref) (u : TranslationUnit) (st : Store) : Store :=
  mkStore (<[r := u]> (units st)) (docs st) (log st).

Definition set_doc (d : dref) (t : TMX UKey) (st : Store) : Store :=
  mkStore (units st) (<[d := t]> (docs st)) (log st).

Definition alloc_unit (u : TranslationUnit) (st : Store) : uref * Store :=
  (length (units st), mkStore (units st ++ [u]) (docs st) (log st)).

Definition alloc_doc (t : TMX UKey) (st : Store) : dref * Store :=
  (length (docs st), mkStore (units st) (docs st ++ [t]) (log st)).

Definition logger (lvl : LogLevel) (msg : string) (st : Store) : Store :=
  mkStore (units st) (docs st) (log st ++ [(lvl, msg)]).

(** ** Identity keys *)

Definition variant_key (v : TranslationVariant) : VKey :=
  variant_hash (tv_locale v) (tv_string v).

Definition unit_key (u : TranslationUnit) : UKey :=
  unit_hash (tu_source u) (tu_sourceLocale u) (tu_datatype u).

(** [unit.hashKey()] for a unit in the store. *)
Definition hashKey (st : Store) (r : uref) : UKey := unit_key (get_unit st r).

(** ** Methods of the imported unit class *)

(** Modelled from the spec: [TranslationUnit.addVariant] is not under
    [src/]; a variant is appended unless a variant with the same identity
    key is already on the unit, and an existing variant is never replaced. *)
Definition unit_addVariant (u : TranslationUnit) (v : TranslationVariant)
  : TranslationUnit :=
  if decide (variant_key v ∈ variant_key <$> tu_variants u) then u
  else set_variants u (tu_variants u ++ [v]).

(** Modelled from the spec: [TranslationUnit.addVariants] is not under
    [src/]; it adds the variants one by one, in order. *)
Definition unit_addVariants (u : TranslationUnit)
  (vs : list TranslationVariant) : TranslationUnit :=
  foldl unit_addVariant u vs.

(** Modelled from the spec: [TranslationUnit.addProperties] is not under
    [src/]; it copies every property of its argument onto the unit. *)
Definition unit_addProperties (u : TranslationUnit) (ps : obj jsstr)
  : TranslationUnit :=
  set_properties u
    (foldl (λ o kv, obj_set o kv.1 kv.2) (tu_properties u) ps).

(** The same methods called through a reference. *)
Definition addVariant (r : uref) (v : TranslationVariant) (st : Store)
  : Store :=
  set_unit r (unit_addVariant (get_unit st r) v) st.

Definition addVariants (r : uref) (vs : list TranslationVariant)
  (st : Store) : Store :=
  set_unit r (unit_addVariants (get_unit st r) vs) st.

(** ** [TMX] methods *)

Definition set_tu (t : TMX UKey) (l : list uref) (m : gmap UKey uref)
  : TMX UKey :=
  mkTMX (version t) (properties t) (sourceLocale t) (adminLocale t)
        (path t) l m.

Definition set_header (t : TMX UKey) (p : obj jsstr) (src adm : jsstr)
  : TMX UKey :=
  mkTMX (version t) p src adm (path t) (tu t) (tuhash t).

(** [addTranslationUnit]. The trace message is logged without the JSON
    dump of the unit. *)
Definition addTranslationUnit (d : dref) (unit : uref) (st : Store)
  : Store :=
  let st := logger TRACE
    ("Tmx " +:+ js_show (path (get_doc st d)) +:+
     ": Adding translation unit") st in
  let this := get_doc st d in
  let hashKey := hashKey st unit in
  match tuhash this !! hashKey with
  | Some existing =>
      addVariants existing (tu_variants (get_unit st unit)) st
  | None =>
      set_doc d (set_tu this (tu this ++ [unit])
                        (<[hashKey := unit]> (tuhash this))) st
  end.

(** [addTranslationUnits] *)
Definition addTranslationUnits (d : dref) (us : list uref) (st : Store)
  : Store :=
  foldl (λ st unit, addTranslationUnit d unit st) st us.

(** [size] *)
Definition size (st : Store) (d : dref) : nat := length (tu (get_doc st d)).

(** [getTranslationUnits] *)
Definition getTranslationUnits (st : Store) (d : dref) : list uref :=
  tu (get_doc st d).

(** The constructor, for the option keys that [diff] and [merge] pass:
    [sourceLocale], [version], [segmentation], [creationtool] and
    [creationtoolversion]. No [properties] and no [path] are given, so the
    default property object is used and nothing is loaded. *)
Record Options := mkOptions {
  opt_sourceLocale : jsstr;
  opt_version : string;
  opt_segmentation : jsstr;
  opt_creationtool : jsstr;
  opt_creationtoolversion : jsstr
}.

(** [options[prop]] for a header attribute name. *)
Definition opt_attr (o : Options) (prop : string) : jsstr :=
  if String.eqb prop "creationtool" then opt_creationtool o
  else if String.eqb prop "creationtoolversion" then opt_creationtoolversion o
  else None.

Definition new_TMX (o : Options) : TMX UKey :=
  let properties := [("datatype", Some "unknown");
                     ("segtype", Some "paragraph")] in
  let sourceLocale := Some "en" in
  let adminLocale := sourceLocale in
  let sourceLocale := js_or (opt_sourceLocale o) sourceLocale in
  let properties :=
    if truthy (opt_segmentation o) &&
       (bool_decide (opt_segmentation o = Some "paragraph") ||
        bool_decide (opt_segmentation o = Some "sentence"))
    then obj_set properties "segtype" (opt_segmentation o)
    else properties in
  let properties :=
    foldl (λ ps prop, if truthy (opt_attr o prop)
                      then obj_set ps prop (opt_attr o prop) else ps)
          properties headerAttrs in
  mkTMX (opt_version o) properties sourceLocale adminLocale None [] ∅.

Definition derived_options (this : TMX UKey) : Options :=
  mkOptions (sourceLocale this) (version this)
            (obj_get (properties this) "segtype")
            (obj_get (properties this) "creationtool")
            (obj_get (properties this) "creationtoolversion").

(** Modelled from the spec: the constructor of [TranslationUnit] is not
    under [src/]. Called with an options object, as in
    [new TranslationUnit({source, sourceLocale, target, targetLocale,
    datatype})], it requires [source] and [sourceLocale]: when one of
    them is [undefined] it throws an [Error] that names the missing
    parameters, and otherwise it builds the unit with the given fields,
    no variant and no property. [new_unit] is the unit it builds,
    [TranslationUnit_new] the call. *)
Definition new_unit (source sourceLocale target targetLocale datatype : jsstr)
  : TranslationUnit :=
  mkUnit source sourceLocale target targetLocale datatype None None None
         [] [].

Definition TranslationUnit_new
  (source sourceLocale target targetLocale datatype : jsstr)
  : JsError + TranslationUnit :=
  match source, sourceLocale with
  | Some _, Some _ =>
      inr (new_unit source sourceLocale target targetLocale datatype)
  | _, _ =>
      inl (PlainError
             "Missing required parameters in the TranslationUnit constructor")
  end.

(** The object [{ key(v): v, ... }] built from a list of variants. *)
Definition variant_table (vs : list TranslationVariant)
  : gmap VKey TranslationVariant :=
  foldl (λ m v, <[variant_key v := v]> m) ∅ vs.

(** [variantDiff] *)
Definition variantDiff (tu1 tu2 : TranslationUnit)
  : list TranslationVariant :=
  let variants1 := tu_variants tu1 in
  let variantHash1 := variant_table variants1 in
  let variants2 := tu_variants tu2 in
  filter (λ v, ¬ is_Some (variantHash1 !! variant_key v)) variants2.

(** The unit [diff] builds for a unit [tu] of the other document whose
    variants differ from those of the unit of this document, when the
    constructor returns: the fields of [tu], the source variant, and the
    differing variants. *)
Definition diff_unit (tu : TranslationUnit)
  (variantdiff : list TranslationVariant) : TranslationUnit :=
  let newTu := new_unit (tu_source tu) (tu_sourceLocale tu)
                 (tu_target tu) (tu_targetLocale tu) (tu_datatype tu) in
  let newTu := unit_addVariant newTu
                 (mkVariant (tu_sourceLocale tu) (tu_source tu)) in
  unit_addVariants newTu variantdiff.

(** What the body of the [forEach] loop of [diff] does to the store when
    the constructor returns; [diff_step] below is the body itself. *)
Definition diffed_step (this difftmx : dref) (st : Store) (r : uref)
  : Store :=
  let tu := get_unit st r in
  let hash := unit_key tu in
  match tuhash (get_doc st this) !! hash with
  | Some thistu =>
      let variantdiff := variantDiff (get_unit st thistu) tu in
      match variantdiff with
      | [] => st
      | _ =>
          let '(n, st) := alloc_unit (diff_unit tu variantdiff) st in
          addTranslationUnit difftmx n st
      end
  | None => addTranslationUnit difftmx r st
  end.

(** The document [diff] returns and the store it leaves when no call of
    the constructor raises; [diff] below is the method itself, and lemma
    [diff_run] relates the two. *)
Definition diffed (this other : dref) (st : Store) : dref * Store :=
  let '(difftmx, st) :=
    alloc_doc (new_TMX (derived_options (get_doc st this))) st in
  (difftmx, foldl (diffed_step this difftmx) st (tu (get_doc st other))).

(** [mergeVariants] *)
Definition mergeVariants (left right : uref) (st : Store) : Store :=
  let leftVariants := tu_variants (get_unit st left) in
  let leftVariantHash := variant_table leftVariants in
  let rightVariants := tu_variants (get_unit st right) in
  addVariants left
    (filter (λ v, ¬ is_Some (leftVariantHash !! variant_key v))
            rightVariants) st.

(** The body of the inner [forEach] loop of [merge]. *)
Definition merge_step (mergetmx : dref) (st : Store) (r : uref) : Store :=
  match tuhash (get_doc st mergetmx) !! hashKey st r with
  | Some mergeTu => mergeVariants mergeTu r st
  | None => addTranslationUnit mergetmx r st
  end.

(** [merge]; an argument that is not an array behaves as the empty one. *)
Definition merge (this : dref) (tmxs : list dref) (st : Store)
  : dref * Store :=
  match tmxs with
  | [] => (this, st)
  | _ =>
      let '(mergetmx, st) :=
        alloc_doc (new_TMX (derived_options (get_doc st this))) st in
      let st := addTranslationUnits mergetmx (tu (get_doc st this)) st in
      (mergetmx,
       foldl (λ st tmx,
                foldl (merge_step mergetmx) st (tu (get_doc st tmx)))
             st tmxs)
  end.

(** ** Serialization *)

(** [serializeTranslationVariant] *)
Definition serializeTranslationVariant (tv : TranslationVariant) : TuvElem :=
  mkTuv (Some [("xml:lang", tv_locale tv)])
        (Some (mkSeg (tv_string tv)))
        Absent.

(** The [prop] member built from a property object: it is only created
    when the object has a property. *)
Definition serialize_props (ps : obj jsstr) : Multi PropElem :=
  match ps with
  | [] => Absent
  | _ => Many ((λ kv, mkProp (Some [("type", Some kv.1)]) kv.2) <$> ps)
  end.

(** [serializeTranslationUnit]; [None] is the [undefined] it returns for a
    unit with fewer than two variants. *)
Definition serializeTranslationUnit (tu : TranslationUnit)
  : option TuElem :=
  if length (tu_variants tu) <? 2 then None
  else Some (mkTu (Some [("srclang", tu_sourceLocale tu)])
                  (serialize_props (tu_properties tu))
                  None
                  (Many (serializeTranslationVariant <$> tu_variants tu))).

Definition is_headerAttr (prop : string) : bool :=
  bool_decide (prop ∈ headerAttrs).

(** The object tree [serialize] hands to [js2xml]. The units are first
    filtered on having more than one variant and then mapped through
    [serializeTranslationUnit]; an [undefined] result of the latter would be
    an array hole, which the tree type has no room for: [omap] drops it
    (lemma [serialize_no_hole] shows that none arises). *)
Definition serialize_json (st : Store) (d : dref) : Json :=
  let this := get_doc st d in
  let attributes :=
    [ ("segtype", obj_get (properties this) "segtype");
      ("creationtool",
         js_or (obj_get (properties this) "creationtool") (Some "loctool"));
      ("creationtoolversion",
         js_or (obj_get (properties this) "creationtoolversion") getVersion);
      ("adminlang", adminLocale this);
      ("srclang", sourceLocale this);
      ("datatype", obj_get (properties this) "datatype") ] in
  let attributes :=
    if truthy (obj_get (properties this) "originalFormat")
    then attributes ++
         [("o-tmf", obj_get (properties this) "originalFormat")]
    else attributes in
  let prop :=
    serialize_props
      (List.filter (λ kv, negb (is_headerAttr kv.1)) (properties this)) in
  let tus :=
    omap (λ r, serializeTranslationUnit (get_unit st r))
         (List.filter (λ r, 1 <? length (tu_variants (get_unit st r)))
                      (tu this)) in
  mkJson (Some (mkTmxElem
    (Some [("version", Some (versionString (version this)))])
    (Some (mkHeader (Some attributes) prop))
    (Some (mkBody (Many tus))))).

Definition dquote : string := String "034"%char "".
Definition newline : string := String "010"%char "".

(** [serialize] *)
Definition serialize (st : Store) (d : dref) : string :=
  "<?xml version=" +:+ dquote +:+ "1.0" +:+ dquote +:+
  " encoding=" +:+ dquote +:+ "utf-8" +:+ dquote +:+ "?>" +:+ newline +:+
  js2xml (serialize_json st d).

(** ** A monad for the methods that can raise *)

Definition M (A : Type) : Type := Store → Outcome A * Store.

Global Instance M_ret : MRet M := λ A a st, (Returned a, st).

Global Instance M_bind : MBind M := λ A B f m st,
  match m st with
  | (Returned a, st') => f a st'
  | (Thrown e, st') => (Thrown e, st')
  end.

Definition throw {A} (e : JsError) : M A := λ st, (Thrown e, st).

Definition modify (f : Store → Store) : M unit := λ st, (Returned tt, f st).

Definition gets {A} (f : Store → A) : M A := λ st, (Returned (f st), st).

Definition alloc (u : TranslationUnit) : M uref :=
  λ st, let '(r, st) := alloc_unit u st in (Returned r, st).

(** [l.forEach((x, i) => f x i)], started at index [i]. *)
Fixpoint forEach_from {A} (f : A → nat → M unit) (l : list A) (i : nat)
  : M unit :=
  match l with
  | [] => mret tt
  | x :: l => f x i ;; forEach_from f l (S i)
  end.

Definition forEach {A} (f : A → nat → M unit) (l : list A) : M unit :=
  forEach_from f l 0.

(** A loop that updates local variables of type [B]. *)
Fixpoint foldM {A B} (f : B → A → M B) (b : B) (l : list A) : M B :=
  match l with
  | [] => mret b
  | x :: l => b' ← f b x; foldM f b' l
  end.

Fixpoint foldM_from {A B} (f : B → A → nat → M B) (b : B) (l : list A)
  (i : nat) : M B :=
  match l with
  | [] => mret b
  | x :: l => b' ← f b x i; foldM_from f b' l (S i)
  end.

(** ** [diff]

    [diff] can raise: the unit it builds for a unit known to both
    documents comes from the constructor, which requires a source text
    and a source locale, and a unit read by [parse] has no source text
    when none of its variants is in its source locale. *)

(** The body of the [forEach] loop of [diff]. *)
Definition diff_step (this difftmx : dref) (r : uref) : M unit :=
  tu ← gets (λ st, get_unit st r);
  let hash := unit_key tu in
  thistu ← gets (λ st, tuhash (get_doc st this) !! hash);
  match thistu with
  | Some thistu =>
      variantdiff ← gets (λ st, variantDiff (get_unit st thistu) tu);
      match variantdiff with
      | [] => mret tt
      | _ =>
          match TranslationUnit_new (tu_source tu) (tu_sourceLocale tu)
                  (tu_target tu) (tu_targetLocale tu) (tu_datatype tu) with
          | inl err => throw err
          | inr newTu =>
              let newTu := unit_addVariant newTu
                             (mkVariant (tu_sourceLocale tu) (tu_source tu)) in
              let newTu := unit_addVariants newTu variantdiff in
              n ← alloc newTu;
              modify (addTranslationUnit difftmx n)
          end
      end
  | None => modify (addTranslationUnit difftmx r)
  end.

(** [diff] *)
Definition diff (this other : dref) : M dref :=
  this_tmx ← gets (λ st, get_doc st this);
  difftmx ← (λ st, let '(d, st) :=
                     alloc_doc (new_TMX (derived_options this_tmx)) st in
                   (Returned d, st));
  units ← gets (λ st, tu (get_doc st other));
  forEach (λ r _, diff_step this difftmx r) units ;;
  mret difftmx.

(** ** Deserialization *)

(** [a && a[k]] for an [_attributes] member. *)
Definition attr (a : option (obj jsstr)) (k : string) : jsstr :=
  match a with
  | Some o => obj_get o k
  | None => None
  end.

(** The header part of [parse]. *)
Definition parse_header (this : TMX UKey) (tmx : TmxElem) : TMX UKey :=
  match tmx_header tmx with
  | Some header =>
      match header_attributes header with
      | Some attrs =>
          let properties :=
            foldl (λ ps prop, if truthy (obj_get attrs prop)
                              then obj_set ps prop (obj_get attrs prop)
                              else ps)
                  (properties this) headerAttrs in
          let sourceLocale :=
            if truthy (obj_get attrs "srclang")
            then obj_get attrs "srclang" else sourceLocale this in
          let adminLocale :=
            if truthy (obj_get attrs "adminlang")
            then obj_get attrs "adminlang" else adminLocale this in
          set_header this properties sourceLocale adminLocale
      | None => this
      end
  | None => this
  end.

(** The properties collected from the [prop] children of a [tu]. *)
Definition parse_unit_props (props : list PropElem) : M (obj jsstr) :=
  foldM (λ properties prop,
           match prop_attributes prop with
           | Some a =>
               mret (obj_set properties (js_show (obj_get a "type"))
                             (prop_text prop))
           | None =>
               modify (logger WARN
                 "Found a prop tag without a name attribute") ;;
               mret properties
           end) [] props.

(** The [pre] and [post] markup collected from the [prop] children of a
    [tuv]. *)
Definition parse_variant_props (props : list PropElem)
  : M (jsstr * jsstr) :=
  foldM (λ '(pre, post) prop,
           match prop_attributes prop with
           | Some a =>
               if decide (obj_get a "type" = Some "x-context-post")
               then mret (pre, prop_text prop)
               else if decide (obj_get a "type" = Some "x-context-pre")
               then mret (prop_text prop, post)
               else mret (pre, post)
           | None => throw (TypeError "prop._attributes is undefined")
           end) (None, None) props.

(** [xmljs.xml2js(markup, ...).seg._text.trimStart()] *)
Definition nested_text (markup : string) : M jsstr :=
  match xml2js_nested markup with
  | None => throw XmlError
  | Some parsed =>
      match nested_seg parsed with
      | None => throw (TypeError "parsed.seg is undefined")
      | Some seg =>
          match seg_text seg with
          | None => throw (TypeError "parsed.seg._text is undefined")
          | Some t => mret (Some (trimStart t))
          end
      end
  end.

(** The body of the [forEach] loop over the [tuv] children of a [tu]. The
    unit under construction is referenced by the local [tu] only, so it is
    threaded as a value and stored when [parse] hands it to
    [addTranslationUnit]. *)
Definition parse_variant (tu : TranslationUnit) (variant : TuvElem)
  : M TranslationUnit :=
  locale ← match tuv_attributes variant with
           | Some a =>
               mret (if truthy (obj_get a "lang") then obj_get a "lang"
                     else if truthy (obj_get a "xml:lang")
                     then obj_get a "xml:lang" else None)
           | None =>
               modify (logger WARN
                 "Translation variant found without a lang or xml:lang attribute") ;;
               mret None
           end;
  let string := match tuv_seg variant with
                | Some seg => seg_text seg
                | None => None
                end in
  '(pre, post) ← (if present (tuv_prop variant)
                  then parse_variant_props (makeArray (tuv_prop variant))
                  else mret (None, None));
  let tu :=
    if truthy locale && truthy string then
      let variant := mkVariant locale string in
      let tu := unit_addVariant tu variant in
      if decide (tv_locale variant = tu_sourceLocale tu)
      then set_source tu (tv_string variant) (tv_locale variant)
      else tu
    else tu in
  tu ← (if truthy pre
        then t ← nested_text (js_show pre); mret (set_pre tu t)
        else mret tu);
  if truthy post
  then t ← nested_text (js_show post); mret (set_post tu t)
  else mret tu.

(** The body of the loop of [parse] over the [tu] elements. *)
Definition parse_unit (d : dref) (unit : TuElem) : M Datatypes.unit :=
  this ← gets (λ st, get_doc st d);
  let tu := empty_unit in
  let tu :=
    set_source tu (tu_source tu)
      (js_or (attr (tue_attributes unit) "srclang")
         (js_or (sourceLocale this)
            (js_or (adminLocale this) (Some "en")))) in
  let tu :=
    mkUnit (tu_source tu) (tu_sourceLocale tu) (tu_target tu)
           (tu_targetLocale tu) (obj_get (properties this) "datatype")
           (tu_comment tu) (tu_pre tu) (tu_post tu) (tu_properties tu)
           (tu_variants tu) in
  tu ← (if present (tue_prop unit)
        then properties ← parse_unit_props (makeArray (tue_prop unit));
             mret (unit_addProperties tu properties)
        else mret tu);
  let tu := match tue_note unit with
            | Some note => set_comment tu (note_text note)
            | None => tu
            end in
  tu ← (if present (tue_tuv unit)
        then foldM parse_variant tu (makeArray (tue_tuv unit))
        else mret tu);
  r ← alloc tu;
  modify (addTranslationUnit d r).

(** [parse] *)
Definition parse (d : dref) (tmx : TmxElem) : M unit :=
  modify (λ st, set_doc d (parse_header (get_doc st d) tmx) st) ;;
  match tmx_body tmx with
  | Some body =>
      if present (body_tu body)
      then forEach (λ unit _, parse_unit d unit) (makeArray (body_tu body))
      else mret tt
  | None => mret tt
  end.

(** [deserialize]; the result is [this.tu], or [None] for the [undefined]
    of the bare [return]. *)
Definition deserialize (d : dref) (xml : string) : M (option (list uref)) :=
  match xml2js xml with
  | None => throw XmlError
  | Some json =>
      match json_tmx json with
      | Some tmx =>
          if negb (bool_decide (is_Some (tmx_attributes tmx))) ||
             negb (truthy (attr (tmx_attributes tmx) "version")) ||
             negb (bool_decide
                     (attr (tmx_attributes tmx) "version" = Some "1.4"))
          then
            match tmx_attributes tmx with
            | Some a =>
                modify (logger ERROR
                  ("Unknown tmx version " +:+
                   js_show (obj_get a "version") +:+
                   ". Cannot continue parsing. Can only parse v1.4b files.")) ;;
                mret None
            | None =>
                throw (TypeError "json.tmx._attributes is undefined")
            end
          else
            modify (λ st, set_doc d (set_tu (get_doc st d) [] ∅) st) ;;
            parse d tmx ;;
            us ← gets (λ st, tu (get_doc st d));
            mret (Some us)
      | None =>
          us ← gets (λ st, tu (get_doc st d));
          mret (Some us)
      end
  end.

(** ** Ingesting resources *)

(** [segmentString]; the locale only matters to the sentence splitter. *)
Definition segmentString (this : TMX UKey) (string locale : jsstr)
  : list String.string :=
  match string with
  | Some s =>
      if negb (truthy string) then []
      else if bool_decide
                (obj_get (properties this) "segtype" = Some "paragraph")
      then [s]
      else (λ str, if truthy (Some str) then trim str else str) <$>
           sentenceSplit s locale
  | None => []
  end.

(** [getSegmentationType] *)
Definition getSegmentationType (this : TMX UKey) : jsstr :=
  obj_get (properties this) "segtype".

Definition resource_properties (res : Resource) : obj jsstr :=
  [ ("x-context", res_context res);
    ("x-flavor", res_flavor res);
    ("x-project", res_project res) ].

(** What every branch of [addResource] does for one source segment: build
    the unit with its source variant and, when [target] is given, its
    target variant, attach the properties, and add the unit. The new unit
    is referenced by the local [tu] only until it is pushed onto [other]
    or added to the document, so it is built as a value and stored then.
    The constructor is given the segment as [source] and, as
    [sourceLocale], the source locale of the resource, which at this
    point is the source locale of the document; the constructor of [TMX]
    and [parse] never leave that one empty, so the unit is the one of
    [new_unit]. *)
Definition build_unit (res : Resource) (segment : string)
  (target : option jsstr) : TranslationUnit :=
  let tu := new_unit (Some segment) (res_sourceLocale res) None None
                     (res_dataType res) in
  let tu := unit_addVariant tu
              (mkVariant (res_sourceLocale res) (Some segment)) in
  let tu := match target with
            | Some string =>
                unit_addVariant tu (mkVariant (res_targetLocale res) string)
            | None => tu
            end in
  unit_addProperties tu (resource_properties res).

(** Modelled from the spec: [objectMap] is imported from
    [ilib-tools-common], which is not under [src/]. Of an object that
    maps names to strings it returns the object with the same names in
    which the visitor has been applied to every value that is truthy; a
    value that is falsy, the empty string or [undefined], is left as it
    is ([inl]). *)
Definition objectMap {B} (o : obj jsstr) (visitor : jsstr → B)
  : obj (jsstr + B) :=
  (λ kv, (kv.1, if truthy kv.2 then inr (visitor kv.2) else inl kv.2))
    <$> o.

(** The segments of every category of a plural mapping; a category whose
    text is empty or [undefined] keeps that text. *)
Definition plural_segments (this : TMX UKey) (plurals : obj jsstr)
  (locale : jsstr) : obj (jsstr + list string) :=
  objectMap plurals (λ string, segmentString this string locale).

(** The target variant text for segment [i] of a source category: the
    segment of the same category and index of the target, when
    [addTarget && tarPlurals && tarPlurals[category]] holds, that is,
    when there is a target and it has segments for the category. *)
Definition plural_target (addTarget : bool)
  (tarPlurals : option (obj (jsstr + list string))) (category : string)
  (i : nat) : option jsstr :=
  if addTarget then
    match tarPlurals with
    | Some tp =>
        match obj_lookup tp category with
        | Some (inr segs) => Some (segs !! i)
        | Some (inl _) => None
        | None => None
        end
    | None => None
    end
  else None.

(** The body of the loop over the segments of a source category. *)
Definition plural_unit_step (d : dref) (res : Resource) (addTarget : bool)
  (tarPlurals : option (obj (jsstr + list string))) (category : string)
  (other : list uref) (string : string) (i : nat) : M (list uref) :=
  r ← alloc (build_unit res string
               (plural_target addTarget tarPlurals category i));
  let other := if String.eqb category "other" then other ++ [r]
               else other in
  modify (addTranslationUnit d r) ;;
  mret other.

(** The loop over the source categories; it returns the array [other].
    [srcPlurals[category].forEach] raises for a category whose text was
    left as it is. *)
Definition plural_units (d : dref) (res : Resource) (addTarget : bool)
  (srcPlurals : obj (jsstr + list string))
  (tarPlurals : option (obj (jsstr + list string))) : M (list uref) :=
  foldM (λ other cs,
           match cs.2 with
           | inr segments =>
               foldM_from (plural_unit_step d res addTarget tarPlurals cs.1)
                          other segments 0
           | inl _ =>
               throw (TypeError
                 "srcPlurals[category].forEach is not a function")
           end) [] srcPlurals.

(** The body of the loop over the segments of an extra target category. *)
Definition plural_extra_step (res : Resource) (other : list uref)
  (string : string) (i : nat) : M unit :=
  match other !! i with
  | Some r =>
      modify (addVariant r (mkVariant (res_targetLocale res) (Some string)))
  | None => throw (TypeError "other[i] is undefined")
  end.

(** [!srcPlurals[category]]: the source has no segments for the
    category. *)
Definition lacks_category (srcPlurals : obj (jsstr + list string))
  (category : string) : bool :=
  match obj_lookup srcPlurals category with
  | Some (inr _) => false
  | Some (inl _) => true
  | None => true
  end.

(** The loop over the target categories that the source lacks;
    [tarPlurals[category].forEach] raises for a category whose text was
    left as it is. *)
Definition plural_extras (res : Resource)
  (srcPlurals tarPlurals : obj (jsstr + list string)) (other : list uref)
  : M unit :=
  forEach (λ cs _,
             if lacks_category srcPlurals cs.1 then
               match cs.2 with
               | inr segments =>
                   forEach (plural_extra_step res other) segments
               | inl _ =>
                   throw (TypeError
                     "tarPlurals[category].forEach is not a function")
               end
             else mret tt) tarPlurals.

(** [addTarget] *)
Definition addTarget (this : TMX UKey) (res : Resource) : bool :=
  truthy (res_targetLocale res) &&
  negb (bool_decide (res_targetLocale res = sourceLocale this)).

(** [addResource] *)
Definition addResource (d : dref) (res : option Resource) : M unit :=
  this ← gets (λ st, get_doc st d);
  match res with
  | None => mret tt
  | Some res =>
    if negb (bool_decide (res_sourceLocale res = sourceLocale this))
    then mret tt
    else
      let addTarget := addTarget this res in
      match res_payload res with
      | ResString source target =>
          let translationSegments :=
            if addTarget
            then Some (segmentString this target (res_targetLocale res))
            else None in
          let sourceSegments :=
            segmentString this source (res_sourceLocale res) in
          forEach (λ segment i,
            let tgt :=
              match translationSegments with
              | Some ts =>
                  if addTarget && truthy target && truthy (ts !! i)
                  then Some (ts !! i) else None
              | None => None
              end in
            r ← alloc (build_unit res segment tgt);
            modify (addTranslationUnit d r)) sourceSegments
      | ResArray sourceArray targetArray =>
          let srcArr :=
            (λ element, segmentString this element (res_sourceLocale res))
              <$> sourceArray in
          let tarArr :=
            if addTarget then
              match targetArray with
              | Some t =>
                  Some ((λ element,
                           segmentString this element (res_targetLocale res))
                          <$> t)
              | None => None
              end
            else None in
          forEach (λ element i,
            forEach (λ string j,
              tgt ← (if addTarget then
                       match tarArr with
                       | Some ta =>
                           match ta !! i with
                           | Some segs =>
                               if j <? length segs
                               then mret (Some (segs !! j))
                               else mret None
                           | None => mret None
                           end
                       | None => throw (TypeError "tarArr is undefined")
                       end
                     else mret None);
              r ← alloc (build_unit res string tgt);
              modify (addTranslationUnit d r)) element) srcArr
      | ResPlural sourcePlurals targetPlurals =>
          let srcPlurals :=
            plural_segments this sourcePlurals (res_sourceLocale res) in
          let tarPlurals :=
            match targetPlurals with
            | Some t =>
                Some (plural_segments this t (res_targetLocale res))
            | None => None
            end in
          other ← plural_units d res addTarget srcPlurals tarPlurals;
          if addTarget then
            match tarPlurals with
            | Some tp => plural_extras res srcPlurals tp other
            | None => mret tt
            end
          else mret tt
      end
  end.

(** ** Vocabulary of the properties *)

(** The identity keys of the variants of a unit, in order. *)
Definition vkeys (u : TranslationUnit) : list VKey :=
  variant_key <$> tu_variants u.

(** The identity keys of the units of a document, in order. *)
Definition ukeys (st : Store) (d : dref) : list UKey :=
  hashKey st <$> tu (get_doc st d).

(** The units of [us] that are the first of the list with their key, the
    units with a key of [known] left out. *)
Fixpoint first_of_keys (known : list UKey) (key : uref → UKey)
  (us : list uref) : list uref :=
  match us with
  | [] => []
  | r :: us =>
      if decide (key r ∈ known) then first_of_keys known key us
      else r :: first_of_keys (key r :: known) key us
  end.

(** The store after the trace entry of [addTranslationUnit]. *)
Definition trace_entry (st : Store) (d : dref) : Store :=
  logger TRACE ("Tmx " +:+ js_show (path (get_doc st d)) +:+
                ": Adding translation unit") st.

(** The unit list and the index of a document agree: the list holds no
    unit twice, every unit of the list is an object of the store and is
    the entry of the index under its identity key, and every entry of the
    index is a unit of the list, filed under its identity key. *)
Definition indexed (st : Store) (d : dref) : Prop :=
  let this := get_doc st d in
  NoDup (tu this) ∧
  Forall (λ r, r < length (units st) ∧
               tuhash this !! hashKey st r = Some r) (tu this) ∧
  map_Forall (λ k r, r ∈ tu this ∧ hashKey st r = k) (tuhash this).

(** A triple for the methods that can raise: from a store satisfying [P],
    the computation either returns [a] in a store satisfying [Q a] or
    raises in a store satisfying [E]. *)
Definition hoare {A} (P : Store → Prop) (m : M A)
  (Q : A → Store → Prop) (E : Store → Prop) : Prop :=
  ∀ st, P st →
    match m st with
    | (Returned a, st') => Q a st'
    | (Thrown _, st') => E st'
    end.

(** The [tu] elements of the body of a wire tree. *)
Definition body_elements (json : Json) : list TuElem :=
  match json_tmx json with
  | Some tmx =>
      match tmx_body tmx with
      | Some body => makeArray (body_tu body)
      | None => []
      end
  | None => []
  end.

(** The message logged for a wire tree of an unknown version. *)
Definition version_message (a : obj jsstr) : string :=
  "Unknown tmx version " +:+ js_show (obj_get a "version") +:+
  ". Cannot continue parsing. Can only parse v1.4b files.".

(** A document of the store whose unit list and index agree. *)
Definition wf_doc (st : Store) (d : dref) : Prop :=
  d < length (docs st) ∧ indexed st d.

(** Whether [diff] reports the unit [r] of the other document: its key is
    unknown to this document, or some of its variants are. *)
Definition reported (st : Store) (this : dref) (r : uref) : bool :=
  match tuhash (get_doc st this) !! hashKey st r with
  | Some thistu =>
      match variantDiff (get_unit st thistu) (get_unit st r) with
      | [] => false
      | _ => true
      end
  | None => true
  end.

(** Whether [diff] raises on the unit [r] of the other document: it is
    reported by a new unit, and it lacks the source text or the source
    locale the constructor requires. *)
Definition diff_raises (st : Store) (this : dref) (r : uref) : bool :=
  match tuhash (get_doc st this) !! hashKey st r with
  | Some thistu =>
      match variantDiff (get_unit st thistu) (get_unit st r) with
      | [] => false
      | _ => negb (bool_decide (is_Some (tu_source (get_unit st r)))) ||
             negb (bool_decide (is_Some (tu_sourceLocale (get_unit st r))))
      end
  | None => false
  end.

(** How a unit [n] of the result of [diff] relates to the unit [r] of the
    other document it reports: it is [r] itself when the key is unknown
    to this document, and otherwise a unit that the call created, built
    by [diff_unit] from [r] and the variant difference. *)
Definition reports (st st' : Store) (this : dref) (r n : uref) : Prop :=
  match tuhash (get_doc st this) !! hashKey st r with
  | Some thistu =>
      length (units st) ≤ n ∧
      units st' !! n =
        Some (diff_unit (get_unit st r)
                (variantDiff (get_unit st thistu) (get_unit st r)))
  | None => n = r
  end.

(** The state of the loop of [diff] after the units [pre] of the other
    document: the store has only gained units and the result document [D],
    whose index only knows keys of [pre] and whose units are the reports
    on the units of [pre], in order. *)
Definition diff_inv (st0 : Store) (this : dref) (pre : list uref)
  (st : Store) : Prop :=
  ∃ news D,
    units st = units st0 ++ news ∧
    docs st = docs st0 ++ [D] ∧
    set_tu D [] ∅ = new_TMX (derived_options (get_doc st0 this)) ∧
    (∀ k, is_Some (tuhash D !! k) → k ∈ hashKey st0 <$> pre) ∧
    Forall2 (reports st0 st this)
            (List.filter (reported st0 this) pre) (tu D).

(** The units [merge] goes through, in order: those of the receiver, then
    those of each argument. *)
Definition merge_inputs (st : Store) (this : dref) (tmxs : list dref)
  : list uref :=
  tu (get_doc st this) ++ concat ((λ t, tu (get_doc st t)) <$> tmxs).

(** The variants, in order, of the units of [l] that have the identity key
    of the unit [m]. *)
Definition same_key_variants (st : Store) (l : list uref) (m : uref)
  : list TranslationVariant :=
  concat ((λ r, tu_variants (get_unit st r)) <$>
          filter (λ r, hashKey st r = hashKey st m) l).

(** The first variant of a list that has the identity key [k]. *)
Definition first_seen (k : VKey) (vs : list TranslationVariant)
  : option TranslationVariant :=
  head (filter (λ v, variant_key v = k) vs).

(** What both [addTranslationUnit] and the loop body of [merge] do to the
    units and documents of the store. *)
Definition absorb (d : dref) (st : Store) (r : uref) : Store :=
  match tuhash (get_doc st d) !! hashKey st r with
  | Some m => addVariants m (tu_variants (get_unit st r)) st
  | None =>
      set_doc d (set_tu (get_doc st d) (tu (get_doc st d) ++ [r])
                   (<[hashKey st r := r]> (tuhash (get_doc st d)))) st
  end.

(** Two stores with the same units and documents; their logs may differ. *)
Definition same_heap (st st' : Store) : Prop :=
  units st = units st' ∧ docs st = docs st'.

(** The state of [merge] after the units [pre]: no unit was created, the
    store has gained the result document [D], whose units have pairwise
    distinct keys and are indexed by them, every key of [pre] is known to
    [D], a unit of [D] is the first unit of [pre] with its key, and it has
    absorbed the variants of the units of
    [pre] with its key while every other unit is as it was. *)
Definition merge_inv (st0 : Store) (this : dref) (pre : list uref)
  (st : Store) : Prop :=
  ∃ D,
    docs st = docs st0 ++ [D] ∧
    length (units st) = length (units st0) ∧
    set_tu D [] ∅ = new_TMX (derived_options (get_doc st0 this)) ∧
    NoDup (tu D) ∧
    (∀ m, m ∈ tu D → m ∈ pre ∧ tuhash D !! hashKey st0 m = Some m) ∧
    (∀ k m, tuhash D !! k = Some m → m ∈ tu D ∧ hashKey st0 m = k) ∧
    (∀ r, r ∈ pre → is_Some (tuhash D !! hashKey st0 r)) ∧
    (∀ m, m ∈ tu D →
          ∃ l1 l2, pre = l1 ++ m :: l2 ∧
                   ∀ x, x ∈ l1 → hashKey st0 x ≠ hashKey st0 m) ∧
    (∀ r, get_unit st r =
          if decide (r ∈ tu D)
          then unit_addVariants (get_unit st0 r)
                 (same_key_variants st0 pre r)
          else get_unit st0 r).

(** Whether a category has segments: its text was not left as it is. *)
Definition has_segments (x : jsstr + list string) : bool :=
  match x with
  | inr _ => true
  | inl _ => false
  end.

(** The segments of a category, none when its text was left as it is. *)
Definition segments_of (v : jsstr + list string) : list string :=
  match v with
  | inr segments => segments
  | inl _ => []
  end.

(** All the segments of a plural mapping, in order. *)
Definition all_segments (plurals : obj (jsstr + list string))
  : list string :=
  concat ((λ cs, segments_of cs.2) <$> plurals).

(** The segments of the [other] category of the source. *)
Definition other_segments (srcPlurals : obj (jsstr + list string))
  : list string :=
  all_segments (List.filter (λ cs, String.eqb cs.1 "other") srcPlurals).

(** Every category of the mapping has segments: no text is empty or
    [undefined]. *)
Definition segmented (plurals : obj (jsstr + list string)) : Prop :=
  Forall (λ cs, has_segments cs.2 = true) plurals.

(** The unit [r] was built by the call that started in [st0] for the
    source segment [seg]. *)
Definition built_for (st0 st : Store) (r : uref) (seg : string) : Prop :=
  length (units st0) ≤ r ∧ r < length (units st) ∧
  tu_source (get_unit st r) = Some seg.

(** *** The round trip through the wire *)

(** [variant.seg && variant.seg._text] *)
Definition seg_of (e : TuvElem) : jsstr :=
  match tuv_seg e with
  | Some seg => seg_text seg
  | None => None
  end.

(** [tmx.header && tmx.header._attributes && tmx.header._attributes[k]] *)
Definition header_attr (tmx : TmxElem) (k : string) : jsstr :=
  match tmx_header tmx with
  | Some header => attr (header_attributes header) k
  | None => None
  end.

(** The [tu] elements of a root element. *)
Definition tu_elements (tmx : TmxElem) : list TuElem :=
  match tmx_body tmx with
  | Some body => makeArray (body_tu body)
  | None => []
  end.

(** The parser returned the [tuv] element [w] that was written as [p], as
    far as the reader looks: the language attributes, the text of the
    segment, and no [prop] child when none was written. *)
Definition tuv_faithful (w p : TuvElem) : Prop :=
  attr (tuv_attributes p) "lang" = attr (tuv_attributes w) "lang" ∧
  attr (tuv_attributes p) "xml:lang" = attr (tuv_attributes w) "xml:lang" ∧
  seg_of p = seg_of w ∧
  present (tuv_prop p) = present (tuv_prop w).

(** The same for a [tu] element: the source language attribute and the
    [tuv] children, in order. The [prop] and [note] children are not
    constrained. *)
Definition tu_faithful (w p : TuElem) : Prop :=
  attr (tue_attributes p) "srclang" = attr (tue_attributes w) "srclang" ∧
  Forall2 tuv_faithful (makeArray (tue_tuv w)) (makeArray (tue_tuv p)).

(** The same for the whole tree: the version, the header attributes that
    the reader looks at, and the [tu] elements, in order. *)
Definition wire_faithful (w p : Json) : Prop :=
  match json_tmx w, json_tmx p with
  | Some tw, Some tp =>
      attr (tmx_attributes tp) "version" =
        attr (tmx_attributes tw) "version" ∧
      Forall (λ k, header_attr tp k = header_attr tw k) headerAttrs ∧
      Forall2 tu_faithful (tu_elements tw) (tu_elements tp)
  | None, None => True
  | _, _ => False
  end.

(** The same for the version and the header attributes alone. *)
Definition header_faithful (w p : Json) : Prop :=
  match json_tmx w, json_tmx p with
  | Some tw, Some tp =>
      attr (tmx_attributes tp) "version" =
        attr (tmx_attributes tw) "version" ∧
      Forall (λ k, header_attr tp k = header_attr tw k) headerAttrs
  | None, None => True
  | _, _ => False
  end.

Global Instance header_faithful_dec w p : Decision (header_faithful w p).
Proof.
  unfold header_faithful. destruct (json_tmx w), (json_tmx p); apply _.
Defined.

Global Instance tuv_faithful_dec w p : Decision (tuv_faithful w p).
Proof. unfold tuv_faithful. apply _. Defined.

Global Instance tu_faithful_dec w p : Decision (tu_faithful w p).
Proof. unfold tu_faithful. apply _. Defined.

Global Instance wire_faithful_dec w p : Decision (wire_faithful w p).
Proof.
  unfold wire_faithful. destruct (json_tmx w), (json_tmx p); apply _.
Defined.

(** What [parse] does to the unit under construction for a [tuv] element
    with a language and a text. *)
Definition read_variant (tu : TranslationUnit) (v : TranslationVariant)
  : TranslationUnit :=
  let tu := unit_addVariant tu v in
  if decide (tv_locale v = tu_sourceLocale tu)
  then set_source tu (tv_string v) (tv_locale v)
  else tu.

(** A unit that survives the round trip through the wire with its identity
    key and the keys of its variants: it has at least two variants, with
    pairwise distinct keys and with a locale and a text that are not empty;
    its source locale is not empty; its datatype is the datatype of the
    document; and its source text is the text of its variants in the
    source locale, of which there is at least one. *)
Definition survives (this : TMX UKey) (u : TranslationUnit) : Prop :=
  2 ≤ length (tu_variants u) ∧
  NoDup (vkeys u) ∧
  Forall (λ v, truthy (tv_locale v) = true ∧ truthy (tv_string v) = true)
         (tu_variants u) ∧
  truthy (tu_sourceLocale u) = true ∧
  tu_datatype u = obj_get (properties this) "datatype" ∧
  Exists (λ v, tv_locale v = tu_sourceLocale u) (tu_variants u) ∧
  Forall (λ v, tv_locale v = tu_sourceLocale u → tv_string v = tu_source u)
         (tu_variants u).

(** The unit [n] read back for the unit [u] that was written: an object
    that the call created, with the identity key and the variants of
    [u]. *)
Definition read_back (st0 st : Store) (u n : uref) : Prop :=
  length (units st0) ≤ n ∧
  ∃ u', units st !! n = Some u' ∧
        unit_key u' = hashKey st0 u ∧
        tu_variants u' = tu_variants (get_unit st0 u).

(** The state of [parse] after the elements written for the units [pre]:
    the store has only gained units, and the receiver [r], whose header
    fields are those of [Dh], indexes only keys of [pre] and holds the
    units read back for [pre], in order. *)
Definition read_inv (st0 : Store) (r : dref) (Dh : TMX UKey)
  (pre : list uref) (st : Store) : Prop :=
  ∃ news D,
    units st = units st0 ++ news ∧
    docs st = <[r := D]> (docs st0) ∧
    set_tu D [] ∅ = Dh ∧
    (∀ k, is_Some (tuhash D !! k) → k ∈ hashKey st0 <$> pre) ∧
    Forall2 (read_back st0 st) pre (tu D).

Global Instance survives_dec this u : Decision (survives this u).
Proof. unfold survives. apply _. Defined.

Global Instance indexed_dec st d : Decision (indexed st d).
Proof. unfold indexed. cbv zeta. apply _. Defined.

Global Instance wf_doc_dec st d : Decision (wf_doc st d).
Proof. unfold wf_doc. apply _. Defined.

(** A property of the store that an entry in the log cannot break. *)
Definition log_stable (I : Store → Prop) : Prop :=
  ∀ lvl msg st, I st → I (logger lvl msg st).

(** ** Vocabulary of the further properties *)

(** The text holds no dot. *)
Fixpoint dot_free (s : string) : bool :=
  match s with
  | EmptyString => true
  | String c s' => negb (Ascii.eqb c "."%char) && dot_free s'
  end.

(** The unit [r] brings nothing new to the document [this]: the document
    has a unit with the identity key of [r], and that unit has every
    variant key of [r]. *)
Definition covered (st : Store) (this : dref) (r : uref) : Prop :=
  ∃ t, tuhash (get_doc st this) !! hashKey st r = Some t ∧
       ∀ k, k ∈ vkeys (get_unit st r) → k ∈ vkeys (get_unit st t).

Global Instance covered_dec st this r : Decision (covered st this r).
Proof.
  unfold covered.
  destruct (tuhash (get_doc st this) !! hashKey st r) as [t|].
  - destruct (decide (Forall (λ k, k ∈ vkeys (get_unit st t))
                             (vkeys (get_unit st r)))) as [H|H].
    + left. exists t. split; [done|]. by apply Forall_forall.
    + right. intros (t' & [= <-] & Hall). by apply H, Forall_forall.
  - right. by intros (t & ? & _).
Defined.

(** What [addResource] keeps of the store [st0] it started in: the other
    documents; the header of the document [d]; the units the document
    held, in order and ahead of the ones it gains, which the call created;
    and, of every unit that existed, the fields and the variants, which
    may be followed by new variants. *)
Definition resource_frame (st0 : Store) (d : dref) (st : Store) : Prop :=
  length (units st0) ≤ length (units st) ∧
  length (docs st) = length (docs st0) ∧
  (∀ d', d' ≠ d → get_doc st d' = get_doc st0 d') ∧
  set_tu (get_doc st d) [] ∅ = set_tu (get_doc st0 d) [] ∅ ∧
  (∃ l, tu (get_doc st d) = tu (get_doc st0 d) ++ l ∧
        Forall (λ r, length (units st0) ≤ r ∧ r < length (units st)) l) ∧
  (∀ r, r < length (units st0) →
        set_variants (get_unit st r) [] = set_variants (get_unit st0 r) [] ∧
        ∃ added, tu_variants (get_unit st r) =
                 tu_variants (get_unit st0 r) ++ added).

(** The document has a unit with the identity key of the unit value [u],
    and that unit has every variant key of [u]. *)
Definition stored (st : Store) (d : dref) (u : TranslationUnit) : Prop :=
  ∃ t, tuhash (get_doc st d) !! unit_key u = Some t ∧
       ∀ k, k ∈ vkeys u → k ∈ vkeys (get_unit st t).

(** The target text [addResource] gives the unit of segment [i] of a
    string resource: segment [i] of the target, when the resource has a
    target in another locale and that segment is not empty. *)
Definition string_target (this : TMX UKey) (res : Resource)
  (target : jsstr) (i : nat) : option jsstr :=
  let ts := segmentString this target (res_targetLocale res) in
  if addTarget this res && truthy target && truthy (ts !! i)
  then Some (ts !! i) else None.

(** What [parse] gives every unit it builds for the document [this]: the
    datatype of the document and a source locale that is not empty. *)
Definition parsed_unit (this : TMX UKey) (u : TranslationUnit) : Prop :=
  tu_datatype u = obj_get (properties this) "datatype" ∧
  truthy (tu_sourceLocale u) = true.

(** The document [d] when [deserialize] has cleared it and read the header
    of [tmx]. *)
Definition header_read (st : Store) (d : dref) (tmx : TmxElem) : TMX UKey :=
  parse_header (set_tu (get_doc st d) [] ∅) tmx.

(** What [deserialize] keeps of the store [st0] it started in while it
    reads the units of [tmx] into the document [d]: the unit list and the
    index agree; the units that existed are as they were, and so are the
    other documents; the header of the document is the one read from
    [tmx]; the units of the document are units the call created; and
    every unit the call created has the datatype of the document and a
    source locale that is not empty. *)
Definition parse_frame (st0 : Store) (d : dref) (tmx : TmxElem)
  (st : Store) : Prop :=
  indexed st d ∧
  length (units st0) ≤ length (units st) ∧
  (∀ r, r < length (units st0) → get_unit st r = get_unit st0 r) ∧
  length (docs st) = length (docs st0) ∧
  (∀ d', d' ≠ d → get_doc st d' = get_doc st0 d') ∧
  set_tu (get_doc st d) [] ∅ = header_read st0 d tmx ∧
  Forall (λ r, length (units st0) ≤ r) (tu (get_doc st d)) ∧
  (∀ r, length (units st0) ≤ r → r < length (units st) →
        parsed_unit (header_read st0 d tmx) (get_unit st r)).

(** Among the units [l] there is one with the identity key [k] that has
    a variant with the identity key [kv]. *)
Definition has_variant (st : Store) (l : list uref) (k : UKey) (kv : VKey)
  : Prop :=
  ∃ r, r ∈ l ∧ hashKey st r = k ∧ kv ∈ vkeys (get_unit st r).

(** The target text [addResource] gives the unit of segment [j] of
    element [i] of an array resource: the segment of the same indices of
    the target array, when the resource has a target array and a target
    locale other than the source locale and that segment exists. *)
Definition array_target (this : TMX UKey) (res : Resource)
  (targetArray : option (list jsstr)) (i j : nat) : option jsstr :=
  match targetArray with
  | Some t =>
      if addTarget this res then
        match ((λ element,
                  segmentString this element (res_targetLocale res))
                 <$> t) !! i with
        | Some segs => if j <? length segs then Some (segs !! j) else None
        | None => None
        end
      else None
  | None => None
  end.

End Model.

(** * Concrete collaborators and stores

    Identity keys that are the hashed fields themselves, a sentence splitter
    that never splits, trimming that changes nothing, and an XML parser
    given as a parameter. *)

Definition example_collaborators (parser : string → option Json)
  : Collaborators :=
  {| UKey := jsstr * jsstr * jsstr;
     VKey := jsstr * jsstr;
     unit_hash := λ source sourceLocale datatype,
                    (source, sourceLocale, datatype);
     variant_hash := λ locale string, (locale, string);
     sentenceSplit := λ s _, [s];
     trim := λ s, s;
     trimStart := λ s, s;
     js2xml := λ _, "";
     xml2js := parser;
     xml2js_nested := λ _, None;
     getVersion := Some "1.0.0" |}.

(** A unit with source locale ["en"], datatype ["unknown"] and the given
    source text and variants. *)
Definition example_unit (source : string) (vs : list (string * string))
  : TranslationUnit :=
  mkUnit (Some source) (Some "en") None None (Some "unknown") None None None
         [] ((λ lv, mkVariant (Some lv.1) (Some lv.2)) <$> vs).

Definition example_options : Options :=
  mkOptions (Some "en") "1.4" (Some "paragraph") None None.

(** Two documents with one unit each for the source text ["Hello"]:
    document 0 has the variants en:Hello and fr:Bonjour, document 1 has
    en:Hello, fr:Salut and de:Hallo. *)
Definition hello_store (parser : string → option Json)
  : Store (collaborators := example_collaborators parser) :=
  let st := mkStore [] [] [] in
  let '(a, st) := alloc_doc (new_TMX example_options) st in
  let '(b, st) := alloc_doc (new_TMX example_options) st in
  let '(u1, st) :=
    alloc_unit (example_unit "Hello" [("en", "Hello"); ("fr", "Bonjour")])
               st in
  let '(u2, st) :=
    alloc_unit (example_unit "Hello"
                  [("en", "Hello"); ("fr", "Salut"); ("de", "Hallo")]) st in
  let st := addTranslationUnit a u1 st in
  addTranslationUnit b u2 st.

(** A parser that fails on every text. *)
Definition no_parser : string → option Json := λ _, None.

(** A parser that returns the same tree for every text. *)
Definition constant_parser (json : Json) : string → option Json :=
  λ _, Some json.

(** A parsed text without a [tmx] root element. *)
Definition rootless : Json := mkJson None.

(** A parsed text whose root element carries version 1.1. *)
Definition version_1_1 : Json :=
  mkJson (Some (mkTmxElem (Some [("version", Some "1.1")]) None None)).

(** The compact form in which the XML collaborator returns a tree that
    was written: an attribute without a value is gone, an element without
    attributes has no attribute object, an array of one child is the child
    itself and an empty array is no member at all. *)
Definition compact_attributes (a : option (obj jsstr)) : option (obj jsstr) :=
  match a with
  | Some o =>
      match List.filter (λ kv, bool_decide (is_Some kv.2)) o with
      | [] => None
      | o' => Some o'
      end
  | None => None
  end.

Definition compact_children {A} (f : A → A) (m : Multi A) : Multi A :=
  match f <$> makeArray m with
  | [] => Absent
  | [x] => One x
  | l => Many l
  end.

Definition compact_prop (e : PropElem) : PropElem :=
  mkProp (compact_attributes (prop_attributes e)) (prop_text e).

Definition compact_tuv (e : TuvElem) : TuvElem :=
  mkTuv (compact_attributes (tuv_attributes e)) (tuv_seg e)
        (compact_children compact_prop (tuv_prop e)).

Definition compact_tu (e : TuElem) : TuElem :=
  mkTu (compact_attributes (tue_attributes e))
       (compact_children compact_prop (tue_prop e))
       (tue_note e)
       (compact_children compact_tuv (tue_tuv e)).

Definition xml_compact (json : Json) : Json :=
  mkJson
    (option_map (λ tmx,
       mkTmxElem
         (compact_attributes (tmx_attributes tmx))
         (option_map (λ h,
            mkHeader (compact_attributes (header_attributes h))
                     (compact_children compact_prop (header_prop h)))
            (tmx_header tmx))
         (option_map (λ b, mkBody (compact_children compact_tu (body_tu b)))
            (tmx_body tmx)))
       (json_tmx json)).

(** The tree written for document 0 of the example store, and a parser
    that returns its compact form. *)
Definition hello_written : Json := serialize_json (hello_store no_parser) 0.

Definition hello_parser : string → option Json :=
  constant_parser (xml_compact hello_written).

(** Document 0 holds one unit of datatype ["javascript"], as [addResource]
    builds it for a resource of that datatype, while the datatype of the
    document is the default ["unknown"]; document 1 is empty. *)
Definition javascript_unit : TranslationUnit :=
  mkUnit (Some "Hello") (Some "en") None None (Some "javascript")
         None None None []
         [mkVariant (Some "en") (Some "Hello");
          mkVariant (Some "fr") (Some "Bonjour")].

Definition javascript_store (parser : string → option Json)
  : Store (collaborators := example_collaborators parser) :=
  let st := mkStore [] [] [] in
  let '(a, st) := alloc_doc (new_TMX example_options) st in
  let '(b, st) := alloc_doc (new_TMX example_options) st in
  let '(u, st) := alloc_unit javascript_unit st in
  addTranslationUnit a u st.

Definition javascript_written : Json :=
  serialize_json (javascript_store no_parser) 0.

Definition javascript_parser : string → option Json :=
  constant_parser (xml_compact javascript_written).

(** A store with one empty document. *)
Definition empty_store
  : Store (collaborators := example_collaborators no_parser) :=
  (alloc_doc (new_TMX example_options) (mkStore [] [] [])).2.

(** A plural resource whose target has the extra category [few]. *)
Definition items_resource : Resource :=
  mkResource (Some "en") (Some "fr") (Some "javascript") None None None
    (ResPlural [("one", Some "1 item"); ("other", Some "N items")]
       (Some [("one", Some "1 element"); ("few", Some "Q elements");
              ("other", Some "N elements")])).

(** The same without the [other] category in the source. *)
Definition items_without_other : Resource :=
  mkResource (Some "en") (Some "fr") (Some "javascript") None None None
    (ResPlural [("one", Some "1 item")]
       (Some [("one", Some "1 element"); ("few", Some "Q elements")])).

(** A plural resource whose [one] and [other] source categories have the
    same text, so that their units have the same identity key. *)
Definition items_same_text : Resource :=
  mkResource (Some "en") (Some "fr") (Some "javascript") None None None
    (ResPlural [("one", Some "N items"); ("other", Some "N items")]
       (Some [("one", Some "1 element"); ("few", Some "Q elements");
              ("other", Some "N elements")])).

(** A store whose document 0 holds the given unit, of the datatype of the
    document, and whose document 1 is empty; the parser returns the compact
    form of the tree written for document 0. *)
Definition store_of (unit : TranslationUnit) (version : string)
  (parser : string → option Json)
  : Store (collaborators := example_collaborators parser) :=
  let st := mkStore [] [] [] in
  let '(a, st) :=
    alloc_doc (new_TMX (mkOptions (Some "en") version (Some "paragraph")
                                  None None)) st in
  let '(b, st) := alloc_doc (new_TMX example_options) st in
  let '(u, st) := alloc_unit unit st in
  addTranslationUnit a u st.

Definition parser_of (unit : TranslationUnit) (version : string)
  : string → option Json :=
  constant_parser (xml_compact (serialize_json (store_of unit version no_parser) 0)).

(** A unit with a variant whose text is empty. *)
Definition empty_text_unit : TranslationUnit :=
  example_unit "Hello" [("en", "Hello"); ("fr", "")].

(** A unit without a variant in its source locale. *)
Definition no_source_variant_unit : TranslationUnit :=
  example_unit "Hello" [("fr", "Bonjour"); ("de", "Hallo")].

(** A unit that survives the wire. *)
Definition hello_unit : TranslationUnit :=
  example_unit "Hello" [("en", "Hello"); ("fr", "Bonjour")].


(** A translated string resource, and an array resource that names a
    target locale but has no target array. *)
Definition hello_resource : Resource :=
  mkResource (Some "en") (Some "fr") (Some "javascript") None None None
    (ResString (Some "Hello") (Some "Bonjour")).

Definition array_without_target : Resource :=
  mkResource (Some "en") (Some "fr") (Some "javascript") None None None
    (ResArray [Some "Yes"; Some "No"] None).

(** The root element of the compact form of the tree written for document
    0 of the example store. *)
Definition hello_root : TmxElem :=
  default (mkTmxElem None None None) (json_tmx (xml_compact hello_written)).

(** An array resource with a target array. *)
Definition yes_no_resource : Resource :=
  mkResource (Some "en") (Some "fr") (Some "javascript") None None None
    (ResArray [Some "Yes"; Some "No"] (Some [Some "Oui"; Some "Non"])).

(** A parsed text whose root element has no attribute. *)
Definition attributeless : Json :=
  mkJson (Some (mkTmxElem None None (Some (mkBody Absent)))).

(** A unit without a source text, as [parse] builds it for a [tu] element
    none of whose variants is in its source locale. *)
Definition sourceless_unit (vs : list (string * string)) : TranslationUnit :=
  mkUnit None (Some "en") None None (Some "unknown") None None None
         [] ((λ lv, mkVariant (Some lv.1) (Some lv.2)) <$> vs).

(** Two documents with one unit each: [u] in document 0 and [w] in
    document 1. *)
Definition store_of_pair (u w : TranslationUnit)
  : Store (collaborators := example_collaborators no_parser) :=
  let st := mkStore [] [] [] in
  let '(a, st) := alloc_doc (new_TMX example_options) st in
  let '(b, st) := alloc_doc (new_TMX example_options) st in
  let '(u1, st) := alloc_unit u st in
  let '(u2, st) := alloc_unit w st in
  let st := addTranslationUnit a u1 st in
  addTranslationUnit b u2 st.

(** Units without a source text that have the same key and different
    variants. *)
Definition sourceless_store
  : Store (collaborators := example_collaborators no_parser) :=
  store_of_pair (sourceless_unit [("fr", "Bonjour")])
                (sourceless_unit [("fr", "Salut")]).


(** A plural resource whose source has an empty text for the category
    [one], without and with a target. *)
Definition items_empty_one : Resource :=
  mkResource (Some "en") None (Some "javascript") None None None
    (ResPlural [("one", Some ""); ("other", Some "N items")] None).

Definition items_empty_target : Resource :=
  mkResource (Some "en") (Some "fr") (Some "javascript") None None None
    (ResPlural [("one", Some "1 item"); ("other", Some "N items")]
       (Some [("one", Some ""); ("other", Some "N elements")])).

Section Properties.

Context {collaborators : Collaborators}.

(** * Properties *)

Implicit Types (st : Store) (u : TranslationUnit) (v : TranslationVariant)
  (r e : uref) (d : dref).

(** ** The store *)

Lemma get_unit_set_unit r u st r' :
  get_unit (set_unit r u st) r' =
  if decide (r = r' ∧ r < length (units st)) then u else get_unit st r'.
Proof.
  unfold get_unit, set_unit; simpl.
  case_decide as Hc.
  - destruct Hc as [-> Hlt].
    by rewrite list_lookup_total_insert_eq.
  - destruct (decide (r = r')) as [->|Hne].
    + rewrite list_insert_ge; [done | lia].
    + by rewrite list_lookup_total_insert_ne.
Qed.

Lemma set_unit_same r st : set_unit r (get_unit st r) st = st.
Proof.
  destruct st as [us ds lg]; unfold set_unit, get_unit; simpl. f_equal.
  destruct (decide (r < length us)) as [Hlt|Hge].
  - apply list_insert_id. by apply list_lookup_lookup_total_lt.
  - apply list_insert_ge. lia.
Qed.

Lemma get_doc_set_doc d t st d' :
  get_doc (set_doc d t st) d' =
  if decide (d = d' ∧ d < length (docs st)) then t else get_doc st d'.
Proof.
  unfold get_doc, set_doc; simpl.
  case_decide as Hc.
  - destruct Hc as [-> Hlt].
    by rewrite list_lookup_total_insert_eq.
  - destruct (decide (d = d')) as [->|Hne].
    + rewrite list_insert_ge; [done | lia].
    + by rewrite list_lookup_total_insert_ne.
Qed.

(** ** Adding variants to a unit *)

Lemma unit_addVariant_key u v : unit_key (unit_addVariant u v) = unit_key u.
Proof. unfold unit_addVariant. by case_decide. Qed.

Lemma unit_addVariants_key u vs :
  unit_key (unit_addVariants u vs) = unit_key u.
Proof.
  revert u. induction vs as [|v vs IH]; intros u; [done|].
  simpl. rewrite IH. apply unit_addVariant_key.
Qed.

Lemma unit_addVariant_known u v :
  variant_key v ∈ vkeys u → unit_addVariant u v = u.
Proof. intros Hin. unfold unit_addVariant. by rewrite decide_True. Qed.

Lemma unit_addVariants_known u vs :
  (∀ v, v ∈ vs → variant_key v ∈ vkeys u) → unit_addVariants u vs = u.
Proof.
  induction vs as [|v vs IH]; intros Hall; [done|].
  simpl. rewrite unit_addVariant_known.
  - apply IH. intros w Hw. apply Hall. by right.
  - apply Hall. by left.
Qed.

Lemma vkeys_addVariant u v k :
  k ∈ vkeys (unit_addVariant u v) ↔ k ∈ vkeys u ∨ k = variant_key v.
Proof.
  unfold unit_addVariant. case_decide as Hin.
  - split; [by left|]. intros [?| ->]; done.
  - unfold vkeys; simpl. rewrite fmap_app. simpl.
    rewrite elem_of_app, list_elem_of_singleton. done.
Qed.

Lemma vkeys_addVariants u vs k :
  k ∈ vkeys (unit_addVariants u vs) ↔
  k ∈ vkeys u ∨ k ∈ variant_key <$> vs.
Proof.
  revert u. induction vs as [|v vs IH]; intros u; simpl.
  - rewrite elem_of_nil. tauto.
  - rewrite IH, vkeys_addVariant, elem_of_cons. tauto.
Qed.

(** ** [addTranslationUnit] *)

Lemma units_logger lvl msg st : units (logger lvl msg st) = units st.
Proof. done. Qed.

Lemma docs_logger lvl msg st : docs (logger lvl msg st) = docs st.
Proof. done. Qed.

Lemma addVariants_docs r vs st : docs (addVariants r vs st) = docs st.
Proof. done. Qed.

Lemma addVariants_known r vs st :
  (∀ v, v ∈ vs → variant_key v ∈ vkeys (get_unit st r)) →
  addVariants r vs st = st.
Proof.
  intros Hall. unfold addVariants.
  rewrite unit_addVariants_known by done. apply set_unit_same.
Qed.

(** What [addTranslationUnit] does, with the trace entry factored out. *)
Lemma addTranslationUnit_unfold d r st :
  addTranslationUnit d r st =
  match tuhash (get_doc st d) !! hashKey st r with
  | Some existing =>
      addVariants existing (tu_variants (get_unit st r)) (trace_entry st d)
  | None =>
      set_doc d (set_tu (get_doc st d) (tu (get_doc st d) ++ [r])
                   (<[hashKey st r := r]> (tuhash (get_doc st d))))
              (trace_entry st d)
  end.
Proof. reflexivity. Qed.

Lemma set_unit_dangling r u st :
  length (units st) ≤ r → set_unit r u st = st.
Proof.
  intros Hge. destruct st as [us ds lg]. unfold set_unit; simpl in *.
  f_equal. by apply list_insert_ge.
Qed.

Lemma get_unit_addVariants e vs st r :
  get_unit (addVariants e vs st) r =
  if decide (e = r ∧ e < length (units st))
  then unit_addVariants (get_unit st r) vs else get_unit st r.
Proof.
  unfold addVariants. rewrite get_unit_set_unit.
  case_decide as Hc; [|done]. by destruct Hc as [-> _].
Qed.

Lemma hashKey_addVariants e vs st r :
  hashKey (addVariants e vs st) r = hashKey st r.
Proof.
  unfold hashKey. rewrite get_unit_addVariants.
  case_decide; [|done]. apply unit_addVariants_key.
Qed.

(** Merging the variants of [r] into [e] a second time changes nothing. *)
Lemma addVariants_again e r st :
  let st1 := addVariants e (tu_variants (get_unit st r)) st in
  addVariants e (tu_variants (get_unit st1 r)) st1 = st1.
Proof.
  intros st1.
  destruct (decide (e < length (units st))) as [Hlt|Hge].
  - apply addVariants_known. intros v Hv.
    unfold st1 in *. rewrite get_unit_addVariants in *.
    rewrite (decide_True (P := e = e ∧ _)) by done.
    case_decide as Hc.
    + destruct Hc as [-> _]. by apply list_elem_of_fmap_2.
    + apply vkeys_addVariants. right. by apply list_elem_of_fmap_2.
  - unfold addVariants at 1. apply set_unit_dangling.
    unfold st1, addVariants. rewrite set_unit_dangling; lia.
Qed.

(** Adding the same unit a second time changes neither a unit nor a
    document: only the trace entry is logged. *)
Lemma addTranslationUnit_again d r st :
  let st1 := addTranslationUnit d r st in
  let st2 := addTranslationUnit d r st1 in
  units st2 = units st1 ∧ docs st2 = docs st1.
Proof.
  intros st1 st2.
  pose proof (addTranslationUnit_unfold d r st) as Hst1.
  pose proof (addTranslationUnit_unfold d r st1) as Hst2.
  fold st1 in Hst1. fold st2 in Hst2. clearbody st1 st2.
  set (k := hashKey st r) in *.
  destruct (tuhash (get_doc st d) !! k) as [e|] eqn:Hlook.
  - (* the key was known: the second call merges the same variants again *)
    assert (Hk1 : hashKey st1 r = k).
    { rewrite Hst1. by rewrite hashKey_addVariants. }
    assert (Hd1 : get_doc st1 d = get_doc st d) by (by rewrite Hst1).
    rewrite Hk1, Hd1, Hlook in Hst2.
    assert (Hagain : addVariants e (tu_variants (get_unit st1 r)) st1 = st1).
    { rewrite Hst1. apply (addVariants_again e r (trace_entry st d)). }
    rewrite Hst2. split; [|done].
    change (units (addVariants e (tu_variants (get_unit st1 r)) st1) =
            units st1).
    by rewrite Hagain.
  - (* the key was new: the second call finds the unit itself *)
    destruct (decide (d < length (docs st))) as [Hlt|Hge].
    + assert (Hk1 : hashKey st1 r = k) by (by rewrite Hst1).
      assert (Hd1 : tuhash (get_doc st1 d) !! k = Some r).
      { rewrite Hst1, get_doc_set_doc.
        rewrite decide_True by done. simpl. apply lookup_insert_eq. }
      rewrite Hk1, Hd1 in Hst2. rewrite Hst2.
      rewrite addVariants_known; [done|].
      intros v Hv. by apply list_elem_of_fmap_2.
    + assert (Hsame : set_doc d
          (set_tu (get_doc st d) (tu (get_doc st d) ++ [r])
             (<[k:=r]> (tuhash (get_doc st d)))) (trace_entry st d) =
          trace_entry st d).
      { unfold set_doc; simpl. rewrite list_insert_ge by lia. done. }
      rewrite Hsame in Hst1.
      assert (Hk1 : hashKey st1 r = k) by (by rewrite Hst1).
      assert (Hd1 : get_doc st1 d = get_doc st d) by (by rewrite Hst1).
      rewrite Hk1, Hd1, Hlook in Hst2. rewrite Hst2.
      unfold set_doc; simpl. rewrite list_insert_ge; [done|].
      rewrite Hst1. simpl. lia.
Qed.

(** C4: adding the identical unit a second time leaves [size()] as it was
    after the first call, leaves the unit list and the index of the
    document as they were, and leaves every stored unit with the list of
    variant identity keys it had after the first call, so that no
    duplicate variant key is introduced. *)
Theorem addTranslationUnit_idempotent d r st :
  let st1 := addTranslationUnit d r st in
  let st2 := addTranslationUnit d r st1 in
  size st2 d = size st1 d ∧
  tu (get_doc st2 d) = tu (get_doc st1 d) ∧
  tuhash (get_doc st2 d) = tuhash (get_doc st1 d) ∧
  ∀ e, vkeys (get_unit st2 e) = vkeys (get_unit st1 e) ∧
       (NoDup (vkeys (get_unit st1 e)) → NoDup (vkeys (get_unit st2 e))).
Proof.
  intros st1 st2.
  destruct (addTranslationUnit_again d r st) as [Hu Hd].
  fold st1 st2 in Hu, Hd.
  assert (Hdoc : get_doc st2 d = get_doc st1 d)
    by (unfold get_doc; by rewrite Hd).
  assert (Hunit : ∀ e, get_unit st2 e = get_unit st1 e)
    by (intros e; unfold get_unit; by rewrite Hu).
  unfold size. rewrite Hdoc. repeat split; try done.
  - by rewrite Hunit.
  - by rewrite Hunit.
Qed.

(** ** Rules for triples *)

Lemma hoare_ret {A} (a : A) (P : Store → Prop) Q E :
  (∀ st, P st → Q a st) → hoare P (mret a) Q E.
Proof. intros HPQ st HP. by apply HPQ. Qed.

Lemma hoare_throw {A} err (P : Store → Prop) (Q : A → Store → Prop)
  (E : Store → Prop) :
  (∀ st, P st → E st) → hoare P (throw err) Q E.
Proof. intros HPE st HP. by apply HPE. Qed.

Lemma hoare_bind {A B} (m : M A) (f : A → M B) P R Q E :
  hoare P m R E → (∀ a, hoare (R a) (f a) Q E) → hoare P (m ≫= f) Q E.
Proof.
  intros Hm Hf st HP. specialize (Hm st HP).
  unfold mbind, M_bind. destruct (m st) as [[a|err] st']; [|done].
  by apply Hf.
Qed.

Lemma hoare_modify (f : Store → Store) (P : Store → Prop) Q E :
  (∀ st, P st → Q tt (f st)) → hoare P (modify f) Q E.
Proof. intros HPQ st HP. by apply HPQ. Qed.

Lemma hoare_gets {A} (f : Store → A) (P : Store → Prop) Q E :
  (∀ st, P st → Q (f st) st) → hoare P (gets f) Q E.
Proof. intros HPQ st HP. by apply HPQ. Qed.

Lemma hoare_alloc u (P : Store → Prop) Q E :
  (∀ st, P st → Q (length (units st)) (alloc_unit u st).2) →
  hoare P (alloc u) Q E.
Proof. intros HPQ st HP. by apply HPQ. Qed.

Lemma hoare_weaken {A} (m : M A) (P P' : Store → Prop) (Q Q' : A → _) E :
  hoare P' m Q' E → (∀ st, P st → P' st) →
  (∀ a st, Q' a st → Q a st) → hoare P m Q E.
Proof.
  intros Hm HP HQ st Hst. specialize (Hm st (HP st Hst)).
  destruct (m st) as [[a|err] st']; [by apply HQ | done].
Qed.

Lemma hoare_forEach_from {A} (f : A → nat → M unit) (I : Store → Prop) E
  l i :
  (∀ x j, x ∈ l → hoare I (f x j) (λ _, I) E) →
  hoare I (forEach_from f l i) (λ _, I) E.
Proof.
  revert i. induction l as [|x l IH]; intros i Hf; simpl.
  - by apply hoare_ret.
  - eapply hoare_bind; [apply Hf; by left|].
    intros []. apply IH. intros y j Hy. apply Hf. by right.
Qed.

Lemma hoare_forEach {A} (f : A → nat → M unit) (I : Store → Prop) E l :
  (∀ x j, x ∈ l → hoare I (f x j) (λ _, I) E) →
  hoare I (forEach f l) (λ _, I) E.
Proof. apply hoare_forEach_from. Qed.

Lemma hoare_foldM {A B} (f : B → A → M B) (I : B → Store → Prop) E b l :
  (∀ b x, x ∈ l → hoare (I b) (f b x) I E) →
  hoare (I b) (foldM f b l) I E.
Proof.
  revert b. induction l as [|x l IH]; intros b Hf; simpl.
  - by apply hoare_ret.
  - eapply hoare_bind; [apply Hf; by left|].
    intros b'. apply IH. intros b'' y Hy. apply Hf. by right.
Qed.

Lemma hoare_foldM_from {A B} (f : B → A → nat → M B)
  (I : B → Store → Prop) E b l i :
  (∀ b x j, x ∈ l → hoare (I b) (f b x j) I E) →
  hoare (I b) (foldM_from f b l i) I E.
Proof.
  revert b i. induction l as [|x l IH]; intros b i Hf; simpl.
  - by apply hoare_ret.
  - eapply hoare_bind; [apply Hf; by left|].
    intros b'. apply IH. intros b'' y j Hy. apply Hf. by right.
Qed.

(** ** The unit list and the index agree *)

(** The invariant only looks at the unit list and index of the document
    and at the identity keys of the units of the store. *)
Lemma indexed_ext st st' d :
  tu (get_doc st' d) = tu (get_doc st d) →
  tuhash (get_doc st' d) = tuhash (get_doc st d) →
  length (units st) ≤ length (units st') →
  (∀ r, r < length (units st) → hashKey st' r = hashKey st r) →
  indexed st d → indexed st' d.
Proof.
  intros Htu Hhash Hlen Hkey (Hnd & Hall & Hmap).
  unfold indexed. rewrite Htu, Hhash.
  rewrite Forall_forall in Hall.
  split; [done|]. split.
  - apply Forall_forall. intros r Hr.
    destruct (Hall r Hr) as [Hlt Hlook].
    split; [lia|]. by rewrite Hkey.
  - intros k r Hk. destruct (Hmap k r Hk) as [Hin Hkr].
    split; [done|]. rewrite Hkey; [done|].
    by destruct (Hall r Hin).
Qed.

Lemma indexed_logger lvl msg st d :
  indexed st d → indexed (logger lvl msg st) d.
Proof. by apply indexed_ext. Qed.

Lemma indexed_alloc u st d :
  indexed st d → indexed (alloc_unit u st).2 d.
Proof.
  apply indexed_ext; try done.
  - simpl. rewrite length_app. lia.
  - intros r Hr. unfold hashKey, get_unit; simpl.
    by rewrite lookup_total_app_l.
Qed.

Lemma hashKey_addVariant e v st r :
  hashKey (addVariant e v st) r = hashKey st r.
Proof.
  unfold hashKey, addVariant. rewrite get_unit_set_unit.
  case_decide as Hc; [|done]. destruct Hc as [-> _].
  apply unit_addVariant_key.
Qed.

Lemma indexed_addVariant e v st d :
  indexed st d → indexed (addVariant e v st) d.
Proof.
  apply indexed_ext; try done.
  - unfold addVariant; simpl. by rewrite length_insert.
  - intros r _. apply hashKey_addVariant.
Qed.

Lemma indexed_addVariants e vs st d :
  indexed st d → indexed (addVariants e vs st) d.
Proof.
  apply indexed_ext; try done.
  - unfold addVariants; simpl. by rewrite length_insert.
  - intros r _. apply hashKey_addVariants.
Qed.

Lemma indexed_set_header st d t :
  tu t = tu (get_doc st d) → tuhash t = tuhash (get_doc st d) →
  indexed st d → indexed (set_doc d t st) d.
Proof.
  intros Htu Hhash. apply indexed_ext; try done.
  - rewrite get_doc_set_doc. by case_decide.
  - rewrite get_doc_set_doc. by case_decide.
Qed.

Lemma indexed_clear st d :
  indexed (set_doc d (set_tu (get_doc st d) [] ∅) st) d.
Proof.
  unfold indexed. rewrite get_doc_set_doc. case_decide as Hc.
  - simpl. split; [constructor|]. split; [constructor|].
    apply map_Forall_empty.
  - destruct (decide (d < length (docs st))) as [Hlt|Hge].
    + exfalso. apply Hc. done.
    + unfold get_doc. rewrite list_lookup_total_alt.
      rewrite lookup_ge_None_2 by lia. simpl.
      split; [constructor|]. split; [constructor|].
      apply map_Forall_empty.
Qed.

Lemma hashKey_set_doc d t st r : hashKey (set_doc d t st) r = hashKey st r.
Proof. done. Qed.

Lemma hashKey_logger lvl msg st r :
  hashKey (logger lvl msg st) r = hashKey st r.
Proof. done. Qed.

Lemma set_doc_dangling d t st : length (docs st) ≤ d → set_doc d t st = st.
Proof.
  intros Hge. destruct st as [us ds lg]. unfold set_doc; simpl in *.
  f_equal. by apply list_insert_ge.
Qed.

Lemma indexed_addTranslationUnit st d r :
  r < length (units st) →
  indexed st d → indexed (addTranslationUnit d r st) d.
Proof.
  intros Hr Hinv. rewrite addTranslationUnit_unfold.
  destruct (tuhash (get_doc st d) !! hashKey st r) as [e|] eqn:Hlook.
  { apply indexed_addVariants. by apply indexed_logger. }
  destruct (decide (d < length (docs st))) as [Hd|Hd]; cycle 1.
  { rewrite set_doc_dangling by (simpl; lia). by apply indexed_logger. }
  destruct Hinv as (Hnd & Hall & Hmap).
  rewrite Forall_forall in Hall.
  unfold indexed. rewrite get_doc_set_doc.
  rewrite decide_True by done. simpl.
  assert (Hnotin : r ∉ tu (get_doc st d)).
  { intros Hin. destruct (Hall r Hin) as [_ Hl]. congruence. }
  split; [|split].
  - apply NoDup_app. split; [done|]. split; [|apply NoDup_singleton].
    intros x Hx ->%list_elem_of_singleton. done.
  - apply Forall_app. split.
    + apply Forall_forall. intros x Hx.
      destruct (Hall x Hx) as [Hlt Hl]. split; [done|].
      rewrite hashKey_set_doc. unfold trace_entry.
      rewrite hashKey_logger.
      rewrite lookup_insert_ne; [done|].
      intros Heq. rewrite Heq in Hlook. congruence.
    + apply Forall_singleton. split; [done|].
      rewrite hashKey_set_doc. unfold trace_entry.
      rewrite hashKey_logger. apply lookup_insert_eq.
  - apply map_Forall_insert_2.
    + split; [|done]. apply elem_of_app. right.
      by apply list_elem_of_singleton.
    + intros k x Hk. destruct (Hmap k x Hk) as [Hin Hkx].
      split; [|done]. apply elem_of_app. by left.
Qed.

(** *** The invariant across the methods that can raise *)

Lemma indexed_log_stable d : log_stable (λ st, indexed st d).
Proof. intros lvl msg st. apply indexed_logger. Qed.

Lemma parse_unit_props_inv I props :
  log_stable I → hoare I (parse_unit_props props) (λ _, I) I.
Proof.
  intros HI. unfold parse_unit_props.
  apply (hoare_foldM _ (λ _, I)). intros ps prop _.
  destruct (prop_attributes prop).
  - by apply hoare_ret.
  - eapply hoare_bind;
      [apply hoare_modify with (Q := λ _, I); intros st; apply HI|].
    intros []. by apply hoare_ret.
Qed.

Lemma parse_variant_props_inv (I : Store → Prop) props :
  hoare I (parse_variant_props props) (λ _, I) I.
Proof.
  unfold parse_variant_props.
  apply (hoare_foldM _ (λ _, I)). intros [pre post] prop _.
  destruct (prop_attributes prop).
  - repeat case_decide; by apply hoare_ret.
  - by apply hoare_throw.
Qed.

Lemma nested_text_inv (I : Store → Prop) markup :
  hoare I (nested_text markup) (λ _, I) I.
Proof.
  unfold nested_text.
  destruct (xml2js_nested markup) as [parsed|]; [|by apply hoare_throw].
  destruct (nested_seg parsed) as [seg|]; [|by apply hoare_throw].
  destruct (seg_text seg); [by apply hoare_ret | by apply hoare_throw].
Qed.

Lemma parse_variant_inv I tu variant :
  log_stable I → hoare I (parse_variant tu variant) (λ _, I) I.
Proof.
  intros HI. unfold parse_variant.
  eapply hoare_bind.
  { instantiate (1 := λ _, I). destruct (tuv_attributes variant).
    - by apply hoare_ret.
    - eapply hoare_bind;
      [apply hoare_modify with (Q := λ _, I); intros st; apply HI|].
      intros []. by apply hoare_ret. }
  intros locale. eapply hoare_bind.
  { instantiate (1 := λ _, I). destruct (present (tuv_prop variant)).
    - apply parse_variant_props_inv.
    - by apply hoare_ret. }
  intros [pre post]. eapply hoare_bind.
  { instantiate (1 := λ _, I). destruct (truthy pre).
    - eapply hoare_bind; [apply nested_text_inv|].
      intros t. by apply hoare_ret.
    - by apply hoare_ret. }
  intros tu'. destruct (truthy post).
  - eapply hoare_bind; [apply nested_text_inv|].
    intros t. by apply hoare_ret.
  - by apply hoare_ret.
Qed.

(** Storing a new unit and adding it to the document. *)
Lemma add_new_unit_inv d u :
  hoare (λ st, indexed st d)
        (r ← alloc u; modify (addTranslationUnit d r))
        (λ _ st, indexed st d) (λ st, indexed st d).
Proof.
  eapply hoare_bind.
  - apply hoare_alloc with
      (Q := λ r st, r < length (units st) ∧ indexed st d).
    intros st Hinv. split.
    + simpl. rewrite length_app. simpl. lia.
    + by apply indexed_alloc.
  - intros r. apply hoare_modify. intros st [Hr Hinv].
    by apply indexed_addTranslationUnit.
Qed.

Lemma parse_unit_inv d unit :
  hoare (λ st, indexed st d) (parse_unit d unit)
        (λ _ st, indexed st d) (λ st, indexed st d).
Proof.
  unfold parse_unit.
  eapply hoare_bind; [apply hoare_gets with (Q := λ _ st, indexed st d);
                      by intros|].
  intros this. eapply hoare_bind.
  { instantiate (1 := λ _ st, indexed st d).
    destruct (present (tue_prop unit)).
    - eapply hoare_bind;
        [apply parse_unit_props_inv, indexed_log_stable|].
      intros ps. by apply hoare_ret.
    - by apply hoare_ret. }
  intros tu1. eapply hoare_bind.
  { instantiate (1 := λ _ st, indexed st d).
    destruct (present (tue_tuv unit)).
    - apply (hoare_foldM _ (λ _ st, indexed st d)).
      intros tu2 variant _. apply parse_variant_inv, indexed_log_stable.
    - by apply hoare_ret. }
  intros tu2. apply add_new_unit_inv.
Qed.

Lemma parse_inv d tmx :
  hoare (λ st, indexed st d) (parse d tmx)
        (λ _ st, indexed st d) (λ st, indexed st d).
Proof.
  unfold parse. eapply hoare_bind.
  { apply hoare_modify with (Q := λ _ st, indexed st d).
    intros st Hinv. apply indexed_set_header; [| |done].
    - unfold parse_header. destruct (tmx_header tmx) as [h|]; [|done].
      by destruct (header_attributes h).
    - unfold parse_header. destruct (tmx_header tmx) as [h|]; [|done].
      by destruct (header_attributes h). }
  intros []. destruct (tmx_body tmx) as [body|]; [|by apply hoare_ret].
  destruct (present (body_tu body)); [|by apply hoare_ret].
  apply hoare_forEach. intros unit _ _. apply parse_unit_inv.
Qed.

Lemma deserialize_inv d xml :
  hoare (λ st, indexed st d) (deserialize d xml)
        (λ _ st, indexed st d) (λ st, indexed st d).
Proof.
  unfold deserialize.
  destruct (xml2js xml) as [json|]; [|by apply hoare_throw].
  destruct (json_tmx json) as [tmx|]; cycle 1.
  { eapply hoare_bind; [apply hoare_gets with (Q := λ _ st, indexed st d);
                        by intros|].
    intros us. by apply hoare_ret. }
  match goal with |- hoare _ (if ?c then _ else _) _ _ => destruct c end.
  - destruct (tmx_attributes tmx); [|by apply hoare_throw].
    eapply hoare_bind;
      [apply hoare_modify with (Q := λ _ st, indexed st d);
       intros st; apply indexed_logger|].
    intros []. by apply hoare_ret.
  - eapply hoare_bind.
    { apply hoare_modify with (Q := λ _ st, indexed st d).
      intros st _. apply indexed_clear. }
    intros []. eapply hoare_bind; [apply parse_inv|].
    intros []. eapply hoare_bind;
      [apply hoare_gets with (Q := λ _ st, indexed st d); by intros|].
    intros us. by apply hoare_ret.
Qed.

Lemma addResource_inv d res :
  hoare (λ st, indexed st d) (addResource d res)
        (λ _ st, indexed st d) (λ st, indexed st d).
Proof.
  unfold addResource.
  eapply hoare_bind; [apply hoare_gets with (Q := λ _ st, indexed st d);
                      by intros|].
  intros this. destruct res as [res|]; [|by apply hoare_ret].
  match goal with |- hoare _ (if ?c then _ else _) _ _ => destruct c end;
    [by apply hoare_ret|].
  destruct (res_payload res) as [source target|srcs tgts|srcs tgts].
  - (* string *)
    apply hoare_forEach. intros segment i _. apply add_new_unit_inv.
  - (* array *)
    apply hoare_forEach. intros element i _.
    apply hoare_forEach. intros string j _.
    eapply hoare_bind.
    { instantiate (1 := λ _ st, indexed st d).
      match goal with |- hoare _ (if ?c then _ else _) _ _ => destruct c end;
        [|by apply hoare_ret].
      match goal with |- hoare _ (match ?c with _ => _ end) _ _ =>
        destruct c as [ta|] end; [|by apply hoare_throw].
      destruct (ta !! i) as [segs|]; [|by apply hoare_ret].
      destruct (j <? length segs); by apply hoare_ret. }
    intros tgt. apply add_new_unit_inv.
  - (* plural *)
    eapply hoare_bind.
    { unfold plural_units.
      apply (hoare_foldM _ (λ _ st, indexed st d)).
      intros other [category [untouched|segments]] _;
        [by apply hoare_throw|]. cbn [snd].
      apply (hoare_foldM_from _ (λ _ st, indexed st d)).
      intros other' string i _. unfold plural_unit_step.
      eapply hoare_bind.
      - apply hoare_alloc with
          (Q := λ r st, r < length (units st) ∧ indexed st d).
        intros st Hinv. split.
        + simpl. rewrite length_app. simpl. lia.
        + by apply indexed_alloc.
      - intros r. eapply hoare_bind.
        + apply hoare_modify with (Q := λ _ st, indexed st d).
          intros st [Hr Hinv]. by apply indexed_addTranslationUnit.
        + intros []. by apply hoare_ret. }
    intros other.
    match goal with |- hoare _ (if ?c then _ else _) _ _ => destruct c end;
      [|by apply hoare_ret].
    destruct tgts as [t|]; [|by apply hoare_ret].
    unfold plural_extras.
    apply hoare_forEach. intros [category [untouched|segments]] _ _;
      cbn [fst snd];
      match goal with |- hoare _ (if ?c then _ else _) _ _ =>
        destruct c end;
      try (by apply hoare_ret); try (by apply hoare_throw).
    apply hoare_forEach. intros string i _. unfold plural_extra_step.
    destruct (other !! i) as [r|]; [|by apply hoare_throw].
    apply hoare_modify. intros st. apply indexed_addVariant.
Qed.

(** C9: [addTranslationUnit], [addResource] and [deserialize] keep the
    unit list and the index of the document in agreement, whether they
    return or raise: every unit of the list is the entry of the index
    under its identity key, and every entry of the index is a unit of the
    list. The unit handed to [addTranslationUnit] is an object of the
    store. *)
Theorem units_and_index_agree st d :
  indexed st d →
  (∀ r, r < length (units st) → indexed (addTranslationUnit d r st) d) ∧
  (∀ res, indexed (addResource d res st).2 d) ∧
  (∀ xml, indexed (deserialize d xml st).2 d).
Proof.
  intros Hinv. split; [|split].
  - intros r Hr. by apply indexed_addTranslationUnit.
  - intros res. pose proof (addResource_inv d res st Hinv) as H.
    by destruct (addResource d res st) as [[a|err] st'].
  - intros xml. pose proof (deserialize_inv d xml st Hinv) as H.
    by destruct (deserialize d xml st) as [[a|err] st'].
Qed.

(** ** Rejected input *)

(** C10: when the parsed text has no [tmx] root element, [deserialize]
    returns the unit list the document already had and leaves the whole
    store as it was: units, unit list, index, properties and locales are
    untouched and nothing is logged, in particular no error. *)
Theorem deserialize_no_root st d xml json :
  xml2js xml = Some json →
  json_tmx json = None →
  deserialize d xml st = (Returned (Some (tu (get_doc st d))), st).
Proof. intros Hxml Hroot. unfold deserialize. by rewrite Hxml, Hroot. Qed.

(** X26: when the root element of the parsed text has attributes and
    its version is not the exact text ["1.4"], [deserialize] logs the
    error and returns [undefined]; but for the log entry the store is as
    it was: no unit and no document is changed and nothing is cleared. *)
Theorem deserialize_version_mismatch st d xml json tmx a :
  xml2js xml = Some json →
  json_tmx json = Some tmx →
  tmx_attributes tmx = Some a →
  obj_get a "version" ≠ Some "1.4" →
  deserialize d xml st =
    (Returned None, logger ERROR (version_message a) st).
Proof.
  intros Hxml Hroot Ha Hver. unfold deserialize. rewrite Hxml, Hroot, Ha.
  simpl. rewrite (bool_decide_eq_false_2 _ Hver).
  by rewrite orb_true_r.
Qed.

(** C3: when the root element of the parsed text has no attribute at
    all, and so no version, [deserialize] does not report the mismatch:
    the message is built from [json.tmx._attributes.version] right after
    the test that found [json.tmx._attributes] missing, which raises a
    [TypeError]; nothing is logged and the store is as it was. *)
Theorem deserialize_root_without_attributes st d xml json tmx :
  xml2js xml = Some json →
  json_tmx json = Some tmx →
  tmx_attributes tmx = None →
  ∃ what, deserialize d xml st = (Thrown (TypeError what), st).
Proof.
  intros Hxml Hroot Ha. unfold deserialize. rewrite Hxml, Hroot, Ha.
  simpl. by eexists.
Qed.

(** ** Serialization *)

Lemma serializeTranslationUnit_Some u :
  2 ≤ length (tu_variants u) →
  serializeTranslationUnit u =
  Some (mkTu (Some [("srclang", tu_sourceLocale u)])
             (serialize_props (tu_properties u)) None
             (Many (serializeTranslationVariant <$> tu_variants u))).
Proof.
  intros Hlen. unfold serializeTranslationUnit.
  destruct (Nat.ltb_spec (length (tu_variants u)) 2); [lia|done].
Qed.

Lemma serializeTranslationUnit_None u :
  serializeTranslationUnit u = None ↔ length (tu_variants u) < 2.
Proof.
  unfold serializeTranslationUnit.
  destruct (Nat.ltb_spec (length (tu_variants u)) 2); split; try done; lia.
Qed.

(** The filter of [serialize] only lets through units for which
    [serializeTranslationUnit] returns an element, so the mapped array has
    no hole: filtering first changes nothing. *)
Lemma serialize_no_hole st (l : list uref) :
  omap (λ r, serializeTranslationUnit (get_unit st r))
       (List.filter (λ r, 1 <? length (tu_variants (get_unit st r))) l) =
  omap (λ r, serializeTranslationUnit (get_unit st r)) l ∧
  length (omap (λ r, serializeTranslationUnit (get_unit st r)) l) =
  length (List.filter (λ r, 1 <? length (tu_variants (get_unit st r))) l).
Proof.
  induction l as [|r l [IH1 IH2]]; [done|]. simpl.
  destruct (Nat.ltb_spec 1 (length (tu_variants (get_unit st r))))
    as [Hlt|Hge]; simpl.
  - rewrite serializeTranslationUnit_Some by lia. simpl.
    split; f_equal; [exact IH1 | exact IH2].
  - assert (Hnone : serializeTranslationUnit (get_unit st r) = None)
      by (apply serializeTranslationUnit_None; lia).
    rewrite Hnone. split; [exact IH1 | exact IH2].
Qed.

Lemma body_elements_serialize st d :
  body_elements (serialize_json st d) =
  omap (λ r, serializeTranslationUnit (get_unit st r)) (tu (get_doc st d)).
Proof.
  unfold body_elements, serialize_json; simpl.
  apply serialize_no_hole.
Qed.

Lemma omap_units_Forall2 st (l : list uref) :
  Forall2 (λ r el, serializeTranslationUnit (get_unit st r) = Some el)
    (List.filter (λ r, 2 <=? length (tu_variants (get_unit st r))) l)
    (omap (λ r, serializeTranslationUnit (get_unit st r)) l).
Proof.
  induction l as [|r l IH]; [constructor|]. cbn -[Nat.leb].
  destruct (Nat.leb_spec 2 (length (tu_variants (get_unit st r))))
    as [Hge|Hlt].
  - rewrite serializeTranslationUnit_Some by done. simpl.
    constructor; [|exact IH]. by apply serializeTranslationUnit_Some.
  - assert (Hnone : serializeTranslationUnit (get_unit st r) = None)
      by (apply serializeTranslationUnit_None; lia).
    rewrite Hnone. exact IH.
Qed.

(** C7: the [tu] elements of the tree that [serialize] writes are, in
    order, exactly the elements of the units of the document that have at
    least two variants, each with one [tuv] child per variant; a unit with
    fewer than two variants has no element, so a document all of whose
    units have exactly one variant is written with no [tu] element. *)
Theorem serialize_drop_rule st d :
  Forall2 (λ r el,
             2 ≤ length (tu_variants (get_unit st r)) ∧
             tue_tuv el =
               Many (serializeTranslationVariant <$>
                     tu_variants (get_unit st r)) ∧
             serializeTranslationUnit (get_unit st r) = Some el)
    (List.filter (λ r, 2 <=? length (tu_variants (get_unit st r)))
                 (tu (get_doc st d)))
    (body_elements (serialize_json st d)) ∧
  (∀ r, r ∈ tu (get_doc st d) →
        length (tu_variants (get_unit st r)) < 2 →
        serializeTranslationUnit (get_unit st r) = None) ∧
  (Forall (λ r, length (tu_variants (get_unit st r)) = 1)
          (tu (get_doc st d)) →
   body_elements (serialize_json st d) = []).
Proof.
  rewrite body_elements_serialize. split; [|split].
  - eapply Forall2_impl; [apply omap_units_Forall2|].
    intros r el He. simpl in He.
    destruct (decide (2 ≤ length (tu_variants (get_unit st r))))
      as [Hge|Hlt].
    + split; [done|]. split; [|done].
      rewrite serializeTranslationUnit_Some in He by done.
      by injection He as <-.
    + assert (Hnone : serializeTranslationUnit (get_unit st r) = None)
        by (apply serializeTranslationUnit_None; lia).
      congruence.
  - intros r _ Hlt. by apply serializeTranslationUnit_None.
  - induction 1 as [|r l Hr _ IH]; [done|]. simpl.
    assert (Hnone : serializeTranslationUnit (get_unit st r) = None)
      by (apply serializeTranslationUnit_None; lia).
    rewrite Hnone. exact IH.
Qed.

(** ** More on the variants of a unit *)

Lemma unit_addVariant_frame u v :
  set_variants (unit_addVariant u v) [] = set_variants u [].
Proof. unfold unit_addVariant. by case_decide. Qed.

Lemma unit_addVariants_frame u vs :
  set_variants (unit_addVariants u vs) [] = set_variants u [].
Proof.
  revert u. induction vs as [|v vs IH]; intros u; [done|].
  simpl. by rewrite IH, unit_addVariant_frame.
Qed.

Lemma unit_addVariants_app u vs ws :
  unit_addVariants u (vs ++ ws) =
  unit_addVariants (unit_addVariants u vs) ws.
Proof. apply foldl_app. Qed.

(** Variants are only ever appended, and only variants of the argument. *)
Lemma unit_addVariants_prefix u vs :
  ∃ extra, tu_variants (unit_addVariants u vs) = tu_variants u ++ extra ∧
           (∀ v, v ∈ extra → v ∈ vs).
Proof.
  revert u. induction vs as [|v vs IH]; intros u; simpl.
  - exists []. split; [by rewrite app_nil_r|]. by intros v Hv.
  - destruct (IH (unit_addVariant u v)) as (extra & Heq & Hsub).
    unfold unit_addVariant in *. case_decide.
    + exists extra. split; [done|]. intros w Hw. right. by apply Hsub.
    + simpl in Heq. exists (v :: extra). split.
      * by rewrite Heq, <- app_assoc.
      * intros w [->|Hw]%elem_of_cons; [by left|]. right. by apply Hsub.
Qed.

Lemma unit_addVariant_NoDup u v :
  NoDup (vkeys u) → NoDup (vkeys (unit_addVariant u v)).
Proof.
  intros Hnd. unfold unit_addVariant. case_decide as Hin; [done|].
  unfold vkeys; simpl. rewrite fmap_app. simpl.
  apply NoDup_app. split; [done|]. split; [|apply NoDup_singleton].
  intros k Hk ->%list_elem_of_singleton. done.
Qed.

Lemma unit_addVariants_NoDup u vs :
  NoDup (vkeys u) → NoDup (vkeys (unit_addVariants u vs)).
Proof.
  revert u. induction vs as [|v vs IH]; intros u Hnd; [done|].
  simpl. by apply IH, unit_addVariant_NoDup.
Qed.

(** ** [variantDiff] *)

Lemma variant_table_lookup_aux vs (m : gmap VKey TranslationVariant) k :
  is_Some (foldl (λ m v, <[variant_key v := v]> m) m vs !! k) ↔
  is_Some (m !! k) ∨ k ∈ variant_key <$> vs.
Proof.
  revert m. induction vs as [|v vs IH]; intros m; simpl.
  - rewrite elem_of_nil. tauto.
  - rewrite IH, elem_of_cons.
    destruct (decide (variant_key v = k)) as [->|Hne].
    + rewrite lookup_insert_eq. split; [by right; left|].
      intros _. left. by eexists.
    + rewrite lookup_insert_ne by done. split.
      * intros [?|?]; [by left | by right; right].
      * intros [?|[?|?]]; [by left | congruence | by right].
Qed.

Lemma variant_table_lookup vs k :
  is_Some (variant_table vs !! k) ↔ k ∈ variant_key <$> vs.
Proof.
  unfold variant_table. rewrite variant_table_lookup_aux.
  rewrite lookup_empty. split; [|by right].
  intros [[? ?]|?]; done.
Qed.

Lemma elem_of_variantDiff v tu1 tu2 :
  v ∈ variantDiff tu1 tu2 ↔
  v ∈ tu_variants tu2 ∧ variant_key v ∉ vkeys tu1.
Proof.
  unfold variantDiff. rewrite list_elem_of_filter.
  rewrite variant_table_lookup. unfold vkeys. tauto.
Qed.

(** ** The unit built by [diff] *)

Lemma diff_unit_key tu vd : unit_key (diff_unit tu vd) = unit_key tu.
Proof.
  unfold diff_unit. by rewrite unit_addVariants_key, unit_addVariant_key.
Qed.


Lemma diff_unit_variants tu vd :
  ∃ extra,
    tu_variants (diff_unit tu vd) =
      mkVariant (tu_sourceLocale tu) (tu_source tu) :: extra ∧
    (∀ v, v ∈ extra → v ∈ vd) ∧
    NoDup (vkeys (diff_unit tu vd)) ∧
    (∀ k, k ∈ vkeys (diff_unit tu vd) ↔
          k = variant_key (mkVariant (tu_sourceLocale tu) (tu_source tu)) ∨
          k ∈ variant_key <$> vd).
Proof.
  unfold diff_unit.
  set (nu := new_unit _ _ _ _ _).
  set (sv := mkVariant _ _).
  assert (Hone : unit_addVariant nu sv = set_variants nu [sv]).
  { unfold unit_addVariant. rewrite decide_False; [done|].
    simpl. apply not_elem_of_nil. }
  destruct (unit_addVariants_prefix (unit_addVariant nu sv) vd)
    as (extra & Heq & Hsub).
  exists extra. rewrite Heq, Hone. simpl. split; [done|]. split; [done|].
  split.
  - apply unit_addVariants_NoDup. unfold vkeys; simpl.
    apply NoDup_singleton.
  - intros k. rewrite vkeys_addVariants. unfold vkeys; simpl.
    by rewrite list_elem_of_singleton.
Qed.

(** ** [diff] *)

Lemma get_unit_app st st0 news r :
  units st = units st0 ++ news → r < length (units st0) →
  get_unit st r = get_unit st0 r.
Proof.
  intros Hu Hr. unfold get_unit. rewrite Hu. by apply lookup_total_app_l.
Qed.

Lemma get_doc_app st st0 (ds : list (TMX UKey)) d :
  docs st = docs st0 ++ ds → d < length (docs st0) →
  get_doc st d = get_doc st0 d.
Proof.
  intros Hd Hlt. unfold get_doc. rewrite Hd. by apply lookup_total_app_l.
Qed.

Lemma get_doc_app_new st st0 (D : TMX UKey) :
  docs st = docs st0 ++ [D] → get_doc st (length (docs st0)) = D.
Proof.
  intros Hd. unfold get_doc. rewrite Hd.
  rewrite lookup_total_app_r by lia. by rewrite Nat.sub_diag.
Qed.

Lemma reports_mono st0 st st' this r n news :
  units st' = units st ++ news →
  reports st0 st this r n → reports st0 st' this r n.
Proof.
  intros Hu. unfold reports.
  destruct (tuhash (get_doc st0 this) !! hashKey st0 r); [|done].
  intros [Hn Hl]. split; [done|]. rewrite Hu. by apply lookup_app_l_Some.
Qed.

(** Adding a unit whose key the result document does not know yet. *)
Lemma diff_inv_push st0 this pre st r n :
  diff_inv st0 this pre st →
  hashKey st n = hashKey st0 r →
  hashKey st0 r ∉ hashKey st0 <$> pre →
  reported st0 this r = true →
  reports st0 st this r n →
  diff_inv st0 this (pre ++ [r])
           (addTranslationUnit (length (docs st0)) n st).
Proof.
  intros (news & D & Hu & Hd & Hhd & Hdom & Hrep) Hkey Hfresh Hrd Hr.
  rewrite addTranslationUnit_unfold.
  rewrite (get_doc_app_new _ _ _ Hd), Hkey.
  destruct (tuhash D !! hashKey st0 r) as [x|] eqn:Hlook.
  { exfalso. apply Hfresh, Hdom. by eexists. }
  exists news, (set_tu D (tu D ++ [n]) (<[hashKey st0 r := n]> (tuhash D))).
  split; [done|]. split.
  { simpl. rewrite Hd. rewrite insert_app_r_alt by lia.
    by rewrite Nat.sub_diag. }
  split; [done|]. split.
  - simpl. intros k Hk. rewrite fmap_app. apply elem_of_app.
    destruct (decide (hashKey st0 r = k)) as [<-|Hne].
    + right. by apply list_elem_of_singleton.
    + left. apply Hdom. by rewrite lookup_insert_ne in Hk.
  - simpl. rewrite List.filter_app. simpl. rewrite Hrd.
    apply Forall2_app.
    + eapply Forall2_impl; [exact Hrep|]. intros a b Hab.
      eapply reports_mono with (news := []); [|exact Hab].
      by rewrite app_nil_r.
    + constructor; [|constructor].
      eapply reports_mono with (news := []); [|exact Hr].
      by rewrite app_nil_r.
Qed.

Lemma diff_step_inv st0 this pre st r :
  this < length (docs st0) →
  (∀ k t, tuhash (get_doc st0 this) !! k = Some t →
          t < length (units st0)) →
  r < length (units st0) →
  hashKey st0 r ∉ hashKey st0 <$> pre →
  diff_inv st0 this pre st →
  diff_inv st0 this (pre ++ [r])
           (diffed_step this (length (docs st0)) st r).
Proof.
  intros Hthis Hidx Hr Hfresh Hinv.
  pose proof Hinv as (news & D & Hu & Hd & Hhd & Hdom & Hrep).
  assert (Hgr : get_unit st r = get_unit st0 r)
    by (by eapply get_unit_app).
  assert (Hgd : get_doc st this = get_doc st0 this)
    by (by eapply get_doc_app).
  unfold diffed_step. rewrite Hgr, Hgd.
  fold (hashKey st0 r).
  destruct (tuhash (get_doc st0 this) !! hashKey st0 r) as [t|] eqn:Hlook.
  - assert (Hgt : get_unit st t = get_unit st0 t).
    { eapply get_unit_app; [done|]. by eapply Hidx. }
    rewrite Hgt.
    destruct (variantDiff (get_unit st0 t) (get_unit st0 r))
      as [|v vd] eqn:Hvd.
    + (* nothing differs: the unit is not reported *)
      exists news, D. repeat (split; [done|]). split.
      { intros k Hk. rewrite fmap_app. apply elem_of_app. left.
        by apply Hdom. }
      rewrite List.filter_app. simpl. unfold reported at 2.
      rewrite Hlook, Hvd. by rewrite app_nil_r.
    + (* a new unit is stored and added *)
      set (nu := diff_unit (get_unit st0 r) (v :: vd)).
      change (alloc_unit nu st) with
        (length (units st), mkStore (units st ++ [nu]) (docs st) (log st)).
      cbv iota beta.
      set (st2 := mkStore (units st ++ [nu]) (docs st) (log st)).
      assert (Hinv2 : diff_inv st0 this pre st2).
      { exists (news ++ [nu]), D. split.
        { simpl. by rewrite Hu, app_assoc. }
        repeat (split; [done|]).
        eapply Forall2_impl; [exact Hrep|]. intros a b Hab.
        by eapply reports_mono with (news := [nu]). }
      apply diff_inv_push; try done.
      * unfold hashKey, get_unit, st2; simpl.
        rewrite lookup_total_app_r by lia. rewrite Nat.sub_diag. simpl.
        apply diff_unit_key.
      * unfold reported. by rewrite Hlook, Hvd.
      * unfold reports. rewrite Hlook. split.
        -- rewrite Hu, length_app. lia.
        -- unfold st2; simpl. rewrite lookup_app_r by lia.
           rewrite Nat.sub_diag. simpl. by rewrite Hvd.
  - apply diff_inv_push; try done.
    + unfold hashKey. by rewrite Hgr.
    + unfold reported. by rewrite Hlook.
    + unfold reports. by rewrite Hlook.
Qed.

Lemma diff_loop_inv st0 this l :
  this < length (docs st0) →
  (∀ k t, tuhash (get_doc st0 this) !! k = Some t →
          t < length (units st0)) →
  ∀ pre st,
    NoDup (hashKey st0 <$> (pre ++ l)) →
    Forall (λ r, r < length (units st0)) l →
    diff_inv st0 this pre st →
    diff_inv st0 this (pre ++ l)
             (foldl (diffed_step this (length (docs st0))) st l).
Proof.
  intros Hthis Hidx.
  induction l as [|r l IH]; intros pre st Hnd Hvalid Hinv; simpl.
  - by rewrite app_nil_r.
  - apply Forall_cons in Hvalid as [Hr Hvalid].
    replace (pre ++ r :: l) with ((pre ++ [r]) ++ l) in *
      by (by rewrite <- app_assoc).
    apply IH; [done|done|].
    apply diff_step_inv; try done.
    rewrite !fmap_app in Hnd. simpl in Hnd.
    apply NoDup_app in Hnd as [Hnd _].
    apply NoDup_app in Hnd as (_ & Hdisj & _).
    intros Hin. apply (Hdisj _ Hin). by left.
Qed.

(** In a document whose unit list and index agree, the units of the list
    have pairwise distinct identity keys. *)
Lemma indexed_NoDup_keys st d :
  indexed st d → NoDup (hashKey st <$> tu (get_doc st d)).
Proof.
  intros (Hnd & Hall & _). rewrite Forall_forall in Hall.
  apply NoDup_fmap_2_strong; [|done].
  intros x y Hx Hy Heq.
  destruct (Hall x Hx) as [_ Hlx]. destruct (Hall y Hy) as [_ Hly].
  rewrite Heq in Hlx. congruence.
Qed.

Lemma indexed_valid st d :
  indexed st d → Forall (λ r, r < length (units st)) (tu (get_doc st d)).
Proof.
  intros (_ & Hall & _). eapply Forall_impl; [exact Hall|].
  by intros r [? _].
Qed.

Lemma indexed_entries_valid st d k t :
  indexed st d → tuhash (get_doc st d) !! k = Some t →
  t < length (units st).
Proof.
  intros (_ & Hall & Hmap) Hk. rewrite Forall_forall in Hall.
  destruct (Hmap k t Hk) as [Hin _]. by destruct (Hall t Hin).
Qed.

(** What [diff] computes. *)
Lemma diff_spec st this other :
  wf_doc st this → wf_doc st other →
  (diffed this other st).1 = length (docs st) ∧
  diff_inv st this (tu (get_doc st other)) (diffed this other st).2.
Proof.
  intros [Hthis Hithis] [Hother Hiother]. unfold diffed.
  change (alloc_doc ?t st) with
    (length (docs st), mkStore (units st) (docs st ++ [t]) (log st)).
  cbv iota beta. simpl. split; [done|].
  set (D := new_TMX (derived_options (get_doc st this))).
  set (st1 := mkStore (units st) (docs st ++ [D]) (log st)).
  assert (Hgo : get_doc st1 other = get_doc st other).
  { by apply get_doc_app with (ds := [D]). }
  rewrite Hgo.
  apply (diff_loop_inv st this (tu (get_doc st other)) Hthis) with
    (pre := []).
  - intros k t. by apply indexed_entries_valid.
  - by apply indexed_NoDup_keys.
  - by apply indexed_valid.
  - exists [], D. split; [by rewrite app_nil_r|]. split; [done|].
    split; [done|]. split; [|constructor].
    intros k [x Hx].
    change (tuhash D) with (∅ : gmap UKey nat) in Hx.
    by rewrite lookup_empty in Hx.
Qed.

(** *** The method and the store it leaves *)

Lemma diff_step_run this difftmx r st :
  diff_step this difftmx r st =
  if diff_raises st this r
  then (Thrown (PlainError
          "Missing required parameters in the TranslationUnit constructor"),
        st)
  else (Returned tt, diffed_step this difftmx st r).
Proof.
  unfold diff_step, diff_raises, diffed_step, hashKey, gets, mbind, M_bind.
  destruct (tuhash (get_doc st this) !! unit_key (get_unit st r))
    as [t|]; [|done].
  destruct (variantDiff (get_unit st t) (get_unit st r)) as [|v vd];
    [done|].
  unfold TranslationUnit_new, diff_unit.
  destruct (tu_source (get_unit st r)) as [src|]; [|done].
  by destruct (tu_sourceLocale (get_unit st r)) as [loc|].
Qed.

(** The loop of [diff] gets through a prefix of the list: all of it when
    it returns, and the units before the first one that raises
    otherwise. *)
Lemma diff_loop_run this difftmx l i st :
  ∃ pre suf,
    l = pre ++ suf ∧
    (forEach_from (λ r _, diff_step this difftmx r) l i st).2 =
      foldl (diffed_step this difftmx) st pre ∧
    Forall (λ r, ∃ pre1 pre2, pre = pre1 ++ r :: pre2 ∧
              diff_raises (foldl (diffed_step this difftmx) st pre1) this r
                = false) pre ∧
    (((forEach_from (λ r _, diff_step this difftmx r) l i st).1 =
        Returned tt ∧ suf = []) ∨
     ∃ r suf',
       (forEach_from (λ r _, diff_step this difftmx r) l i st).1 =
         Thrown (PlainError
           "Missing required parameters in the TranslationUnit constructor") ∧
       suf = r :: suf' ∧
       diff_raises (foldl (diffed_step this difftmx) st pre) this r = true).
Proof.
  revert i st. induction l as [|r l IH]; intros i st.
  - exists [], []. split; [done|]. split; [done|]. split; [done|].
    by left.
  - cbn [forEach_from]. unfold mbind, M_bind.
    rewrite diff_step_run.
    destruct (diff_raises st this r) eqn:Hr.
    + exists [], (r :: l). split; [done|]. split; [done|]. split; [done|].
      right. by exists r, l.
    + destruct (IH (S i) (diffed_step this difftmx st r))
        as (pre & suf & -> & Hst & Hpre & Hout).
      exists (r :: pre), suf. split; [done|]. split; [exact Hst|].
      split; [|exact Hout].
      constructor.
      * by exists [], pre.
      * eapply Forall_impl; [exact Hpre|].
        intros x (p1 & p2 & -> & Hx). by exists (r :: p1), p2.
Qed.

(** The loop of [diff] sees the units of both documents as they were. *)
Lemma diff_raises_stable st0 this pre st r :
  this < length (docs st0) →
  (∀ k t, tuhash (get_doc st0 this) !! k = Some t →
          t < length (units st0)) →
  r < length (units st0) →
  diff_inv st0 this pre st →
  diff_raises st this r = diff_raises st0 this r.
Proof.
  intros Hthis Hidx Hr (news & D & Hu & Hd & _).
  unfold diff_raises, hashKey.
  rewrite (get_unit_app _ _ _ _ Hu Hr).
  rewrite (get_doc_app _ _ _ _ Hd Hthis).
  destruct (tuhash (get_doc st0 this) !! unit_key (get_unit st0 r))
    as [t|] eqn:Ht; [|done].
  by rewrite (get_unit_app _ _ _ _ Hu (Hidx _ _ Ht)).
Qed.

(** What a run of [diff] does: it allocates the result, gets through a
    prefix of the units of the other document, none of which raises, and
    either returns the result or raises on the next unit. *)
Lemma diff_run st this other :
  wf_doc st this → wf_doc st other →
  ∃ pre suf,
    tu (get_doc st other) = pre ++ suf ∧
    (diff this other st).2 =
      foldl (diffed_step this (length (docs st)))
        (alloc_doc (new_TMX (derived_options (get_doc st this))) st).2
        pre ∧
    diff_inv st this pre (diff this other st).2 ∧
    Forall (λ r, diff_raises st this r = false) pre ∧
    (((diff this other st).1 = Returned (length (docs st)) ∧ suf = []) ∨
     ∃ r suf',
       (diff this other st).1 =
         Thrown (PlainError
           "Missing required parameters in the TranslationUnit constructor") ∧
       suf = r :: suf' ∧ diff_raises st this r = true).
Proof.
  intros [Hthis Hithis] [Hother Hiother].
  set (D := new_TMX (derived_options (get_doc st this))).
  set (st1 := mkStore (units st) (docs st ++ [D]) (log st)).
  assert (Hgo : get_doc st1 other = get_doc st other).
  { by apply get_doc_app with (ds := [D]). }
  assert (Hidx : ∀ k t, tuhash (get_doc st this) !! k = Some t →
                        t < length (units st)).
  { intros k t. by apply indexed_entries_valid. }
  assert (Hinv0 : diff_inv st this [] st1).
  { exists [], D. split; [by rewrite app_nil_r|]. split; [done|].
    split; [done|]. split; [|constructor].
    intros k [x Hx].
    change (tuhash D) with (∅ : gmap UKey nat) in Hx.
    by rewrite lookup_empty in Hx. }
  assert (Hloop : ∀ pre suf, tu (get_doc st other) = pre ++ suf →
    diff_inv st this pre
      (foldl (diffed_step this (length (docs st))) st1 pre)).
  { intros pre suf Hsplit.
    apply (diff_loop_inv st this pre Hthis Hidx []); [| |done].
    - pose proof (indexed_NoDup_keys _ _ Hiother) as Hnd.
      rewrite Hsplit, fmap_app in Hnd.
      by apply NoDup_app in Hnd as [Hnd _].
    - pose proof (indexed_valid _ _ Hiother) as Hv.
      rewrite Hsplit in Hv. by apply Forall_app in Hv as [Hv _]. }
  assert (Hrun : diff this other st =
    let '(out, s) :=
      forEach_from (λ r _, diff_step this (length (docs st)) r)
        (tu (get_doc st other)) 0 st1 in
    (match out with
     | Returned _ => Returned (length (docs st))
     | Thrown e => Thrown e
     end, s)).
  { unfold diff, gets, mbind, M_bind, forEach. cbn [alloc_doc].
    fold D. fold st1. rewrite Hgo.
    by destruct (forEach_from _ (tu (get_doc st other)) 0 st1)
      as [[[]|e] s]. }
  destruct (diff_loop_run this (length (docs st)) (tu (get_doc st other))
              0 st1) as (pre & suf & Hsplit & Hst & Hpre & Hout).
  assert (Hvalid : Forall (λ r, r < length (units st))
                          (tu (get_doc st other)))
    by (by apply indexed_valid).
  exists pre, suf. split; [done|].
  rewrite Hrun.
  destruct (forEach_from _ (tu (get_doc st other)) 0 st1) as [out s].
  simpl in Hst, Hout. subst s. split; [by destruct out|].
  split; [destruct out; by eapply Hloop|]. split.
  - apply Forall_forall. intros r Hin.
    rewrite Forall_forall in Hpre.
    destruct (Hpre r Hin) as (p1 & p2 & Hp & Hno).
    rewrite <- Hno. symmetry.
    apply (diff_raises_stable st this p1); [done|done| |].
    + rewrite Forall_forall in Hvalid. apply Hvalid.
      rewrite Hsplit. apply elem_of_app. by left.
    + apply (Hloop p1 (r :: p2 ++ suf)).
      rewrite Hsplit, Hp. by rewrite <- app_assoc.
  - destruct Hout as [[-> ->]|(r & suf' & -> & -> & Hr)].
    + by left.
    + right. exists r, suf'. split; [done|]. split; [done|].
      rewrite <- Hr. symmetry.
      apply (diff_raises_stable st this pre); [done|done| |].
      * rewrite Forall_forall in Hvalid. apply Hvalid.
        rewrite Hsplit. apply elem_of_app. right. by left.
      * by eapply Hloop.
Qed.

(** [diff] returns exactly when it raises on no unit of the other
    document, and then with the result and the store of [diffed]. *)
Lemma diff_returns st this other :
  wf_doc st this → wf_doc st other →
  Forall (λ r, diff_raises st this r = false) (tu (get_doc st other)) →
  diff this other st =
    (Returned (diffed this other st).1, (diffed this other st).2).
Proof.
  intros Hthis Hother Hno.
  destruct (diff_run st this other Hthis Hother)
    as (pre & suf & Hsplit & Hst & _ & _ & Hout).
  destruct Hout as [[Hret ->]|(r & suf' & _ & -> & Hr)].
  - rewrite app_nil_r in Hsplit. subst pre.
    destruct (diff this other st) as [out s]. simpl in *. subst out s.
    unfold diffed. cbn [alloc_doc fst snd].
    set (D := new_TMX (derived_options (get_doc st this))).
    assert (Hgo : get_doc (mkStore (units st) (docs st ++ [D]) (log st))
                    other = get_doc st other).
    { apply get_doc_app with (ds := [D]); [done|]. by destruct Hother. }
    by rewrite Hgo.
  - rewrite Forall_forall in Hno.
    rewrite Hno in Hr; [done|]. rewrite Hsplit.
    apply elem_of_app. right. by left.
Qed.

Lemma diff_returned st this other d st' :
  wf_doc st this → wf_doc st other →
  diff this other st = (Returned d, st') →
  d = (diffed this other st).1 ∧ st' = (diffed this other st).2 ∧
  Forall (λ r, diff_raises st this r = false) (tu (get_doc st other)).
Proof.
  intros Hthis Hother Hrun.
  destruct (diff_run st this other Hthis Hother)
    as (pre & suf & Hsplit & Hst & _ & Hpre & Hout).
  rewrite Hrun in Hst, Hout. simpl in Hst, Hout.
  destruct Hout as [[Hret ->]|(r & suf' & Hthrown & _)]; [|done].
  rewrite app_nil_r in Hsplit. subst pre.
  assert (Hno := Hpre).
  rewrite (diff_returns st this other Hthis Hother Hno) in Hrun.
  by injection Hrun as <- <-.
Qed.

(** ** [merge] *)

(** Filtering out the variants whose key the left unit has, as
    [mergeVariants] does, changes nothing: [addVariants] skips them. *)
Lemma unit_addVariants_filter u u' vs :
  (∀ k, k ∈ vkeys u → k ∈ vkeys u') →
  unit_addVariants u'
    (filter (λ v, ¬ is_Some (variant_table (tu_variants u) !! variant_key v))
            vs) =
  unit_addVariants u' vs.
Proof.
  revert u'. induction vs as [|v vs IH]; intros u' Hsub; [done|].
  rewrite filter_cons. case_decide as Hv.
  - simpl. apply IH. intros k Hk. apply vkeys_addVariant. left.
    by apply Hsub.
  - simpl. rewrite (unit_addVariant_known u' v).
    + by apply IH.
    + apply Hsub. apply variant_table_lookup.
      destruct (decide (is_Some (variant_table (tu_variants u) !!
                                   variant_key v))); [done|].
      by exfalso.
Qed.

Lemma mergeVariants_addVariants m r st :
  mergeVariants m r st = addVariants m (tu_variants (get_unit st r)) st.
Proof.
  unfold mergeVariants, addVariants. by rewrite unit_addVariants_filter.
Qed.

Lemma absorb_same_heap d st st' r :
  same_heap st st' → same_heap (absorb d st r) (absorb d st' r).
Proof.
  destruct st as [us ds lg], st' as [us' ds' lg'].
  intros [Hu Hd]; simpl in *; subst us' ds'.
  unfold absorb, hashKey, get_doc, get_unit; simpl.
  by destruct (tuhash (ds !!! d) !! unit_key (us !!! r)).
Qed.

Lemma addTranslationUnit_absorb d st r :
  same_heap (addTranslationUnit d r st) (absorb d st r).
Proof.
  rewrite addTranslationUnit_unfold. unfold absorb.
  by destruct (tuhash (get_doc st d) !! hashKey st r).
Qed.

Lemma merge_step_absorb d st r :
  same_heap (merge_step d st r) (absorb d st r).
Proof.
  unfold merge_step.
  destruct (tuhash (get_doc st d) !! hashKey st r) as [m|] eqn:Hl.
  - rewrite mergeVariants_addVariants. unfold absorb. by rewrite Hl.
  - pose proof (addTranslationUnit_absorb d st r) as Ha.
    unfold absorb in *. by rewrite Hl in *.
Qed.

Lemma merge_inv_same_heap st0 this pre st st' :
  same_heap st st' → merge_inv st0 this pre st → merge_inv st0 this pre st'.
Proof.
  intros [Hu Hd] (D & HD & Hlen & Hrest). exists D.
  rewrite <- Hd, <- Hu. split; [done|]. split; [done|].
  unfold get_unit in *. by rewrite <- Hu.
Qed.

Lemma same_key_variants_snoc st l r m :
  same_key_variants st (l ++ [r]) m =
  same_key_variants st l m ++
  (if decide (hashKey st r = hashKey st m)
   then tu_variants (get_unit st r) else []).
Proof.
  unfold same_key_variants. rewrite filter_app, fmap_app, concat_app.
  f_equal. rewrite filter_cons, filter_nil.
  case_decide; simpl; [by rewrite app_nil_r | done].
Qed.

Lemma same_key_variants_none st l m :
  (∀ r, r ∈ l → hashKey st r ≠ hashKey st m) →
  same_key_variants st l m = [].
Proof.
  intros Hne. unfold same_key_variants.
  induction l as [|r l IH]; [done|].
  rewrite filter_cons. rewrite decide_False by (apply Hne; by left).
  apply IH. intros r' Hr'. apply Hne. by right.
Qed.

Lemma unit_addVariants_own u : unit_addVariants u (tu_variants u) = u.
Proof.
  apply unit_addVariants_known. intros v Hv. by apply list_elem_of_fmap_2.
Qed.

Lemma merge_inv_hashKey st0 this pre st r :
  merge_inv st0 this pre st → hashKey st r = hashKey st0 r.
Proof.
  intros (D & _ & _ & _ & _ & _ & _ & _ & _ & Hunits).
  unfold hashKey. rewrite Hunits. case_decide; [|done].
  apply unit_addVariants_key.
Qed.

Lemma merge_inv_step st0 this pre st r :
  Forall (λ r, r < length (units st0)) pre →
  merge_inv st0 this pre st →
  merge_inv st0 this (pre ++ [r]) (absorb (length (docs st0)) st r).
Proof.
  intros Hvalid Hinv.
  pose proof (merge_inv_hashKey _ _ _ _ r Hinv) as Hkey.
  destruct Hinv as
    (D & HD & Hlen & Hhd & Hnd & Htu & Hidx & Hcov & Hfirst & Hunits).
  rewrite Forall_forall in Hvalid.
  unfold absorb. rewrite (get_doc_app_new _ _ _ HD), Hkey.
  set (k := hashKey st0 r) in *.
  destruct (tuhash D !! k) as [m|] eqn:Hlook.
  - (* the key is known: its unit absorbs the variants of [r] *)
    destruct (Hidx k m Hlook) as [Hm Hkm].
    destruct (Htu m Hm) as [Hmpre _].
    assert (Hmlt : m < length (units st)) by (rewrite Hlen; by apply Hvalid).
    exists D. split; [done|]. split.
    { unfold addVariants; simpl. by rewrite length_insert. }
    split; [done|]. split; [done|]. split.
    { intros m' Hm'. destruct (Htu m' Hm') as [? ?].
      split; [|done]. apply elem_of_app. by left. }
    split; [done|]. split.
    { intros r' [Hr'| ->%list_elem_of_singleton]%elem_of_app.
      - by apply Hcov.
      - by eexists. }
    split.
    { intros m' Hm'. destruct (Hfirst m' Hm') as (l1 & l2 & -> & Hl1).
      exists l1, (l2 ++ [r]). split; [|done].
      by rewrite <- app_assoc. }
    intros r'. rewrite get_unit_addVariants.
    rewrite same_key_variants_snoc. fold k.
    destruct (decide (m = r')) as [<-|Hne].
    + rewrite decide_True by done. rewrite decide_True by done.
      rewrite (decide_True (P := k = hashKey st0 m)) by done.
      rewrite unit_addVariants_app.
      rewrite (Hunits m), decide_True by done.
      rewrite (Hunits r).
      case_decide as Hr.
      * (* [r] is the stored unit itself *)
        assert (r = m) as ->.
        { destruct (Htu r Hr) as [_ Hlr]. fold k in Hlr. congruence. }
        rewrite unit_addVariants_own.
        symmetry. apply unit_addVariants_known.
        intros v Hv. apply vkeys_addVariants. left.
        by apply list_elem_of_fmap_2.
      * done.
    + rewrite decide_False by (by intros [? _]).
      rewrite (Hunits r'). case_decide as Hr'; [|done].
      rewrite decide_False; [by rewrite app_nil_r|].
      intros Heq. destruct (Htu r' Hr') as [_ Hlr'].
      rewrite <- Heq in Hlr'. congruence.
  - (* the key is new: [r] joins the result document *)
    assert (Hrnew : r ∉ tu D).
    { intros Hr. destruct (Htu r Hr) as [_ Hlr]. fold k in Hlr.
      congruence. }
    exists (set_tu D (tu D ++ [r]) (<[k := r]> (tuhash D))).
    split.
    { simpl. rewrite HD. rewrite insert_app_r_alt by lia.
      by rewrite Nat.sub_diag. }
    split; [done|]. split; [done|]. simpl. split.
    { apply NoDup_app. split; [done|]. split; [|apply NoDup_singleton].
      intros x Hx ->%list_elem_of_singleton. done. }
    split.
    { intros m' [Hm'| ->%list_elem_of_singleton]%elem_of_app.
      - destruct (Htu m' Hm') as [Hpre Hl]. split.
        + apply elem_of_app. by left.
        + rewrite lookup_insert_ne; [done|]. intros Heq.
          rewrite <- Heq in Hl. congruence.
      - split; [|apply lookup_insert_eq].
        apply elem_of_app. right. by apply list_elem_of_singleton. }
    split.
    { intros k' m'. destruct (decide (k = k')) as [<-|Hne].
      - rewrite lookup_insert_eq. intros [= <-]. split; [|done].
        apply elem_of_app. right. by apply list_elem_of_singleton.
      - rewrite lookup_insert_ne by done. intros Hl.
        destruct (Hidx k' m' Hl) as [? ?]. split; [|done].
        apply elem_of_app. by left. }
    split.
    { intros r' [Hr'| ->%list_elem_of_singleton]%elem_of_app.
      - destruct (decide (k = hashKey st0 r')) as [<-|Hne].
        + rewrite lookup_insert_eq. by eexists.
        + rewrite lookup_insert_ne by done. by apply Hcov.
      - fold k. rewrite lookup_insert_eq. by eexists. }
    split.
    { intros m' [Hm'| ->%list_elem_of_singleton]%elem_of_app.
      - destruct (Hfirst m' Hm') as (l1 & l2 & -> & Hl1).
        exists l1, (l2 ++ [r]). split; [|done].
        by rewrite <- app_assoc.
      - exists pre, []. split; [done|].
        intros x Hx Heq. destruct (Hcov x Hx) as [y Hy].
        fold k in Heq. rewrite Heq in Hy. congruence. }
    intros r'.
    change (get_unit (set_doc _ _ st) r') with (get_unit st r').
    rewrite (Hunits r'). rewrite same_key_variants_snoc. fold k.
    destruct (decide (r' = r)) as [->|Hne].
    + rewrite decide_False by done.
      rewrite decide_True
        by (apply elem_of_app; right; by apply list_elem_of_singleton).
      rewrite decide_True by done.
      rewrite same_key_variants_none; [by rewrite unit_addVariants_own|].
      intros x Hx Heq. destruct (Hcov x Hx) as [y Hy].
      fold k in Heq. rewrite Heq in Hy. congruence.
    + case_decide as Hr'.
      * rewrite decide_True by (apply elem_of_app; by left).
        rewrite decide_False; [by rewrite app_nil_r|].
        intros Heq. destruct (Htu r' Hr') as [_ Hl].
        rewrite <- Heq in Hl. congruence.
      * rewrite decide_False; [done|].
        intros [?| ->%list_elem_of_singleton]%elem_of_app; done.
Qed.

Lemma merge_inv_fold st0 this (step : Store → uref → Store) l :
  (∀ st r, same_heap (step st r) (absorb (length (docs st0)) st r)) →
  ∀ pre st,
    Forall (λ r, r < length (units st0)) (pre ++ l) →
    merge_inv st0 this pre st →
    merge_inv st0 this (pre ++ l) (foldl step st l).
Proof.
  intros Hstep. induction l as [|r l IH]; intros pre st Hvalid Hinv; simpl.
  - by rewrite app_nil_r.
  - replace (pre ++ r :: l) with ((pre ++ [r]) ++ l) in *
      by (by rewrite <- app_assoc).
    apply IH; [done|].
    eapply merge_inv_same_heap.
    + split; symmetry; apply Hstep.
    + apply merge_inv_step; [|done].
      apply Forall_app in Hvalid as [Hvalid _].
      by apply Forall_app in Hvalid as [Hvalid _].
Qed.

Lemma merge_inv_get_doc st0 this pre st d :
  merge_inv st0 this pre st → d < length (docs st0) →
  get_doc st d = get_doc st0 d.
Proof. intros (D & HD & _) Hd. by eapply get_doc_app. Qed.

Lemma merge_inv_outer st0 this tmxs :
  ∀ pre st,
    Forall (λ t, t < length (docs st0) ∧
                 Forall (λ r, r < length (units st0))
                        (tu (get_doc st0 t))) tmxs →
    Forall (λ r, r < length (units st0)) pre →
    merge_inv st0 this pre st →
    merge_inv st0 this
      (pre ++ concat ((λ t, tu (get_doc st0 t)) <$> tmxs))
      (foldl (λ st tmx,
                foldl (merge_step (length (docs st0))) st
                      (tu (get_doc st tmx)))
             st tmxs).
Proof.
  induction tmxs as [|t tmxs IH]; intros pre st Hwf Hvalid Hinv; simpl.
  - by rewrite app_nil_r.
  - apply Forall_cons in Hwf as [[Ht Htv] Hwf].
    rewrite app_assoc. apply IH; [done| |].
    + apply Forall_app. by split.
    + rewrite (merge_inv_get_doc _ _ _ _ _ Hinv Ht).
      apply merge_inv_fold; [|by apply Forall_app|done].
      intros st' r. apply merge_step_absorb.
Qed.

(** What [merge] computes for a non-empty list of documents. *)
Lemma merge_spec st this tmxs :
  tmxs ≠ [] →
  wf_doc st this → Forall (wf_doc st) tmxs →
  (merge this tmxs st).1 = length (docs st) ∧
  merge_inv st this (merge_inputs st this tmxs) (merge this tmxs st).2.
Proof.
  intros Hne [Hthis Hithis] Hwf. unfold merge.
  destruct tmxs as [|t0 tmxs0]; [done|].
  set (tmxs := t0 :: tmxs0) in *.
  change (alloc_doc ?t st) with
    (length (docs st), mkStore (units st) (docs st ++ [t]) (log st)).
  cbv iota beta. cbn [fst snd]. split; [done|].
  set (D := new_TMX (derived_options (get_doc st this))).
  set (st1 := mkStore (units st) (docs st ++ [D]) (log st)).
  assert (Hinv1 : merge_inv st this [] st1).
  { exists D. split; [done|]. split; [done|]. split; [done|].
    split; [constructor|]. split; [by intros m Hm%elem_of_nil|].
    split.
    { intros k m Hk. change (tuhash D) with (∅ : gmap UKey nat) in Hk.
      by rewrite lookup_empty in Hk. }
    split; [by intros r Hr%elem_of_nil|].
    split; [by intros m Hm%elem_of_nil|].
    intros r. by rewrite decide_False by apply not_elem_of_nil. }
  assert (Hgt : get_doc st1 this = get_doc st this)
    by (by apply get_doc_app with (ds := [D])).
  rewrite Hgt. unfold merge_inputs.
  apply merge_inv_outer.
  - eapply Forall_impl; [exact Hwf|]. intros t [Ht Hit].
    split; [done|]. by apply indexed_valid.
  - by apply indexed_valid.
  - unfold addTranslationUnits.
    apply (merge_inv_fold st this
             (λ st' unit, addTranslationUnit (length (docs st)) unit st'))
      with (pre := []); [| |done].
    + intros st' r. apply addTranslationUnit_absorb.
    + by apply indexed_valid.
Qed.

(** *** First-seen variants *)

Lemma first_seen_app k vs ws :
  first_seen k (vs ++ ws) =
  match first_seen k vs with
  | Some v => Some v
  | None => first_seen k ws
  end.
Proof.
  unfold first_seen. rewrite filter_app.
  by destruct (filter (λ v, variant_key v = k) vs).
Qed.

Lemma first_seen_is_Some k vs :
  k ∈ variant_key <$> vs → is_Some (first_seen k vs).
Proof.
  intros (v & -> & Hv)%list_elem_of_fmap. unfold first_seen.
  assert (Hin : v ∈ filter (λ w, variant_key w = variant_key v) vs)
    by (by apply list_elem_of_filter).
  destruct (filter _ vs); [by apply elem_of_nil in Hin | by eexists].
Qed.

Lemma first_seen_addVariants k u vs :
  first_seen k (tu_variants (unit_addVariants u vs)) =
  first_seen k (tu_variants u ++ vs).
Proof.
  revert u. induction vs as [|v vs IH]; intros u; simpl.
  - by rewrite app_nil_r.
  - rewrite IH. unfold unit_addVariant. case_decide as Hin.
    + rewrite !first_seen_app.
      destruct (first_seen k (tu_variants u)) as [w|] eqn:Hw; [done|].
      unfold first_seen at 2. rewrite filter_cons.
      case_decide as Hk; [|done]. subst k.
      apply first_seen_is_Some in Hin. rewrite Hw in Hin.
      by destruct Hin.
    + simpl. by rewrite <- app_assoc.
Qed.

Lemma same_key_variants_first st l1 l2 m :
  (∀ x, x ∈ l1 → hashKey st x ≠ hashKey st m) →
  same_key_variants st (l1 ++ m :: l2) m =
  tu_variants (get_unit st m) ++ same_key_variants st l2 m.
Proof.
  intros Hl1. unfold same_key_variants.
  rewrite filter_app, fmap_app, concat_app.
  fold (same_key_variants st l1 m).
  rewrite same_key_variants_none by done.
  rewrite filter_cons, decide_True by done. done.
Qed.

Lemma elem_of_concat {A} (x : A) (ls : list (list A)) :
  x ∈ concat ls ↔ ∃ l, x ∈ l ∧ l ∈ ls.
Proof.
  rewrite list_elem_of_In, in_concat. split.
  - intros (l & Hl & Hx). exists l. by rewrite !list_elem_of_In.
  - intros (l & Hx & Hl). exists l. by rewrite <- !list_elem_of_In.
Qed.

Lemma elem_of_same_key_variants st l m v :
  v ∈ same_key_variants st l m ↔
  ∃ r, r ∈ l ∧ hashKey st r = hashKey st m ∧ v ∈ tu_variants (get_unit st r).
Proof.
  unfold same_key_variants. rewrite elem_of_concat. split.
  - intros (vs & Hv & (r & -> & Hr)%list_elem_of_fmap).
    apply list_elem_of_filter in Hr as [Hk Hr]. by exists r.
  - intros (r & Hr & Hk & Hv). exists (tu_variants (get_unit st r)).
    split; [done|]. apply list_elem_of_fmap. exists r. split; [done|].
    by apply list_elem_of_filter.
Qed.

Lemma elem_of_merge_inputs st this tmxs r :
  r ∈ merge_inputs st this tmxs ↔
  r ∈ tu (get_doc st this) ∨ ∃ t, t ∈ tmxs ∧ r ∈ tu (get_doc st t).
Proof.
  unfold merge_inputs. rewrite elem_of_app, elem_of_concat.
  split; (intros [?|H]; [by left | right]).
  - destruct H as (l & Hr & (t & -> & Ht)%list_elem_of_fmap). by exists t.
  - destruct H as (t & Ht & Hr). exists (tu (get_doc st t)).
    split; [done|]. apply list_elem_of_fmap. by exists t.
Qed.

(** C5: [merge] returns the receiver itself, in an unchanged store, when
    it is given no document. Given documents, it returns a new document
    whose units have pairwise distinct keys; a key is a key of the result
    exactly when it is a key of a unit of the receiver or of one of the
    given documents; the variant keys of a unit of the result are exactly
    the variant keys of the input units with its key; the variants the
    unit had are kept in place; and for every variant key the unit ends up
    with the variant that comes first among the variants of the input
    units with its key, taken in input order, so that a later variant with
    a colliding key never overwrites it. *)
Theorem merge_union_first_wins st this tmxs :
  wf_doc st this → Forall (wf_doc st) tmxs →
  (tmxs = [] → merge this tmxs st = (this, st)) ∧
  (tmxs ≠ [] →
   let n := (merge this tmxs st).1 in
   let st' := (merge this tmxs st).2 in
   let inputs := merge_inputs st this tmxs in
   n = length (docs st) ∧
   NoDup (ukeys st' n) ∧
   (∀ k, k ∈ ukeys st' n ↔
         k ∈ ukeys st this ∨ ∃ t, t ∈ tmxs ∧ k ∈ ukeys st t) ∧
   (∀ m, m ∈ tu (get_doc st' n) →
      m ∈ inputs ∧
      hashKey st' m = hashKey st m ∧
      (∀ k, k ∈ vkeys (get_unit st' m) ↔
            ∃ r, r ∈ inputs ∧ hashKey st r = hashKey st m ∧
                 k ∈ vkeys (get_unit st r)) ∧
      (∃ added, tu_variants (get_unit st' m) =
                tu_variants (get_unit st m) ++ added) ∧
      (∀ k, first_seen k (tu_variants (get_unit st' m)) =
            first_seen k (same_key_variants st inputs m)))).
Proof.
  intros Hthis Hwf. split; [by intros ->|].
  intros Hne n st' inputs.
  destruct (merge_spec st this tmxs Hne Hthis Hwf) as [Hn Hinv].
  fold n st' inputs in Hn, Hinv.
  assert (Hkey : ∀ r, hashKey st' r = hashKey st r)
    by (intros r; by eapply merge_inv_hashKey).
  destruct Hinv as
    (D & HD & Hlen & Hhd & Hnd & Htu & Hidx & Hcov & Hfirst & Hunits).
  assert (HgD : get_doc st' n = D)
    by (rewrite Hn; by apply get_doc_app_new).
  split; [done|]. unfold ukeys. rewrite HgD. split; [|split].
  - apply NoDup_fmap_2_strong; [|done].
    intros x y Hx Hy Heq. rewrite !Hkey in Heq.
    destruct (Htu x Hx) as [_ Hlx]. destruct (Htu y Hy) as [_ Hly].
    rewrite Heq in Hlx. congruence.
  - intros k.
    assert (Hk : k ∈ hashKey st' <$> tu D ↔ k ∈ hashKey st <$> inputs).
    { rewrite !list_elem_of_fmap. split.
      - intros (m & -> & Hm). exists m. rewrite Hkey.
        split; [done|]. by destruct (Htu m Hm).
      - intros (r & -> & Hr). destruct (Hcov r Hr) as [m Hm].
        destruct (Hidx _ _ Hm) as [Hin Hkm].
        exists m. by rewrite Hkey. }
    rewrite Hk. split.
    + intros (r & -> & Hr)%list_elem_of_fmap.
      apply elem_of_merge_inputs in Hr as [Hr|(t & Ht & Hr)].
      * left. by apply list_elem_of_fmap_2.
      * right. exists t. split; [done|]. by apply list_elem_of_fmap_2.
    + intros [(r & -> & Hr)%list_elem_of_fmap|
              (t & Ht & (r & -> & Hr)%list_elem_of_fmap)];
        apply list_elem_of_fmap_2; apply elem_of_merge_inputs;
        [by left | right; by exists t].
  - intros m Hm. destruct (Htu m Hm) as [Hin Hlm].
    destruct (Hfirst m Hm) as (l1 & l2 & Hsplit & Hl1).
    split; [done|]. split; [apply Hkey|].
    rewrite (Hunits m), decide_True by done.
    split; [|split].
    + intros k. rewrite vkeys_addVariants. split.
      * intros [Hk|(v & -> & Hv)%list_elem_of_fmap].
        -- by exists m.
        -- apply elem_of_same_key_variants in Hv as (r & Hr & Hkr & Hv).
           exists r. split; [done|]. split; [done|].
           by apply list_elem_of_fmap_2.
      * intros (r & Hr & Hkr & (v & -> & Hv)%list_elem_of_fmap).
        right. apply list_elem_of_fmap_2.
        apply elem_of_same_key_variants. by exists r.
    + destruct (unit_addVariants_prefix (get_unit st m)
                  (same_key_variants st inputs m)) as (extra & Heq & _).
      by exists extra.
    + intros k. rewrite first_seen_addVariants.
      rewrite Hsplit, same_key_variants_first by done.
      rewrite !first_seen_app.
      by destruct (first_seen k (tu_variants (get_unit st m))).
Qed.

(** ** The frame of [diff] and [merge], and what [diff] reports *)

Lemma diff_frame st this other :
  wf_doc st this → wf_doc st other →
  (diffed this other st).1 = length (docs st) ∧
  (∀ d, d < length (docs st) →
        get_doc (diffed this other st).2 d = get_doc st d) ∧
  (∀ r, r < length (units st) →
        get_unit (diffed this other st).2 r = get_unit st r).
Proof.
  intros Hthis Hother.
  destruct (diff_spec st this other Hthis Hother)
    as (Hn & news & D & Hu & Hd & _).
  split; [done|]. split.
  - intros d Hlt. by eapply get_doc_app.
  - intros r Hlt. by eapply get_unit_app.
Qed.

(** Whether [diff] returns or raises, the documents and units of the
    store are as they were. *)
Lemma diff_frame_run st this other :
  wf_doc st this → wf_doc st other →
  (∀ d, d < length (docs st) →
        get_doc (diff this other st).2 d = get_doc st d) ∧
  (∀ r, r < length (units st) →
        get_unit (diff this other st).2 r = get_unit st r) ∧
  (∀ d', (diff this other st).1 = Returned d' → d' = length (docs st)).
Proof.
  intros Hthis Hother.
  destruct (diff_run st this other Hthis Hother)
    as (pre & suf & _ & _ & (news & D & Hu & Hd & _) & _ & Hout).
  split; [|split].
  - intros d Hlt. by eapply get_doc_app.
  - intros r Hlt. by eapply get_unit_app.
  - intros d' Hret.
    destruct Hout as [[Hr _]|(r & suf' & Hr & _)]; congruence.
Qed.

Lemma merge_frame st this tmxs :
  tmxs ≠ [] → wf_doc st this → Forall (wf_doc st) tmxs →
  (merge this tmxs st).1 = length (docs st) ∧
  length (units (merge this tmxs st).2) = length (units st) ∧
  (∀ d, d < length (docs st) →
        get_doc (merge this tmxs st).2 d = get_doc st d).
Proof.
  intros Hne Hthis Hwf.
  destruct (merge_spec st this tmxs Hne Hthis Hwf)
    as (Hn & D & Hd & Hlen & _).
  split; [done|]. split; [done|].
  intros d Hlt. by eapply get_doc_app.
Qed.


(** C2, amended: whether [diff] returns or raises, it leaves every
    document and every unit of the store as it was, so the unit list, the
    index and the variant lists of the receiver and of the other document
    are unchanged; when it returns, it returns a newly allocated
    document, and it returns when no unit of the other document that it
    has to rebuild lacks a source text or a source locale. [merge] leaves
    every document of the store as it was, so the unit list and the index
    of the receiver and of every given document are unchanged, and it
    creates no unit; given at least one document it returns a newly
    allocated document, and given none it returns the receiver. *)
Theorem diff_merge_frame st this other tmxs :
  wf_doc st this → wf_doc st other → Forall (wf_doc st) tmxs →
  ((∀ d, d < length (docs st) →
         get_doc (diff this other st).2 d = get_doc st d) ∧
   (∀ r, r < length (units st) →
         get_unit (diff this other st).2 r = get_unit st r) ∧
   (∀ d', (diff this other st).1 = Returned d' → d' = length (docs st)) ∧
   (Forall (λ r, diff_raises st this r = false) (tu (get_doc st other)) →
    (diff this other st).1 = Returned (length (docs st)))) ∧
  ((tmxs = [] → merge this tmxs st = (this, st)) ∧
   (tmxs ≠ [] → (merge this tmxs st).1 = length (docs st)) ∧
   length (units (merge this tmxs st).2) = length (units st) ∧
   (∀ d, d < length (docs st) →
         get_doc (merge this tmxs st).2 d = get_doc st d)).
Proof.
  intros Hthis Hother Hwf. split.
  { destruct (diff_frame_run st this other Hthis Hother)
      as (Hd & Hu & Hnew).
    split; [done|]. split; [done|]. split; [done|].
    intros Hno. rewrite (diff_returns st this other Hthis Hother Hno).
    cbn [fst]. by destruct (diff_spec st this other Hthis Hother) as [-> _]. }
  destruct tmxs as [|t tmxs]; [done|].
  destruct (merge_frame st this (t :: tmxs)) as (Hn & Hlen & Hdocs);
    try done.
Qed.

(** ** Loops with an invariant over the elements already visited *)

Lemma hoare_foldM_pre {A B} (f : B → A → M B)
  (I : list A → B → Store → Prop) (E : Store → Prop) l :
  (∀ pre x b, hoare (I pre b) (f b x) (I (pre ++ [x])) E) →
  ∀ pre b, hoare (I pre b) (foldM f b l) (I (pre ++ l)) E.
Proof.
  intros Hf. induction l as [|x l IH]; intros pre b; simpl.
  - rewrite app_nil_r. by apply hoare_ret.
  - eapply hoare_bind; [apply Hf|]. intros b'.
    replace (pre ++ x :: l) with ((pre ++ [x]) ++ l)
      by (by rewrite <- app_assoc).
    apply IH.
Qed.

Lemma hoare_foldM_split {A B} (f : B → A → M B)
  (I : list A → B → Store → Prop) (E : Store → Prop) l :
  (∀ pre x suf b, l = pre ++ x :: suf →
     hoare (I pre b) (f b x) (I (pre ++ [x])) E) →
  ∀ b, hoare (I [] b) (foldM f b l) (I l) E.
Proof.
  intros Hf.
  assert (Hgen : ∀ l' pre b, l = pre ++ l' →
    hoare (I pre b) (foldM f b l') (I l) E).
  { induction l' as [|x l' IH]; intros pre b Hl; simpl.
    - rewrite app_nil_r in Hl. subst pre. by apply hoare_ret.
    - eapply hoare_bind; [by eapply Hf|]. intros b'.
      apply IH. by rewrite <- app_assoc. }
  intros b. by apply (Hgen l []).
Qed.

Lemma hoare_foldM_from_pre {A B} (f : B → A → nat → M B)
  (I : list A → B → Store → Prop) (E : Store → Prop) l :
  (∀ pre x b, hoare (I pre b) (f b x (length pre)) (I (pre ++ [x])) E) →
  ∀ pre b,
    hoare (I pre b) (foldM_from f b l (length pre)) (I (pre ++ l)) E.
Proof.
  intros Hf. induction l as [|x l IH]; intros pre b; simpl.
  - rewrite app_nil_r. by apply hoare_ret.
  - eapply hoare_bind; [apply Hf|]. intros b'.
    replace (pre ++ x :: l) with ((pre ++ [x]) ++ l)
      by (by rewrite <- app_assoc).
    replace (S (length pre)) with (length (pre ++ [x]))
      by (rewrite length_app; simpl; lia).
    apply IH.
Qed.

Lemma hoare_forEach_from_pre {A} (f : A → nat → M unit)
  (I : list A → Store → Prop) (E : Store → Prop) l :
  (∀ pre x, hoare (I pre) (f x (length pre)) (λ _, I (pre ++ [x])) E) →
  ∀ pre,
    hoare (I pre) (forEach_from f l (length pre)) (λ _, I (pre ++ l)) E.
Proof.
  intros Hf. induction l as [|x l IH]; intros pre; simpl.
  - rewrite app_nil_r. by apply hoare_ret.
  - eapply hoare_bind; [apply Hf|]. intros [].
    replace (pre ++ x :: l) with ((pre ++ [x]) ++ l)
      by (by rewrite <- app_assoc).
    replace (S (length pre)) with (length (pre ++ [x]))
      by (rewrite length_app; simpl; lia).
    apply IH.
Qed.

(** ** Plural resources *)

Lemma unit_addProperties_frame u ps :
  tu_source (unit_addProperties u ps) = tu_source u ∧
  tu_variants (unit_addProperties u ps) = tu_variants u.
Proof. done. Qed.

Lemma unit_addVariant_source u v :
  tu_source (unit_addVariant u v) = tu_source u.
Proof.
  pose proof (unit_addVariant_frame u v) as Hf.
  by apply (f_equal tu_source) in Hf.
Qed.

Lemma unit_addVariants_source u vs :
  tu_source (unit_addVariants u vs) = tu_source u.
Proof.
  pose proof (unit_addVariants_frame u vs) as Hf.
  by apply (f_equal tu_source) in Hf.
Qed.

Lemma build_unit_source res segment tgt :
  tu_source (build_unit res segment tgt) = Some segment.
Proof.
  unfold build_unit. simpl.
  destruct tgt; by rewrite ?unit_addVariant_source.
Qed.

Lemma addTranslationUnit_length d r st :
  length (units (addTranslationUnit d r st)) = length (units st).
Proof.
  rewrite addTranslationUnit_unfold.
  destruct (tuhash (get_doc st d) !! hashKey st r); [|done].
  unfold addVariants; simpl. by rewrite length_insert.
Qed.

Lemma addTranslationUnit_source d r st r' :
  tu_source (get_unit (addTranslationUnit d r st) r') =
  tu_source (get_unit st r').
Proof.
  rewrite addTranslationUnit_unfold.
  destruct (tuhash (get_doc st d) !! hashKey st r); [|done].
  rewrite get_unit_addVariants. case_decide; [|done].
  apply unit_addVariants_source.
Qed.

Lemma built_for_alloc st0 st u r seg :
  built_for st0 st r seg → built_for st0 (alloc_unit u st).2 r seg.
Proof.
  intros (Hge & Hlt & Hsrc). split; [done|]. simpl. split.
  - rewrite length_app. lia.
  - unfold get_unit in *; simpl. by rewrite lookup_total_app_l.
Qed.

Lemma built_for_addTranslationUnit st0 st d n r seg :
  built_for st0 st r seg → built_for st0 (addTranslationUnit d n st) r seg.
Proof.
  intros (Hge & Hlt & Hsrc). split; [done|]. split.
  - by rewrite addTranslationUnit_length.
  - by rewrite addTranslationUnit_source.
Qed.

Lemma all_segments_snoc srcP category (x : jsstr + list string) :
  all_segments (srcP ++ [(category, x)]) =
  all_segments srcP ++ segments_of x.
Proof.
  unfold all_segments. rewrite fmap_app, concat_app. simpl.
  by rewrite app_nil_r.
Qed.

Lemma other_segments_snoc srcP category (x : jsstr + list string) :
  other_segments (srcP ++ [(category, x)]) =
  other_segments srcP ++
  (if String.eqb category "other" then segments_of x else []).
Proof.
  unfold other_segments, all_segments.
  rewrite List.filter_app, fmap_app, concat_app.
  simpl. destruct (String.eqb category "other"); simpl;
    by rewrite ?app_nil_r.
Qed.

Lemma segmented_elem srcP pre category (x : jsstr + list string) suf :
  segmented srcP → srcP = pre ++ (category, x) :: suf →
  ∃ segments, x = inr segments.
Proof.
  intros Hseg ->. apply Forall_app in Hseg as [_ Hseg].
  apply Forall_cons in Hseg as [Hx _]. destruct x as [|segments]; [done|].
  by exists segments.
Qed.

(** The loop over the source categories creates one unit per source
    segment and returns the units built for the segments of the [other]
    category. *)
Lemma plural_units_spec d res addTarget srcP tarP st0 :
  segmented srcP →
  hoare (λ st, st = st0)
    (plural_units d res addTarget srcP tarP)
    (λ other st,
       length (units st) =
         length (units st0) + length (all_segments srcP) ∧
       Forall2 (built_for st0 st) other (other_segments srcP))
    (λ _, False).
Proof.
  intros Hseg. unfold plural_units.
  eapply hoare_weaken.
  - apply (hoare_foldM_split _
      (λ pre other st,
         length (units st) =
           length (units st0) + length (all_segments pre) ∧
         Forall2 (built_for st0 st) other (other_segments pre))
      (λ _, False) srcP).
    intros pre [category x] suf other Hsplit.
    destruct (segmented_elem _ _ _ _ _ Hseg Hsplit) as [segments ->].
    simpl.
    eapply hoare_weaken.
    + apply (hoare_foldM_from_pre _
        (λ ps other st,
           length (units st) =
             length (units st0) + length (all_segments pre) +
             length ps ∧
           Forall2 (built_for st0 st) other
             (other_segments pre ++
              (if String.eqb category "other" then ps else [])))
        (λ _, False) segments) with (pre := []).
      intros ps string other'. unfold plural_unit_step.
      eapply hoare_bind.
      * apply hoare_alloc with
          (Q := λ r st,
             r + 1 = length (units st) ∧
             length (units st) =
               length (units st0) + length (all_segments pre) +
               length (ps ++ [string]) ∧
             built_for st0 st r string ∧
             Forall2 (built_for st0 st) other'
               (other_segments pre ++
                (if String.eqb category "other" then ps else []))).
        intros st [Hlen Hbuilt]. simpl.
        rewrite !length_app. simpl. split; [lia|]. split; [lia|]. split.
        -- unfold built_for. simpl.
           split; [lia|]. split; [rewrite length_app; simpl; lia|].
           unfold get_unit; simpl.
           rewrite lookup_total_app_r by lia. rewrite Nat.sub_diag.
           simpl. apply build_unit_source.
        -- eapply Forall2_impl; [exact Hbuilt|].
           intros r' seg Hr'. by apply (built_for_alloc _ _ _ _ _ Hr').
      * intros r. eapply hoare_bind.
        -- apply hoare_modify with
             (Q := λ _ st,
                length (units st) =
                  length (units st0) + length (all_segments pre) +
                  length (ps ++ [string]) ∧
                built_for st0 st r string ∧
                Forall2 (built_for st0 st) other'
                  (other_segments pre ++
                   (if String.eqb category "other" then ps else []))).
           intros st (_ & Hlen & Hr & Hbuilt).
           rewrite addTranslationUnit_length. split; [done|]. split.
           ++ by apply built_for_addTranslationUnit.
           ++ eapply Forall2_impl; [exact Hbuilt|].
              intros r' seg Hr'. by apply built_for_addTranslationUnit.
        -- intros []. apply hoare_ret.
           intros st (Hlen & Hr & Hbuilt). split; [done|].
           destruct (String.eqb category "other").
           ++ rewrite app_assoc. apply Forall2_app; [done|].
              by constructor.
           ++ done.
    + intros st [Hlen Hbuilt]. simpl. split; [lia|].
      destruct (String.eqb category "other"); by rewrite app_nil_r.
    + intros other' st [Hlen Hbuilt]. simpl in *. split.
      * rewrite all_segments_snoc, length_app. simpl. lia.
      * by rewrite other_segments_snoc.
  - intros st ->. simpl. split; [lia|constructor].
  - by intros other st H.
Qed.

Lemma hoare_forEach_split {A} (f : A → nat → M unit)
  (I : list A → Store → Prop) (E : Store → Prop) l :
  (∀ pre x suf, l = pre ++ x :: suf →
     hoare (I pre) (f x (length pre)) (λ _, I (pre ++ [x])) E) →
  hoare (I []) (forEach f l) (λ _, I l) E.
Proof.
  intros Hf. unfold forEach.
  assert (Hgen : ∀ l' pre, l = pre ++ l' →
    hoare (I pre) (forEach_from f l' (length pre)) (λ _, I l) E).
  { induction l' as [|x l' IH]; intros pre Hl; simpl.
    - rewrite app_nil_r in Hl. subst pre. by apply hoare_ret.
    - eapply hoare_bind; [by eapply Hf|]. intros [].
      replace (S (length pre)) with (length (pre ++ [x]))
        by (rewrite length_app; simpl; lia).
      apply IH. by rewrite <- app_assoc. }
  by apply (Hgen l []).
Qed.

Lemma get_unit_addVariant r v st r' :
  get_unit (addVariant r v st) r' =
  if decide (r = r' ∧ r < length (units st))
  then unit_addVariant (get_unit st r') v else get_unit st r'.
Proof.
  unfold addVariant. rewrite get_unit_set_unit.
  case_decide as Hc; [|done]. by destruct Hc as [-> _].
Qed.

Lemma vkeys_addVariant_mono r v st r' k :
  k ∈ vkeys (get_unit st r') → k ∈ vkeys (get_unit (addVariant r v st) r').
Proof.
  intros Hk. rewrite get_unit_addVariant. case_decide; [|done].
  apply vkeys_addVariant. by left.
Qed.

Lemma vkeys_addVariant_here r v st :
  r < length (units st) →
  variant_key v ∈ vkeys (get_unit (addVariant r v st) r).
Proof.
  intros Hr. rewrite get_unit_addVariant, decide_True by done.
  apply vkeys_addVariant. by right.
Qed.

Lemma addVariant_source r v st r' :
  tu_source (get_unit (addVariant r v st) r') = tu_source (get_unit st r').
Proof.
  rewrite get_unit_addVariant. case_decide; [|done].
  apply unit_addVariant_source.
Qed.

(** The loop over the extra target categories, when [other] has a unit
    for every segment index of every extra category: it does not raise,
    creates no unit, touches no document, and leaves a variant with the
    key of every extra segment on the unit of [other] at its index. *)
Lemma plural_extras_spec res srcP tp other st1 :
  Forall (λ r, r < length (units st1)) other →
  (∀ cs, cs ∈ tp → lacks_category srcP cs.1 = true →
         ∃ segments, cs.2 = inr segments ∧
                     length segments ≤ length other) →
  hoare (λ st, st = st1)
    (plural_extras res srcP tp other)
    (λ _ st,
       length (units st) = length (units st1) ∧
       docs st = docs st1 ∧
       (∀ r, tu_source (get_unit st r) = tu_source (get_unit st1 r)) ∧
       (∀ cs i s, cs ∈ tp → lacks_category srcP cs.1 = true →
                  segments_of cs.2 !! i = Some s →
                  ∃ r, other !! i = Some r ∧
                       variant_key (mkVariant (res_targetLocale res)
                                              (Some s))
                         ∈ vkeys (get_unit st r)))
    (λ _, False).
Proof.
  intros Hvalid Hlen. rewrite Forall_forall in Hvalid.
  set (attached st (segs : list string) :=
         ∀ i s, segs !! i = Some s →
                ∃ r, other !! i = Some r ∧
                     variant_key (mkVariant (res_targetLocale res)
                                            (Some s))
                       ∈ vkeys (get_unit st r)).
  set (frame st :=
         length (units st) = length (units st1) ∧
         docs st = docs st1 ∧
         (∀ r, tu_source (get_unit st r) = tu_source (get_unit st1 r))).
  set (J (pre : obj (jsstr + list string)) st :=
         frame st ∧
         ∀ cs, cs ∈ pre → lacks_category srcP cs.1 = true →
               attached st (segments_of cs.2)).
  assert (Hmono : ∀ st r x segs,
            attached st segs → attached (addVariant r x st) segs).
  { intros st r x segs Ha i s His. destruct (Ha i s His) as (r' & ? & ?).
    exists r'. split; [done|]. by apply vkeys_addVariant_mono. }
  unfold plural_extras. eapply hoare_weaken.
  - apply (hoare_forEach_split _ J (λ _, False) tp).
    intros pre [category x] suf Htp. cbn [fst snd].
    destruct (lacks_category srcP category) eqn:Hlook.
    + destruct (Hlen (category, x)) as (segments & Hx & Hsegs);
        [rewrite Htp; apply elem_of_app; right; by left | done |].
      simpl in Hx. subst x.
      eapply hoare_weaken.
      * apply (hoare_forEach_split _
          (λ ps st, J pre st ∧ attached st ps) (λ _, False) segments).
        intros ps string rest Hsplit. unfold plural_extra_step.
        assert (Hi : length ps < length other).
        { rewrite Hsplit, length_app in Hsegs. simpl in Hsegs. lia. }
        destruct (lookup_lt_is_Some_2 other (length ps) Hi) as [r Hr].
        rewrite Hr. apply hoare_modify.
        intros st [[(Hl & Hd & Hs) Hpre] Hps].
        assert (Hrv : r < length (units st)).
        { rewrite Hl. apply Hvalid. by eapply list_elem_of_lookup_2. }
        split; [split|].
        -- split; [|split; [done|]].
           ++ unfold addVariant; simpl. by rewrite length_insert.
           ++ intros r'. by rewrite addVariant_source.
        -- intros cs Hcs Hno. by apply Hmono, Hpre.
        -- intros i s His.
           destruct (decide (i < length ps)) as [Hlt|Hge].
           ++ rewrite lookup_app_l in His by done.
              exact (Hmono _ _ _ _ Hps i s His).
           ++ rewrite lookup_app_r in His by lia.
              destruct (i - length ps) as [|j] eqn:Hj; [|done].
              injection His as <-. assert (i = length ps) as -> by lia.
              exists r. split; [done|].
              by apply vkeys_addVariant_here.
      * intros st HJ. split; [done|]. intros i s His. done.
      * intros [] st [[Hfr Hpre] Hps]. split; [done|].
        intros cs [Hcs| ->%list_elem_of_singleton]%elem_of_app Hno.
        -- by apply Hpre.
        -- done.
    + apply hoare_ret. intros st [Hfr Hatt]. split; [done|].
      intros cs [Hcs| ->%list_elem_of_singleton]%elem_of_app Hno.
      * by apply Hatt.
      * simpl in Hno. congruence.
  - intros st ->. split; [done|]. intros cs Hcs. by apply elem_of_nil in Hcs.
  - intros [] st [(Hl & Hd & Hs) Hatt]. repeat (split; [done|]).
    intros cs i s Hcs Hno His. by apply (Hatt cs Hcs Hno).
Qed.

Lemma addTranslationUnit_size d r st :
  size (addTranslationUnit d r st) d ≤ size st d + 1.
Proof.
  rewrite addTranslationUnit_unfold. unfold size.
  destruct (tuhash (get_doc st d) !! hashKey st r).
  - change (get_doc (addVariants _ _ (trace_entry st d)) d)
      with (get_doc st d). lia.
  - rewrite get_doc_set_doc. case_decide; simpl.
    + rewrite length_app. simpl. lia.
    + change (get_doc (trace_entry st d) d) with (get_doc st d). lia.
Qed.

(** The document gains at most one unit per unit created. *)
Lemma plural_units_size d res addTarget srcP tarP st0 :
  hoare (λ st, st = st0)
    (plural_units d res addTarget srcP tarP)
    (λ _ st, size st d + length (units st0) ≤
             size st0 d + length (units st))
    (λ _, True).
Proof.
  unfold plural_units. eapply hoare_weaken.
  - apply (hoare_foldM _
      (λ _ st, size st d + length (units st0) ≤
               size st0 d + length (units st)) (λ _, True)).
    intros other [category [untouched|segments]] _; cbn [snd];
      [by apply hoare_throw|].
    apply (hoare_foldM_from _
      (λ _ st, size st d + length (units st0) ≤
               size st0 d + length (units st)) (λ _, True)).
    intros other' string i _. unfold plural_unit_step.
    eapply hoare_bind.
    + apply hoare_alloc with
        (Q := λ _ st, size st d + length (units st0) + 1 ≤
                      size st0 d + length (units st)).
      intros st Hs. unfold size in *. simpl.
      change (get_doc (mkStore _ (docs st) (log st)) d)
        with (get_doc st d).
      rewrite length_app. simpl. lia.
    + intros r. eapply hoare_bind.
      * apply hoare_modify with
          (Q := λ _ st, size st d + length (units st0) ≤
                        size st0 d + length (units st)).
        intros st Hs. rewrite addTranslationUnit_length.
        pose proof (addTranslationUnit_size d r st). lia.
      * intros []. by apply hoare_ret.
  - intros st ->. lia.
  - by intros other st H.
Qed.

(** X27: the plural fallback, where the code performs it: for a plural
    resource with a target locale that differs from the source locale,
    when no source category has an empty text and every target category
    that the source lacks has a text that is not empty and at most as
    many segments as the [other] category of the source, [addResource]
    returns without raising; it creates one unit per source segment and
    so none for the extra categories, and the document gains at most that
    many units; and every segment of every extra target category is on
    the unit built for the [other] category of the source at the same
    segment index, as a variant with the target locale. *)
Theorem plural_extra_categories st d res sourcePlurals targetPlurals :
  let this := get_doc st d in
  let srcP := plural_segments this sourcePlurals (res_sourceLocale res) in
  let tarP := plural_segments this targetPlurals (res_targetLocale res) in
  res_payload res = ResPlural sourcePlurals (Some targetPlurals) →
  res_sourceLocale res = sourceLocale this →
  addTarget this res = true →
  segmented srcP →
  (∀ cs, cs ∈ tarP → lacks_category srcP cs.1 = true →
         has_segments cs.2 = true ∧
         length (segments_of cs.2) ≤ length (other_segments srcP)) →
  let st' := (addResource d (Some res) st).2 in
  (addResource d (Some res) st).1 = Returned tt ∧
  length (units st') = length (units st) + length (all_segments srcP) ∧
  size st' d ≤ size st d + length (all_segments srcP) ∧
  ∃ other,
    Forall2 (built_for st st') other (other_segments srcP) ∧
    ∀ cs i s, cs ∈ tarP → lacks_category srcP cs.1 = true →
              segments_of cs.2 !! i = Some s →
              ∃ r, other !! i = Some r ∧
                   variant_key (mkVariant (res_targetLocale res) (Some s))
                     ∈ vkeys (get_unit st' r).
Proof.
  intros this srcP tarP Hpay Hsrc Htgt Hseg Hlen st'.
  unfold st', addResource, gets, mbind, M_bind.
  fold this. rewrite Hpay.
  rewrite (bool_decide_eq_true_2 _ Hsrc). cbn [negb].
  rewrite Htgt. fold srcP tarP. cbv beta.
  pose proof (plural_units_spec d res true srcP (Some tarP) st Hseg
                st eq_refl) as H1.
  pose proof (plural_units_size d res true srcP (Some tarP) st st eq_refl)
    as H2.
  destruct (plural_units d res true srcP (Some tarP) st)
    as [[other|err] st1]; [|done].
  destruct H1 as [Hunits Hbuilt].
  assert (Hvalid : Forall (λ r, r < length (units st1)) other).
  { apply Forall_forall. intros r Hr.
    destruct (proj1 (list_elem_of_lookup _ _) Hr) as [i Hi].
    destruct (Forall2_lookup_l _ _ _ _ _ Hbuilt Hi) as (seg & _ & Hb).
    by destruct Hb as (_ & ? & _). }
  assert (Hlen' : ∀ cs, cs ∈ tarP → lacks_category srcP cs.1 = true →
            ∃ segments, cs.2 = inr segments ∧
                        length segments ≤ length other).
  { intros cs Hcs Hno. rewrite (Forall2_length _ _ _ Hbuilt).
    destruct (Hlen cs Hcs Hno) as [Hhas Hle].
    destruct cs as [c [|segments]]; [done|]. by exists segments. }
  pose proof (plural_extras_spec res srcP tarP other st1 Hvalid Hlen'
                st1 eq_refl) as H3.
  destruct (plural_extras res srcP tarP other st1) as [[[]|err] st2];
    [|done].
  destruct H3 as (Hl2 & Hd2 & Hs2 & Hatt). simpl.
  split; [done|]. split; [lia|]. split.
  { unfold size, get_doc in *. rewrite Hd2. lia. }
  exists other. split; [|done].
  eapply Forall2_impl; [exact Hbuilt|].
  intros r seg (Hge & Hlt & Hsrc'). split; [done|]. split; [lia|].
  by rewrite Hs2.
Qed.

(** ** The round trip through the wire *)

Lemma truthy_Some (s : jsstr) : truthy s = true → ∃ t, s = Some t.
Proof. destruct s; [by eexists | done]. Qed.

(** Reading back a variant that was written with a locale and a text. *)
Lemma parse_variant_faithful tu v p st :
  truthy (tv_locale v) = true → truthy (tv_string v) = true →
  tuv_faithful (serializeTranslationVariant v) p →
  parse_variant tu p st = (Returned (read_variant tu v), st).
Proof.
  intros Hl Hs (Hlang & Hxml & Hseg & Hprop).
  destruct v as [locale string]. simpl in *.
  change (seg_of (serializeTranslationVariant _)) with string in Hseg.
  destruct (tuv_attributes p) as [a|] eqn:Ha; simpl in *; cycle 1.
  { rewrite <- Hxml in Hl. done. }
  unfold parse_variant, mbind, M_bind, mret, M_ret. rewrite Ha. simpl.
  rewrite Hlang. simpl. rewrite Hxml, Hl.
  unfold seg_of in Hseg. rewrite Hseg. rewrite Hprop. simpl.
  rewrite Hl, Hs. simpl. unfold read_variant. simpl.
  by case_decide.
Qed.

Lemma parse_variants_faithful vs :
  ∀ ps tu st,
    Forall (λ v, truthy (tv_locale v) = true ∧ truthy (tv_string v) = true)
           vs →
    Forall2 tuv_faithful (serializeTranslationVariant <$> vs) ps →
    foldM parse_variant tu ps st = (Returned (foldl read_variant tu vs), st).
Proof.
  induction vs as [|v vs IH]; intros ps tu st Hall Hf; simpl in *.
  - apply Forall2_nil_inv_l in Hf as ->. done.
  - apply Forall2_cons_inv_l in Hf as (p & ps' & Hp & Hps & ->).
    apply Forall_cons in Hall as [[Hl Hs] Hall]. simpl.
    unfold mbind, M_bind.
    rewrite (parse_variant_faithful tu v p st Hl Hs Hp).
    by apply IH.
Qed.

(** What the unit under construction looks like after its variants. *)
Lemma read_variant_frame tu v :
  tu_datatype (read_variant tu v) = tu_datatype tu ∧
  tu_variants (read_variant tu v) = tu_variants (unit_addVariant tu v).
Proof.
  pose proof (unit_addVariant_frame tu v) as Hf.
  apply (f_equal tu_datatype) in Hf.
  unfold read_variant. by case_decide.
Qed.

Lemma unit_addVariant_variants_only tu tu' v :
  tu_variants tu = tu_variants tu' →
  tu_variants (unit_addVariant tu v) = tu_variants (unit_addVariant tu' v).
Proof.
  intros Heq. unfold unit_addVariant, vkeys. rewrite <- Heq.
  case_decide; simpl; by rewrite ?Heq.
Qed.

Lemma unit_addVariant_sourceLocale tu v :
  tu_sourceLocale (unit_addVariant tu v) = tu_sourceLocale tu.
Proof.
  pose proof (unit_addVariant_frame tu v) as Hf.
  by apply (f_equal tu_sourceLocale) in Hf.
Qed.

Lemma read_variants_spec sl src vs :
  ∀ tu,
    tu_sourceLocale tu = sl →
    Forall (λ v, tv_locale v = sl → tv_string v = src) vs →
    let tu' := foldl read_variant tu vs in
    tu_sourceLocale tu' = sl ∧
    tu_datatype tu' = tu_datatype tu ∧
    tu_variants tu' = tu_variants (unit_addVariants tu vs) ∧
    tu_source tu' =
      (if decide (Exists (λ v, tv_locale v = sl) vs)
       then src else tu_source tu).
Proof.
  induction vs as [|v vs IH]; intros tu Hsl Hall; simpl.
  - repeat split; try done;
      (rewrite decide_False; [done|]; by intros H%Exists_nil).
  - apply Forall_cons in Hall as [Hv Hall].
    assert (Hsl' : tu_sourceLocale (read_variant tu v) = sl).
    { unfold read_variant. rewrite unit_addVariant_sourceLocale.
      destruct (decide (tv_locale v = tu_sourceLocale tu)) as [Hm|Hm];
        simpl; [congruence|].
      by rewrite unit_addVariant_sourceLocale. }
    destruct (IH (read_variant tu v) Hsl' Hall) as (H1 & H2 & H3 & H4).
    destruct (read_variant_frame tu v) as [Hdt Hvs].
    split; [done|]. split; [congruence|]. split.
    + rewrite H3. clear -Hvs.
      generalize dependent (read_variant tu v).
      generalize (unit_addVariant tu v). intros a b Hab.
      revert a b Hab. induction vs as [|w vs IH]; intros a b Hab; [done|].
      simpl. apply IH. by apply unit_addVariant_variants_only.
    + rewrite H4. unfold read_variant.
      rewrite unit_addVariant_sourceLocale, Hsl.
      destruct (decide (tv_locale v = sl)) as [Hm|Hm].
      * simpl. rewrite (decide_True (P := Exists _ (v :: vs)))
          by (by left).
        destruct (decide (Exists (λ v0, tv_locale v0 = sl) vs));
          [done|]. by apply Hv.
      * rewrite unit_addVariant_source.
        destruct (decide (Exists (λ v0, tv_locale v0 = sl) vs)) as [He|He].
        -- rewrite decide_True; [done|]. by right.
        -- rewrite decide_False; [done|].
           intros [?|?]%Exists_cons; done.
Qed.

Lemma unit_addVariants_fresh u vs :
  tu_variants u = [] → NoDup (variant_key <$> vs) →
  tu_variants (unit_addVariants u vs) = vs.
Proof.
  intros Hnil Hnd.
  assert (Hgen : ∀ ws u, NoDup (vkeys u ++ (variant_key <$> ws)) →
            tu_variants (unit_addVariants u ws) = tu_variants u ++ ws).
  { induction ws as [|w ws IH]; intros u' Hu; simpl.
    - by rewrite app_nil_r.
    - simpl in Hu.
      assert (Hadd : unit_addVariant u' w =
                     set_variants u' (tu_variants u' ++ [w])).
      { unfold unit_addVariant. rewrite decide_False; [done|].
        intros Hin. apply NoDup_app in Hu as (_ & Hdisj & _).
        apply (Hdisj _ Hin). by left. }
      rewrite Hadd, IH.
      + simpl. by rewrite <- app_assoc.
      + unfold vkeys; simpl. rewrite fmap_app. simpl.
        by rewrite <- app_assoc. }
  rewrite Hgen; [by rewrite Hnil|].
  unfold vkeys. by rewrite Hnil.
Qed.

(** Collecting the properties of a [tu] element only writes to the log. *)
Lemma parse_unit_props_logs props st :
  ∃ ps lg, parse_unit_props props st =
           (Returned ps, mkStore (units st) (docs st) lg).
Proof.
  unfold parse_unit_props. generalize (@nil (string * jsstr)).
  revert st. induction props as [|prop props IH]; intros st acc; simpl.
  - exists acc, (log st). by destruct st.
  - unfold mbind, M_bind. destruct (prop_attributes prop) as [a|]; simpl.
    + apply IH.
    + destruct (IH (logger WARN
                      "Found a prop tag without a name attribute" st) acc)
        as (ps & lg & Heq).
      exists ps, lg. exact Heq.
Qed.

Lemma unit_addVariants_variants_only vs :
  ∀ a b, tu_variants a = tu_variants b →
         tu_variants (unit_addVariants a vs) =
         tu_variants (unit_addVariants b vs).
Proof.
  induction vs as [|w vs IH]; intros a b Hab; [done|].
  simpl. apply IH. by apply unit_addVariant_variants_only.
Qed.

Lemma bind_returned {A B} (m : M A) (f : A → M B) st a st' :
  m st = (Returned a, st') → (m ≫= f) st = f a st'.
Proof. intros Hm. unfold mbind, M_bind. by rewrite Hm. Qed.

Lemma parse_unit_props_step (tu0 : TranslationUnit) (el : TuElem) st :
  ∃ ps lg,
    (if present (tue_prop el)
     then properties ← parse_unit_props (makeArray (tue_prop el));
          mret (unit_addProperties tu0 properties)
     else mret tu0) st =
    (Returned (set_properties tu0 ps),
     mkStore (units st) (docs st) lg).
Proof.
  destruct (present (tue_prop el)).
  - destruct (parse_unit_props_logs (makeArray (tue_prop el)) st)
      as (ps & lg & Heq).
    eexists _, lg. erewrite bind_returned by exact Heq. done.
  - exists (tu_properties tu0), (log st). by destruct st, tu0.
Qed.

(** Reading back the element written for a unit that survives. *)
Lemma parse_unit_faithful r (el w : TuElem) u this st :
  survives this u →
  serializeTranslationUnit u = Some w →
  tu_faithful w el →
  obj_get (properties (get_doc st r)) "datatype" =
    obj_get (properties this) "datatype" →
  ∃ u' lg,
    unit_key u' = unit_key u ∧
    tu_variants u' = tu_variants u ∧
    parse_unit r el st =
      (Returned tt,
       addTranslationUnit r (length (units st))
         (mkStore (units st ++ [u']) (docs st) lg)).
Proof.
  intros (Hlen & Hnd & Htruthy & Hsl & Hdt & Hex & Hsrc) Hw [Hattr Htuv] Hr.
  rewrite serializeTranslationUnit_Some in Hw by done.
  injection Hw as <-. simpl in Hattr, Htuv.
  unfold parse_unit.
  rewrite (bind_returned (gets (λ st, get_doc st r)) _ st _ st eq_refl).
  rewrite Hattr, Hr.
  assert (Hor : ∀ b, js_or (tu_sourceLocale u) b = tu_sourceLocale u)
    by (intros b; unfold js_or; by rewrite Hsl).
  rewrite Hor. cbn [set_source empty_unit tu_source tu_sourceLocale
    tu_target tu_targetLocale tu_comment tu_pre tu_post tu_properties
    tu_variants].
  set (tu0 := mkUnit None (tu_sourceLocale u) None None
                (obj_get (properties this) "datatype")
                None None None [] []).
  destruct (parse_unit_props_step tu0 el st) as (ps & lg & Heq).
  rewrite (bind_returned _ _ _ _ _ Heq).
  set (tu2 := match tue_note el with
              | Some note => set_comment (set_properties tu0 ps)
                                         (note_text note)
              | None => set_properties tu0 ps
              end).
  assert (Htu2 : tu_sourceLocale tu2 = tu_sourceLocale u ∧
                 tu_datatype tu2 = obj_get (properties this) "datatype" ∧
                 tu_source tu2 = None ∧ tu_variants tu2 = []).
  { unfold tu2. by destruct (tue_note el). }
  destruct Htu2 as (H1' & H2' & H3' & H4'). clearbody tu2.
  (* the variants *)
  assert (Hpresent : present (tue_tuv el) = true).
  { destruct (tue_tuv el); try done. simpl in Htuv.
    apply Forall2_nil_inv_r in Htuv.
    apply fmap_nil_inv in Htuv. rewrite Htuv in Hlen. simpl in Hlen. lia. }
  rewrite Hpresent.
  rewrite (bind_returned _ _ _ _ _
             (parse_variants_faithful (tu_variants u) _ tu2 _ Htruthy Htuv)).
  destruct (read_variants_spec (tu_sourceLocale u) (tu_source u)
              (tu_variants u) tu2 H1' Hsrc) as (Hs1 & Hs2 & Hs3 & Hs4).
  rewrite decide_True in Hs4 by done.
  exists (foldl read_variant tu2 (tu_variants u)), lg.
  split; [|split; [|done]].
  - unfold unit_key. rewrite Hs1, Hs2, Hs4, H2'. by rewrite Hdt.
  - rewrite Hs3. rewrite (unit_addVariants_variants_only _ tu2 tu0)
      by (by rewrite H4').
    by apply unit_addVariants_fresh.
Qed.

Lemma obj_get_set_eq (o : obj jsstr) k (x : jsstr) :
  obj_get (obj_set o k x) k = x.
Proof.
  induction o as [|[k' v'] o IH]; simpl.
  - by rewrite String.eqb_refl.
  - destruct (String.eqb k' k) eqn:Hk; simpl.
    + by rewrite String.eqb_refl.
    + by rewrite Hk.
Qed.

(** The header part of [parse] takes over the datatype that was written. *)
Lemma parse_header_datatype this tp dt :
  header_attr tp "datatype" = dt → truthy dt = true →
  obj_get (properties (parse_header this tp)) "datatype" = dt.
Proof.
  unfold header_attr, parse_header. intros Hdt Ht.
  destruct (tmx_header tp) as [h|]; [|by subst dt].
  destruct (header_attributes h) as [a|]; [|by subst dt].
  simpl in Hdt. simpl properties. unfold headerAttrs. cbn [foldl].
  rewrite Hdt, Ht. apply obj_get_set_eq.
Qed.

Lemma parse_header_tu this tp :
  tu (parse_header this tp) = tu this ∧
  tuhash (parse_header this tp) = tuhash this.
Proof.
  unfold parse_header. destruct (tmx_header tp) as [h|]; [|done].
  by destruct (header_attributes h).
Qed.

(** The body part of [parse] goes through the [tu] elements. *)
Lemma parse_body_elements r tp :
  match tmx_body tp with
  | Some body =>
      if present (body_tu body)
      then forEach (λ unit _, parse_unit r unit) (makeArray (body_tu body))
      else mret tt
  | None => mret tt
  end = forEach (λ unit _, parse_unit r unit) (tu_elements tp).
Proof.
  unfold tu_elements. destruct (tmx_body tp) as [body|]; [|done].
  by destruct (body_tu body).
Qed.

Lemma read_back_mono st0 st st' (ur : uref) n more :
  units st' = units st ++ more →
  read_back st0 st ur n → read_back st0 st' ur n.
Proof.
  intros Hu (Hge & u' & Hl & Hk & Hv). split; [done|].
  exists u'. split; [|done]. rewrite Hu. by apply lookup_app_l_Some.
Qed.

Lemma read_loop st0 r Dh this0 :
  r < length (docs st0) →
  obj_get (properties Dh) "datatype" =
    obj_get (properties this0) "datatype" →
  ∀ us es,
    Forall2 (λ ur el, ∃ w, serializeTranslationUnit (get_unit st0 ur) = Some w
                          ∧ tu_faithful w el) us es →
    Forall (λ ur, ur < length (units st0) ∧
                  survives this0 (get_unit st0 ur)) us →
    ∀ pre st i,
      NoDup (hashKey st0 <$> (pre ++ us)) →
      read_inv st0 r Dh pre st →
      ∃ st', forEach_from (λ unit _, parse_unit r unit) es i st =
               (Returned tt, st') ∧
             read_inv st0 r Dh (pre ++ us) st'.
Proof.
  intros Hr Hdt us es Hf.
  induction Hf as [|ur el us es (w & Hw & Hfaith) Hf IH];
    intros Hall pre st i Hnd Hinv; simpl.
  - exists st. by rewrite app_nil_r.
  - apply Forall_cons in Hall as [[Hu Hsurv] Hall].
    destruct Hinv as (news & D & Hunits & Hdocs & HDh & Hdom & Hback).
    assert (HgD : get_doc st r = D).
    { unfold get_doc. rewrite Hdocs.
      by apply list_lookup_total_insert_eq. }
    assert (Hprops : properties D = properties Dh) by (by rewrite <- HDh).
    destruct (parse_unit_faithful r el w (get_unit st0 ur) this0 st
                Hsurv Hw Hfaith) as (u' & lg & Hk & Hv & Hparse).
    { by rewrite HgD, Hprops. }
    rewrite (bind_returned _ _ _ _ _ Hparse).
    set (n := length (units st)) in *.
    set (st2 := mkStore (units st ++ [u']) (docs st) lg) in *.
    assert (Hfresh : hashKey st0 ur ∉ hashKey st0 <$> pre).
    { rewrite fmap_app in Hnd. simpl in Hnd.
      apply NoDup_app in Hnd as (_ & Hdisj & _).
      intros Hin. apply (Hdisj _ Hin). by left. }
    assert (Hkn : hashKey st2 n = hashKey st0 ur).
    { unfold hashKey at 1, get_unit, st2, n; simpl.
      rewrite lookup_total_app_r by lia. rewrite Nat.sub_diag. done. }
    replace (pre ++ ur :: us) with ((pre ++ [ur]) ++ us) in *
      by (by rewrite <- app_assoc).
    apply IH; [done|done|].
    rewrite addTranslationUnit_unfold.
    change (get_doc st2 r) with (get_doc st r). rewrite HgD, Hkn.
    destruct (tuhash D !! hashKey st0 ur) as [x|] eqn:Hlook.
    { exfalso. apply Hfresh, Hdom. by eexists. }
    exists (news ++ [u']),
      (set_tu D (tu D ++ [n]) (<[hashKey st0 ur := n]> (tuhash D))).
    split; [simpl; by rewrite Hunits, app_assoc|]. split.
    { simpl. rewrite Hdocs. by rewrite list_insert_insert_eq. }
    split; [done|]. split.
    + simpl. intros k Hks. rewrite fmap_app. apply elem_of_app.
      destruct (decide (hashKey st0 ur = k)) as [<-|Hne].
      * right. by apply list_elem_of_singleton.
      * left. apply Hdom. by rewrite lookup_insert_ne in Hks.
    + simpl. apply Forall2_app.
      * eapply Forall2_impl; [exact Hback|]. intros a b Hab.
        by eapply read_back_mono with (more := [u']).
      * constructor; [|constructor]. split.
        -- unfold n. rewrite Hunits, length_app. lia.
        -- exists u'. split; [|done]. simpl.
           rewrite lookup_app_r by (unfold n; lia).
           unfold n. by rewrite Nat.sub_diag.
Qed.

Lemma omap_all_Some {A B} (f : A → option B) (l : list A) :
  Forall (λ x, is_Some (f x)) l →
  Forall2 (λ x y, f x = Some y) l (omap f l).
Proof.
  induction 1 as [|x l [y Hy] _ IH]; [constructor|].
  cbn. rewrite Hy. simpl. by constructor.
Qed.

Lemma serialize_json_root st d :
  ∃ tw, json_tmx (serialize_json st d) = Some tw ∧
        attr (tmx_attributes tw) "version" =
          Some (versionString (version (get_doc st d))) ∧
        header_attr tw "datatype" =
          obj_get (properties (get_doc st d)) "datatype" ∧
        tu_elements tw =
          omap (λ r, serializeTranslationUnit (get_unit st r))
               (tu (get_doc st d)).
Proof.
  eexists. split; [reflexivity|]. split; [done|]. split.
  - unfold header_attr; simpl.
    by destruct (truthy (obj_get (properties (get_doc st d))
                                 "originalFormat")).
  - unfold tu_elements; simpl. apply serialize_no_hole.
Qed.

Lemma set_tu_id (D : TMX UKey) :
  tu D = [] → tuhash D = ∅ → set_tu D [] ∅ = D.
Proof. destruct D. simpl. by intros -> ->. Qed.

(** What [deserialize] makes of the text [serialize] wrote, when the XML
    collaborator is faithful and all units survive. *)
Lemma round_trip_spec st d r p :
  wf_doc st d → r < length (docs st) →
  versionString (version (get_doc st d)) = "1.4" →
  truthy (obj_get (properties (get_doc st d)) "datatype") = true →
  Forall (λ ur, survives (get_doc st d) (get_unit st ur))
         (tu (get_doc st d)) →
  xml2js (serialize st d) = Some p →
  wire_faithful (serialize_json st d) p →
  ∃ st' Dh,
    deserialize r (serialize st d) st =
      (Returned (Some (tu (get_doc st' r))), st') ∧
    read_inv st r Dh (tu (get_doc st d)) st'.
Proof.
  intros [Hd Hidx] Hr Hver Hdt Hsurv Hxml Hfaith.
  destruct (serialize_json_root st d) as (tw & Htw & Hwv & Hwd & Hwe).
  unfold wire_faithful in Hfaith. rewrite Htw in Hfaith.
  destruct (json_tmx p) as [tp|] eqn:Htp; [|done].
  destruct Hfaith as (Hpv & Hph & Hpe).
  rewrite Hwv, Hver in Hpv.
  assert (Hpd : header_attr tp "datatype" =
                obj_get (properties (get_doc st d)) "datatype").
  { rewrite <- Hwd. rewrite Forall_forall in Hph. apply Hph.
    unfold headerAttrs. repeat (first [by left | right]). }
  assert (Helems : Forall2
    (λ ur el, ∃ w, serializeTranslationUnit (get_unit st ur) = Some w ∧
                   tu_faithful w el)
    (tu (get_doc st d)) (tu_elements tp)).
  { eapply Forall2_trans; [|apply omap_all_Some|rewrite <- Hwe; exact Hpe].
    - intros ur w el Hw Hf. by exists w.
    - eapply Forall_impl; [exact Hsurv|]. intros ur (Hlen & _). simpl.
      rewrite serializeTranslationUnit_Some by done. by eexists. }
  set (C := set_tu (get_doc st r) [] ∅).
  set (Dh := parse_header C tp).
  set (st1 := mkStore (units st) (<[r := Dh]> (docs st)) (log st)).
  assert (Hinv1 : read_inv st r Dh [] st1).
  { exists [], Dh. split; [by rewrite app_nil_r|]. split; [done|].
    destruct (parse_header_tu C tp) as [Htu Hhash].
    fold Dh in Htu, Hhash. simpl in Htu, Hhash.
    split; [|split].
    - by apply set_tu_id.
    - intros k [x Hx]. rewrite Hhash in Hx.
      by rewrite lookup_empty in Hx.
    - rewrite Htu. constructor. }
  destruct (read_loop st r Dh (get_doc st d) Hr) with
    (us := tu (get_doc st d)) (es := tu_elements tp)
    (pre := @nil nat) (st := st1) (i := 0) as (st' & Hloop & Hinv');
    try done.
  { by apply parse_header_datatype. }
  { apply Forall_forall. intros ur Hur. split.
    - pose proof (indexed_valid _ _ Hidx) as Hv.
      rewrite Forall_forall in Hv. by apply Hv.
    - rewrite Forall_forall in Hsurv. by apply Hsurv. }
  { by apply indexed_NoDup_keys. }
  exists st', Dh. split; [|done].
  unfold deserialize. rewrite Hxml, Htp.
  assert (Hattrs : is_Some (tmx_attributes tp)).
  { destruct (tmx_attributes tp); [by eexists | done]. }
  rewrite (bool_decide_eq_true_2 _ Hattrs).
  rewrite Hpv. simpl negb. simpl orb.
  rewrite (bool_decide_eq_true_2 (Some "1.4" = Some "1.4") eq_refl).
  change (negb true || negb (truthy (Some "1.4")) || negb true)
    with false. cbv iota.
  erewrite bind_returned by reflexivity.
  unfold parse.
  erewrite bind_returned; cycle 1.
  { erewrite bind_returned by reflexivity.
    rewrite parse_body_elements.
    assert (Hst1 : set_doc r
              (parse_header
                 (get_doc (set_doc r (set_tu (get_doc st r) [] ∅) st) r)
                 tp)
              (set_doc r (set_tu (get_doc st r) [] ∅) st) = st1).
    { unfold st1, set_doc; simpl. f_equal.
      - rewrite list_insert_insert_eq. f_equal. unfold Dh, C. f_equal.
        unfold get_doc; simpl.
        by rewrite list_lookup_total_insert_eq. }
    rewrite Hst1. exact Hloop. }
  done.
Qed.

Lemma Forall2_fmap_eq {A B C} (f : A → C) (g : B → C) l k :
  Forall2 (λ a b, g b = f a) l k → g <$> k = f <$> l.
Proof. induction 1 as [|a b l k Hab _ IH]; [done|]. simpl. by f_equal. Qed.

Lemma NoDup_fmap_elem_inj {A B} (f : A → B) (l : list A) x y :
  NoDup (f <$> l) → x ∈ l → y ∈ l → f x = f y → x = y.
Proof.
  intros Hnd [i Hi]%list_elem_of_lookup [j Hj]%list_elem_of_lookup Hxy.
  assert (i = j) as ->.
  { eapply NoDup_lookup; [exact Hnd| |].
    - by rewrite list_lookup_fmap, Hi.
    - rewrite list_lookup_fmap, Hj. simpl. by rewrite Hxy. }
  congruence.
Qed.

(** C1, amended: take a document of version 1.4 with a datatype, whose
    unit list and index agree and all of whose units survive the wire (at
    least two variants with pairwise distinct keys and non-empty locale and
    text, a non-empty source locale, the datatype of the document, and a
    source text that is the text of the variants in the source locale, of
    which there is one), and an XML collaborator that returns what
    [serialize] wrote as far as the reader looks. Then [deserialize] of
    the serialized text returns without raising, and the units it loads
    match the units of the document one by one, in order, in identity key
    and in the keys of their variants; so the set of unit keys is
    reproduced, and so is, for each unit, the set of variant keys. *)
Theorem serialize_deserialize_round_trip st d r p :
  wf_doc st d → r < length (docs st) →
  versionString (version (get_doc st d)) = "1.4" →
  truthy (obj_get (properties (get_doc st d)) "datatype") = true →
  Forall (λ ur, survives (get_doc st d) (get_unit st ur))
         (tu (get_doc st d)) →
  xml2js (serialize st d) = Some p →
  wire_faithful (serialize_json st d) p →
  let st' := (deserialize r (serialize st d) st).2 in
  (deserialize r (serialize st d) st).1 =
    Returned (Some (tu (get_doc st' r))) ∧
  Forall2 (λ ur n, hashKey st' n = hashKey st ur ∧
                   vkeys (get_unit st' n) = vkeys (get_unit st ur))
          (tu (get_doc st d)) (tu (get_doc st' r)) ∧
  (∀ k, k ∈ ukeys st' r ↔ k ∈ ukeys st d) ∧
  (∀ ur n, ur ∈ tu (get_doc st d) → n ∈ tu (get_doc st' r) →
           hashKey st' n = hashKey st ur →
           ∀ k, k ∈ vkeys (get_unit st' n) ↔ k ∈ vkeys (get_unit st ur)).
Proof.
  intros Hwf Hr Hver Hdt Hsurv Hxml Hfaith st'.
  destruct (round_trip_spec st d r p Hwf Hr Hver Hdt Hsurv Hxml Hfaith)
    as (st1 & Dh & Hdes & news & D & Hunits & Hdocs & _ & _ & Hback).
  unfold st'. rewrite Hdes. simpl. clear st'.
  assert (HgD : get_doc st1 r = D).
  { unfold get_doc. rewrite Hdocs. by apply list_lookup_total_insert_eq. }
  rewrite HgD.
  assert (Hpairs : Forall2
    (λ ur n, hashKey st1 n = hashKey st ur ∧
             vkeys (get_unit st1 n) = vkeys (get_unit st ur))
    (tu (get_doc st d)) (tu D)).
  { eapply Forall2_impl; [exact Hback|].
    intros ur n (_ & u' & Hl & Hk & Hv).
    assert (Hg : get_unit st1 n = u').
    { unfold get_unit. by rewrite list_lookup_total_alt, Hl. }
    unfold hashKey at 1, vkeys. rewrite Hg. split; [done|].
    by rewrite Hv. }
  split; [done|]. split; [done|]. split.
  - intros k. unfold ukeys. rewrite HgD.
    assert (Heq : hashKey st1 <$> tu D = hashKey st <$> tu (get_doc st d)).
    { apply Forall2_fmap_eq. eapply Forall2_impl; [exact Hpairs|].
      by intros ur n [? _]. }
    by rewrite Heq.
  - intros ur n Hur Hn Hkey k.
    destruct (proj1 (list_elem_of_lookup _ _) Hn) as [i Hi].
    destruct (Forall2_lookup_r _ _ _ _ _ Hpairs Hi)
      as (ur' & Hur' & Hk' & Hv').
    assert (ur = ur') as <-.
    { destruct Hwf as [_ Hidx].
      eapply (NoDup_fmap_elem_inj (hashKey st));
        [by apply indexed_NoDup_keys|done| |congruence].
      by eapply list_elem_of_lookup_2. }
    by rewrite Hv'.
Qed.

End Properties.

Section Extensions.

Context {collaborators : Collaborators}.

(** * Further properties *)

Implicit Types (st : Store) (u : TranslationUnit) (v : TranslationVariant)
  (r e : uref) (d : dref).

(** ** [versionString] *)

Lemma split_dot_free a : dot_free a = true → split_dot a = [a].
Proof.
  induction a as [|c a IH]; simpl; [done|].
  intros [Hc Ha]%andb_true_iff. apply negb_true_iff in Hc.
  rewrite Hc, IH by done. done.
Qed.

Lemma split_dot_app a s :
  dot_free a = true → split_dot (a +:+ "." +:+ s) = a :: split_dot s.
Proof.
  induction a as [|c a IH]; simpl; [done|].
  intros [Hc Ha]%andb_true_iff. apply negb_true_iff in Hc.
  rewrite Hc. by rewrite IH.
Qed.

(** X1: [versionString] keeps the text before the first dot and the text
    between the first and the second dot: a text without a dot gets the
    fraction [0], an empty fraction becomes [0], and whatever follows a
    second dot is dropped. *)
Theorem versionString_shape (a b rest : string) :
  dot_free a = true → dot_free b = true →
  versionString a = a +:+ ".0" ∧
  versionString (a +:+ "." +:+ b) =
    a +:+ "." +:+ (if String.eqb b "" then "0" else b) ∧
  versionString (a +:+ "." +:+ b +:+ "." +:+ rest) =
    versionString (a +:+ "." +:+ b).
Proof.
  intros Ha Hb. unfold versionString. split; [|split].
  - by rewrite split_dot_free.
  - rewrite split_dot_app, split_dot_free by done. simpl.
    unfold js_or, truthy. destruct (String.eqb b ""); reflexivity.
  - rewrite 3!split_dot_app by done. rewrite (split_dot_free b) by done.
    reflexivity.
Qed.

(** ** Every document keeps its invariant across [diff] and [merge] *)

Lemma wf_doc_logger lvl msg st d :
  wf_doc st d → wf_doc (logger lvl msg st) d.
Proof. intros [Hd Hi]. split; [done | by apply indexed_logger]. Qed.

Lemma wf_doc_alloc u st d : wf_doc st d → wf_doc (alloc_unit u st).2 d.
Proof. intros [Hd Hi]. split; [done | by apply indexed_alloc]. Qed.

Lemma wf_doc_alloc_doc t st d : wf_doc st d → wf_doc (alloc_doc t st).2 d.
Proof.
  intros [Hd Hi].
  assert (Hg : get_doc (alloc_doc t st).2 d = get_doc st d)
    by (by apply get_doc_app with [t]).
  split; [simpl; rewrite length_app; lia|].
  apply indexed_ext with st; try done; by rewrite Hg.
Qed.

Lemma wf_doc_new t st :
  tu t = [] → tuhash t = ∅ →
  wf_doc (alloc_doc t st).2 (length (docs st)).
Proof.
  intros Ht Hh.
  assert (Hg : get_doc (alloc_doc t st).2 (length (docs st)) = t)
    by (by apply get_doc_app_new).
  split; [simpl; rewrite length_app; simpl; lia|].
  unfold indexed. rewrite Hg, Ht, Hh. split; [apply NoDup_nil_2|].
  split; [apply Forall_nil_2 | apply map_Forall_empty].
Qed.

Lemma wf_doc_addVariants e vs st d :
  wf_doc st d → wf_doc (addVariants e vs st) d.
Proof.
  intros [Hd Hi].
  split; [by rewrite addVariants_docs | by apply indexed_addVariants].
Qed.

Lemma addTranslationUnit_docs_length D r st :
  length (docs (addTranslationUnit D r st)) = length (docs st).
Proof.
  rewrite addTranslationUnit_unfold.
  destruct (tuhash (get_doc st D) !! hashKey st r).
  - by rewrite addVariants_docs.
  - simpl. by rewrite length_insert.
Qed.

Lemma wf_doc_addTranslationUnit st D d r :
  r < length (units st) →
  wf_doc st d → wf_doc (addTranslationUnit D r st) d.
Proof.
  intros Hr [Hd Hi].
  split; [by rewrite addTranslationUnit_docs_length|].
  destruct (decide (d = D)) as [->|Hne];
    [by apply indexed_addTranslationUnit|].
  rewrite addTranslationUnit_unfold.
  destruct (tuhash (get_doc st D) !! hashKey st r) as [e|].
  - apply indexed_addVariants. by apply indexed_logger.
  - assert (Hg : ∀ t, get_doc (set_doc D t (trace_entry st D)) d =
                      get_doc st d).
    { intros t. rewrite get_doc_set_doc.
      rewrite decide_False; [done|]. intros [? _]. congruence. }
    apply indexed_ext with st; try done; by rewrite Hg.
Qed.

(** A loop whose steps keep the objects of the store and the invariant of
    every document. *)
Lemma foldl_wf (step : Store → uref → Store) l st1 :
  (∀ st r, r < length (units st) →
     length (units st) ≤ length (units (step st r)) ∧
     ∀ d, wf_doc st d → wf_doc (step st r) d) →
  Forall (λ r, r < length (units st1)) l →
  length (units st1) ≤ length (units (foldl step st1 l)) ∧
  ∀ d, wf_doc st1 d → wf_doc (foldl step st1 l) d.
Proof.
  intros Hstep. induction l as [|x l IH] using rev_ind; [done|].
  intros [Hl Hx]%Forall_app. apply Forall_inv in Hx.
  destruct (IH Hl) as [Hlen Hwf]. rewrite foldl_app. simpl in *.
  destruct (Hstep (foldl step st1 l) x ltac:(lia)) as [Hlen' Hwf'].
  split; [lia|]. intros d Hd. by apply Hwf', Hwf.
Qed.

Lemma diff_step_wf this D st r :
  r < length (units st) →
  length (units st) ≤ length (units (diffed_step this D st r)) ∧
  ∀ d, wf_doc st d → wf_doc (diffed_step this D st r) d.
Proof.
  intros Hr. unfold diffed_step.
  destruct (tuhash (get_doc st this) !! unit_key (get_unit st r)) as [t|].
  - destruct (variantDiff (get_unit st t) (get_unit st r)) as [|v vd];
      [done|]. cbn [alloc_unit].
    rewrite addTranslationUnit_length. simpl. rewrite length_app. simpl.
    split; [lia|]. intros d Hd. apply wf_doc_addTranslationUnit.
    + simpl. rewrite length_app. simpl. lia.
    + by apply (wf_doc_alloc _ st).
  - rewrite addTranslationUnit_length. split; [lia|].
    intros d Hd. by apply wf_doc_addTranslationUnit.
Qed.

Lemma merge_step_wf D st r :
  r < length (units st) →
  length (units st) ≤ length (units (merge_step D st r)) ∧
  ∀ d, wf_doc st d → wf_doc (merge_step D st r) d.
Proof.
  intros Hr. unfold merge_step.
  destruct (tuhash (get_doc st D) !! hashKey st r) as [t|].
  - rewrite mergeVariants_addVariants. split.
    + unfold addVariants, set_unit. simpl. by rewrite length_insert.
    + intros d Hd. by apply wf_doc_addVariants.
  - rewrite addTranslationUnit_length. split; [lia|].
    intros d Hd. by apply wf_doc_addTranslationUnit.
Qed.

Lemma wf_doc_valid st d :
  wf_doc st d → Forall (λ r, r < length (units st)) (tu (get_doc st d)).
Proof. intros [_ Hi]. by apply indexed_valid. Qed.

Lemma diff_wf st this other :
  wf_doc st other →
  wf_doc (diffed this other st).2 (diffed this other st).1 ∧
  ∀ d, wf_doc st d → wf_doc (diffed this other st).2 d.
Proof.
  intros Hother. unfold diffed. cbn [alloc_doc fst snd].
  set (t := new_TMX (derived_options (get_doc st this))).
  set (st1 := (alloc_doc t st).2).
  assert (Hg : get_doc st1 other = get_doc st other).
  { apply get_doc_app with [t]; [done|]. by destruct Hother. }
  change (mkStore (units st) (docs st ++ [t]) (log st)) with st1.
  rewrite Hg.
  destruct (foldl_wf (diffed_step this (length (docs st)))
              (tu (get_doc st other)) st1) as [_ Hwf].
  { intros st2 r. apply diff_step_wf. }
  { by apply wf_doc_valid in Hother. }
  split.
  + apply Hwf. by apply wf_doc_new.
  + intros d Hd. apply Hwf. by apply wf_doc_alloc_doc.
Qed.

Lemma merge_wf st this tmxs :
  wf_doc st this → Forall (wf_doc st) tmxs →
  wf_doc (merge this tmxs st).2 (merge this tmxs st).1 ∧
  ∀ d, wf_doc st d → wf_doc (merge this tmxs st).2 d.
Proof.
  intros Hthis Htmxs.
  unfold merge. destruct tmxs as [|t0 tmxs0]; [done|].
  set (tmxs := t0 :: tmxs0) in *. cbn [alloc_doc fst snd].
  set (t := new_TMX (derived_options (get_doc st this))).
  set (st1 := (alloc_doc t st).2).
  change (mkStore (units st) (docs st ++ [t]) (log st)) with st1.
  assert (Hg : get_doc st1 this = get_doc st this).
  { apply get_doc_app with [t]; [done|]. by destruct Hthis. }
  rewrite Hg.
  set (D := length (docs st)).
  set (st2 := addTranslationUnits D (tu (get_doc st this)) st1).
  assert (H2 : ∀ d, wf_doc st1 d → wf_doc st2 d).
  { apply (foldl_wf (λ s r, addTranslationUnit D r s)
             (tu (get_doc st this)) st1).
    - intros st3 r Hr. rewrite addTranslationUnit_length. split; [lia|].
      intros d Hd. by apply wf_doc_addTranslationUnit.
    - by apply wf_doc_valid in Hthis. }
  assert (H3 : ∀ l st3, (∀ d, wf_doc st1 d → wf_doc st3 d) →
            Forall (wf_doc st1) l →
            ∀ d, wf_doc st1 d →
            wf_doc (foldl (λ s tmx,
                      foldl (merge_step D) s (tu (get_doc s tmx)))
                    st3 l) d).
  { clear. induction l as [|x l IH]; intros st3 H3 Hl d Hd; simpl;
      [by apply H3|].
    apply Forall_cons in Hl as [Hx Hl]. apply IH; [|done..].
    intros d' Hd'.
    apply (foldl_wf (merge_step D) (tu (get_doc st3 x)) st3).
    - intros st4 r. apply merge_step_wf.
    - apply wf_doc_valid. by apply H3.
    - by apply H3. }
  assert (Hall : Forall (wf_doc st1) tmxs).
  { eapply Forall_impl; [exact Htmxs|]. intros d.
    apply wf_doc_alloc_doc. }
  split.
  + apply (H3 tmxs st2 H2 Hall). by apply wf_doc_new.
  + intros d Hd. apply (H3 tmxs st2 H2 Hall). by apply wf_doc_alloc_doc.
Qed.

(** Whether [diff] returns or raises, every document keeps the agreement
    of its unit list and its index, and the document the call allocated
    has it. *)
Lemma diff_wf_run st this other :
  wf_doc st this → wf_doc st other →
  wf_doc (diff this other st).2 (length (docs st)) ∧
  ∀ d, wf_doc st d → wf_doc (diff this other st).2 d.
Proof.
  intros Hthis Hother.
  destruct (diff_run st this other Hthis Hother)
    as (pre & suf & Hsplit & -> & _).
  set (t := new_TMX (derived_options (get_doc st this))).
  set (st1 := (alloc_doc t st).2).
  destruct (foldl_wf (diffed_step this (length (docs st))) pre st1)
    as [_ Hwf].
  { intros st2 r. apply diff_step_wf. }
  { apply wf_doc_valid in Hother. rewrite Hsplit in Hother.
    by apply Forall_app in Hother as [Hpre _]. }
  split.
  + apply Hwf. by apply wf_doc_new.
  + intros d Hd. apply Hwf. by apply wf_doc_alloc_doc.
Qed.

(** X2: [diff], whether it returns or raises, and [merge] keep the
    agreement of unit list and index of every document of the store; the
    document [diff] allocates, which is the one it returns when it
    returns, and the document [merge] returns have it too. *)
Theorem diff_merge_keep_index st this other tmxs :
  wf_doc st this → wf_doc st other → Forall (wf_doc st) tmxs →
  (wf_doc (diff this other st).2 (length (docs st)) ∧
   (∀ d', (diff this other st).1 = Returned d' → d' = length (docs st)) ∧
   ∀ d, wf_doc st d → wf_doc (diff this other st).2 d) ∧
  (wf_doc (merge this tmxs st).2 (merge this tmxs st).1 ∧
   ∀ d, wf_doc st d → wf_doc (merge this tmxs st).2 d).
Proof.
  intros Hthis Hother Htmxs. split.
  - destruct (diff_wf_run st this other Hthis Hother) as [H1 H2].
    split; [done|]. split; [|done].
    by destruct (diff_frame_run st this other Hthis Hother) as (_ & _ & H).
  - by apply merge_wf.
Qed.

(** ** [addTranslationUnits] *)

Lemma addTranslationUnit_hashKey D r st r' :
  hashKey (addTranslationUnit D r st) r' = hashKey st r'.
Proof.
  rewrite addTranslationUnit_unfold. unfold trace_entry.
  destruct (tuhash (get_doc st D) !! hashKey st r).
  - by rewrite hashKey_addVariants, hashKey_logger.
  - by rewrite hashKey_set_doc, hashKey_logger.
Qed.

Lemma addTranslationUnit_other D r st d :
  d ≠ D → get_doc (addTranslationUnit D r st) d = get_doc st d.
Proof.
  intros Hne. rewrite addTranslationUnit_unfold.
  destruct (tuhash (get_doc st D) !! hashKey st r).
  - unfold get_doc. by rewrite addVariants_docs.
  - rewrite get_doc_set_doc. rewrite decide_False; [done|].
    intros [? _]. congruence.
Qed.

Lemma addTranslationUnit_tu st d r :
  d < length (docs st) →
  tu (get_doc (addTranslationUnit d r st) d) =
  tu (get_doc st d) ++
  match tuhash (get_doc st d) !! hashKey st r with
  | Some _ => []
  | None => [r]
  end.
Proof.
  intros Hd. rewrite addTranslationUnit_unfold.
  destruct (tuhash (get_doc st d) !! hashKey st r).
  - rewrite app_nil_r. unfold get_doc. by rewrite addVariants_docs.
  - rewrite get_doc_set_doc. by rewrite decide_True.
Qed.

Lemma addTranslationUnit_tuhash st d r :
  d < length (docs st) →
  tuhash (get_doc (addTranslationUnit d r st) d) =
  match tuhash (get_doc st d) !! hashKey st r with
  | Some _ => tuhash (get_doc st d)
  | None => <[hashKey st r := r]> (tuhash (get_doc st d))
  end.
Proof.
  intros Hd. rewrite addTranslationUnit_unfold.
  destruct (tuhash (get_doc st d) !! hashKey st r).
  - unfold get_doc. by rewrite addVariants_docs.
  - rewrite get_doc_set_doc. by rewrite decide_True.
Qed.

Lemma addTranslationUnit_new_units st d r :
  tuhash (get_doc st d) !! hashKey st r = None →
  units (addTranslationUnit d r st) = units st.
Proof. intros H. rewrite addTranslationUnit_unfold, H. done. Qed.

Lemma lookup_index st d k :
  indexed st d → is_Some (tuhash (get_doc st d) !! k) ↔ k ∈ ukeys st d.
Proof.
  intros (_ & Hall & Hmap). unfold ukeys. split.
  - intros [t Ht]. destruct (Hmap k t Ht) as [Hin <-].
    by apply list_elem_of_fmap_2.
  - intros (t & -> & Hin)%list_elem_of_fmap.
    rewrite Forall_forall in Hall. destruct (Hall t Hin) as [_ Hl].
    by exists t.
Qed.

Lemma fmap_hashKey_addTranslationUnit D x st (l : list uref) :
  hashKey (addTranslationUnit D x st) <$> l = hashKey st <$> l.
Proof. apply list_fmap_ext. intros. apply addTranslationUnit_hashKey. Qed.

Lemma ukeys_addTranslationUnit st d x :
  d < length (docs st) →
  ukeys (addTranslationUnit d x st) d =
  ukeys st d ++
  match tuhash (get_doc st d) !! hashKey st x with
  | Some _ => []
  | None => [hashKey st x]
  end.
Proof.
  intros Hd. unfold ukeys. rewrite addTranslationUnit_tu by done.
  rewrite fmap_hashKey_addTranslationUnit, fmap_app.
  by destruct (tuhash (get_doc st d) !! hashKey st x).
Qed.

Lemma addTranslationUnits_wf D us st d :
  Forall (λ r, r < length (units st)) us →
  wf_doc st d → wf_doc (addTranslationUnits D us st) d.
Proof.
  intros Hus Hd.
  apply (foldl_wf (λ s r, addTranslationUnit D r s) us st); [|done..].
  intros s r Hr. rewrite addTranslationUnit_length. split; [lia|].
  intros d' Hd'. by apply wf_doc_addTranslationUnit.
Qed.

Lemma addTranslationUnits_hashKey D us st r :
  hashKey (addTranslationUnits D us st) r = hashKey st r.
Proof.
  unfold addTranslationUnits. revert st.
  induction us as [|x us IH]; intros st; simpl; [done|].
  rewrite IH. apply addTranslationUnit_hashKey.
Qed.

Lemma addTranslationUnits_other D us st d :
  d ≠ D → get_doc (addTranslationUnits D us st) d = get_doc st d.
Proof.
  intros Hne. unfold addTranslationUnits. revert st.
  induction us as [|x us IH]; intros st; simpl; [done|].
  rewrite IH. by apply addTranslationUnit_other.
Qed.

(** Units with pairwise distinct keys that the document does not know are
    all stored, in order, and no unit changes. *)
Lemma addTranslationUnits_new D us st :
  D < length (docs st) →
  NoDup (hashKey st <$> us) →
  (∀ r, r ∈ us → tuhash (get_doc st D) !! hashKey st r = None) →
  tu (get_doc (addTranslationUnits D us st) D) = tu (get_doc st D) ++ us ∧
  units (addTranslationUnits D us st) = units st.
Proof.
  unfold addTranslationUnits. revert st.
  induction us as [|x us IH]; intros st HD Hnd Hnew; simpl.
  { by rewrite app_nil_r. }
  rewrite fmap_cons in Hnd. apply NoDup_cons in Hnd as [Hx Hnd].
  assert (Hlx : tuhash (get_doc st D) !! hashKey st x = None)
    by (apply Hnew; left).
  set (st1 := addTranslationUnit D x st).
  assert (Hk : ∀ r, hashKey st1 r = hashKey st r)
    by (intros r; apply addTranslationUnit_hashKey).
  destruct (IH st1) as [Htu Hun].
  - unfold st1. by rewrite addTranslationUnit_docs_length.
  - erewrite list_fmap_ext; [exact Hnd|]. intros; apply Hk.
  - intros r Hr. rewrite Hk. unfold st1.
    rewrite addTranslationUnit_tuhash, Hlx by done.
    rewrite lookup_insert_ne; [apply Hnew; by right|].
    intros Heq. apply Hx. rewrite Heq. by apply list_elem_of_fmap_2.
  - rewrite Htu, Hun.
    unfold st1. rewrite addTranslationUnit_tu, Hlx by done.
    rewrite <- app_assoc. split; [done|].
    by apply addTranslationUnit_new_units.
Qed.

Lemma first_of_keys_ext known known' (key key' : uref → UKey) us :
  (∀ k, k ∈ known ↔ k ∈ known') → (∀ r, key r = key' r) →
  first_of_keys known key us = first_of_keys known' key' us.
Proof.
  intros Hknown Hkey. revert known known' Hknown.
  induction us as [|x us IH]; intros known known' Hknown; simpl; [done|].
  rewrite <- Hkey.
  destruct (decide (key x ∈ known)) as [Hin|Hout].
  - rewrite decide_True by (by apply Hknown). by apply IH.
  - rewrite decide_False by (by rewrite <- Hknown). f_equal.
    apply IH. intros k. rewrite !elem_of_cons. by rewrite Hknown.
Qed.

Lemma addTranslationUnits_first st d us :
  wf_doc st d → Forall (λ r, r < length (units st)) us →
  tu (get_doc (addTranslationUnits d us st) d) =
  tu (get_doc st d) ++ first_of_keys (ukeys st d) (hashKey st) us.
Proof.
  unfold addTranslationUnits. revert st.
  induction us as [|x us IH]; intros st Hwf Hus; simpl.
  { by rewrite app_nil_r. }
  apply Forall_cons in Hus as [Hx Hus].
  assert (Hd : d < length (docs st)) by (by destruct Hwf).
  rewrite IH; cycle 1.
  { by apply wf_doc_addTranslationUnit. }
  { by rewrite addTranslationUnit_length. }
  rewrite addTranslationUnit_tu, ukeys_addTranslationUnit by done.
  rewrite <- app_assoc. f_equal.
  destruct (tuhash (get_doc st d) !! hashKey st x) as [t|] eqn:Hlx.
  - rewrite decide_True
      by (apply lookup_index; [by destruct Hwf | by exists t]).
    rewrite app_nil_r. simpl. apply first_of_keys_ext; [done|].
    intros r. apply addTranslationUnit_hashKey.
  - rewrite decide_False; cycle 1.
    { intros Hin. apply lookup_index in Hin; [|by destruct Hwf].
      rewrite Hlx in Hin. by destruct Hin. }
    simpl. f_equal. apply first_of_keys_ext.
    + intros k.
      rewrite elem_of_app, (list_elem_of_singleton k (hashKey st x)),
        elem_of_cons. tauto.
    + intros r. apply addTranslationUnit_hashKey.
Qed.

(** X3: [addTranslationUnits] stores, behind the units the document
    has, the first unit of every key that the document does not know yet,
    in the order given, and no other unit: the keys of the document
    become the old keys and the keys of the given units, no key occurs
    twice, and no unit changes its key. Units with pairwise distinct
    unknown keys are all stored. *)
Theorem addTranslationUnits_spec st d us :
  wf_doc st d → Forall (λ r, r < length (units st)) us →
  let st' := addTranslationUnits d us st in
  wf_doc st' d ∧
  (∀ r, hashKey st' r = hashKey st r) ∧
  tu (get_doc st' d) =
    tu (get_doc st d) ++ first_of_keys (ukeys st d) (hashKey st) us ∧
  (∀ k, k ∈ ukeys st' d ↔ k ∈ ukeys st d ∨ k ∈ hashKey st <$> us) ∧
  NoDup (ukeys st' d) ∧
  (NoDup (hashKey st <$> us) →
   (∀ r, r ∈ us → hashKey st r ∉ ukeys st d) →
   tu (get_doc st' d) = tu (get_doc st d) ++ us).
Proof.
  intros Hwf Hus st'.
  assert (Hwf' : wf_doc st' d) by (by apply addTranslationUnits_wf).
  split; [done|]. split; [intros r; apply addTranslationUnits_hashKey|].
  split; [by apply addTranslationUnits_first|].
  split; [|split].
  - clear Hwf'. subst st'. unfold addTranslationUnits. revert st Hwf Hus.
    induction us as [|x us IH]; intros st Hwf Hus k; cbn [foldl].
    { rewrite fmap_nil, elem_of_nil. tauto. }
    apply Forall_cons in Hus as [Hx Hus].
    rewrite IH; cycle 1.
    { by apply wf_doc_addTranslationUnit. }
    { by rewrite addTranslationUnit_length. }
    rewrite fmap_hashKey_addTranslationUnit.
    rewrite ukeys_addTranslationUnit by (by destruct Hwf).
    rewrite fmap_cons, elem_of_cons, elem_of_app.
    destruct (tuhash (get_doc st d) !! hashKey st x) as [t|] eqn:Hlx.
    + assert (hashKey st x ∈ ukeys st d).
      { apply lookup_index; [by destruct Hwf | by exists t]. }
      rewrite elem_of_nil. split; [tauto|].
      intros [?|[->|?]]; tauto.
    + rewrite list_elem_of_singleton. tauto.
  - destruct Hwf' as [_ Hi]. by apply indexed_NoDup_keys.
  - intros Hnd Hnew. apply addTranslationUnits_new; [by destruct Hwf|done|].
    intros r Hr. apply eq_None_not_Some. intros Hs.
    apply (Hnew r Hr). apply lookup_index; [by destruct Hwf | done].
Qed.

(** ** Documents that bring nothing new *)

Lemma variantDiff_nil tu1 tu2 :
  variantDiff tu1 tu2 = [] ↔ ∀ k, k ∈ vkeys tu2 → k ∈ vkeys tu1.
Proof.
  split.
  - intros Hnil k (x & -> & Hx)%list_elem_of_fmap.
    destruct (decide (variant_key x ∈ vkeys tu1)) as [|Hn]; [done|].
    assert (Hin : x ∈ variantDiff tu1 tu2)
      by (by apply elem_of_variantDiff).
    rewrite Hnil in Hin. by apply elem_of_nil in Hin.
  - intros Hall. destruct (variantDiff tu1 tu2) as [|x vd] eqn:E; [done|].
    assert (Hx : x ∈ variantDiff tu1 tu2) by (rewrite E; left).
    apply elem_of_variantDiff in Hx as [Hx Hn]. destruct Hn.
    apply Hall. by apply list_elem_of_fmap_2.
Qed.

Lemma reported_covered st this r :
  reported st this r = false ↔ covered st this r.
Proof.
  unfold reported, covered.
  destruct (tuhash (get_doc st this) !! hashKey st r) as [t|].
  - split.
    + intros H. exists t. split; [done|]. apply variantDiff_nil.
      by destruct (variantDiff (get_unit st t) (get_unit st r)).
    + intros (t' & [= <-] & Hall). apply variantDiff_nil in Hall.
      by rewrite Hall.
  - split; [done|]. by intros (t & ? & _).
Qed.

Lemma diff_step_covered this D st r :
  covered st this r → diffed_step this D st r = st.
Proof.
  intros (t & Ht & Hall). unfold diffed_step.
  change (unit_key (get_unit st r)) with (hashKey st r). rewrite Ht.
  apply variantDiff_nil in Hall. by rewrite Hall.
Qed.

Lemma foldl_fixed {A} (step : Store → A → Store) l st :
  (∀ x, x ∈ l → step st x = st) → foldl step st l = st.
Proof.
  induction l as [|x l IH]; intros H; simpl; [done|].
  rewrite H by left. apply IH. intros y Hy. apply H. by right.
Qed.

Lemma covered_alloc_doc t st this r :
  this < length (docs st) →
  covered st this r → covered (alloc_doc t st).2 this r.
Proof.
  intros Hlt (x & Hx & Hall). exists x. split; [|done].
  assert (Hg : get_doc (alloc_doc t st).2 this = get_doc st this)
    by (by apply get_doc_app with [t]).
  by rewrite Hg.
Qed.

Lemma diff_covered st this other :
  this < length (docs st) → other < length (docs st) →
  Forall (covered st this) (tu (get_doc st other)) →
  diffed this other st =
  alloc_doc (new_TMX (derived_options (get_doc st this))) st.
Proof.
  intros Hthis Hother Hall. unfold diffed, alloc_doc.
  set (t := new_TMX (derived_options (get_doc st this))).
  set (st1 := mkStore (units st) (docs st ++ [t]) (log st)).
  assert (Hg : get_doc st1 other = get_doc st other)
    by (by apply get_doc_app with [t]).
  rewrite Hg. f_equal.
  apply foldl_fixed. intros r Hr. apply diff_step_covered.
  rewrite Forall_forall in Hall.
  by apply (covered_alloc_doc t st this r Hthis), Hall.
Qed.

Lemma filter_nil_Forall {A} (f : A → bool) l :
  List.filter f l = [] ↔ Forall (λ x, f x = false) l.
Proof.
  induction l as [|x l IH]; simpl; [by split|].
  destruct (f x) eqn:E.
  - split; [done|]. intros [H _]%Forall_cons. congruence.
  - rewrite IH. split; [by constructor | by intros [_ ?]%Forall_cons].
Qed.

Lemma covered_no_raise st this r :
  covered st this r → diff_raises st this r = false.
Proof.
  intros (t & Ht & Hall). unfold diff_raises. rewrite Ht.
  apply variantDiff_nil in Hall. by rewrite Hall.
Qed.

Lemma diffed_empty_iff st this other :
  wf_doc st this → wf_doc st other →
  let n := (diffed this other st).1 in
  let st' := (diffed this other st).2 in
  (size st' n = 0 ↔ Forall (covered st this) (tu (get_doc st other))) ∧
  (Forall (covered st this) (tu (get_doc st other)) →
   units st' = units st ∧ log st' = log st).
Proof.
  intros Hthis Hother n st'.
  assert (Hlt1 : this < length (docs st)) by (by destruct Hthis).
  assert (Hlt2 : other < length (docs st)) by (by destruct Hother).
  split; [split|].
  - intros Hsize.
    destruct (diff_spec st this other Hthis Hother)
      as (Hn & news & D & Hu & Hd & _ & _ & Hrep).
    fold n st' in Hn, Hu, Hd, Hrep.
    assert (HgD : get_doc st' n = D)
      by (rewrite Hn; by apply get_doc_app_new).
    unfold size in Hsize. rewrite HgD in Hsize.
    apply Forall2_length in Hrep. rewrite Hsize in Hrep.
    apply nil_length_inv, filter_nil_Forall in Hrep.
    eapply Forall_impl; [exact Hrep|]. intros r. apply reported_covered.
  - intros Hall. subst n st'.
    rewrite diff_covered by done.
    cbn [alloc_doc fst snd]. unfold size.
    by rewrite (get_doc_app_new _ st
                  (new_TMX (derived_options (get_doc st this)))).
  - intros Hall. subst n st'.
    by rewrite diff_covered by done.
Qed.

(** X4: [diff] returns an empty document exactly when every unit of the
    other document is covered by this document, that is, this document
    has a unit with its key and with all its variant keys; the call then
    creates no unit and logs nothing. When some unit is not covered,
    [diff] returns a document that is not empty, or it raises. *)
Theorem diff_empty_iff st this other :
  wf_doc st this → wf_doc st other →
  ((∃ st', diff this other st = (Returned (length (docs st)), st') ∧
           size st' (length (docs st)) = 0) ↔
   Forall (covered st this) (tu (get_doc st other))) ∧
  (Forall (covered st this) (tu (get_doc st other)) →
   units (diff this other st).2 = units st ∧
   log (diff this other st).2 = log st).
Proof.
  intros Hthis Hother.
  destruct (diffed_empty_iff st this other Hthis Hother) as [Hiff Hsame].
  destruct (diff_spec st this other Hthis Hother) as [Hn _].
  assert (Hret : Forall (covered st this) (tu (get_doc st other)) →
    diff this other st =
      (Returned (diffed this other st).1, (diffed this other st).2)).
  { intros Hall. apply diff_returns; [done|done|].
    eapply Forall_impl; [exact Hall|]. intros r. apply covered_no_raise. }
  split; [split|].
  - intros (st' & Hrun & Hsize).
    destruct (diff_returned st this other _ _ Hthis Hother Hrun)
      as (Hd & -> & _).
    apply Hiff. by rewrite <- Hd.
  - intros Hall. exists (diffed this other st).2.
    rewrite (Hret Hall), Hn. split; [done|].
    rewrite <- Hn. by apply Hiff.
  - intros Hall. rewrite (Hret Hall). by apply Hsame.
Qed.

Lemma covered_self st d r :
  indexed st d → r ∈ tu (get_doc st d) → covered st d r.
Proof.
  intros (_ & Hall & _) Hr. rewrite Forall_forall in Hall.
  destruct (Hall r Hr) as [_ Hl]. by exists r.
Qed.

(** X5: the difference of a document with itself is empty: [diff]
    returns a new document without a unit, and computing it creates no
    unit and logs nothing. *)
Theorem diff_self st d :
  wf_doc st d →
  ∃ st', diff d d st = (Returned (length (docs st)), st') ∧
         size st' (length (docs st)) = 0 ∧
         units st' = units st ∧
         log st' = log st.
Proof.
  intros Hwf. pose proof Hwf as [Hd Hi].
  assert (Hall : Forall (covered st d) (tu (get_doc st d))).
  { apply Forall_forall. intros r Hr. by apply covered_self. }
  rewrite (diff_returns st d d Hwf Hwf).
  - rewrite diff_covered by done. cbn [alloc_doc fst snd].
    eexists. split; [reflexivity|]. unfold size. cbn [units log].
    by rewrite (get_doc_app_new _ st
                  (new_TMX (derived_options (get_doc st d)))).
  - eapply Forall_impl; [exact Hall|]. intros r. apply covered_no_raise.
Qed.

(** ** Documents with nothing in common *)

Lemma diff_loop_unknown this D l st1 :
  this ≠ D →
  (∀ r, r ∈ l → tuhash (get_doc st1 this) !! hashKey st1 r = None) →
  foldl (diffed_step this D) st1 l = addTranslationUnits D l st1.
Proof.
  intros Hne. unfold addTranslationUnits. revert st1.
  induction l as [|x l IH]; intros st1 Hun; simpl; [done|].
  assert (Hs : diffed_step this D st1 x = addTranslationUnit D x st1).
  { unfold diffed_step.
    change (unit_key (get_unit st1 x)) with (hashKey st1 x).
    by rewrite Hun by left. }
  rewrite Hs. apply IH. intros r Hr.
  rewrite addTranslationUnit_other by done.
  rewrite addTranslationUnit_hashKey. apply Hun. by right.
Qed.

Lemma diffed_disjoint st this other :
  wf_doc st this → wf_doc st other →
  Forall (λ r, hashKey st r ∉ ukeys st this) (tu (get_doc st other)) →
  let n := (diffed this other st).1 in
  let st' := (diffed this other st).2 in
  tu (get_doc st' n) = tu (get_doc st other) ∧ units st' = units st.
Proof.
  intros [Hthis Hit] [Hother Hio] Hnew. rewrite Forall_forall in Hnew.
  unfold diffed, alloc_doc.
  set (t := new_TMX (derived_options (get_doc st this))).
  set (st1 := mkStore (units st) (docs st ++ [t]) (log st)).
  assert (Hgo : get_doc st1 other = get_doc st other)
    by (by apply get_doc_app with [t]).
  assert (Hgt : get_doc st1 this = get_doc st this)
    by (by apply get_doc_app with [t]).
  assert (HgD : get_doc st1 (length (docs st)) = t)
    by (by apply get_doc_app_new).
  rewrite Hgo. cbn [fst snd].
  rewrite diff_loop_unknown; cycle 1.
  { lia. }
  { intros r Hr. rewrite Hgt. change (hashKey st1 r) with (hashKey st r).
    apply eq_None_not_Some. intros Hs. apply (Hnew r Hr).
    by apply lookup_index. }
  destruct (addTranslationUnits_new (length (docs st))
              (tu (get_doc st other)) st1) as [Htu Hun].
  - unfold st1. simpl. rewrite length_app. simpl. lia.
  - change (hashKey st1) with (hashKey st). by apply indexed_NoDup_keys.
  - intros r Hr. by rewrite HgD.
  - rewrite Htu, Hun, HgD. done.
Qed.

(** X6: when this document knows no key of the other document, [diff]
    returns a new document that holds the units of the other document
    themselves, the same objects in the same order, and no unit is
    created or changed. *)
Theorem diff_disjoint st this other :
  wf_doc st this → wf_doc st other →
  Forall (λ r, hashKey st r ∉ ukeys st this) (tu (get_doc st other)) →
  ∃ st', diff this other st = (Returned (length (docs st)), st') ∧
         tu (get_doc st' (length (docs st))) = tu (get_doc st other) ∧
         units st' = units st.
Proof.
  intros Hthis Hother Hnew.
  destruct (diffed_disjoint st this other Hthis Hother Hnew) as [Htu Hun].
  destruct (diff_spec st this other Hthis Hother) as [Hn _].
  rewrite Hn in Htu.
  exists (diffed this other st).2. split; [|done].
  rewrite <- Hn. apply diff_returns; [done|done|].
  eapply Forall_impl; [exact Hnew|]. intros r Hr. cbv beta in Hr.
  unfold diff_raises.
  destruct (tuhash (get_doc st this) !! hashKey st r) as [t|] eqn:Ht;
    [|done].
  destruct Hr. apply lookup_index; [by destruct Hthis | by eexists].
Qed.

(** ** Merging documents that bring nothing new *)

(** X7: when every unit of the documents given to [merge] is covered by
    the receiver, the new document holds the units of the receiver
    themselves, in the same order, and no unit is created or changed. *)
Theorem merge_absorbs st this tmxs :
  wf_doc st this → Forall (wf_doc st) tmxs → tmxs ≠ [] →
  Forall (λ t, Forall (covered st this) (tu (get_doc st t))) tmxs →
  let n := (merge this tmxs st).1 in
  let st' := (merge this tmxs st).2 in
  n = length (docs st) ∧
  tu (get_doc st' n) = tu (get_doc st this) ∧
  units st' = units st.
Proof.
  intros Hthis Htmxs Hne Hcov.
  unfold merge. destruct tmxs as [|t0 tmxs0]; [done|].
  set (tmxs := t0 :: tmxs0) in *. unfold alloc_doc.
  set (t := new_TMX (derived_options (get_doc st this))).
  set (st1 := mkStore (units st) (docs st ++ [t]) (log st)).
  set (D := length (docs st)).
  assert (Hlt : this < length (docs st)) by (by destruct Hthis).
  assert (Hgt : get_doc st1 this = get_doc st this)
    by (by apply get_doc_app with [t]).
  assert (HgD : get_doc st1 D = t) by (by apply get_doc_app_new).
  rewrite Hgt.
  set (st2 := addTranslationUnits D (tu (get_doc st this)) st1).
  cbn [fst snd].
  destruct (addTranslationUnits_new D (tu (get_doc st this)) st1)
    as [Htu Hun].
  { unfold st1, D. simpl. rewrite length_app. simpl. lia. }
  { change (hashKey st1) with (hashKey st).
    destruct Hthis as [_ Hi]. by apply indexed_NoDup_keys. }
  { intros r Hr. by rewrite HgD. }
  fold st2 in Htu, Hun. rewrite HgD in Htu. simpl in Htu.
  assert (HwfD : wf_doc st2 D).
  { apply addTranslationUnits_wf.
    - by apply wf_doc_valid in Hthis.
    - by apply (wf_doc_new t st). }
  assert (Hk : ∀ r, hashKey st2 r = hashKey st r).
  { intros r. unfold st2. by rewrite addTranslationUnits_hashKey. }
  assert (Hu : ∀ r, get_unit st2 r = get_unit st r).
  { intros r. unfold get_unit. by rewrite Hun. }
  assert (Hfix : foldl (λ s tmx,
                          foldl (merge_step D) s (tu (get_doc s tmx)))
                       st2 tmxs = st2).
  { apply foldl_fixed. intros x Hx. apply foldl_fixed. intros r Hr.
    rewrite Forall_forall in Htmxs, Hcov.
    assert (Hgx : get_doc st2 x = get_doc st x).
    { unfold st2. rewrite addTranslationUnits_other.
      - apply get_doc_app with [t]; [done|]. by destruct (Htmxs x Hx).
      - destruct (Htmxs x Hx). unfold D. lia. }
    rewrite Hgx in Hr. pose proof (Hcov x Hx) as Hc.
    rewrite Forall_forall in Hc.
    destruct (Hc r Hr) as (m & Hm & Hall).
    destruct Hthis as [_ (_ & _ & Hmap)].
    destruct (Hmap _ _ Hm) as [Hin Hkm].
    destruct HwfD as [_ (_ & HallD & _)]. rewrite Forall_forall in HallD.
    rewrite Htu in HallD. destruct (HallD m Hin) as [_ HlD].
    unfold merge_step. rewrite Hk, <- Hkm, <- Hk, HlD.
    rewrite mergeVariants_addVariants. apply addVariants_known.
    intros x' Hx'. rewrite Hu in Hx' |- *. apply Hall.
    by apply list_elem_of_fmap_2. }
  rewrite Hfix. by rewrite Htu, Hun.
Qed.

(** ** The steps of [addResource] *)

Lemma hoare_conj {A} (m : M A) P1 P2 (Q1 Q2 : A → Store → Prop) E1 E2 :
  hoare P1 m Q1 E1 → hoare P2 m Q2 E2 →
  hoare (λ st, P1 st ∧ P2 st) m (λ a st, Q1 a st ∧ Q2 a st)
        (λ st, E1 st ∧ E2 st).
Proof.
  intros H1 H2 st [HP1 HP2]. specialize (H1 st HP1).
  specialize (H2 st HP2). by destruct (m st) as [[a|err] st'].
Qed.

Lemma addVariant_length r v st :
  length (units (addVariant r v st)) = length (units st).
Proof. unfold addVariant, set_unit. simpl. by rewrite length_insert. Qed.

Lemma addVariants_length r vs st :
  length (units (addVariants r vs st)) = length (units st).
Proof. unfold addVariants, set_unit. simpl. by rewrite length_insert. Qed.

(** A property of the store that is kept by the steps [addResource] is
    made of is kept by [addResource]: a new unit built for a segment of
    the resource, a unit created by the call (the units from [n0] on)
    being added to the document, and a variant being added to a unit
    created by the call. *)
Lemma build_and_add_steps d n0 res (I : Store → Prop) seg tgt :
  (∀ st, I st → n0 ≤ length (units st)) →
  (∀ seg tgt st, I st → I (alloc_unit (build_unit res seg tgt) st).2) →
  (∀ r st, I st → n0 ≤ r → r < length (units st) →
           I (addTranslationUnit d r st)) →
  hoare I (r ← alloc (build_unit res seg tgt);
           modify (addTranslationUnit d r)) (λ _, I) I.
Proof.
  intros I_created I_alloc I_add.
  eapply hoare_bind.
  - apply hoare_alloc with
      (Q := λ r st, I st ∧ n0 ≤ r ∧ r < length (units st)).
    intros st Hst. split; [by apply I_alloc|].
    pose proof (I_created st Hst). simpl. rewrite length_app. simpl. lia.
  - intros r. apply hoare_modify. intros st (Hst & H1 & H2).
    by apply I_add.
Qed.

Lemma addResource_steps d n0 res (I : Store → Prop) :
  (∀ st, I st → n0 ≤ length (units st)) →
  (∀ seg tgt st, I st → I (alloc_unit (build_unit res seg tgt) st).2) →
  (∀ r st, I st → n0 ≤ r → r < length (units st) →
           I (addTranslationUnit d r st)) →
  (∀ r x st, I st → n0 ≤ r → r < length (units st) →
             I (addVariant r x st)) →
  hoare I (addResource d (Some res)) (λ _, I) I.
Proof.
  intros I_created I_alloc I_add I_variant.
  unfold addResource.
  eapply hoare_bind; [apply hoare_gets with (Q := λ _, I); by intros|].
  intros this.
  match goal with |- hoare _ (if ?c then _ else _) _ _ => destruct c end;
    [by apply hoare_ret|].
  destruct (res_payload res) as [source target|srcs tgts|srcs tgts].
  - apply hoare_forEach. intros segment i _.
    by apply (build_and_add_steps d n0).
  - apply hoare_forEach. intros element i _.
    apply hoare_forEach. intros string j _.
    eapply hoare_bind.
    { instantiate (1 := λ _, I).
      match goal with |- hoare _ (if ?c then _ else _) _ _ =>
        destruct c end; [|by apply hoare_ret].
      match goal with |- hoare _ (match ?c with _ => _ end) _ _ =>
        destruct c as [ta|] end; [|by apply hoare_throw].
      destruct (ta !! i) as [segs|]; [|by apply hoare_ret].
      destruct (j <? length segs); by apply hoare_ret. }
    intros tgt. by apply (build_and_add_steps d n0).
  - set (J := λ (other : list uref) st,
                I st ∧ Forall (λ r, n0 ≤ r ∧ r < length (units st)) other).
    eapply hoare_bind.
    { unfold plural_units. eapply hoare_weaken.
      - apply (hoare_foldM _ J I).
        intros other [category [untouched|segments]] _; cbn [snd];
          [apply hoare_throw; by intros st [? _]|].
        apply (hoare_foldM_from _ J I).
        intros other' string i _. unfold plural_unit_step.
        eapply hoare_bind.
        + apply hoare_alloc with
            (Q := λ r st, J other' st ∧ n0 ≤ r ∧ r < length (units st)).
          intros st [Hst Hother].
          pose proof (I_created st Hst).
          split; [split|].
          * by apply I_alloc.
          * eapply Forall_impl; [exact Hother|]. intros r. simpl.
            rewrite length_app. simpl. lia.
          * simpl. rewrite length_app. simpl. lia.
        + intros r. eapply hoare_bind.
          * apply hoare_modify with
              (Q := λ _ st, J other' st ∧ n0 ≤ r ∧ r < length (units st)).
            intros st ([Hst Hother] & H1 & H2).
            rewrite addTranslationUnit_length.
            split; [split|done]; [by apply I_add|].
            eapply Forall_impl; [exact Hother|]. intros r'. simpl.
            by rewrite addTranslationUnit_length.
          * intros []. apply hoare_ret.
            intros st ([Hst Hother] & H1 & H2). simpl.
            destruct (String.eqb category "other"); [|by split].
            split; [done|]. apply Forall_app. split; [done|].
            by apply Forall_singleton.
      - intros st Hst. split; [done | apply Forall_nil_2].
      - intros other st Hst. exact Hst. }
    intros other.
    match goal with |- hoare _ (if ?c then _ else _) _ _ => destruct c end;
      [|apply hoare_ret; by intros st [? _]].
    destruct tgts as [t|]; [|apply hoare_ret; by intros st [? _]].
    unfold plural_extras. eapply hoare_weaken.
    + apply (hoare_forEach _ (J other) I).
      intros [category [untouched|segments]] _ _; cbn [fst snd];
        match goal with |- hoare _ (if ?c then _ else _) _ _ =>
          destruct c end;
        try (by apply hoare_ret);
        try (apply hoare_throw; by intros st [? _]).
      apply hoare_forEach. intros string i _. unfold plural_extra_step.
      destruct (other !! i) as [r|] eqn:Hr;
        [|apply hoare_throw; by intros st [? _]].
      apply hoare_modify. intros st [Hst Hother].
      assert (Hb : n0 ≤ r ∧ r < length (units st)).
      { rewrite Forall_forall in Hother. apply Hother.
        by eapply list_elem_of_lookup_2. }
      split; [apply I_variant; tauto|].
      eapply Forall_impl; [exact Hother|]. intros r'. cbn beta.
      by rewrite addVariant_length.
    + done.
    + by intros [] st [? _].
Qed.


(** *** What [addResource] keeps *)

Lemma resource_frame_refl st d : resource_frame st d st.
Proof.
  split; [done|]. split; [done|]. split; [done|]. split; [done|].
  split; [|intros r _; split; [done|]; exists []; by rewrite app_nil_r].
  exists []. by rewrite app_nil_r.
Qed.

Lemma resource_frame_logger st0 d lvl msg st :
  resource_frame st0 d st → resource_frame st0 d (logger lvl msg st).
Proof. done. Qed.

Lemma resource_frame_alloc st0 d u st :
  resource_frame st0 d st → resource_frame st0 d (alloc_unit u st).2.
Proof.
  intros (Hlen & Hdocs & Hother & Hhead & (l & Hl & Hfresh) & Hold).
  assert (Hu : ∀ r, r < length (units st) →
                    get_unit (alloc_unit u st).2 r = get_unit st r).
  { intros r Hr. by apply get_unit_app with [u]. }
  split; [simpl; rewrite length_app; lia|].
  split; [done|]. split; [done|]. split; [done|]. split.
  - exists l. split; [done|]. eapply Forall_impl; [exact Hfresh|].
    intros r. simpl. rewrite length_app. simpl. lia.
  - intros r Hr. rewrite Hu by lia. by apply Hold.
Qed.

Lemma resource_frame_addVariants st0 d e vs st :
  resource_frame st0 d st → resource_frame st0 d (addVariants e vs st).
Proof.
  intros (Hlen & Hdocs & Hother & Hhead & (l & Hl & Hfresh) & Hold).
  assert (Hul : length (units (addVariants e vs st)) = length (units st))
    by (unfold addVariants, set_unit; simpl; by rewrite length_insert).
  assert (Hg : ∀ d', get_doc (addVariants e vs st) d' = get_doc st d')
    by (intros d'; unfold get_doc; by rewrite addVariants_docs).
  split; [lia|].
  split; [by rewrite addVariants_docs|].
  split; [intros d' Hd'; rewrite Hg; by apply Hother|].
  split; [by rewrite Hg|]. split.
  - exists l. rewrite Hg. split; [done|].
    eapply Forall_impl; [exact Hfresh|]. intros r. cbn beta.
    rewrite Hul. lia.
  - intros r Hr. destruct (Hold r Hr) as [Hf (added & Ha)].
    rewrite get_unit_addVariants. case_decide; [|by eauto].
    rewrite unit_addVariants_frame. split; [done|].
    destruct (unit_addVariants_prefix (get_unit st r) vs)
      as (extra & -> & _).
    exists (added ++ extra). by rewrite Ha, app_assoc.
Qed.

Lemma resource_frame_addTranslationUnit st0 d r st :
  resource_frame st0 d st →
  length (units st0) ≤ r → r < length (units st) →
  resource_frame st0 d (addTranslationUnit d r st).
Proof.
  intros Hf H1 H2. rewrite addTranslationUnit_unfold.
  destruct (tuhash (get_doc st d) !! hashKey st r) as [e|].
  { by apply resource_frame_addVariants, resource_frame_logger. }
  destruct (decide (d < length (docs st))) as [Hd|Hd]; cycle 1.
  { rewrite set_doc_dangling by (simpl; lia).
    by apply resource_frame_logger. }
  destruct Hf as (Hlen & Hdocs & Hother & Hhead & (l & Hl & Hfresh) & Hold).
  split; [done|].
  split; [simpl; by rewrite length_insert|].
  split.
  { intros d' Hd'. rewrite get_doc_set_doc.
    rewrite decide_False; [by apply Hother|]. intros [? _]. congruence. }
  rewrite get_doc_set_doc, decide_True by done.
  split; [exact Hhead|]. split; [|exact Hold].
  exists (l ++ [r]). rewrite Hl, app_assoc. split; [done|].
  apply Forall_app. split; [done|]. by apply Forall_singleton.
Qed.

Lemma resource_frame_addVariant st0 d r x st :
  resource_frame st0 d st → length (units st0) ≤ r →
  resource_frame st0 d (addVariant r x st).
Proof.
  intros (Hlen & Hdocs & Hother & Hhead & (l & Hl & Hfresh) & Hold) Hr.
  split; [by rewrite addVariant_length|].
  split; [done|]. split; [done|]. split; [done|]. split.
  - exists l. split; [done|]. eapply Forall_impl; [exact Hfresh|].
    intros r'. cbn beta. by rewrite addVariant_length.
  - intros r' Hr'. rewrite get_unit_addVariant.
    rewrite decide_False; [by apply Hold|]. intros [-> _]. lia.
Qed.

Lemma addResource_frame_inv st0 d res :
  hoare (λ st, st = st0) (addResource d res)
        (λ _, resource_frame st0 d) (resource_frame st0 d).
Proof.
  destruct res as [res|].
  - eapply hoare_weaken.
    + apply (addResource_steps d (length (units st0)) res
               (resource_frame st0 d)).
      * by intros st (H & _).
      * intros seg tgt st. apply resource_frame_alloc.
      * intros r st Hf H1 H2. by apply resource_frame_addTranslationUnit.
      * intros r x st Hf H1 H2. by apply resource_frame_addVariant.
    + intros st ->. apply resource_frame_refl.
    + done.
  - intros st ->. apply resource_frame_refl.
Qed.

(** X8: whether it returns or raises, [addResource] changes no other
    document and not the header of the document (version, properties,
    locales and path); the units the document held stay in place, ahead
    of the units it gains, which are objects the call created; and a unit
    that existed before the call keeps its fields and its variants, which
    may be followed by new variants. *)
Theorem addResource_frame st d res :
  let st' := (addResource d res st).2 in
  length (docs st') = length (docs st) ∧
  (∀ d', d' ≠ d → get_doc st' d' = get_doc st d') ∧
  (version (get_doc st' d) = version (get_doc st d) ∧
   properties (get_doc st' d) = properties (get_doc st d) ∧
   sourceLocale (get_doc st' d) = sourceLocale (get_doc st d) ∧
   adminLocale (get_doc st' d) = adminLocale (get_doc st d) ∧
   path (get_doc st' d) = path (get_doc st d)) ∧
  (∃ l, tu (get_doc st' d) = tu (get_doc st d) ++ l ∧
        Forall (λ r, length (units st) ≤ r) l) ∧
  (∀ r, r < length (units st) →
        set_variants (get_unit st' r) [] = set_variants (get_unit st r) [] ∧
        ∃ added, tu_variants (get_unit st' r) =
                 tu_variants (get_unit st r) ++ added).
Proof.
  intros st'.
  assert (Hf : resource_frame st d st').
  { pose proof (addResource_frame_inv st d res st eq_refl) as H.
    subst st'. by destruct (addResource d res st) as [[a|err] st1]. }
  destruct Hf as (Hlen & Hdocs & Hother & Hhead & (l & Hl & Hfresh) & Hold).
  split; [done|]. split; [done|]. split; [|split; [|done]].
  - by injection Hhead.
  - exists l. split; [done|]. eapply Forall_impl; [exact Hfresh|].
    intros r. simpl. lia.
Qed.

(** ** String resources *)

Lemma stored_logger lvl msg st d u :
  stored st d u → stored (logger lvl msg st) d u.
Proof. done. Qed.

Lemma stored_alloc st d u x :
  wf_doc st d → stored st d u → stored (alloc_unit x st).2 d u.
Proof.
  intros [_ Hi] (t & Ht & Hall). exists t. split; [done|].
  intros k Hk.
  rewrite (get_unit_app _ st [x]); [by apply Hall | done |].
  by eapply indexed_entries_valid.
Qed.

Lemma stored_addTranslationUnit st d r u :
  wf_doc st d → stored st d u → stored (addTranslationUnit d r st) d u.
Proof.
  intros [Hd Hi] (t & Ht & Hall). rewrite addTranslationUnit_unfold.
  destruct (tuhash (get_doc st d) !! hashKey st r) as [e|] eqn:Hl.
  - exists t. split.
    + unfold get_doc. by rewrite addVariants_docs.
    + intros k Hk. rewrite get_unit_addVariants. case_decide.
      * apply vkeys_addVariants. left. by apply Hall.
      * by apply Hall.
  - exists t. rewrite get_doc_set_doc, decide_True by done. split.
    + simpl. rewrite lookup_insert_ne; [done|]. intros Heq.
      rewrite Heq in Hl. congruence.
    + done.
Qed.

Lemma stored_added st d r :
  wf_doc st d → r < length (units st) →
  stored (addTranslationUnit d r st) d (get_unit st r).
Proof.
  intros [Hd Hi] Hr. rewrite addTranslationUnit_unfold.
  destruct (tuhash (get_doc st d) !! hashKey st r) as [e|] eqn:Hl.
  - exists e. split.
    + unfold get_doc. by rewrite addVariants_docs.
    + intros k Hk. rewrite get_unit_addVariants.
      rewrite decide_True.
      * apply vkeys_addVariants. by right.
      * split; [done|]. by eapply indexed_entries_valid.
  - exists r. rewrite get_doc_set_doc, decide_True by done. split.
    + simpl. apply lookup_insert_eq.
    + done.
Qed.

Lemma hoare_pure {A} (φ : Prop) P (m : M A) Q E :
  (φ → hoare P m Q E) → hoare (λ st, φ ∧ P st) m Q E.
Proof. intros H st [Hφ HP]. by apply H. Qed.

(** Building a unit and adding it: it is then stored, and so is what was
    stored. *)
Lemma build_and_add_stored d u (P : TranslationUnit → Prop) n m :
  hoare (λ st, wf_doc st d ∧
               size st d + n ≤ length (units st) ∧
               length (units st) = m ∧
               ∀ x, P x → stored st d x)
        (r ← alloc u; modify (addTranslationUnit d r))
        (λ _ st, wf_doc st d ∧
                 size st d + n ≤ length (units st) ∧
                 length (units st) = S m ∧
                 ∀ x, P x ∨ x = u → stored st d x)
        (λ _, False).
Proof.
  eapply hoare_bind.
  - apply hoare_alloc with
      (Q := λ r st, (wf_doc st d ∧
                     size st d + n + 1 ≤ length (units st) ∧
                     length (units st) = S m ∧
                     ∀ x, P x → stored st d x) ∧
                    r < length (units st) ∧ get_unit st r = u).
    intros st (Hwf & Hsize & Hm & Hst).
    split; [split; [|split; [|split]]|split].
    + by apply wf_doc_alloc.
    + unfold size in *. simpl. rewrite length_app. simpl.
      change (get_doc (mkStore _ (docs st) (log st)) d)
        with (get_doc st d). lia.
    + simpl. rewrite length_app. simpl. lia.
    + intros x Hx. apply stored_alloc; [done|]. by apply Hst.
    + simpl. rewrite length_app. simpl. lia.
    + unfold get_unit. simpl.
      by rewrite lookup_total_app_r, Nat.sub_diag by done.
  - intros r. apply hoare_modify.
    intros st ((Hwf & Hsize & Hm & Hst) & Hr & Hu).
    split; [by apply wf_doc_addTranslationUnit|]. split; [|split].
    + rewrite addTranslationUnit_length.
      pose proof (addTranslationUnit_size d r st). lia.
    + by rewrite addTranslationUnit_length.
    + intros x [Hx| ->].
      * apply stored_addTranslationUnit; [done|]. by apply Hst.
      * rewrite <- Hu. by apply stored_added.
Qed.

Lemma unit_key_build_unit res seg tgt :
  unit_key (build_unit res seg tgt) =
  unit_hash (Some seg) (res_sourceLocale res) (res_dataType res).
Proof.
  unfold build_unit.
  change (unit_key (unit_addProperties ?u ?p)) with (unit_key u).
  destruct tgt as [x|]; by rewrite ?unit_addVariant_key.
Qed.

Lemma vkeys_build_unit res seg tgt k :
  k ∈ vkeys (build_unit res seg tgt) ↔
  k = variant_hash (res_sourceLocale res) (Some seg) ∨
  ∃ x, tgt = Some x ∧ k = variant_hash (res_targetLocale res) x.
Proof.
  unfold build_unit.
  change (vkeys (unit_addProperties ?u ?p)) with (vkeys u).
  destruct tgt as [x|].
  - rewrite !vkeys_addVariant. unfold vkeys, variant_key. simpl.
    rewrite elem_of_nil. split.
    + intros [[[]|?]|?]; [by left | right; by exists x].
    + intros [?|(? & [= <-] & ?)]; tauto.
  - rewrite vkeys_addVariant. unfold vkeys, variant_key. simpl.
    rewrite elem_of_nil. split.
    + intros [[]|?]. by left.
    + intros [?|(? & ? & ?)]; [tauto | done].
Qed.

Lemma size_valid st d : wf_doc st d → size st d ≤ length (units st).
Proof.
  intros [_ Hi]. unfold size.
  pose proof (indexed_valid _ _ Hi) as Hv. destruct Hi as (Hnd & _).
  assert (Hincl : tu (get_doc st d) ⊆ seq 0 (length (units st))).
  { intros r Hr. rewrite Forall_forall in Hv.
    apply elem_of_seq. specialize (Hv r Hr). lia. }
  pose proof (submseteq_length _ _ (NoDup_submseteq _ _ Hnd Hincl)) as Hl.
  by rewrite length_seq in Hl.
Qed.

Lemma string_resource_run st d res source target :
  wf_doc st d →
  res_payload res = ResString source target →
  res_sourceLocale res = sourceLocale (get_doc st d) →
  let this := get_doc st d in
  let segs := segmentString this source (res_sourceLocale res) in
  ∃ st', addResource d (Some res) st = (Returned tt, st') ∧
         wf_doc st' d ∧
         size st' d + length (units st) ≤ size st d + length (units st') ∧
         length (units st') = length (units st) + length segs ∧
         ∀ i seg, segs !! i = Some seg →
                  stored st' d
                    (build_unit res seg (string_target this res target i)).
Proof.
  intros Hwf Hpay Hloc. cbv zeta.
  set (segs := segmentString (get_doc st d) source (res_sourceLocale res)).
  set (I := λ (pre : list string) st1,
         wf_doc st1 d ∧
         size st1 d + (length (units st) - size st d) ≤
           length (units st1) ∧
         length (units st1) = length (units st) + length pre ∧
         ∀ x, (∃ i seg, pre !! i = Some seg ∧
                 x = build_unit res seg
                       (string_target (get_doc st d) res target i))
              → stored st1 d x).
  pose proof (size_valid st d Hwf) as Hsz.
  assert (Hrun : hoare (λ s, s = st) (addResource d (Some res))
                       (λ _, I segs) (λ _, False)).
  { unfold addResource. eapply hoare_bind.
    { apply hoare_gets with (Q := λ a s, a = get_doc st d ∧ I [] s).
      intros s ->. split; [done|]. split; [done|]. split; [lia|].
      split; [simpl; lia|]. by intros x (i & seg & ? & _). }
    intros this0. apply hoare_pure. intros ->.
    rewrite (bool_decide_eq_true_2 _ Hloc). simpl. rewrite Hpay.
    fold segs.
    apply hoare_forEach_split. intros pre x suf Hsplit.
    match goal with |- hoare _ (_ ← alloc (build_unit res x ?t); _) _ _ =>
      assert (Ht : t = string_target (get_doc st d) res target
                         (length pre)) end.
    { unfold string_target.
      by destruct (addTarget (get_doc st d) res). }
    rewrite Ht. eapply hoare_weaken.
    - apply (build_and_add_stored d
               (build_unit res x
                  (string_target (get_doc st d) res target (length pre)))
               (λ x, ∃ i seg, pre !! i = Some seg ∧
                 x = build_unit res seg
                       (string_target (get_doc st d) res target i))
               (length (units st) - size st d)
               (length (units st) + length pre)).
    - intros st1 (H1 & H2 & H3 & H4). done.
    - intros [] st1 (H1 & H2 & H3 & H4).
      split; [done|]. split; [done|]. split.
      + rewrite length_app. simpl. lia.
      + intros y (i & seg & Hi & ->). apply H4.
        apply lookup_app_Some in Hi as [Hi|[Hge Hi]].
        * left. by exists i, seg.
        * right. apply list_lookup_singleton_Some in Hi as [Hi ->].
          by replace i with (length pre) by lia. }
  specialize (Hrun st eq_refl).
  destruct (addResource d (Some res) st) as [[[]|err] st'] eqn:E;
    [|done].
  exists st'. destruct Hrun as (H1 & H2 & H3 & H4).
  split; [done|]. split; [done|]. split; [lia|]. split; [done|].
  intros i seg Hi. apply H4. by exists i, seg.
Qed.

(** X9: [addResource] gives a string resource in the source locale of the
    document one new unit object per segment of its source text and
    returns without raising; the document gains at most that many
    units. *)
Theorem addResource_string_size st d res source target :
  wf_doc st d →
  res_payload res = ResString source target →
  res_sourceLocale res = sourceLocale (get_doc st d) →
  let segs := segmentString (get_doc st d) source (res_sourceLocale res) in
  ∃ st', addResource d (Some res) st = (Returned tt, st') ∧
         length (units st') = length (units st) + length segs ∧
         size st' d ≤ size st d + length segs.
Proof.
  intros Hwf Hpay Hloc segs.
  destruct (string_resource_run st d res source target Hwf Hpay Hloc)
    as (st' & Hrun & _ & Hsize & Hlen & _).
  exists st'. split; [done|]. split; [done|]. fold segs in Hlen. lia.
Qed.

(** X10: after [addResource] of a string resource in the source locale of
    the document, the document has, for every segment of the source text,
    a unit filed under the key of that segment, the source locale and the
    datatype of the resource; the unit has the variant of the segment in
    the source locale and, when the resource has a target in another
    locale, the variant of the segment of the target text at the same
    index, if that segment is not empty. *)
Theorem addResource_string_stored st d res source target :
  wf_doc st d →
  res_payload res = ResString source target →
  res_sourceLocale res = sourceLocale (get_doc st d) →
  let this := get_doc st d in
  ∃ st', addResource d (Some res) st = (Returned tt, st') ∧
    ∀ i seg,
      segmentString this source (res_sourceLocale res) !! i = Some seg →
      ∃ t, tuhash (get_doc st' d) !!
             unit_hash (Some seg) (res_sourceLocale res) (res_dataType res)
           = Some t ∧
           t ∈ tu (get_doc st' d) ∧
           variant_hash (res_sourceLocale res) (Some seg)
             ∈ vkeys (get_unit st' t) ∧
           (addTarget this res = true → truthy target = true →
            ∀ tseg,
              segmentString this target (res_targetLocale res) !! i
                = Some tseg →
              tseg ≠ "" →
              variant_hash (res_targetLocale res) (Some tseg)
                ∈ vkeys (get_unit st' t)).
Proof.
  intros Hwf Hpay Hloc this.
  destruct (string_resource_run st d res source target Hwf Hpay Hloc)
    as (st' & Hrun & Hwf' & _ & _ & Hst).
  exists st'. split; [done|]. intros i seg Hi.
  destruct (Hst i seg Hi) as (t & Ht & Hall).
  rewrite unit_key_build_unit in Ht. exists t. split; [done|].
  split; [|split].
  - destruct Hwf' as [_ (_ & _ & Hmap)]. by destruct (Hmap _ _ Ht).
  - apply Hall, vkeys_build_unit. by left.
  - intros Hat Htar tseg Hts Hne. apply Hall, vkeys_build_unit. right.
    exists (Some tseg). split; [|done].
    unfold string_target. subst this. rewrite Hat, Htar, Hts. simpl.
    destruct (String.eqb_spec tseg ""); [done|]. done.
Qed.

(** ** Array resources without a target *)

Lemma bind_gets {A B} (f : Store → A) (k : A → M B) st :
  (gets f ≫= k) st = k (f st) st.
Proof. reflexivity. Qed.

Lemma forEach_from_nil_steps {A} (f : list A → nat → M unit)
  (ll : list (list A)) i st :
  (∀ j, f [] j st = (Returned tt, st)) →
  Forall (λ l, l = []) ll →
  forEach_from f ll i st = (Returned tt, st).
Proof.
  intros Hf. revert i. induction ll as [|l ll IH]; intros i Hall; [done|].
  apply Forall_cons in Hall as [-> Hall]. simpl.
  unfold mbind, M_bind. rewrite Hf. by apply IH.
Qed.

Lemma forEach_from_raises {A} (f : list A → nat → M unit)
  (ll : list (list A)) i st err :
  (∀ j, f [] j st = (Returned tt, st)) →
  (∀ l j, l ≠ [] → f l j st = (Thrown err, st)) →
  Exists (λ l, l ≠ []) ll →
  forEach_from f ll i st = (Thrown err, st).
Proof.
  intros Hnil Hcons. revert i.
  induction ll as [|l ll IH]; intros i Hex.
  { by apply Exists_nil in Hex. }
  simpl. unfold mbind, M_bind. destruct l as [|x l].
  - rewrite Hnil. apply IH. by apply Exists_cons in Hex as [?|?].
  - by rewrite Hcons.
Qed.

Lemma array_without_target_run st d res sourceArray :
  res_payload res = ResArray sourceArray None →
  res_sourceLocale res = sourceLocale (get_doc st d) →
  addTarget (get_doc st d) res = true →
  let segs := (λ element, segmentString (get_doc st d) element
                            (res_sourceLocale res)) <$> sourceArray in
  (Forall (λ l, l = []) segs →
   addResource d (Some res) st = (Returned tt, st)) ∧
  (Exists (λ l, l ≠ []) segs →
   ∃ what, addResource d (Some res) st = (Thrown (TypeError what), st)).
Proof.
  intros Hpay Hloc Hat segs.
  unfold addResource. rewrite bind_gets.
  rewrite (bool_decide_eq_true_2 _ Hloc). simpl. rewrite Hpay, Hat.
  fold segs. unfold forEach at 1. split.
  - intros Hall. by apply forEach_from_nil_steps.
  - intros Hex. eexists. apply forEach_from_raises; [done| |done].
    intros [|x l] j Hne; [done|]. reflexivity.
Qed.

(** X11: for an array resource in the source locale of the document that
    names a target locale other than that locale but has no target array,
    [addResource] raises a TypeError as soon as a source element has a
    segment, and returns normally when none has one; either way the store
    is left as it was. *)
Theorem addResource_array_without_target st d res sourceArray :
  res_payload res = ResArray sourceArray None →
  res_sourceLocale res = sourceLocale (get_doc st d) →
  addTarget (get_doc st d) res = true →
  let segs := (λ element, segmentString (get_doc st d) element
                            (res_sourceLocale res)) <$> sourceArray in
  (Forall (λ l, l = []) segs →
   addResource d (Some res) st = (Returned tt, st)) ∧
  (Exists (λ l, l ≠ []) segs →
   ∃ what, addResource d (Some res) st = (Thrown (TypeError what), st)).
Proof. apply array_without_target_run. Qed.

(** ** The steps of [deserialize] *)

Lemma hoare_pure_pre {A} (φ : Prop) (m : M A) Q E :
  (φ → hoare (λ _, True) m Q E) → hoare (λ _, φ) m Q E.
Proof. intros H st Hφ. by apply H. Qed.

Lemma parse_variant_fields tu variant :
  hoare (λ _, True) (parse_variant tu variant)
        (λ tu' _, tu_datatype tu' = tu_datatype tu ∧
                  tu_sourceLocale tu' = tu_sourceLocale tu)
        (λ _, True).
Proof.
  unfold parse_variant.
  eapply hoare_bind.
  { instantiate (1 := λ _ _, True). destruct (tuv_attributes variant).
    - by apply hoare_ret.
    - eapply hoare_bind; [by apply hoare_modify with (Q := λ _ _, True)|].
      intros []. by apply hoare_ret. }
  intros locale. eapply hoare_bind.
  { instantiate (1 := λ _ _, True). destruct (present (tuv_prop variant)).
    - apply (parse_variant_props_inv (λ _, True)).
    - by apply hoare_ret. }
  intros [pre post].
  match goal with |- hoare _ (mbind _ (if truthy pre then _ else mret ?t)) _ _
    => set (tu1 := t) end.
  assert (H1 : tu_datatype tu1 = tu_datatype tu ∧
               tu_sourceLocale tu1 = tu_sourceLocale tu).
  { subst tu1.
    destruct (truthy locale && truthy _); [|done].
    pose proof (unit_addVariant_frame tu
      (mkVariant locale match tuv_seg variant with
                        | Some seg => seg_text seg
                        | None => None
                        end)) as Hf.
    case_decide as Hd; simpl.
    - split; [by apply (f_equal tu_datatype) in Hf|].
      simpl in Hd. rewrite Hd. by apply (f_equal tu_sourceLocale) in Hf.
    - split; [by apply (f_equal tu_datatype) in Hf
             |by apply (f_equal tu_sourceLocale) in Hf]. }
  clearbody tu1. eapply hoare_bind.
  { instantiate (1 := λ tu2 _, tu_datatype tu2 = tu_datatype tu ∧
                               tu_sourceLocale tu2 = tu_sourceLocale tu).
    destruct (truthy pre); [|by apply hoare_ret].
    eapply hoare_bind; [apply (nested_text_inv (λ _, True))|].
    intros t. by apply hoare_ret. }
  intros tu2.
  apply (hoare_pure_pre (tu_datatype tu2 = tu_datatype tu ∧
                         tu_sourceLocale tu2 = tu_sourceLocale tu)).
  intros [Hd Hs]. destruct (truthy post).
  - eapply hoare_bind; [apply (nested_text_inv (λ _, True))|].
    intros t. by apply hoare_ret.
  - by apply hoare_ret.
Qed.

Lemma hoare_weaken_raise {A} (m : M A) P Q (E E' : Store → Prop) :
  hoare P m Q E' → (∀ st, E' st → E st) → hoare P m Q E.
Proof.
  intros Hm HE st HP. specialize (Hm st HP).
  destruct (m st) as [[a|err] st']; [done | by apply HE].
Qed.

Lemma truthy_js_or_r a b : truthy b = true → truthy (js_or a b) = true.
Proof. intros Hb. unfold js_or. by destruct (truthy a) eqn:E. Qed.

(** One round of the loop of [parse]: a property of the store that the
    log cannot break holds until the unit that was read is stored and
    added, also when the round raises; the unit has the datatype of the
    document and a source locale that is not empty. *)
Lemma parse_unit_step d unit (I Q : Store → Prop) :
  log_stable I →
  (∀ u st, I st → parsed_unit (get_doc st d) u →
           Q (addTranslationUnit d (length (units st))
                (alloc_unit u st).2)) →
  hoare I (parse_unit d unit) (λ _, Q) I.
Proof.
  intros Hlog Hstep. unfold parse_unit.
  eapply hoare_bind.
  { apply hoare_gets with (Q := λ this st, this = get_doc st d ∧ I st).
    by intros. }
  intros this.
  set (I' := λ st, this = get_doc st d ∧ I st).
  assert (Hlog' : log_stable I').
  { intros lvl msg st [H1 H2]. split; [done | by apply Hlog]. }
  apply hoare_weaken_raise with I'; [|by intros st [_ ?]].
  eapply hoare_bind.
  { instantiate (1 := λ tu1 st, parsed_unit this tu1 ∧ I' st).
    assert (H0 : truthy (js_or (attr (tue_attributes unit) "srclang")
                    (js_or (sourceLocale this)
                       (js_or (adminLocale this) (Some "en")))) = true)
      by (by do 3 apply truthy_js_or_r).
    destruct (present (tue_prop unit)).
    - eapply hoare_bind; [apply (parse_unit_props_inv I'), Hlog'|].
      intros ps. apply hoare_ret. intros st HI. by split.
    - apply hoare_ret. intros st HI. by split. }
  intros tu1. apply hoare_pure. intros Htu1.
  match goal with |- hoare _ (mbind _ (if _ then _ else mret ?t)) _ _ =>
    set (tu1' := t) end.
  assert (Htu1' : parsed_unit this tu1').
  { subst tu1'. by destruct (tue_note unit). }
  clearbody tu1'. eapply hoare_bind.
  { instantiate (1 := λ tu2 st, parsed_unit this tu2 ∧ I' st).
    destruct (present (tue_tuv unit)).
    - eapply hoare_weaken.
      + apply (hoare_foldM _ (λ tu2 st, parsed_unit this tu2 ∧ I' st)).
        intros b x _. apply hoare_pure. intros [Hb1 Hb2].
        apply hoare_weaken_raise with (λ st, I' st ∧ True);
          [|by intros st [? _]].
        eapply hoare_weaken.
        * exact (hoare_conj _ _ _ _ _ _ _
                   (parse_variant_inv I' b x Hlog')
                   (parse_variant_fields b x)).
        * intros st HI. by split.
        * intros b' st [HI [Hd Hs]]. split; [|done].
          split; [by rewrite Hd | by rewrite Hs].
      + intros st HI. by split.
      + done.
    - apply hoare_ret. intros st HI. by split. }
  intros tu2 st [Htu2 [Hthis HI]]. simpl. apply Hstep; [done|].
  by rewrite <- Hthis.
Qed.

(** *** What [deserialize] keeps *)

Lemma parsed_unit_addVariants this u vs :
  parsed_unit this u → parsed_unit this (unit_addVariants u vs).
Proof.
  intros [Hd Hs]. pose proof (unit_addVariants_frame u vs) as Hf.
  split.
  - apply (f_equal tu_datatype) in Hf. simpl in Hf. by rewrite Hf.
  - apply (f_equal tu_sourceLocale) in Hf. simpl in Hf. by rewrite Hf.
Qed.

Lemma parse_frame_logger st0 d tmx lvl msg st :
  parse_frame st0 d tmx st → parse_frame st0 d tmx (logger lvl msg st).
Proof.
  intros (Hi & H). split; [by apply indexed_logger | exact H].
Qed.

Lemma parse_frame_step st0 d tmx u st :
  parse_frame st0 d tmx st →
  parsed_unit (get_doc st d) u →
  parse_frame st0 d tmx
    (addTranslationUnit d (length (units st)) (alloc_unit u st).2).
Proof.
  intros (Hi & Hlen & Hold & Hdocs & Hother & Hhead & Hfresh & Hnew) Hu.
  set (r := length (units st)). set (st1 := (alloc_unit u st).2).
  assert (Hu1 : ∀ x, x < length (units st) → get_unit st1 x = get_unit st x).
  { intros x Hx. by apply get_unit_app with [u]. }
  assert (Hur : get_unit st1 r = u).
  { unfold get_unit, st1, r. simpl.
    by rewrite lookup_total_app_r, Nat.sub_diag by done. }
  assert (Hlen1 : length (units st1) = S (length (units st))).
  { unfold st1. simpl. rewrite length_app. simpl. lia. }
  assert (Hprops : properties (header_read st0 d tmx) =
                   properties (get_doc st d)).
  { rewrite <- Hhead. done. }
  assert (Hu' : parsed_unit (header_read st0 d tmx) u).
  { destruct Hu as [Hd Hs]. split; [|done]. by rewrite Hprops. }
  assert (Hi1 : indexed st1 d) by (by apply indexed_alloc).
  split.
  { apply indexed_addTranslationUnit; [|done]. rewrite Hlen1. unfold r. lia. }
  rewrite addTranslationUnit_unfold.
  change (get_doc st1 d) with (get_doc st d).
  destruct (tuhash (get_doc st d) !! hashKey st1 r) as [e|] eqn:Hl.
  - assert (He : length (units st0) ≤ e).
    { destruct Hi as (_ & _ & Hmap). destruct (Hmap _ _ Hl) as [Hin _].
      rewrite Forall_forall in Hfresh. by apply Hfresh. }
    assert (Hg : ∀ d', get_doc (addVariants e (tu_variants (get_unit st1 r))
                                  (trace_entry st1 d)) d' = get_doc st d').
    { intros d'. unfold get_doc. by rewrite addVariants_docs. }
    split.
    { rewrite addVariants_length.
      change (length (units (trace_entry st1 d)))
        with (length (units st1)). lia. }
    split.
    { intros x Hx. rewrite get_unit_addVariants.
      rewrite decide_False by (intros [-> _]; lia).
      change (get_unit (trace_entry st1 d) x) with (get_unit st1 x).
      rewrite Hu1 by lia. by apply Hold. }
    split; [by rewrite addVariants_docs|].
    split; [intros d' Hd'; rewrite Hg; by apply Hother|].
    split; [by rewrite Hg|]. split; [by rewrite Hg|].
    intros x Hx1 Hx2. rewrite get_unit_addVariants.
    change (get_unit (trace_entry st1 d) x) with (get_unit st1 x).
    assert (Hx3 : x < length (units st1)).
    { rewrite addVariants_length in Hx2. exact Hx2. }
    assert (Hpx : parsed_unit (header_read st0 d tmx) (get_unit st1 x)).
    { destruct (decide (x = r)) as [->|Hne]; [by rewrite Hur|].
      rewrite Hu1 by (unfold r in Hne; lia).
      apply Hnew; [done|]. unfold r in Hne. lia. }
    case_decide; [by apply parsed_unit_addVariants | done].
  - destruct (decide (d < length (docs st))) as [Hd|Hd]; cycle 1.
    { rewrite set_doc_dangling by (simpl; lia).
      split; [simpl; rewrite length_app; lia|].
      split; [intros x Hx; change (get_unit (trace_entry st1 d) x)
                with (get_unit st1 x); rewrite Hu1 by lia; by apply Hold|].
      split; [done|]. split; [done|]. split; [done|]. split; [done|].
      intros x Hx1 Hx2.
      change (get_unit (trace_entry st1 d) x) with (get_unit st1 x).
      change (length (units (trace_entry st1 d)))
        with (length (units st1)) in Hx2.
      destruct (decide (x = r)) as [->|Hne]; [by rewrite Hur|].
      rewrite Hu1 by (unfold r in Hne; lia).
      apply Hnew; [done|]. unfold r in Hne. lia. }
    split; [simpl; rewrite length_app; lia|].
    split; [intros x Hx; change (get_unit (set_doc _ _ _) x)
              with (get_unit st1 x); rewrite Hu1 by lia; by apply Hold|].
    split; [simpl; by rewrite length_insert|].
    split.
    { intros d' Hd'. rewrite get_doc_set_doc.
      rewrite decide_False; [by apply Hother|]. intros [? _]. congruence. }
    rewrite get_doc_set_doc, decide_True by done.
    split; [exact Hhead|]. split.
    { simpl. apply Forall_app. split; [done|]. apply Forall_singleton.
      exact Hlen. }
    intros x Hx1 Hx2.
    change (get_unit (set_doc _ _ _) x) with (get_unit st1 x).
    change (length (units (set_doc _ _ _)))
      with (length (units st1)) in Hx2.
    destruct (decide (x = r)) as [->|Hne]; [by rewrite Hur|].
    rewrite Hu1 by (unfold r in Hne; lia).
    apply Hnew; [done|]. unfold r in Hne. lia.
Qed.

Lemma tu_elements_body tmx :
  tu_elements tmx =
  match tmx_body tmx with
  | Some body => if present (body_tu body)
                 then makeArray (body_tu body) else []
  | None => []
  end.
Proof.
  unfold tu_elements. destruct (tmx_body tmx) as [body|]; [|done].
  by destruct (body_tu body).
Qed.

Lemma deserialize_run st d xml json tmx :
  d < length (docs st) →
  xml2js xml = Some json → json_tmx json = Some tmx →
  attr (tmx_attributes tmx) "version" = Some "1.4" →
  parse_frame st d tmx (deserialize d xml st).2 ∧
  length (units (deserialize d xml st).2) ≤
    length (units st) + length (tu_elements tmx) ∧
  ((deserialize d xml st).1 =
     Returned (Some (tu (get_doc (deserialize d xml st).2 d))) ∨
   ∃ err, (deserialize d xml st).1 = Thrown err).
Proof.
  intros Hd Hxml Hjson Hver.
  set (F := λ s, parse_frame st d tmx s).
  set (n0 := length (units st)).
  assert (Hrun : hoare (λ s, s = st) (deserialize d xml)
            (λ res s, (F s ∧ length (units s) ≤ n0 + length (tu_elements tmx))
                      ∧ res = Some (tu (get_doc s d)))
            (λ s, F s ∧ length (units s) ≤ n0 + length (tu_elements tmx))).
  { unfold deserialize. rewrite Hxml, Hjson.
    destruct (tmx_attributes tmx) as [a|] eqn:Ha; [|done].
    simpl in Hver. simpl. rewrite Hver. simpl.
    eapply hoare_bind.
    { apply hoare_modify with
        (Q := λ _ s, s = set_doc d (set_tu (get_doc st d) [] ∅) st).
      by intros s ->. }
    intros []. eapply hoare_bind.
    { instantiate (1 := λ _ s, F s ∧
                         length (units s) ≤ n0 + length (tu_elements tmx)).
      unfold parse. eapply hoare_bind.
      { apply hoare_modify with (Q := λ _ s, F s ∧ length (units s) = n0).
        intros s ->.
        set (stc := set_doc d (set_tu (get_doc st d) [] ∅) st).
        assert (Hgc : get_doc stc d = set_tu (get_doc st d) [] ∅).
        { unfold stc. by rewrite get_doc_set_doc, decide_True. }
        split; [|done].
        destruct (parse_header_tu (get_doc stc d) tmx) as [Htu Hh].
        split.
        { apply indexed_set_header; [done|done|]. apply indexed_clear. }
        split; [done|]. split; [done|].
        split; [simpl; by rewrite !length_insert|].
        split.
        { intros d' Hd'. rewrite get_doc_set_doc.
          rewrite decide_False by (intros [? _]; congruence).
          unfold stc. rewrite get_doc_set_doc.
          by rewrite decide_False by (intros [? _]; congruence). }
        rewrite get_doc_set_doc, decide_True
          by (split; [done|]; unfold stc; simpl; by rewrite length_insert).
        split.
        { rewrite Hgc in *. unfold header_read.
          apply set_tu_id; [by rewrite Htu | by rewrite Hh]. }
        split.
        { rewrite Htu, Hgc. simpl. apply Forall_nil_2. }
        intros r H1 H2. simpl in H2. lia. }
      intros []. rewrite tu_elements_body.
      destruct (tmx_body tmx) as [body|]; cycle 1.
      { apply hoare_ret. intros s [HF Hl]. split; [done|]. simpl. lia. }
      destruct (present (body_tu body)); cycle 1.
      { apply hoare_ret. intros s [HF Hl]. split; [done|]. simpl. lia. }
      eapply hoare_weaken.
      - apply (hoare_forEach_split _
                 (λ pre s, F s ∧ length (units s) ≤ n0 + length pre)).
        intros pre x suf Hsplit.
        apply hoare_weaken_raise with
          (λ s, F s ∧ length (units s) ≤ n0 + length pre).
        + apply parse_unit_step.
          * intros lvl msg s [HF Hl]. split; [|done].
            by apply parse_frame_logger.
          * intros u s [HF Hl] Hu. split; [by apply parse_frame_step|].
            rewrite addTranslationUnit_length. simpl.
            rewrite !length_app. simpl. lia.
        + intros s [HF Hl]. split; [done|]. rewrite Hsplit.
          rewrite length_app. lia.
      - intros s [HF Hl]. split; [done|]. simpl. lia.
      - by intros [] s H. }
    intros []. eapply hoare_bind.
    { apply hoare_gets with
        (Q := λ us s, (F s ∧ length (units s) ≤
                             n0 + length (tu_elements tmx)) ∧
                      us = tu (get_doc s d)).
      by intros s H. }
    intros us. apply hoare_ret. intros s [H ->]. by split. }
  specialize (Hrun st eq_refl).
  destruct (deserialize d xml st) as [[res|err] st'].
  - destruct Hrun as [[HF Hl] ->]. split; [done|]. split; [done|]. by left.
  - destruct Hrun as [HF Hl]. split; [done|]. split; [done|].
    right. by exists err.
Qed.

(** X12: [deserialize] of a text with a root element of version 1.4
    replaces the content of the document: whether it returns or raises,
    the document then holds only units that the call created, at most one
    for every [tu] element; it touches no unit that existed before the
    call, and of every other document it leaves the unit list, the index,
    the version, the locales and the path as they were; and when it
    returns, it returns the unit list of the document. *)
Theorem deserialize_replaces st d xml json tmx :
  d < length (docs st) →
  xml2js xml = Some json → json_tmx json = Some tmx →
  attr (tmx_attributes tmx) "version" = Some "1.4" →
  let out := (deserialize d xml st).1 in
  let st' := (deserialize d xml st).2 in
  (out = Returned (Some (tu (get_doc st' d))) ∨ ∃ err, out = Thrown err) ∧
  Forall (λ r, length (units st) ≤ r ∧ r < length (units st'))
         (tu (get_doc st' d)) ∧
  size st' d ≤ length (tu_elements tmx) ∧
  (∀ r, r < length (units st) → get_unit st' r = get_unit st r) ∧
  (∀ d', d' ≠ d →
         tu (get_doc st' d') = tu (get_doc st d') ∧
         tuhash (get_doc st' d') = tuhash (get_doc st d') ∧
         version (get_doc st' d') = version (get_doc st d') ∧
         sourceLocale (get_doc st' d') = sourceLocale (get_doc st d') ∧
         adminLocale (get_doc st' d') = adminLocale (get_doc st d') ∧
         path (get_doc st' d') = path (get_doc st d')).
Proof.
  intros Hd Hxml Hjson Hver out st'.
  destruct (deserialize_run st d xml json tmx Hd Hxml Hjson Hver)
    as ((Hi & Hlen & Hold & Hdocs & Hother & Hhead & Hfresh & Hnew)
        & Hcount & Hout).
  fold st' in Hi, Hlen, Hold, Hdocs, Hother, Hhead, Hfresh, Hnew, Hcount.
  assert (Hboth : Forall (λ r, length (units st) ≤ r ∧
                               r < length (units st'))
                         (tu (get_doc st' d))).
  { pose proof (indexed_valid _ _ Hi) as Hv.
    rewrite Forall_forall in Hv, Hfresh. apply Forall_forall.
    intros r Hr. split; [by apply Hfresh | by apply Hv]. }
  split; [exact Hout|]. split; [exact Hboth|].
  split; [|split; [done|intros d' Hd'; by rewrite Hother]].
  unfold size. destruct Hi as (Hnd & _).
  assert (Hincl : tu (get_doc st' d) ⊆
                  seq (length (units st))
                      (length (units st') - length (units st))).
  { intros r Hr. rewrite Forall_forall in Hboth.
    apply elem_of_seq. specialize (Hboth r Hr). lia. }
  pose proof (submseteq_length _ _ (NoDup_submseteq _ _ Hnd Hincl)) as Hl.
  rewrite length_seq in Hl. lia.
Qed.

Lemma obj_get_set_ne (o : obj jsstr) k k' (x : jsstr) :
  k ≠ k' → obj_get (obj_set o k' x) k = obj_get o k.
Proof.
  intros Hne. induction o as [|[k0 v0] o IH]; simpl.
  - destruct (String.eqb_spec k' k); [congruence | done].
  - destruct (String.eqb_spec k0 k') as [->|Hk0]; simpl.
    + destruct (String.eqb_spec k' k); [congruence | done].
    + destruct (String.eqb_spec k0 k); [done | exact IH].
Qed.

Lemma header_fold (attrs : obj jsstr) names (ps : obj jsstr) k :
  obj_get (foldl (λ ps prop, if truthy (obj_get attrs prop)
                             then obj_set ps prop (obj_get attrs prop)
                             else ps) ps names) k =
  if bool_decide (k ∈ names) && truthy (obj_get attrs k)
  then obj_get attrs k else obj_get ps k.
Proof.
  revert ps. induction names as [|n names IH]; intros ps; cbn [foldl].
  { rewrite bool_decide_eq_false_2; [done | apply not_elem_of_nil]. }
  rewrite IH. destruct (decide (k = n)) as [->|Hne].
  - rewrite (bool_decide_eq_true_2 (n ∈ n :: names)) by left.
    destruct (truthy (obj_get attrs n)) eqn:Ht; simpl.
    + rewrite obj_get_set_eq. by destruct (bool_decide (n ∈ names)).
    + by rewrite andb_false_r.
  - assert (Hin : bool_decide (k ∈ n :: names) = bool_decide (k ∈ names)).
    { apply bool_decide_ext. rewrite elem_of_cons. tauto. }
    rewrite Hin.
    destruct (bool_decide (k ∈ names) && truthy (obj_get attrs k));
      [done|].
    destruct (truthy (obj_get attrs n)); [|done].
    by apply obj_get_set_ne.
Qed.

Lemma header_read_spec st d tmx :
  let this := get_doc st d in
  let h := header_read st d tmx in
  version h = version this ∧ path h = path this ∧
  sourceLocale h =
    (if truthy (header_attr tmx "srclang")
     then header_attr tmx "srclang" else sourceLocale this) ∧
  adminLocale h =
    (if truthy (header_attr tmx "adminlang")
     then header_attr tmx "adminlang" else adminLocale this) ∧
  ∀ k, obj_get (properties h) k =
       if bool_decide (k ∈ headerAttrs) && truthy (header_attr tmx k)
       then header_attr tmx k else obj_get (properties this) k.
Proof.
  intros this h. subst h. unfold header_read, parse_header, header_attr.
  fold this. destruct (tmx_header tmx) as [header|]; cycle 1.
  { simpl. repeat (split; [done|]). intros k.
    by rewrite andb_false_r. }
  destruct (header_attributes header) as [attrs|]; cycle 1.
  { simpl. repeat (split; [done|]). intros k.
    by rewrite andb_false_r. }
  simpl. repeat (split; [done|]). intros k.
  exact (header_fold attrs headerAttrs (properties this) k).
Qed.

(** X13: [deserialize] of a text with a root element of version 1.4
    reads the header, whether it then returns or raises: a header
    attribute among [segtype], [creationtool], [creationtoolversion],
    [adminlang], [srclang] and [datatype] that is present and not empty
    becomes the property of that name, and [srclang] and [adminlang] also
    become the source and the admin locale; every other property, the
    version and the path of the document stay as they were. *)
Theorem deserialize_header st d xml json tmx :
  d < length (docs st) →
  xml2js xml = Some json → json_tmx json = Some tmx →
  attr (tmx_attributes tmx) "version" = Some "1.4" →
  let this := get_doc st d in
  let this' := get_doc (deserialize d xml st).2 d in
  version this' = version this ∧ path this' = path this ∧
  sourceLocale this' =
    (if truthy (header_attr tmx "srclang")
     then header_attr tmx "srclang" else sourceLocale this) ∧
  adminLocale this' =
    (if truthy (header_attr tmx "adminlang")
     then header_attr tmx "adminlang" else adminLocale this) ∧
  ∀ k, obj_get (properties this') k =
       if bool_decide (k ∈ headerAttrs) && truthy (header_attr tmx k)
       then header_attr tmx k else obj_get (properties this) k.
Proof.
  intros Hd Hxml Hjson Hver this this'.
  destruct (deserialize_run st d xml json tmx Hd Hxml Hjson Hver)
    as ((_ & _ & _ & _ & _ & Hhead & _) & _).
  fold this' in Hhead.
  destruct (header_read_spec st d tmx) as (H1 & H2 & H3 & H4 & H5).
  fold this in H1, H2, H3, H4, H5. rewrite <- Hhead in H1, H2, H3, H4, H5.
  done.
Qed.

(** X14: whether [deserialize] of a text with a root element of version
    1.4 returns or raises, every unit of the document then has the
    datatype property of the document as its datatype, whatever the
    datatype of the unit that was written, and a source locale that is
    not empty. *)
Theorem deserialize_datatype st d xml json tmx :
  d < length (docs st) →
  xml2js xml = Some json → json_tmx json = Some tmx →
  attr (tmx_attributes tmx) "version" = Some "1.4" →
  let st' := (deserialize d xml st).2 in
  Forall (λ r, tu_datatype (get_unit st' r) =
                 obj_get (properties (get_doc st' d)) "datatype" ∧
               truthy (tu_sourceLocale (get_unit st' r)) = true)
         (tu (get_doc st' d)).
Proof.
  intros Hd Hxml Hjson Hver st'.
  destruct (deserialize_run st d xml json tmx Hd Hxml Hjson Hver)
    as ((Hi & _ & _ & _ & _ & Hhead & Hfresh & Hnew) & _).
  fold st' in Hi, Hhead, Hfresh, Hnew.
  pose proof (indexed_valid _ _ Hi) as Hv.
  rewrite Forall_forall in Hv, Hfresh. apply Forall_forall. intros r Hr.
  destruct (Hnew r (Hfresh r Hr) (Hv r Hr)) as [H1 H2].
  split; [|done]. rewrite H1, <- Hhead. done.
Qed.

(** ** When [addResource] returns *)

Lemma build_and_add_returns d u :
  hoare (λ _, True) (r ← alloc u; modify (addTranslationUnit d r))
        (λ _ _, True) (λ _, False).
Proof.
  eapply hoare_bind; [by apply hoare_alloc with (Q := λ _ _, True)|].
  intros r. by apply hoare_modify.
Qed.

Lemma segmented_plural_segments this plurals locale :
  segmented (plural_segments this plurals locale) ↔
  Forall (λ kv, truthy kv.2 = true) plurals.
Proof.
  unfold segmented, plural_segments, objectMap.
  rewrite Forall_fmap. apply Forall_proper; [|done].
  intros [k x]. simpl. by destruct (truthy x).
Qed.

Lemma plural_units_returns d res addTarget srcP tarP :
  segmented srcP →
  hoare (λ _, True) (plural_units d res addTarget srcP tarP)
        (λ _ _, True) (λ _, False).
Proof.
  intros Hseg. unfold plural_units.
  apply (hoare_foldM_split _ (λ _ _ _, True)).
  intros pre [category x] suf other Hsplit.
  destruct (segmented_elem _ _ _ _ _ Hseg Hsplit) as [segments ->].
  cbn [fst snd].
  apply (hoare_foldM_from _ (λ _ _, True)). intros other' string i _.
  unfold plural_unit_step.
  eapply hoare_bind; [by apply hoare_alloc with (Q := λ _ _, True)|].
  intros r. eapply hoare_bind;
    [by apply hoare_modify with (Q := λ _ _, True)|].
  intros []. by apply hoare_ret.
Qed.

(** X15: [addResource] returns for a resource of another source locale
    than the document, for a string resource, for an array resource that
    has a target array or names no target locale other than the source
    locale, and for a plural resource none of whose source texts is empty
    and that has no target or names no such target locale. So it can
    only raise for an array resource without a target array that names
    such a target locale, and for a plural resource. *)
Theorem addResource_returns st d res :
  res_sourceLocale res ≠ sourceLocale (get_doc st d) ∨
  (∃ source target, res_payload res = ResString source target) ∨
  (∃ sourceArray targetArray,
     res_payload res = ResArray sourceArray targetArray ∧
     (addTarget (get_doc st d) res = false ∨ is_Some targetArray)) ∨
  (∃ sourcePlurals targetPlurals,
     res_payload res = ResPlural sourcePlurals targetPlurals ∧
     Forall (λ kv, truthy kv.2 = true) sourcePlurals ∧
     (addTarget (get_doc st d) res = false ∨ targetPlurals = None)) →
  ∃ st', addResource d (Some res) st = (Returned tt, st').
Proof.
  intros Hcase.
  assert (Hrun : hoare (λ s, s = st) (addResource d (Some res))
                       (λ _ _, True) (λ _, False)).
  { unfold addResource. eapply hoare_bind.
    { apply hoare_gets with (Q := λ a s, a = get_doc st d ∧ True).
      by intros s ->. }
    intros this. apply hoare_pure. intros ->.
    destruct (decide (res_sourceLocale res = sourceLocale (get_doc st d)))
      as [Hloc|Hloc]; cycle 1.
    { rewrite (bool_decide_eq_false_2 _ Hloc). simpl. by apply hoare_ret. }
    rewrite (bool_decide_eq_true_2 _ Hloc). simpl.
    destruct Hcase as [?|Hcase]; [done|].
    destruct (res_payload res) as [source target|srcs tgts|srcs tgts].
    - apply hoare_forEach. intros segment i _. apply build_and_add_returns.
    - apply hoare_forEach. intros element i _.
      apply hoare_forEach. intros string j _.
      eapply hoare_bind; [|intros tgt; apply build_and_add_returns].
      destruct (addTarget (get_doc st d) res) eqn:Hat;
        [|by apply hoare_ret].
      destruct Hcase as [(? & ? & ?)|[(? & ? & [= <- <-] & Hta)|
                                      (? & ? & ? & _)]];
        [done| |done].
      destruct Hta as [?|[ta ->]]; [done|].
      match goal with |- hoare _ (match ?c !! i with _ => _ end) _ _ =>
        destruct (c !! i) as [segs|] end; [|by apply hoare_ret].
      destruct (j <? length segs); by apply hoare_ret.
    - destruct Hcase as [(? & ? & ?)|[(? & ? & ? & _)|
                                      (? & ? & [= <- <-] & Hsrc & Htgt)]];
        [done|done|].
      eapply hoare_bind.
      { apply plural_units_returns. by apply segmented_plural_segments. }
      intros other.
      destruct Htgt as [->| ->]; [by apply hoare_ret|].
      destruct (addTarget (get_doc st d) res); by apply hoare_ret. }
  specialize (Hrun st eq_refl).
  destruct (addResource d (Some res) st) as [[[]|err] st']; [|done].
  by exists st'.
Qed.

(** ** The header of the documents that [diff] and [merge] build *)

Lemma new_TMX_header (T : TMX UKey) :
  let D := new_TMX (derived_options T) in
  let segtype := obj_get (properties T) "segtype" in
  let creationtool := obj_get (properties T) "creationtool" in
  let creationtoolversion := obj_get (properties T) "creationtoolversion" in
  version D = version T ∧
  sourceLocale D = js_or (sourceLocale T) (Some "en") ∧
  adminLocale D = Some "en" ∧
  path D = None ∧
  obj_get (properties D) "datatype" = Some "unknown" ∧
  obj_get (properties D) "segtype" =
    (if bool_decide (segtype = Some "paragraph" ∨ segtype = Some "sentence")
     then segtype else Some "paragraph") ∧
  obj_get (properties D) "creationtool" =
    (if truthy creationtool then creationtool else None) ∧
  obj_get (properties D) "creationtoolversion" =
    (if truthy creationtoolversion then creationtoolversion else None) ∧
  ∀ k, k ∉ ["datatype"; "segtype"; "creationtool"; "creationtoolversion"] →
       obj_get (properties D) k = None.
Proof.
  intros D segtype creationtool creationtoolversion. subst D.
  unfold new_TMX, derived_options. cbn [opt_sourceLocale opt_version
    opt_segmentation version sourceLocale adminLocale path properties].
  fold segtype creationtool creationtoolversion.
  split; [done|]. split; [done|]. split; [done|]. split; [done|].
  assert (Hseg : (truthy segtype &&
                  (bool_decide (segtype = Some "paragraph") ||
                   bool_decide (segtype = Some "sentence"))) =
                 bool_decide (segtype = Some "paragraph" ∨
                              segtype = Some "sentence")).
  { destruct (decide (segtype = Some "paragraph")) as [->|H1]; [done|].
    destruct (decide (segtype = Some "sentence")) as [->|H2]; [done|].
    rewrite !bool_decide_eq_false_2 by tauto. by rewrite andb_false_r. }
  rewrite Hseg. clear Hseg.
  unfold headerAttrs, opt_attr. cbn [foldl String.eqb Ascii.eqb Bool.eqb
    opt_creationtool opt_creationtoolversion truthy].
  generalize (bool_decide (segtype = Some "paragraph" ∨
                           segtype = Some "sentence")).
  intros b.
  destruct b, (truthy creationtool), (truthy creationtoolversion);
    (repeat split;
     [rewrite ?obj_get_set_ne by done; rewrite ?obj_get_set_eq;
      reflexivity..|]);
    intros k Hk; rewrite !not_elem_of_cons in Hk;
    destruct Hk as (H1 & H2 & H3 & H4 & _);
    rewrite ?obj_get_set_ne by done; cbn [obj_get];
    repeat match goal with
           | |- context [String.eqb ?a k] =>
               destruct (String.eqb_spec a k); [congruence|]
           end; reflexivity.
Qed.

(** X16: the document that [diff] or [merge] builds, which [diff]
    returns unless it raises, takes the version of the receiver, its source locale (["en"] when that is empty), its
    segmentation when that is ["paragraph"] or ["sentence"] (and
    ["paragraph"] otherwise), and its creation tool and creation tool
    version when they are not empty; it does not take any other property
    of the receiver: its datatype is ["unknown"], its admin locale is
    ["en"], and it has no path. *)
Theorem diff_merge_header st this other tmxs :
  wf_doc st this → wf_doc st other → Forall (wf_doc st) tmxs → tmxs ≠ [] →
  let T := get_doc st this in
  let segtype := obj_get (properties T) "segtype" in
  let creationtool := obj_get (properties T) "creationtool" in
  let creationtoolversion := obj_get (properties T) "creationtoolversion" in
  (∀ d', (diff this other st).1 = Returned d' → d' = length (docs st)) ∧
  ∀ D, D = get_doc (diff this other st).2 (length (docs st)) ∨
       D = get_doc (merge this tmxs st).2 (merge this tmxs st).1 →
    version D = version T ∧
    sourceLocale D = js_or (sourceLocale T) (Some "en") ∧
    adminLocale D = Some "en" ∧
    path D = None ∧
    obj_get (properties D) "datatype" = Some "unknown" ∧
    obj_get (properties D) "segtype" =
      (if bool_decide (segtype = Some "paragraph" ∨
                       segtype = Some "sentence")
       then segtype else Some "paragraph") ∧
    obj_get (properties D) "creationtool" =
      (if truthy creationtool then creationtool else None) ∧
    obj_get (properties D) "creationtoolversion" =
      (if truthy creationtoolversion then creationtoolversion else None) ∧
    ∀ k, k ∉ ["datatype"; "segtype"; "creationtool";
              "creationtoolversion"] →
         obj_get (properties D) k = None.
Proof.
  intros Hthis Hother Htmxs Hne T segtype creationtool creationtoolversion.
  split.
  { by destruct (diff_frame_run st this other Hthis Hother) as (_ & _ & H). }
  intros D HD.
  assert (Hhd : set_tu D [] ∅ = new_TMX (derived_options T)).
  { destruct HD as [->| ->].
    - destruct (diff_run st this other Hthis Hother)
        as (pre & suf & _ & _ & (news & D0 & _ & Hd & Hhd & _) & _).
      by rewrite (get_doc_app_new _ st D0 Hd).
    - destruct (merge_spec st this tmxs Hne Hthis Htmxs)
        as (Hn & D0 & Hd & _ & Hhd & _).
      rewrite Hn. by rewrite (get_doc_app_new _ st D0 Hd). }
  pose proof (new_TMX_header T) as H. cbv zeta in H.
  rewrite <- Hhd in H. exact H.
Qed.

(** ** The header across the wire *)

Lemma serialize_json_header st d :
  ∃ tw, json_tmx (serialize_json st d) = Some tw ∧
        attr (tmx_attributes tw) "version" =
          Some (versionString (version (get_doc st d))) ∧
        header_attr tw "segtype" =
          obj_get (properties (get_doc st d)) "segtype" ∧
        header_attr tw "creationtool" =
          js_or (obj_get (properties (get_doc st d)) "creationtool")
                (Some "loctool") ∧
        header_attr tw "creationtoolversion" =
          js_or (obj_get (properties (get_doc st d)) "creationtoolversion")
                getVersion ∧
        header_attr tw "adminlang" = adminLocale (get_doc st d) ∧
        header_attr tw "srclang" = sourceLocale (get_doc st d) ∧
        header_attr tw "datatype" =
          obj_get (properties (get_doc st d)) "datatype".
Proof.
  eexists. split; [reflexivity|]. split; [done|].
  unfold header_attr; simpl.
  by destruct (truthy (obj_get (properties (get_doc st d))
                               "originalFormat")).
Qed.

(** X17: when a document of version 1.4 is serialized and the text is
    read into a document by [deserialize], with an XML collaborator that
    returns the version and the header attributes as they were written,
    the reader gets the source locale, the admin locale, the segmentation
    and the datatype of the writer where those are not empty, the
    creation tool of the writer or ["loctool"], and the creation tool
    version of the writer or the package version; the properties of the
    writer that are not header attributes are not restored: the reader
    keeps its own, and its own version. *)
Theorem header_round_trip st d r p :
  r < length (docs st) →
  versionString (version (get_doc st d)) = "1.4" →
  xml2js (serialize st d) = Some p →
  header_faithful (serialize_json st d) p →
  let W := get_doc st d in
  let R := get_doc st r in
  let R' := get_doc (deserialize r (serialize st d) st).2 r in
  let keep (w old : jsstr) := if truthy w then w else old in
  sourceLocale R' = keep (sourceLocale W) (sourceLocale R) ∧
  adminLocale R' = keep (adminLocale W) (adminLocale R) ∧
  obj_get (properties R') "segtype" =
    keep (obj_get (properties W) "segtype")
         (obj_get (properties R) "segtype") ∧
  obj_get (properties R') "datatype" =
    keep (obj_get (properties W) "datatype")
         (obj_get (properties R) "datatype") ∧
  obj_get (properties R') "srclang" =
    keep (sourceLocale W) (obj_get (properties R) "srclang") ∧
  obj_get (properties R') "adminlang" =
    keep (adminLocale W) (obj_get (properties R) "adminlang") ∧
  obj_get (properties R') "creationtool" =
    js_or (obj_get (properties W) "creationtool") (Some "loctool") ∧
  obj_get (properties R') "creationtoolversion" =
    keep (js_or (obj_get (properties W) "creationtoolversion") getVersion)
         (obj_get (properties R) "creationtoolversion") ∧
  (∀ k, k ∉ headerAttrs →
        obj_get (properties R') k = obj_get (properties R) k) ∧
  version R' = version R.
Proof.
  intros Hr Hver Hxml Hfaith. cbv zeta.
  destruct (serialize_json_header st d)
    as (tw & Htw & Hwv & Hw1 & Hw2 & Hw3 & Hw4 & Hw5 & Hw6).
  unfold header_faithful in Hfaith. rewrite Htw in Hfaith.
  destruct (json_tmx p) as [tp|] eqn:Htp; [|done].
  destruct Hfaith as (Hpv & Hph).
  rewrite Hwv, Hver in Hpv.
  assert (Hattr : ∀ k, k ∈ headerAttrs → header_attr tp k = header_attr tw k).
  { intros k Hk. rewrite Forall_forall in Hph. by apply Hph. }
  destruct (deserialize_run st r (serialize st d) p tp Hr Hxml Htp Hpv)
    as ((_ & _ & _ & _ & _ & Hhead & _) & _).
  destruct (header_read_spec st r tp) as (Hv & _ & Hsl & Hal & Hprops).
  rewrite <- Hhead in Hv, Hsl, Hal, Hprops.
  cbn [set_tu version sourceLocale adminLocale properties]
    in Hv, Hsl, Hal, Hprops.
  set (R' := get_doc (deserialize r (serialize st d) st).2 r) in *.
  assert (Hin : ∀ k, k ∈ headerAttrs →
            obj_get (properties R') k =
            if truthy (header_attr tw k) then header_attr tw k
            else obj_get (properties (get_doc st r)) k).
  { intros k Hk. rewrite Hprops, (bool_decide_eq_true_2 _ Hk).
    by rewrite Hattr. }
  assert (Hct : truthy (js_or (obj_get (properties (get_doc st d))
                                 "creationtool")
                              (Some "loctool")) = true)
    by (by apply truthy_js_or_r).
  rewrite Hattr in Hsl, Hal by (unfold headerAttrs; set_solver).
  rewrite Hw5 in Hsl. rewrite Hw4 in Hal.
  split; [exact Hsl|]. split; [exact Hal|].
  split; [rewrite Hin, Hw1 by (unfold headerAttrs; set_solver); done|].
  split; [rewrite Hin, Hw6 by (unfold headerAttrs; set_solver); done|].
  split; [rewrite Hin, Hw5 by (unfold headerAttrs; set_solver); done|].
  split; [rewrite Hin, Hw4 by (unfold headerAttrs; set_solver); done|].
  split.
  { rewrite Hin, Hw2 by (unfold headerAttrs; set_solver).
    by rewrite Hct. }
  split; [rewrite Hin, Hw3 by (unfold headerAttrs; set_solver); done|].
  split; [|exact Hv].
  intros k Hk. rewrite Hprops, (bool_decide_eq_false_2 _ Hk). done.
Qed.

(** ** What a merged document holds *)

Lemma merge_content st this tmxs :
  tmxs ≠ [] → wf_doc st this → Forall (wf_doc st) tmxs →
  let n := (merge this tmxs st).1 in
  let st' := (merge this tmxs st).2 in
  let inputs := merge_inputs st this tmxs in
  (∀ r, hashKey st' r = hashKey st r) ∧
  (∀ k, k ∈ ukeys st' n ↔ k ∈ hashKey st <$> inputs) ∧
  (∀ k kv, has_variant st' (tu (get_doc st' n)) k kv ↔
           has_variant st inputs k kv).
Proof.
  intros Hne Hthis Hwf n st' inputs.
  destruct (merge_spec st this tmxs Hne Hthis Hwf) as [Hn Hinv].
  fold n st' inputs in Hn, Hinv.
  assert (Hkey : ∀ r, hashKey st' r = hashKey st r)
    by (intros r; by eapply merge_inv_hashKey).
  destruct Hinv as
    (D & HD & Hlen & Hhd & Hnd & Htu & Hidx & Hcov & Hfirst & Hunits).
  assert (HgD : get_doc st' n = D)
    by (rewrite Hn; by apply get_doc_app_new).
  split; [done|]. unfold ukeys. rewrite HgD. split.
  - intros k. rewrite !list_elem_of_fmap. split.
    + intros (m & -> & Hm). exists m. rewrite Hkey.
      split; [done|]. by destruct (Htu m Hm).
    + intros (r & -> & Hr). destruct (Hcov r Hr) as [m Hm].
      destruct (Hidx _ _ Hm) as [Hin Hkm].
      exists m. by rewrite Hkey.
  - intros k kv. split.
    + intros (m & Hm & Hk & Hkv). destruct (Htu m Hm) as [Hin _].
      rewrite (Hunits m), decide_True in Hkv by done.
      rewrite Hkey in Hk.
      apply vkeys_addVariants in Hkv as [Hkv|Hkv].
      * by exists m.
      * apply list_elem_of_fmap in Hkv as (x & -> & Hx).
        apply elem_of_same_key_variants in Hx as (r & Hr & Hkr & Hx).
        exists r. split; [done|]. split; [congruence|].
        by apply list_elem_of_fmap_2.
    + intros (r & Hr & Hk & Hkv). destruct (Hcov r Hr) as [m Hm].
      destruct (Hidx _ _ Hm) as [Hin Hkm].
      exists m. split; [done|]. split; [by rewrite Hkey, Hkm|].
      rewrite (Hunits m), decide_True by done.
      apply vkeys_addVariants. right.
      apply list_elem_of_fmap in Hkv as (x & -> & Hx).
      apply list_elem_of_fmap_2. apply elem_of_same_key_variants.
      by exists r.
Qed.

Lemma has_variant_app st l1 l2 k kv :
  has_variant st (l1 ++ l2) k kv ↔
  has_variant st l1 k kv ∨ has_variant st l2 k kv.
Proof.
  unfold has_variant. split.
  - intros (r & [Hr|Hr]%elem_of_app & H); [left | right]; by exists r.
  - intros [(r & Hr & H)|(r & Hr & H)]; exists r;
      (split; [apply elem_of_app; tauto | done]).
Qed.

Lemma merge_inputs_two st a b :
  merge_inputs st a [b] = tu (get_doc st a) ++ tu (get_doc st b).
Proof. unfold merge_inputs. simpl. by rewrite app_nil_r. Qed.

(** X18: merging is commutative up to the objects and their order:
    [a.merge([b])] and [b.merge([a])] have the same unit keys, and under
    every unit key the same variant keys. *)
Theorem merge_commutes st a b :
  wf_doc st a → wf_doc st b →
  let s1 := (merge a [b] st).2 in
  let n1 := (merge a [b] st).1 in
  let s2 := (merge b [a] st).2 in
  let n2 := (merge b [a] st).1 in
  (∀ k, k ∈ ukeys s1 n1 ↔ k ∈ ukeys s2 n2) ∧
  (∀ k kv,
     (∃ m, m ∈ tu (get_doc s1 n1) ∧ hashKey s1 m = k ∧
           kv ∈ vkeys (get_unit s1 m)) ↔
     (∃ m, m ∈ tu (get_doc s2 n2) ∧ hashKey s2 m = k ∧
           kv ∈ vkeys (get_unit s2 m))).
Proof.
  intros Ha Hb s1 n1 s2 n2.
  destruct (merge_content st a [b] ltac:(done) Ha) as (_ & Hk1 & Hv1).
  { by apply Forall_singleton. }
  destruct (merge_content st b [a] ltac:(done) Hb) as (_ & Hk2 & Hv2).
  { by apply Forall_singleton. }
  fold s1 n1 in Hk1, Hv1. fold s2 n2 in Hk2, Hv2.
  rewrite merge_inputs_two in Hk1, Hv1, Hk2, Hv2. split.
  - intros k. rewrite Hk1, Hk2, !fmap_app, !elem_of_app. tauto.
  - intros k kv.
    change (has_variant s1 (tu (get_doc s1 n1)) k kv ↔
            has_variant s2 (tu (get_doc s2 n2)) k kv).
    rewrite Hv1, Hv2, !has_variant_app. tauto.
Qed.

(** ** Merging a difference *)

Lemma Forall2_elem_l {A B} (R : A → B → Prop) l k x :
  Forall2 R l k → x ∈ l → ∃ y, y ∈ k ∧ R x y.
Proof.
  induction 1 as [|a b l k Hab _ IH]; [by intros ?%elem_of_nil|].
  intros [->|Hx]%elem_of_cons.
  - exists b. split; [left | done].
  - destruct (IH Hx) as (y & Hy & HR). exists y. split; [by right | done].
Qed.

Lemma Forall2_elem_r {A B} (R : A → B → Prop) l k y :
  Forall2 R l k → y ∈ k → ∃ x, x ∈ l ∧ R x y.
Proof.
  induction 1 as [|a b l k Hab _ IH]; [by intros ?%elem_of_nil|].
  intros [->|Hy]%elem_of_cons.
  - exists a. split; [left | done].
  - destruct (IH Hy) as (x & Hx & HR). exists x. split; [by right | done].
Qed.

Lemma elem_of_List_filter {A} (f : A → bool) l x :
  x ∈ List.filter f l ↔ x ∈ l ∧ f x = true.
Proof. rewrite !list_elem_of_In. apply filter_In. Qed.

(** What the document [D] built by [diff] holds, read off the invariant
    of the loop. *)
Lemma diff_content st this other :
  wf_doc st this → wf_doc st other →
  let n := (diffed this other st).1 in
  let st' := (diffed this other st).2 in
  (∀ r, r < length (units st) → get_unit st' r = get_unit st r) ∧
  get_doc st' this = get_doc st this ∧
  (∀ m, m ∈ tu (get_doc st' n) →
     ∃ r, r ∈ tu (get_doc st other) ∧ reported st this r = true ∧
          hashKey st' m = hashKey st r ∧
          match tuhash (get_doc st this) !! hashKey st r with
          | None => get_unit st' m = get_unit st r
          | Some t =>
              get_unit st' m =
              diff_unit (get_unit st r)
                (variantDiff (get_unit st t) (get_unit st r))
          end) ∧
  (∀ r, r ∈ tu (get_doc st other) → reported st this r = true →
     ∃ m, m ∈ tu (get_doc st' n) ∧
          hashKey st' m = hashKey st r ∧
          match tuhash (get_doc st this) !! hashKey st r with
          | None => get_unit st' m = get_unit st r
          | Some t =>
              get_unit st' m =
              diff_unit (get_unit st r)
                (variantDiff (get_unit st t) (get_unit st r))
          end).
Proof.
  intros Hthis Hother n st'.
  destruct (diff_frame st this other Hthis Hother) as (_ & Hdocs & Hunits).
  destruct (diff_spec st this other Hthis Hother)
    as (Hn & news & D & Hu & Hd & _ & _ & Hrep).
  fold n st' in Hn, Hu, Hd, Hrep, Hdocs, Hunits.
  assert (HgD : get_doc st' n = D)
    by (rewrite Hn; by apply get_doc_app_new).
  rewrite HgD.
  assert (Hvalid : ∀ r, r ∈ tu (get_doc st other) → r < length (units st)).
  { intros r Hr. apply wf_doc_valid in Hother.
    rewrite Forall_forall in Hother. by apply Hother. }
  assert (Hone : ∀ r m, r ∈ tu (get_doc st other) →
            reports st st' this r m →
            hashKey st' m = hashKey st r ∧
            match tuhash (get_doc st this) !! hashKey st r with
            | None => get_unit st' m = get_unit st r
            | Some t =>
                get_unit st' m =
                diff_unit (get_unit st r)
                  (variantDiff (get_unit st t) (get_unit st r))
            end).
  { intros r m Hr Hrm. unfold reports in Hrm.
    destruct (tuhash (get_doc st this) !! hashKey st r) as [t|].
    - destruct Hrm as [_ Hm].
      assert (Hgm : get_unit st' m =
                    diff_unit (get_unit st r)
                      (variantDiff (get_unit st t) (get_unit st r))).
      { unfold get_unit at 1. by rewrite (list_lookup_total_correct _ _ _ Hm). }
      split; [|done]. unfold hashKey at 1. rewrite Hgm.
      apply diff_unit_key.
    - subst m. specialize (Hunits r (Hvalid r Hr)).
      split; [|done]. unfold hashKey. by rewrite Hunits. }
  split; [exact Hunits|]. split; [apply Hdocs; by destruct Hthis|].
  split.
  - intros m Hm.
    destruct (Forall2_elem_r _ _ _ _ Hrep Hm) as (r & Hr & Hrm).
    apply elem_of_List_filter in Hr as [Hr Hrep'].
    exists r. split; [done|]. split; [done|]. by apply Hone.
  - intros r Hr Hrep'.
    destruct (Forall2_elem_l _ _ _ r Hrep) as (m & Hm & Hrm).
    { by apply elem_of_List_filter. }
    exists m. split; [done|]. by apply Hone.
Qed.

(** X19: [diff] is a patch for [merge]: when every unit of [b] has the
    variant of its own source text, merging into [a] the difference that
    [a.diff(b)] returns gives the same unit keys, and under every unit
    key the same variant keys, as merging [b] itself into [a]. *)
Theorem merge_diff_patch st a b nd sd :
  wf_doc st a → wf_doc st b →
  Forall (λ r, variant_hash (tu_sourceLocale (get_unit st r))
                            (tu_source (get_unit st r))
                 ∈ vkeys (get_unit st r))
         (tu (get_doc st b)) →
  diff a b st = (Returned nd, sd) →
  let s1 := (merge a [nd] sd).2 in
  let n1 := (merge a [nd] sd).1 in
  let s2 := (merge a [b] st).2 in
  let n2 := (merge a [b] st).1 in
  (∀ k, k ∈ ukeys s1 n1 ↔ k ∈ ukeys s2 n2) ∧
  (∀ k kv,
     (∃ m, m ∈ tu (get_doc s1 n1) ∧ hashKey s1 m = k ∧
           kv ∈ vkeys (get_unit s1 m)) ↔
     (∃ m, m ∈ tu (get_doc s2 n2) ∧ hashKey s2 m = k ∧
           kv ∈ vkeys (get_unit s2 m))).
Proof.
  intros Ha Hb Hsrc Hrun.
  destruct (diff_returned st a b nd sd Ha Hb Hrun) as (-> & -> & _).
  set (sd := (diffed a b st).2). set (nd := (diffed a b st).1).
  intros s1 n1 s2 n2.
  rewrite Forall_forall in Hsrc.
  destruct (diff_wf st a b Hb) as [HwfD Hwfd]. fold sd nd in HwfD, Hwfd.
  destruct (diff_content st a b Ha Hb) as (Hunits & Hga & HD1 & HD2).
  fold sd nd in Hunits, Hga, HD1, HD2.
  destruct (merge_content sd a [nd] ltac:(done) (Hwfd a Ha))
    as (_ & Hk1 & Hv1).
  { by apply Forall_singleton. }
  destruct (merge_content st a [b] ltac:(done) Ha) as (_ & Hk2 & Hv2).
  { by apply Forall_singleton. }
  fold s1 n1 in Hk1, Hv1. fold s2 n2 in Hk2, Hv2.
  rewrite merge_inputs_two in Hk1, Hv1, Hk2, Hv2. rewrite Hga in Hk1, Hv1.
  assert (Hva : ∀ r, r ∈ tu (get_doc st a) → r < length (units st)).
  { intros r Hr. apply wf_doc_valid in Ha.
    rewrite Forall_forall in Ha. by apply Ha. }
  assert (Hka : ∀ r, r ∈ tu (get_doc st a) → hashKey sd r = hashKey st r).
  { intros r Hr. unfold hashKey. by rewrite Hunits by (by apply Hva). }
  assert (Hina : ∀ r t, tuhash (get_doc st a) !! hashKey st r = Some t →
                        t ∈ tu (get_doc st a) ∧ hashKey st t = hashKey st r).
  { intros r t Ht. destruct Ha as [_ (_ & _ & Hmap)].
    by apply (Hmap _ _ Ht). }
  assert (Hrep : ∀ r, reported st a r = false →
            ∃ t, tuhash (get_doc st a) !! hashKey st r = Some t ∧
                 ∀ kv, kv ∈ vkeys (get_unit st r) →
                       kv ∈ vkeys (get_unit st t)).
  { intros r Hr. by apply reported_covered in Hr. }
  split.
  - intros k. rewrite Hk1, Hk2, !fmap_app, !elem_of_app.
    rewrite !list_elem_of_fmap. split.
    + intros [(r & -> & Hr)|(m & -> & Hm)].
      * left. exists r. by rewrite Hka.
      * destruct (HD1 m Hm) as (r & Hr & _ & Hkm & _).
        right. by exists r.
    + intros [(r & -> & Hr)|(r & -> & Hr)].
      * left. exists r. by rewrite Hka.
      * destruct (reported st a r) eqn:Hrr.
        -- destruct (HD2 r Hr Hrr) as (m & Hm & Hkm & _).
           right. by exists m.
        -- destruct (Hrep r Hrr) as (t & Ht & _).
           destruct (Hina r t Ht) as [Hin Hkt].
           left. exists t. by rewrite Hka.
  - intros k kv.
    change (has_variant s1 (tu (get_doc s1 n1)) k kv ↔
            has_variant s2 (tu (get_doc s2 n2)) k kv).
    rewrite Hv1, Hv2, !has_variant_app. split.
    + intros [(r & Hr & Hk & Hkv)|(m & Hm & Hk & Hkv)].
      * left. exists r. rewrite <- Hka by done.
        split; [done|]. split; [done|].
        by rewrite <- Hunits by (by apply Hva).
      * destruct (HD1 m Hm) as (r & Hr & _ & Hkm & Hum).
        right. exists r. split; [done|]. split; [congruence|].
        destruct (tuhash (get_doc st a) !! hashKey st r) as [t|].
        -- rewrite Hum in Hkv.
           destruct (diff_unit_variants (get_unit st r)
                       (variantDiff (get_unit st t) (get_unit st r)))
             as (_ & _ & _ & _ & Hchar).
           apply Hchar in Hkv as [->|Hkv]; [by apply Hsrc|].
           apply list_elem_of_fmap in Hkv as (x & -> & Hx).
           apply elem_of_variantDiff in Hx as [Hx _].
           by apply list_elem_of_fmap_2.
        -- by rewrite Hum in Hkv.
    + intros [(r & Hr & Hk & Hkv)|(r & Hr & Hk & Hkv)].
      * left. exists r. rewrite Hka by done.
        split; [done|]. split; [done|].
        by rewrite Hunits by (by apply Hva).
      * destruct (tuhash (get_doc st a) !! hashKey st r) as [t|] eqn:Ht.
        -- destruct (Hina r t Ht) as [Hin Hkt].
           destruct (decide (kv ∈ vkeys (get_unit st t))) as [Hkvt|Hkvt].
           ++ left. exists t. rewrite Hka by done.
              split; [done|]. split; [congruence|].
              by rewrite Hunits by (by apply Hva).
           ++ apply list_elem_of_fmap in Hkv as (x & -> & Hx).
              assert (Hxd : x ∈ variantDiff (get_unit st t) (get_unit st r))
                by (by apply elem_of_variantDiff).
              assert (Hrr : reported st a r = true).
              { unfold reported. rewrite Ht.
                destruct (variantDiff (get_unit st t) (get_unit st r));
                  [by apply elem_of_nil in Hxd | done]. }
              destruct (HD2 r Hr Hrr) as (m & Hm & Hkm & Hum).
              rewrite Ht in Hum.
              right. exists m. split; [done|]. split; [congruence|].
              rewrite Hum.
              destruct (diff_unit_variants (get_unit st r)
                          (variantDiff (get_unit st t) (get_unit st r)))
                as (_ & _ & _ & _ & Hchar).
              apply Hchar. right. by apply list_elem_of_fmap_2.
        -- assert (Hrr : reported st a r = true)
             by (unfold reported; by rewrite Ht).
           destruct (HD2 r Hr Hrr) as (m & Hm & Hkm & Hum).
           rewrite Ht in Hum.
           right. exists m. split; [done|]. split; [congruence|].
           by rewrite Hum.
Qed.

(** ** What [addTranslationUnit] does to a document *)

Lemma has_variant_addTranslationUnit st d r k kv :
  wf_doc st d →
  has_variant st (tu (get_doc st d)) k kv →
  has_variant (addTranslationUnit d r st)
              (tu (get_doc (addTranslationUnit d r st) d)) k kv.
Proof.
  intros [Hd Hi] (m & Hm & Hk & Hkv). exists m.
  rewrite addTranslationUnit_tu by done.
  split; [apply elem_of_app; by left|].
  split; [by rewrite addTranslationUnit_hashKey|].
  rewrite addTranslationUnit_unfold.
  destruct (tuhash (get_doc st d) !! hashKey st r) as [e|]; [|done].
  rewrite get_unit_addVariants. case_decide; [|done].
  apply vkeys_addVariants. by left.
Qed.

(** X20: [addTranslationUnit] files the unit under its key or merges it
    into the unit that is filed there: afterwards the index has, under the
    key of the given unit, a unit of the document that has every variant
    key of the given unit; the document has lost no unit key and, under
    no unit key, a variant key; it has grown by the given unit, placed
    last, when its key was new, and not at all otherwise; and no unit has
    changed its key. *)
Theorem addTranslationUnit_stores st d r :
  wf_doc st d → r < length (units st) →
  let st' := addTranslationUnit d r st in
  (∃ e, tuhash (get_doc st' d) !! hashKey st r = Some e ∧
        e ∈ tu (get_doc st' d) ∧
        ∀ k, k ∈ vkeys (get_unit st r) → k ∈ vkeys (get_unit st' e)) ∧
  (∀ k kv, has_variant st (tu (get_doc st d)) k kv →
           has_variant st' (tu (get_doc st' d)) k kv) ∧
  tu (get_doc st' d) =
    (if decide (hashKey st r ∈ ukeys st d) then tu (get_doc st d)
     else tu (get_doc st d) ++ [r]) ∧
  (∀ x, hashKey st' x = hashKey st x).
Proof.
  intros Hwf Hr st'.
  assert (Hwf' : wf_doc st' d) by (by apply wf_doc_addTranslationUnit).
  split; [|split; [|split]].
  - destruct (stored_added st d r Hwf Hr) as (e & He & Hall).
    exists e. split; [done|]. split; [|done].
    destruct Hwf' as [_ (_ & _ & Hmap)]. by destruct (Hmap _ _ He).
  - intros k kv. by apply has_variant_addTranslationUnit.
  - subst st'. rewrite addTranslationUnit_tu by (by destruct Hwf).
    destruct Hwf as [_ Hi].
    pose proof (lookup_index st d (hashKey st r) Hi) as Hl.
    destruct (tuhash (get_doc st d) !! hashKey st r) as [e|].
    + rewrite decide_True by (apply Hl; by eexists). by rewrite app_nil_r.
    + rewrite decide_False; [done|]. intros Hin. apply Hl in Hin.
      by destruct Hin.
  - intros x. apply addTranslationUnit_hashKey.
Qed.

(** ** Array resources *)

Lemma build_and_add_kept d u (P : TranslationUnit → Prop) :
  hoare (λ st, wf_doc st d ∧ ∀ x, P x → stored st d x)
        (r ← alloc u; modify (addTranslationUnit d r))
        (λ _ st, wf_doc st d ∧ ∀ x, P x ∨ x = u → stored st d x)
        (λ _, True).
Proof.
  intros st [Hwf Hst].
  pose proof (build_and_add_stored d u P 0 (length (units st)) st) as H.
  destruct ((r ← alloc u; modify (addTranslationUnit d r)) st)
    as [[[]|err] st']; [|done].
  destruct H as (H1 & _ & _ & H4); [|done].
  split; [done|]. split; [|done].
  pose proof (size_valid st d Hwf). lia.
Qed.

Lemma array_resource_run st d res sourceArray targetArray :
  wf_doc st d →
  res_payload res = ResArray sourceArray targetArray →
  res_sourceLocale res = sourceLocale (get_doc st d) →
  hoare (λ s, s = st) (addResource d (Some res))
    (λ _ s,
       wf_doc s d ∧
       ∀ i element j seg,
         sourceArray !! i = Some element →
         segmentString (get_doc st d) element (res_sourceLocale res) !! j
           = Some seg →
         stored s d
           (build_unit res seg
              (array_target (get_doc st d) res targetArray i j)))
    (λ _, True).
Proof.
  intros Hwf Hpay Hloc.
  set (this := get_doc st d).
  set (built := λ (i : nat) (element : jsstr) (j : nat) (seg : string),
                  build_unit res seg (array_target this res targetArray i j)).
  set (Pout := λ (pre : list (list string)) x,
         ∃ i element j seg,
           i < length pre ∧ sourceArray !! i = Some element ∧
           segmentString this element (res_sourceLocale res) !! j
             = Some seg ∧
           x = built i element j seg).
  unfold addResource. eapply hoare_bind.
  { apply hoare_gets with
      (Q := λ a s, a = this ∧ (wf_doc s d ∧ ∀ x, Pout [] x → stored s d x)).
    intros s ->. split; [done|]. split; [done|].
    intros x (i & ? & ? & ? & Hi & _). simpl in Hi. lia. }
  intros this0. apply hoare_pure. intros ->.
  unfold this at 1. rewrite (bool_decide_eq_true_2 _ Hloc). simpl.
  rewrite Hpay.
  set (srcArr := (λ element,
                    segmentString this element (res_sourceLocale res))
                   <$> sourceArray).
  eapply hoare_weaken.
  - apply (hoare_forEach_split _
             (λ pre s, wf_doc s d ∧ ∀ x, Pout pre x → stored s d x)).
    intros pre el suf Hsplit.
    assert (Hel : ∃ element, sourceArray !! length pre = Some element ∧
                    el = segmentString this element (res_sourceLocale res)).
    { assert (Hl : srcArr !! length pre = Some el).
      { rewrite Hsplit. by rewrite list_lookup_middle. }
      unfold srcArr in Hl. rewrite list_lookup_fmap in Hl.
      destruct (sourceArray !! length pre) as [element|]; [|done].
      exists element. split; [done|]. simpl in Hl. congruence. }
    destruct Hel as (element & Helement & Hel).
    set (Pin := λ (prei : list string) x,
           Pout pre x ∨
           ∃ j seg, prei !! j = Some seg ∧
                    x = built (length pre) element j seg).
    eapply hoare_weaken.
    + apply (hoare_forEach_split _
               (λ prei s, wf_doc s d ∧ ∀ x, Pin prei x → stored s d x)).
      intros prei str sufi Hspliti.
      eapply hoare_bind.
      { instantiate (1 := λ tgt s,
          tgt = array_target this res targetArray (length pre)
                  (length prei) ∧
          (wf_doc s d ∧ ∀ x, Pin prei x → stored s d x)).
        unfold array_target.
        destruct (addTarget this res).
        - destruct targetArray as [t|]; [|by apply hoare_throw].
          simpl.
          match goal with |- hoare _ (match ?c with _ => _ end) _ _ =>
            destruct c as [segs|] end; [|by apply hoare_ret].
          destruct (length prei <? length segs); by apply hoare_ret.
        - apply hoare_ret. intros s Hs. split; [|done].
          by destruct targetArray. }
      intros tgt. apply hoare_pure. intros ->.
      eapply hoare_weaken.
      * apply (build_and_add_kept d
                 (built (length pre) element (length prei) str)
                 (Pin prei)).
      * done.
      * intros [] s [H1 H2]. split; [done|].
        intros x [Hx|(j & seg & Hj & ->)]; apply H2.
        -- left. by left.
        -- apply lookup_app_Some in Hj as [Hj|[Hge Hj]].
           ++ left. right. by exists j, seg.
           ++ right. apply list_lookup_singleton_Some in Hj as [Hj ->].
              by replace j with (length prei) by lia.
    + intros s [H1 H2]. split; [done|]. intros x [Hx|(j & ? & Hj & _)].
      * by apply H2.
      * done.
    + intros [] s [H1 H2]. split; [done|].
      intros x (i & e & j & seg & Hi & He & Hj & ->).
      rewrite length_app in Hi. simpl in Hi. apply H2.
      destruct (decide (i < length pre)) as [Hlt|Hge].
      * left. by exists i, e, j, seg.
      * right. assert (i = length pre) as -> by lia.
        assert (e = element) as -> by congruence.
        exists j, seg. split; [|done]. by rewrite Hel.
  - done.
  - intros [] s [H1 H2]. split; [done|].
    intros i element j seg Hi Hj. apply H2.
    exists i, element, j, seg. split; [|done].
    unfold srcArr. rewrite length_fmap.
    by apply lookup_lt_Some in Hi.
Qed.

(** X21: when [addResource] returns for an array resource in the source
    locale of the document, the document has, for every segment of every
    source element, a unit filed under the key of that segment, the
    source locale and the datatype of the resource; the unit has the
    variant of the segment in the source locale and, when the resource
    has a target array and a target locale other than the source locale,
    the variant of the segment at the same indices of the target array,
    if there is one, be its text empty or not. *)
Theorem addResource_array_stored st d res sourceArray targetArray st' :
  wf_doc st d →
  res_payload res = ResArray sourceArray targetArray →
  res_sourceLocale res = sourceLocale (get_doc st d) →
  addResource d (Some res) st = (Returned tt, st') →
  let this := get_doc st d in
  ∀ i element j seg,
    sourceArray !! i = Some element →
    segmentString this element (res_sourceLocale res) !! j = Some seg →
    ∃ t, tuhash (get_doc st' d) !!
           unit_hash (Some seg) (res_sourceLocale res) (res_dataType res)
         = Some t ∧
         t ∈ tu (get_doc st' d) ∧
         variant_hash (res_sourceLocale res) (Some seg)
           ∈ vkeys (get_unit st' t) ∧
         (addTarget this res = true →
          ∀ tarr telement,
            targetArray = Some tarr → tarr !! i = Some telement →
            j < length (segmentString this telement
                          (res_targetLocale res)) →
            variant_hash (res_targetLocale res)
              (segmentString this telement (res_targetLocale res) !! j)
              ∈ vkeys (get_unit st' t)).
Proof.
  intros Hwf Hpay Hloc Hrun this i element j seg Hi Hj.
  pose proof (array_resource_run st d res sourceArray targetArray
                Hwf Hpay Hloc st eq_refl) as H.
  rewrite Hrun in H. destruct H as [Hwf' Hst].
  destruct (Hst i element j seg Hi Hj) as (t & Ht & Hall).
  rewrite unit_key_build_unit in Ht. exists t. split; [done|].
  split; [|split].
  - destruct Hwf' as [_ (_ & _ & Hmap)]. by destruct (Hmap _ _ Ht).
  - apply Hall, vkeys_build_unit. by left.
  - intros Hat tarr telement -> Htel Hlt.
    apply Hall, vkeys_build_unit. right. eexists. split; [|done].
    unfold array_target. fold this. rewrite Hat.
    rewrite list_lookup_fmap, Htel. simpl.
    apply Nat.ltb_lt in Hlt. by rewrite Hlt.
Qed.

(** ** Adding a resource again *)

Lemma segmentString_header (this this' : TMX UKey) string locale :
  properties this' = properties this →
  segmentString this' string locale = segmentString this string locale.
Proof. intros H. unfold segmentString. by rewrite H. Qed.

Lemma addTarget_header (this this' : TMX UKey) res :
  sourceLocale this' = sourceLocale this →
  addTarget this' res = addTarget this res.
Proof. intros H. unfold addTarget. by rewrite H. Qed.

Lemma string_target_header (this this' : TMX UKey) res target i :
  properties this' = properties this →
  sourceLocale this' = sourceLocale this →
  string_target this' res target i = string_target this res target i.
Proof.
  intros Hp Hs. unfold string_target.
  by rewrite (segmentString_header _ _ _ _ Hp), (addTarget_header _ _ _ Hs).
Qed.

Lemma array_target_header (this this' : TMX UKey) res targetArray i j :
  properties this' = properties this →
  sourceLocale this' = sourceLocale this →
  array_target this' res targetArray i j =
  array_target this res targetArray i j.
Proof.
  intros Hp Hs. unfold array_target. destruct targetArray as [t|]; [|done].
  rewrite (addTarget_header _ _ _ Hs).
  assert (Hm : (λ element, segmentString this' element (res_targetLocale res))
                 <$> t =
               (λ element, segmentString this element (res_targetLocale res))
                 <$> t).
  { apply list_fmap_ext. intros k x _. by apply segmentString_header. }
  by rewrite Hm.
Qed.

(** Building a unit that the document [d] of [s0] has stored, and adding
    it: no document changes, and of the units only the new one is
    added. *)
Lemma build_and_add_again d s0 u :
  wf_doc s0 d → stored s0 d u →
  hoare (λ s, docs s = docs s0 ∧ ∃ extra, units s = units s0 ++ extra)
        (r ← alloc u; modify (addTranslationUnit d r))
        (λ _ s, docs s = docs s0 ∧ ∃ extra, units s = units s0 ++ extra)
        (λ _, False).
Proof.
  intros [Hd Hi] (t & Ht & Hall) s [Hdocs (extra & Hunits)].
  set (s1 := mkStore (units s ++ [u]) (docs s) (log s)).
  assert (Heq : (r ← alloc u; modify (addTranslationUnit d r)) s =
                (Returned tt, addTranslationUnit d (length (units s)) s1))
    by reflexivity.
  rewrite Heq. clear Heq.
  assert (Hg : get_doc s1 d = get_doc s0 d)
    by (unfold get_doc; simpl; by rewrite Hdocs).
  assert (Hk : hashKey s1 (length (units s)) = unit_key u).
  { unfold hashKey, get_unit. simpl.
    by rewrite lookup_total_app_r, Nat.sub_diag by done. }
  assert (Hvalid : t < length (units s0))
    by (by eapply indexed_entries_valid).
  assert (Hgt : get_unit s1 t = get_unit s0 t).
  { unfold get_unit. simpl. rewrite Hunits.
    rewrite <- app_assoc. by rewrite lookup_total_app_l. }
  rewrite addTranslationUnit_unfold. rewrite Hg, Hk, Ht.
  rewrite addVariants_known.
  - simpl. split; [done|]. exists (extra ++ [u]).
    by rewrite Hunits, app_assoc.
  - intros x Hx.
    change (get_unit (trace_entry s1 d) t) with (get_unit s1 t).
    change (get_unit (trace_entry s1 d) (length (units s)))
      with (get_unit s1 (length (units s))) in Hx.
    rewrite Hgt. apply Hall.
    assert (Hgu : get_unit s1 (length (units s)) = u).
    { unfold get_unit. simpl.
      by rewrite lookup_total_app_r, Nat.sub_diag by done. }
    rewrite Hgu in Hx. by apply list_elem_of_fmap_2.
Qed.

(** X22: when [addResource] has returned for a string or an array
    resource, adding the same resource again returns too and changes no
    document and no unit: the unit objects it creates stay outside the
    document. *)
Theorem addResource_again st d res st1 :
  wf_doc st d →
  (∃ source target, res_payload res = ResString source target) ∨
  (∃ sourceArray targetArray,
     res_payload res = ResArray sourceArray targetArray) →
  addResource d (Some res) st = (Returned tt, st1) →
  ∃ st2, addResource d (Some res) st1 = (Returned tt, st2) ∧
         docs st2 = docs st1 ∧
         ∃ created, units st2 = units st1 ++ created.
Proof.
  intros Hwf Hkind Hrun.
  set (J := λ s, docs s = docs st1 ∧ ∃ extra, units s = units st1 ++ extra).
  assert (Hframe : resource_frame st d st1).
  { pose proof (addResource_frame_inv st d (Some res) st eq_refl) as H.
    by rewrite Hrun in H. }
  assert (Hp : properties (get_doc st1 d) = properties (get_doc st d)).
  { destruct Hframe as (_ & _ & _ & Hhead & _). by injection Hhead. }
  assert (Hs : sourceLocale (get_doc st1 d) = sourceLocale (get_doc st d)).
  { destruct Hframe as (_ & _ & _ & Hhead & _). by injection Hhead. }
  assert (Hgoal : hoare (λ s, s = st1) (addResource d (Some res))
                        (λ _, J) (λ _, False) →
          ∃ st2, addResource d (Some res) st1 = (Returned tt, st2) ∧
                 docs st2 = docs st1 ∧
                 ∃ created, units st2 = units st1 ++ created).
  { intros H. specialize (H st1 eq_refl).
    destruct (addResource d (Some res) st1) as [[[]|err] st2]; [|done].
    exists st2. by destruct H. }
  destruct (decide (res_sourceLocale res = sourceLocale (get_doc st d)))
    as [Hloc|Hloc]; cycle 1.
  { apply Hgoal. unfold addResource. eapply hoare_bind.
    { apply hoare_gets with (Q := λ a s, a = get_doc st1 d ∧ J s).
      intros s ->. split; [done|]. split; [done|].
      exists []. by rewrite app_nil_r. }
    intros this0. apply hoare_pure. intros ->.
    rewrite Hs, (bool_decide_eq_false_2 _ Hloc). simpl.
    by apply hoare_ret. }
  destruct Hkind as [(source & target & Hpay)|(srcs & tgts & Hpay)].
  - (* a string resource *)
    destruct (string_resource_run st d res source target Hwf Hpay Hloc)
      as (st' & Hrun' & Hwf1 & _ & _ & Hst).
    rewrite Hrun in Hrun'. injection Hrun' as <-.
    apply Hgoal. unfold addResource. eapply hoare_bind.
    { apply hoare_gets with (Q := λ a s, a = get_doc st1 d ∧ J s).
      intros s ->. split; [done|]. split; [done|].
      exists []. by rewrite app_nil_r. }
    intros this0. apply hoare_pure. intros ->.
    rewrite Hs, (bool_decide_eq_true_2 _ Hloc). simpl. rewrite Hpay.
    rewrite (segmentString_header _ _ source _ Hp).
    eapply hoare_weaken.
    + apply (hoare_forEach_split _ (λ _, J)).
      intros pre x suf Hsplit.
      match goal with |- hoare _ (_ ← alloc (build_unit res x ?t); _) _ _ =>
        assert (Ht : t = string_target (get_doc st d) res target
                           (length pre)) end.
      { rewrite <- (string_target_header _ (get_doc st1 d)) by done.
        unfold string_target.
        by destruct (addTarget (get_doc st1 d) res). }
      rewrite Ht. apply build_and_add_again; [done|].
      apply Hst. rewrite Hsplit. by rewrite list_lookup_middle.
    + done.
    + done.
  - (* an array resource *)
    destruct (decide (addTarget (get_doc st d) res = true ∧ tgts = None))
      as [[Hat ->]|Hok].
    { destruct (array_without_target_run st d res srcs Hpay Hloc Hat)
        as [Hnil Hraise].
      set (segs := (λ element, segmentString (get_doc st d) element
                                 (res_sourceLocale res)) <$> srcs) in *.
      destruct (decide (Forall (λ l, l = []) segs)) as [Hall|Hex].
      - rewrite (Hnil Hall) in Hrun. injection Hrun as <-.
        exists st. split; [by apply Hnil|]. split; [done|].
        exists []. by rewrite app_nil_r.
      - apply not_Forall_Exists in Hex; [|intros l; apply _].
        destruct (Hraise Hex) as [what Hw]. by rewrite Hw in Hrun. }
    pose proof (array_resource_run st d res srcs tgts Hwf Hpay Hloc
                  st eq_refl) as H.
    rewrite Hrun in H. destruct H as [Hwf1 Hst].
    apply Hgoal. unfold addResource. eapply hoare_bind.
    { apply hoare_gets with (Q := λ a s, a = get_doc st1 d ∧ J s).
      intros s ->. split; [done|]. split; [done|].
      exists []. by rewrite app_nil_r. }
    intros this0. apply hoare_pure. intros ->.
    rewrite Hs, (bool_decide_eq_true_2 _ Hloc). simpl. rewrite Hpay.
    rewrite (addTarget_header _ _ res Hs).
    set (srcArr := (λ element,
                      segmentString (get_doc st1 d) element
                        (res_sourceLocale res)) <$> srcs).
    eapply hoare_weaken.
    + apply (hoare_forEach_split _ (λ _, J)).
      intros pre el suf Hsplit.
      assert (Hel : ∃ element, srcs !! length pre = Some element ∧
                      el = segmentString (get_doc st d) element
                             (res_sourceLocale res)).
      { assert (Hl : srcArr !! length pre = Some el).
        { rewrite Hsplit. by rewrite list_lookup_middle. }
        unfold srcArr in Hl. rewrite list_lookup_fmap in Hl.
        destruct (srcs !! length pre) as [element|]; [|done].
        exists element. split; [done|]. simpl in Hl.
        rewrite (segmentString_header _ _ element _ Hp) in Hl.
        congruence. }
      destruct Hel as (element & Helement & Hel).
      eapply hoare_weaken.
      * apply (hoare_forEach_split _ (λ _, J)).
        intros prei str sufi Hspliti.
        eapply hoare_bind.
        { instantiate (1 := λ tgt s,
            tgt = array_target (get_doc st d) res tgts (length pre)
                    (length prei) ∧ J s).
          rewrite <- (array_target_header _ (get_doc st1 d)) by done.
          unfold array_target.
          rewrite (addTarget_header _ _ res Hs).
          destruct (addTarget (get_doc st d) res).
          - destruct tgts as [t|]; [|exfalso; by apply Hok].
            simpl.
            match goal with |- hoare _ (match ?c with _ => _ end) _ _ =>
              destruct c as [segs|] end; [|by apply hoare_ret].
            destruct (length prei <? length segs); by apply hoare_ret.
          - apply hoare_ret. intros s Hs'. split; [|done].
            by destruct tgts. }
        intros tgt. apply hoare_pure. intros ->.
        apply build_and_add_again; [done|].
        apply (Hst (length pre) element (length prei) str Helement).
        rewrite <- Hel, Hspliti. by rewrite list_lookup_middle.
      * done.
      * done.
    + done.
    + done.
Qed.

(** ** When [deserialize] returns *)

Lemma parse_variant_returns tu variant :
  present (tuv_prop variant) = false →
  hoare (λ _, True) (parse_variant tu variant) (λ _ _, True) (λ _, False).
Proof.
  intros Hnone. unfold parse_variant. rewrite Hnone.
  eapply hoare_bind.
  { instantiate (1 := λ _ _, True). destruct (tuv_attributes variant).
    - by apply hoare_ret.
    - eapply hoare_bind; [by apply hoare_modify with (Q := λ _ _, True)|].
      intros []. by apply hoare_ret. }
  intros locale. eapply hoare_bind.
  { apply hoare_ret with (Q := λ pp _, pp = (None, None)). done. }
  intros [pre post]. apply hoare_pure_pre. intros [= -> ->]. simpl.
  by apply hoare_ret.
Qed.

Lemma parse_unit_props_returns props :
  hoare (λ _, True) (parse_unit_props props) (λ _ _, True) (λ _, False).
Proof.
  unfold parse_unit_props. apply (hoare_foldM _ (λ _ _, True)).
  intros ps prop _. destruct (prop_attributes prop).
  - by apply hoare_ret.
  - eapply hoare_bind; [by apply hoare_modify with (Q := λ _ _, True)|].
    intros []. by apply hoare_ret.
Qed.

(** X23: [deserialize] returns the unit list of the document, without
    raising, for every text with a root element of version 1.4 in which
    no [tuv] element has a [prop] child; and no [tuv] element of a tree
    that [serialize] writes has such a child. *)
Theorem deserialize_returns st d xml json tmx :
  xml2js xml = Some json → json_tmx json = Some tmx →
  attr (tmx_attributes tmx) "version" = Some "1.4" →
  Forall (λ el, Forall (λ x, present (tuv_prop x) = false)
                       (makeArray (tue_tuv el)))
         (tu_elements tmx) →
  (∃ st', deserialize d xml st =
          (Returned (Some (tu (get_doc st' d))), st')) ∧
  ∀ st0 d0,
    Forall (λ el, Forall (λ x, present (tuv_prop x) = false)
                         (makeArray (tue_tuv el)))
           (body_elements (serialize_json st0 d0)).
Proof.
  intros Hxml Hjson Hver Hnone. split; cycle 1.
  { intros st0 d0. rewrite body_elements_serialize.
    apply Forall_forall. intros el Hel.
    apply list_elem_of_omap in Hel as (r & _ & Hel).
    unfold serializeTranslationUnit in Hel.
    destruct (length (tu_variants (get_unit st0 r)) <? 2); [done|].
    injection Hel as <-. cbn [tue_tuv makeArray].
    apply Forall_forall. by intros x (y & -> & _)%list_elem_of_fmap. }
  assert (Hrun : hoare (λ _, True) (deserialize d xml)
                       (λ res s, res = Some (tu (get_doc s d)))
                       (λ _, False)).
  { unfold deserialize. rewrite Hxml, Hjson.
    destruct (tmx_attributes tmx) as [a|] eqn:Ha; [|done].
    simpl in Hver. simpl. rewrite Hver. simpl.
    eapply hoare_bind; [by apply hoare_modify with (Q := λ _ _, True)|].
    intros []. eapply hoare_bind.
    { instantiate (1 := λ _ _, True). unfold parse.
      eapply hoare_bind; [by apply hoare_modify with (Q := λ _ _, True)|].
      intros []. unfold tu_elements in Hnone.
      destruct (tmx_body tmx) as [body|]; [|by apply hoare_ret].
      destruct (present (body_tu body)); [|by apply hoare_ret].
      rewrite Forall_forall in Hnone.
      apply hoare_forEach. intros el _ Hel. unfold parse_unit.
      eapply hoare_bind; [by apply hoare_gets with (Q := λ _ _, True)|].
      intros this. eapply hoare_bind.
      { instantiate (1 := λ _ _, True).
        destruct (present (tue_prop el)); [|by apply hoare_ret].
        eapply hoare_bind; [apply parse_unit_props_returns|].
        intros ps. by apply hoare_ret. }
      intros tu1. eapply hoare_bind.
      { instantiate (1 := λ _ _, True).
        destruct (present (tue_tuv el)); [|by apply hoare_ret].
        apply (hoare_foldM _ (λ _ _, True)). intros b x Hx.
        apply parse_variant_returns.
        specialize (Hnone el Hel). rewrite Forall_forall in Hnone.
        by apply Hnone. }
      intros tu2. eapply hoare_bind.
      - by apply hoare_alloc with (Q := λ _ _, True).
      - intros r. by apply hoare_modify. }
    intros []. eapply hoare_bind.
    { apply hoare_gets with (Q := λ us s, us = tu (get_doc s d)).
      by intros. }
    intros us. apply hoare_ret. by intros s ->. }
  specialize (Hrun st I).
  destruct (deserialize d xml st) as [[res|err] st']; [|done].
  exists st'. by rewrite Hrun.
Qed.

(** ** Plural resources whose target has extra categories *)

(** The loop over the segments of an extra category raises at the first
    segment index at which [other] has no unit. *)
Lemma plural_extra_steps_any res other segs i st :
  ∃ out st',
    forEach_from (plural_extra_step res other) segs i st = (out, st') ∧
    length (units st') = length (units st) ∧
    (out = Returned tt ∨ ∃ what, out = Thrown (TypeError what)).
Proof.
  revert i st. induction segs as [|s segs IH]; intros i st.
  - exists (Returned tt), st. split; [done|]. split; [done|]. by left.
  - cbn [forEach_from]. unfold mbind, M_bind.
    destruct (other !! i) as [r|] eqn:Hr.
    + assert (Hstep : plural_extra_step res other s i st =
                (Returned tt,
                 addVariant r (mkVariant (res_targetLocale res) (Some s))
                            st))
        by (unfold plural_extra_step; by rewrite Hr).
      rewrite Hstep.
      destruct (IH (S i) (addVariant r
                  (mkVariant (res_targetLocale res) (Some s)) st))
        as (out & st' & Hrun & Hlen & Hout).
      exists out, st'. rewrite Hrun. split; [done|].
      by rewrite Hlen, addVariant_length.
    + exists (Thrown (TypeError "other[i] is undefined")), st.
      unfold plural_extra_step. rewrite Hr.
      split; [done|]. split; [done|]. right. by eexists.
Qed.

Lemma plural_extra_steps_throw res other segs i st :
  i ≤ length other → length other < i + length segs →
  ∃ what st',
    forEach_from (plural_extra_step res other) segs i st =
      (Thrown (TypeError what), st') ∧
    length (units st') = length (units st).
Proof.
  revert i st. induction segs as [|s segs IH]; intros i st Hi Hlen.
  - simpl in Hlen. lia.
  - cbn [forEach_from]. unfold mbind, M_bind.
    destruct (other !! i) as [r|] eqn:Hr.
    + assert (Hstep : plural_extra_step res other s i st =
                (Returned tt,
                 addVariant r (mkVariant (res_targetLocale res) (Some s))
                            st))
        by (unfold plural_extra_step; by rewrite Hr).
      rewrite Hstep. apply lookup_lt_Some in Hr.
      destruct (IH (S i) (addVariant r
                  (mkVariant (res_targetLocale res) (Some s)) st))
        as (what & st' & Hrun & Hl); [lia | simpl in Hlen; lia |].
      exists what, st'. rewrite Hrun. split; [done|].
      by rewrite Hl, addVariant_length.
    + exists "other[i] is undefined", st.
      unfold plural_extra_step. by rewrite Hr.
Qed.

Lemma plural_extras_throw res srcP tp other st :
  Exists (λ cs, lacks_category srcP cs.1 = true ∧
                (has_segments cs.2 = false ∨
                 length other < length (segments_of cs.2))) tp →
  ∃ what st',
    plural_extras res srcP tp other st = (Thrown (TypeError what), st') ∧
    length (units st') = length (units st).
Proof.
  enough (Hgen : ∀ i st,
    Exists (λ cs, lacks_category srcP cs.1 = true ∧
                  (has_segments cs.2 = false ∨
                   length other < length (segments_of cs.2))) tp →
    ∃ what st',
      forEach_from
        (λ cs _, if lacks_category srcP cs.1 then
                   match cs.2 with
                   | inr segments =>
                       forEach (plural_extra_step res other) segments
                   | inl _ =>
                       throw (TypeError
                         "tarPlurals[category].forEach is not a function")
                   end
                 else mret tt) tp i st = (Thrown (TypeError what), st') ∧
      length (units st') = length (units st)) by apply Hgen.
  clear st. induction tp as [|[category x] tp IH]; intros i st Hex.
  - inversion Hex.
  - cbn [forEach_from fst snd]. unfold mbind at 1, M_bind at 1.
    destruct (lacks_category srcP category) eqn:Hsrc.
    + destruct x as [untouched|segments].
      { by eexists _, st. }
      unfold forEach.
      destruct (decide (length other < length segments)) as [Hlt|Hge].
      * destruct (plural_extra_steps_throw res other segments 0 st)
          as (what & st' & Hrun & Hl); [lia | lia |].
        exists what, st'. by rewrite Hrun.
      * apply Exists_cons in Hex as [[_ [?|Hlt]]|Hex];
          [done | simpl in Hlt; lia |].
        destruct (plural_extra_steps_any res other segments 0 st)
          as (out & st1 & Hrun & Hl & [->|[what ->]]); rewrite Hrun.
        -- destruct (IH (S i) st1 Hex) as (what & st' & Hrun' & Hl').
           exists what, st'. split; [done | congruence].
        -- by exists what, st1.
    + apply Exists_cons in Hex as [[Hno _]|Hex];
        [simpl in Hno; congruence|].
      by apply IH.
Qed.

(** X24: for a plural resource with a target locale that differs from
    the source locale and no empty source text, when some target category
    that the source lacks has an empty text, or more segments than the
    [other] category of the source, [addResource] raises a [TypeError];
    by then it has created a unit for every source segment. *)
Theorem addResource_plural_raises st d res sourcePlurals targetPlurals :
  let this := get_doc st d in
  let srcP := plural_segments this sourcePlurals (res_sourceLocale res) in
  let tarP := plural_segments this targetPlurals (res_targetLocale res) in
  res_payload res = ResPlural sourcePlurals (Some targetPlurals) →
  res_sourceLocale res = sourceLocale this →
  addTarget this res = true →
  Forall (λ kv, truthy kv.2 = true) sourcePlurals →
  Exists (λ cs, lacks_category srcP cs.1 = true ∧
                (has_segments cs.2 = false ∨
                 length (other_segments srcP) < length (segments_of cs.2)))
         tarP →
  ∃ what st',
    addResource d (Some res) st = (Thrown (TypeError what), st') ∧
    length (units st') = length (units st) + length (all_segments srcP).
Proof.
  intros this srcP tarP Hpay Hsrc Htgt Hseg Hex.
  apply (segmented_plural_segments this _ (res_sourceLocale res)) in Hseg.
  fold srcP in Hseg.
  unfold addResource, gets, mbind, M_bind.
  fold this. rewrite Hpay.
  rewrite (bool_decide_eq_true_2 _ Hsrc). cbn [negb].
  rewrite Htgt. fold srcP tarP. cbv beta.
  pose proof (plural_units_spec d res true srcP (Some tarP) st Hseg
                st eq_refl) as H1.
  destruct (plural_units d res true srcP (Some tarP) st)
    as [[other|err] st1]; [|done].
  destruct H1 as [Hunits Hbuilt].
  rewrite <- (Forall2_length _ _ _ Hbuilt) in Hex.
  destruct (plural_extras_throw res srcP tarP other st1 Hex)
    as (what & st' & Hrun & Hl).
  exists what, st'. split; [done | congruence].
Qed.

(** ** The units of a plural resource *)

Lemma stored_addVariant st d r v u :
  stored st d u → stored (addVariant r v st) d u.
Proof.
  intros (t & Ht & Hall). exists t. split; [done|].
  intros k Hk. by apply vkeys_addVariant_mono, Hall.
Qed.

Lemma wf_doc_addVariant st d r v :
  wf_doc st d → wf_doc (addVariant r v st) d.
Proof. intros [Hd Hi]. split; [done|]. by apply indexed_addVariant. Qed.

(** The step of the loop over the segments of a source category stores
    the unit it builds, whatever it does with [other]. *)
Lemma plural_unit_step_kept d res addTarget tarP category other string i
  (P : TranslationUnit → Prop) :
  hoare (λ st, wf_doc st d ∧ ∀ x, P x → stored st d x)
        (plural_unit_step d res addTarget tarP category other string i)
        (λ _ st, wf_doc st d ∧
                 ∀ x, P x ∨
                      x = build_unit res string
                            (plural_target addTarget tarP category i) →
                      stored st d x)
        (λ _, False).
Proof.
  intros st HP.
  pose proof (build_and_add_stored d
    (build_unit res string (plural_target addTarget tarP category i))
    P 0 (length (units st)) st) as H.
  unfold plural_unit_step. unfold mbind, M_bind, alloc, modify in *.
  simpl in *. destruct HP as [Hwf Hst].
  destruct H as (H1 & _ & _ & H4); [|done].
  split; [done|]. split; [|done].
  pose proof (size_valid st d Hwf). lia.
Qed.

Lemma segmentString_truthy this text locale i seg :
  segmentString this text locale !! i = Some seg → truthy text = true.
Proof.
  unfold segmentString. destruct text as [s|]; [|done].
  by destruct (truthy (Some s)).
Qed.

(** What a run of [addResource] on a plural resource has stored, whether
    it returned or raised: the units of the source categories it got
    through, which are all of them unless the text of one is empty. *)
Lemma plural_resource_run st d res sourcePlurals targetPlurals :
  wf_doc st d →
  res_payload res = ResPlural sourcePlurals targetPlurals →
  res_sourceLocale res = sourceLocale (get_doc st d) →
  let this := get_doc st d in
  let srcP := plural_segments this sourcePlurals (res_sourceLocale res) in
  let tarP := match targetPlurals with
              | Some t =>
                  Some (plural_segments this t (res_targetLocale res))
              | None => None
              end in
  let kept := λ s,
    wf_doc s d ∧
    ∃ pre suf,
      srcP = pre ++ suf ∧
      (suf = [] ∨ ∃ c (e : jsstr) suf', suf = (c, inl e) :: suf') ∧
      ∀ p category segs i seg,
        pre !! p = Some (category, inr segs) → segs !! i = Some seg →
        stored s d
          (build_unit res seg
             (plural_target (addTarget this res) tarP category i)) in
  hoare (λ s, s = st) (addResource d (Some res)) (λ _, kept) kept.
Proof.
  intros Hwf Hpay Hloc this srcP tarP kept.
  set (built := λ (category : string) (i : nat) (seg : string),
         build_unit res seg
           (plural_target (addTarget this res) tarP category i)).
  set (Pout := λ (pre : obj (jsstr + list string)) x,
         ∃ p category segs i seg,
           pre !! p = Some (category, inr segs) ∧ segs !! i = Some seg ∧
           x = built category i seg).
  assert (Hkept : ∀ s, (wf_doc s d ∧ ∀ x, Pout srcP x → stored s d x) →
                       kept s).
  { intros s [H1 H2]. split; [done|].
    exists srcP, []. split; [by rewrite app_nil_r|]. split; [by left|].
    intros p category segs i seg Hp Hi. apply H2.
    by exists p, category, segs, i, seg. }
  unfold addResource. eapply hoare_bind.
  { apply hoare_gets with
      (Q := λ a s, a = this ∧ (wf_doc s d ∧ ∀ x, Pout [] x → stored s d x)).
    intros s ->. split; [done|]. split; [done|].
    by intros x (p & ? & ? & ? & ? & Hp & _). }
  intros this0. apply hoare_pure. intros ->.
  unfold this at 1. rewrite (bool_decide_eq_true_2 _ Hloc). simpl.
  rewrite Hpay. fold this. fold srcP. fold tarP.
  eapply hoare_bind.
  { unfold plural_units.
    apply (hoare_foldM_split _
      (λ pre (_ : list uref) s,
         wf_doc s d ∧ ∀ x, Pout pre x → stored s d x)
      kept srcP).
    intros pre [category [untouched|segments]] suf other Hsplit;
      cbn [fst snd].
    { apply hoare_throw. intros s [H1 H2]. split; [done|].
      exists pre, ((category, inl untouched) :: suf).
      split; [done|]. split; [right; by eexists _, _, _|].
      intros p c segs i seg Hp Hi. apply H2.
      by exists p, c, segs, i, seg. }
    set (Pin := λ (ps : list string) x,
           Pout pre x ∨
           ∃ i seg, ps !! i = Some seg ∧ x = built category i seg).
    eapply hoare_weaken_raise; [eapply hoare_weaken|].
    + apply (hoare_foldM_from_pre _
        (λ ps (_ : list uref) s,
           wf_doc s d ∧ ∀ x, Pin ps x → stored s d x)
        (λ _, False) segments) with (pre := []) (b := other).
      intros ps string other'.
      eapply hoare_weaken.
      * apply (plural_unit_step_kept d res (addTarget this res) tarP
                 category other' string (length ps) (Pin ps)).
      * done.
      * intros o s [H1 H2]. split; [done|].
        intros x [Hx|(i & seg & Hi & ->)]; apply H2.
        -- left. by left.
        -- apply lookup_app_Some in Hi as [Hi|[Hge Hi]].
           ++ left. right. by exists i, seg.
           ++ right. apply list_lookup_singleton_Some in Hi as [Hi ->].
              by replace i with (length ps) by lia.
    + intros s [H1 H2]. split; [done|].
      intros x [Hx|(i & ? & Hi & _)]; [by apply H2 | done].
    + intros o s [H1 H2]. split; [done|].
      intros x (p & c & segs & i & seg & Hp & Hi & ->). apply H2.
      apply lookup_app_Some in Hp as [Hp|[Hge Hp]].
      * left. by exists p, c, segs, i, seg.
      * apply list_lookup_singleton_Some in Hp as [_ [= <- <-]].
        right. by exists i, seg.
    + done. }
  intros other. simpl.
  assert (Hextras : ∀ tp,
    hoare (λ s, wf_doc s d ∧ ∀ x, Pout srcP x → stored s d x)
          (plural_extras res srcP tp other) (λ _, kept) kept).
  { intros tp. eapply hoare_weaken_raise; [eapply hoare_weaken|].
    - unfold plural_extras. apply hoare_forEach
        with (I := λ s, wf_doc s d ∧ ∀ x, Pout srcP x → stored s d x)
             (E := λ s, wf_doc s d ∧ ∀ x, Pout srcP x → stored s d x).
      intros [c [untouched|segments]] _ _; cbn [fst snd];
        destruct (lacks_category srcP c);
        try (by apply hoare_ret); try (by apply hoare_throw).
      apply hoare_forEach. intros string j _.
      unfold plural_extra_step. destruct (other !! j) as [r|].
      + apply hoare_modify. intros s [H1 H2]. split.
        * by apply wf_doc_addVariant.
        * intros x Hx. by apply stored_addVariant, H2.
      + by apply hoare_throw.
    - done.
    - intros [] s. apply Hkept.
    - apply Hkept. }
  destruct (addTarget this res).
  - destruct tarP as [tp|].
    + apply Hextras.
    + apply hoare_ret. apply Hkept.
  - apply hoare_ret. apply Hkept.
Qed.

(** X25: after [addResource] for a plural resource in the source locale
    of the document, whether it returns or raises, the document has, for
    every segment of every source category that comes before the first
    category with an empty text, a unit filed under the key of that
    segment, the source locale and the datatype of the resource; the unit
    has the variant of the segment in the source locale and, when the
    resource has a target locale other than the source locale and its
    target has a text that is not empty for the same category, a variant
    in the target locale with the segment of that text at the same index,
    whose text is undefined when that text has fewer segments. *)
Theorem addResource_plural_stored st d res sourcePlurals targetPlurals :
  wf_doc st d →
  res_payload res = ResPlural sourcePlurals targetPlurals →
  res_sourceLocale res = sourceLocale (get_doc st d) →
  let this := get_doc st d in
  let st' := (addResource d (Some res) st).2 in
  ∀ before category text after i seg,
    sourcePlurals = before ++ (category, text) :: after →
    Forall (λ kv, truthy kv.2 = true) before →
    segmentString this text (res_sourceLocale res) !! i = Some seg →
    ∃ t, tuhash (get_doc st' d) !!
           unit_hash (Some seg) (res_sourceLocale res) (res_dataType res)
         = Some t ∧
         t ∈ tu (get_doc st' d) ∧
         variant_hash (res_sourceLocale res) (Some seg)
           ∈ vkeys (get_unit st' t) ∧
         (addTarget this res = true →
          ∀ tplurals ttext,
            targetPlurals = Some tplurals →
            obj_lookup tplurals category = Some ttext →
            truthy ttext = true →
            variant_hash (res_targetLocale res)
              (segmentString this ttext (res_targetLocale res) !! i)
              ∈ vkeys (get_unit st' t)).
Proof.
  intros Hwf Hpay Hloc this st' before category text after i seg
    Hsplit Hbefore Hi.
  pose proof (plural_resource_run st d res sourcePlurals targetPlurals
                Hwf Hpay Hloc st eq_refl) as H.
  set (srcP := plural_segments this sourcePlurals (res_sourceLocale res)).
  set (tarP := match targetPlurals with
               | Some t =>
                   Some (plural_segments this t (res_targetLocale res))
               | None => None
               end).
  assert (Hkept : wf_doc st' d ∧
    ∃ pre suf,
      srcP = pre ++ suf ∧
      (suf = [] ∨ ∃ c (e : jsstr) suf', suf = (c, inl e) :: suf') ∧
      ∀ p category segs i seg,
        pre !! p = Some (category, inr segs) → segs !! i = Some seg →
        stored st' d
          (build_unit res seg
             (plural_target (addTarget this res) tarP category i))).
  { unfold st'. by destruct (addResource d (Some res) st) as [[[]|err] s]. }
  clear H. destruct Hkept as (Hwf' & pre & suf & Hpre & Hsuf & Hst).
  set (segs := segmentString this text (res_sourceLocale res)).
  assert (Htext : truthy text = true) by (by eapply segmentString_truthy).
  assert (Hsrc : srcP =
    plural_segments this before (res_sourceLocale res) ++
    (category, inr segs) ::
    plural_segments this after (res_sourceLocale res)).
  { unfold srcP, plural_segments, objectMap. rewrite Hsplit.
    rewrite fmap_app, fmap_cons. cbn [fst snd]. by rewrite Htext. }
  assert (Hlen : length (plural_segments this before (res_sourceLocale res))
                 = length before).
  { unfold plural_segments, objectMap. by rewrite length_fmap. }
  assert (Hhere : pre !! length before = Some (category, inr segs)).
  { assert (Hat : srcP !! length before = Some (category, inr segs)).
    { rewrite Hsrc. by apply list_lookup_middle. }
    destruct Hsuf as [->|(c & e & suf' & ->)].
    - by rewrite app_nil_r in Hpre; subst pre.
    - destruct (decide (length before < length pre)) as [Hlt|Hge].
      + rewrite Hpre in Hat.
        by rewrite <- (lookup_app_l pre ((c, inl e) :: suf')).
      + exfalso.
        assert (Hbad : srcP !! length pre = Some (c, inl e)).
        { rewrite Hpre. by apply list_lookup_middle. }
        destruct (decide (length pre = length before)) as [Heq|Hne].
        * rewrite Heq in Hbad. congruence.
        * rewrite Hsrc in Hbad.
          rewrite (lookup_app_l
            (plural_segments this before (res_sourceLocale res)))
            in Hbad by lia.
          apply (segmented_plural_segments this before
                   (res_sourceLocale res)) in Hbefore.
          apply list_elem_of_lookup_2 in Hbad.
          unfold segmented in Hbefore. rewrite Forall_forall in Hbefore.
          by specialize (Hbefore _ Hbad). }
  destruct (Hst _ _ _ i seg Hhere Hi) as (t & Ht & Hall).
  rewrite unit_key_build_unit in Ht. exists t. split; [done|].
  split; [|split].
  - destruct Hwf' as [_ (_ & _ & Hmap)]. by destruct (Hmap _ _ Ht).
  - apply Hall, vkeys_build_unit. by left.
  - intros Hat tplurals ttext Htp Hts Htt.
    apply Hall, vkeys_build_unit. right. eexists. split; [|done].
    unfold plural_target, tarP. rewrite Hat, Htp.
    assert (Hl : obj_lookup
              (plural_segments this tplurals (res_targetLocale res))
              category =
            Some (inr (segmentString this ttext (res_targetLocale res)))).
    { clear -Hts Htt. unfold plural_segments, objectMap.
      induction tplurals as [|[k x] o IH]; [done|]. simpl in *.
      destruct (String.eqb k category).
      - injection Hts as ->. by rewrite Htt.
      - by apply IH. }
    by rewrite Hl.
Qed.

(** ** When [diff] raises *)

(** X28: [diff] raises exactly when the other document has a unit whose
    key this document knows, with a variant that the unit of this
    document lacks, and without a source text or without a source
    locale: the constructor of the unit that reports it requires both.
    Otherwise [diff] returns the document it allocated. *)
Theorem diff_raises_exactly st this other :
  wf_doc st this → wf_doc st other →
  let unbuildable r :=
    ∃ t, tuhash (get_doc st this) !! hashKey st r = Some t ∧
         variantDiff (get_unit st t) (get_unit st r) ≠ [] ∧
         (tu_source (get_unit st r) = None ∨
          tu_sourceLocale (get_unit st r) = None) in
  ((∃ what st', diff this other st = (Thrown (PlainError what), st')) ↔
   Exists unbuildable (tu (get_doc st other))) ∧
  ((∃ st', diff this other st = (Returned (length (docs st)), st')) ↔
   Forall (λ r, ¬ unbuildable r) (tu (get_doc st other))).
Proof.
  intros Hthis Hother unbuildable.
  assert (Hchar : ∀ r, diff_raises st this r = true ↔ unbuildable r).
  { intros r. unfold diff_raises, unbuildable.
    destruct (tuhash (get_doc st this) !! hashKey st r) as [t|];
      [|split; [done | by intros (? & ? & _)]].
    destruct (variantDiff (get_unit st t) (get_unit st r)) as [|x vd]
      eqn:Hvd.
    { split; [done|]. intros (? & [= <-] & Hne & _). by rewrite Hvd in Hne. }
    destruct (tu_source (get_unit st r)) as [src|],
             (tu_sourceLocale (get_unit st r)) as [loc|]; simpl.
    - split; [done|]. by intros (? & _ & _ & [?|?]).
    - split; [|done]. intros _. exists t. split; [done|].
      rewrite Hvd. split; [done | by right].
    - split; [|done]. intros _. exists t. split; [done|].
      rewrite Hvd. split; [done | by left].
    - split; [|done]. intros _. exists t. split; [done|].
      rewrite Hvd. split; [done | by left]. }
  destruct (diff_run st this other Hthis Hother)
    as (pre & suf & Hsplit & _ & _ & Hpre & Hout).
  destruct (diff this other st) as [out st'] eqn:Hrun. simpl in Hout.
  destruct Hout as [[-> ->]|(r & suf' & -> & -> & Hr)].
  - rewrite app_nil_r in Hsplit. subst pre. split.
    + split; [by intros (? & ? & [=])|].
      intros Hex. apply Exists_exists in Hex as (r & Hin & Hr).
      rewrite Forall_forall in Hpre. apply Hchar in Hr.
      by rewrite (Hpre r Hin) in Hr.
    + split; [|by eexists]. intros _. apply Forall_forall.
      intros r Hin Hr. rewrite Forall_forall in Hpre. apply Hchar in Hr.
      by rewrite (Hpre r Hin) in Hr.
  - assert (Hin : r ∈ tu (get_doc st other)).
    { rewrite Hsplit. apply elem_of_app. right. by left. }
    split.
    + split; [|by eexists _, _]. intros _. apply Exists_exists.
      exists r. split; [done|]. by apply Hchar.
    + split; [by intros (? & [=])|]. intros Hall.
      rewrite Forall_forall in Hall. destruct (Hall r Hin).
      by apply Hchar.
Qed.

(** ** A plural resource with an empty source text *)

Lemma foldM_app {A B} (f : B → A → M B) b l1 l2 st :
  foldM f b (l1 ++ l2) st = (b' ← foldM f b l1; foldM f b' l2) st.
Proof.
  revert b st. induction l1 as [|x l1 IH]; intros b st; simpl; [done|].
  unfold mbind, M_bind in *.
  destruct (f b x st) as [[b'|err] st1]; [|done]. apply IH.
Qed.

(** X29: for a plural resource in the source locale of the document,
    when a source category has an empty text, [addResource] raises a
    [TypeError], whatever the target: the imported [objectMap] leaves an
    empty text as it is, and the loop over the source categories calls
    [forEach] on it. By then it has created a unit for every segment of
    the categories before it, and none for the categories after it. *)
Theorem addResource_plural_empty_source st d res sourcePlurals targetPlurals
  before category text after :
  let this := get_doc st d in
  res_payload res = ResPlural sourcePlurals targetPlurals →
  res_sourceLocale res = sourceLocale this →
  sourcePlurals = before ++ (category, text) :: after →
  Forall (λ kv, truthy kv.2 = true) before →
  truthy text = false →
  ∃ what st',
    addResource d (Some res) st = (Thrown (TypeError what), st') ∧
    length (units st') =
      length (units st) +
      length (all_segments
                (plural_segments this before (res_sourceLocale res))).
Proof.
  intros this Hpay Hloc Hsplit Hbefore Htext.
  apply (segmented_plural_segments this _ (res_sourceLocale res))
    in Hbefore.
  set (srcB := plural_segments this before (res_sourceLocale res)) in *.
  set (tarP := match targetPlurals with
               | Some t =>
                   Some (plural_segments this t (res_targetLocale res))
               | None => None
               end).
  assert (Hsrc : plural_segments this sourcePlurals (res_sourceLocale res)
                 = srcB ++ (category, inl text) ::
                   plural_segments this after (res_sourceLocale res)).
  { unfold srcB, plural_segments, objectMap. rewrite Hsplit.
    rewrite fmap_app, fmap_cons. cbn [fst snd]. by rewrite Htext. }
  unfold addResource, gets. unfold mbind at 1, M_bind at 1.
  fold this. rewrite Hpay.
  rewrite (bool_decide_eq_true_2 _ Hloc). cbn [negb].
  fold tarP. rewrite Hsrc.
  unfold mbind at 1, M_bind at 1. unfold plural_units at 1.
  rewrite foldM_app.
  pose proof (plural_units_spec d res (addTarget this res) srcB tarP st
                Hbefore st eq_refl) as H1.
  unfold plural_units in H1. unfold mbind at 1, M_bind at 1.
  destruct (foldM _ [] srcB st) as [[other|err] st1]; [|done].
  destruct H1 as [Hunits _].
  cbn [foldM snd]. unfold mbind, M_bind, throw.
  by eexists _, st1.
Qed.

End Extensions.

(** * Witnesses and counterexamples *)

Ltac decide_by_computation :=
  apply (bool_decide_unpack _); vm_compute; exact I.

(** The hypotheses of C9 hold for document 0 of the example store. *)
Lemma units_and_index_agree_witness :
  indexed (hello_store no_parser) 0 ∧
  (∀ r, r < length (units (hello_store no_parser)) →
        indexed (addTranslationUnit 0 r (hello_store no_parser)) 0) ∧
  (∀ res, indexed (addResource 0 res (hello_store no_parser)).2 0) ∧
  (∀ xml, indexed (deserialize 0 xml (hello_store no_parser)).2 0).
Proof.
  assert (H : indexed (hello_store no_parser) 0) by decide_by_computation.
  split; [exact H|].
  exact (units_and_index_agree (hello_store no_parser) 0 H).
Defined.

(** The hypotheses of C10 hold for a parser that returns a tree without a
    root element. *)
Lemma deserialize_no_root_witness :
  deserialize 0 "" (hello_store (constant_parser rootless)) =
  (Returned (Some [0]), hello_store (constant_parser rootless)).
Proof.
  exact (deserialize_no_root (hello_store (constant_parser rootless)) 0 ""
           rootless eq_refl eq_refl).
Defined.

(** The hypotheses of X26 hold for a parser that returns a root element
    of version 1.1. *)
Lemma deserialize_version_mismatch_witness :
  let st := hello_store (constant_parser version_1_1) in
  deserialize 0 "" st =
    (Returned None,
     logger ERROR
       "Unknown tmx version 1.1. Cannot continue parsing. Can only parse v1.4b files."
       st).
Proof.
  intros st.
  exact (deserialize_version_mismatch st 0 "" version_1_1
           (mkTmxElem (Some [("version", Some "1.1")]) None None)
           [("version", Some "1.1")]
           eq_refl eq_refl eq_refl ltac:(discriminate)).
Defined.

(** The failing input of C3: a parser that returns a root element without
    attributes. [deserialize] raises and logs nothing. *)
Lemma deserialize_root_without_attributes_witness :
  let st := hello_store (constant_parser attributeless) in
  ∃ what, deserialize 0 "" st = (Thrown (TypeError what), st).
Proof.
  intros st.
  exact (deserialize_root_without_attributes st 0 "" attributeless
           (mkTmxElem None None (Some (mkBody Absent)))
           eq_refl eq_refl eq_refl).
Defined.

(** The hypotheses of C5 hold for the two documents of the example store. *)
Lemma merge_union_first_wins_witness :
  let st := hello_store no_parser in
  (merge 0 [1] st).1 = 2 ∧
  ukeys (merge 0 [1] st).2 2 = [(Some "Hello", Some "en", Some "unknown")].
Proof.
  intros st.
  assert (H0 : wf_doc st 0) by decide_by_computation.
  assert (H1 : Forall (wf_doc st) [1]) by decide_by_computation.
  destruct (merge_union_first_wins st 0 [1] H0 H1) as [_ Hm].
  destruct (Hm ltac:(discriminate)) as (Hn & _).
  split; [exact Hn|]. reflexivity.
Defined.


(** The hypotheses of the amended C2 hold for the two documents of the
    example store. *)
Lemma diff_merge_frame_witness :
  let st := hello_store no_parser in
  (diff 0 1 st).1 = Returned 2 ∧ (merge 0 [1] st).1 = 2 ∧
  ∀ d, d < 2 → get_doc (merge 0 [1] st).2 d = get_doc st d.
Proof.
  intros st.
  assert (H0 : wf_doc st 0) by decide_by_computation.
  assert (H1 : wf_doc st 1) by decide_by_computation.
  assert (Hs : Forall (wf_doc st) [1]) by decide_by_computation.
  assert (H2 : Forall (λ r, diff_raises st 0 r = false) (tu (get_doc st 1)))
    by decide_by_computation.
  destruct (diff_merge_frame st 0 1 [1] H0 H1 Hs)
    as ((_ & _ & _ & Hn) & (_ & Hm & _ & Hd)).
  split; [exact (Hn H2)|].
  split; [exact (Hm ltac:(discriminate)) | exact Hd].
Defined.

(** C2 fails as stated: [merge] appends the variants fr:Salut and de:Hallo
    of the unit of document 1 to the unit of the receiver, document 0, which
    the result document shares with it. *)
Lemma merge_changes_receiver_unit :
  let st := hello_store no_parser in
  let st' := (merge 0 [1] st).2 in
  tu (get_doc st 0) = [0] ∧
  tu_variants (get_unit st 0) =
    [mkVariant (Some "en") (Some "Hello");
     mkVariant (Some "fr") (Some "Bonjour")] ∧
  tu_variants (get_unit st' 0) =
    [mkVariant (Some "en") (Some "Hello");
     mkVariant (Some "fr") (Some "Bonjour");
     mkVariant (Some "fr") (Some "Salut");
     mkVariant (Some "de") (Some "Hallo")] ∧
  tu_variants (get_unit st' 0) ≠ tu_variants (get_unit st 0).
Proof.
  repeat split; try (vm_compute; reflexivity).
  vm_compute. discriminate.
Defined.

(** The hypotheses of the amended C1 hold for document 0 of the example
    store, read back into document 1 by a parser that returns the compact
    form of what was written. *)
Lemma serialize_deserialize_round_trip_witness :
  let st := hello_store hello_parser in
  let st' := (deserialize 1 (serialize st 0) st).2 in
  (deserialize 1 (serialize st 0) st).1 = Returned (Some (tu (get_doc st' 1))) ∧
  ∀ k, k ∈ ukeys st' 1 ↔ k ∈ ukeys st 0.
Proof.
  intros st st'.
  assert (H0 : wf_doc st 0) by decide_by_computation.
  assert (H1 : 1 < length (docs st)) by decide_by_computation.
  assert (H2 : Forall (λ ur, survives (get_doc st 0) (get_unit st ur))
                      (tu (get_doc st 0))) by decide_by_computation.
  assert (H3 : wire_faithful (serialize_json st 0) (xml_compact hello_written))
    by decide_by_computation.
  destruct (serialize_deserialize_round_trip st 0 1
              (xml_compact hello_written) H0 H1 eq_refl eq_refl H2 eq_refl H3)
    as (Hout & _ & Hkeys & _).
  split; [exact Hout | exact Hkeys].
Defined.

(** C1 fails as stated: the unit of document 0 has two variants with
    distinct keys, yet reading the serialized document back into document 1,
    through a parser that returns the compact form of what was written,
    gives a unit with the datatype of the document, and so with another
    identity key. *)
Lemma round_trip_changes_unit_key :
  let st := javascript_store javascript_parser in
  let st' := (deserialize 1 (serialize st 0) st).2 in
  Forall (λ ur, 2 ≤ length (tu_variants (get_unit st ur)) ∧
                NoDup (@vkeys (example_collaborators javascript_parser)
                              (get_unit st ur))) (tu (get_doc st 0)) ∧
  @xml2js (example_collaborators javascript_parser) (serialize st 0) =
    Some (xml_compact (serialize_json st 0)) ∧
  wire_faithful (serialize_json st 0) (xml_compact (serialize_json st 0)) ∧
  ukeys st 0 = [(Some "Hello", Some "en", Some "javascript")] ∧
  ukeys st' 1 = [(Some "Hello", Some "en", Some "unknown")] ∧
  ¬ (∀ k, k ∈ ukeys st' 1 ↔ k ∈ ukeys st 0).
Proof.
  intros st st'.
  assert (Hk : ukeys st 0 = [(Some "Hello", Some "en", Some "javascript")])
    by (vm_compute; reflexivity).
  assert (Hk' : ukeys st' 1 = [(Some "Hello", Some "en", Some "unknown")])
    by (vm_compute; reflexivity).
  split; [decide_by_computation|]. split; [vm_compute; reflexivity|].
  split; [decide_by_computation|]. split; [exact Hk|]. split; [exact Hk'|].
  intros Hsame. rewrite Hk, Hk' in Hsame.
  specialize (Hsame (Some "Hello", Some "en", Some "unknown")).
  destruct Hsame as [Hsame _].
  specialize (Hsame ltac:(by left)).
  apply list_elem_of_singleton in Hsame. discriminate Hsame.
Defined.

(** The hypotheses of X27 hold for the plural resource with the extra
    target category [few]. *)
Lemma plural_extra_categories_witness :
  let st := empty_store in
  let st' := (addResource 0 (Some items_resource) st).2 in
  (addResource 0 (Some items_resource) st).1 = Returned tt ∧
  length (units st') = 2 ∧
  tu_variants (get_unit st' 1) =
    [mkVariant (Some "en") (Some "N items");
     mkVariant (Some "fr") (Some "N elements");
     mkVariant (Some "fr") (Some "Q elements")].
Proof.
  intros st st'.
  destruct (plural_extra_categories st 0 items_resource
    [("one", Some "1 item"); ("other", Some "N items")]
    [("one", Some "1 element"); ("few", Some "Q elements");
     ("other", Some "N elements")] eq_refl eq_refl eq_refl) as (Hout & Hlen & _).
  { decide_by_computation. }
  { intros cs Hcs Hno.
    assert (Hall : Forall (λ cs : string * (jsstr + list string),
      lacks_category (plural_segments (get_doc st 0)
                        [("one", Some "1 item"); ("other", Some "N items")]
                        (res_sourceLocale items_resource)) cs.1 = true →
      has_segments cs.2 = true ∧ length (segments_of cs.2) ≤ 1)
      (plural_segments (get_doc st 0)
         [("one", Some "1 element"); ("few", Some "Q elements");
          ("other", Some "N elements")]
         (res_targetLocale items_resource))) by decide_by_computation.
    rewrite Forall_forall in Hall. exact (Hall cs Hcs Hno). }
  split; [exact Hout|]. split; [exact Hlen|]. vm_compute. reflexivity.
Defined.

(** C8: the failing input. The source has no [other] category, the target
    has the extra category [few]; [addResource] calls [other[0].addVariant]
    on a unit that does not exist, which raises a [TypeError]: the unit of
    the category [one] is the only unit, and the segment of [few] is on no
    unit. *)
Theorem plural_extra_without_other :
  let st := empty_store in
  let st' := (addResource 0 (Some items_without_other) st).2 in
  (∃ what, (addResource 0 (Some items_without_other) st).1 =
           Thrown (TypeError what)) ∧
  length (units st') = 1 ∧
  Forall (λ u, mkVariant (Some "fr") (Some "Q elements") ∉ tu_variants u)
         (units st').
Proof.
  split; [eexists; vm_compute; reflexivity|].
  split; [vm_compute; reflexivity|]. decide_by_computation.
Qed.


(** * The examples of the specification, and inputs outside the
    hypotheses of the round trip and of the plural fallback *)

(** Diff directionality: with A = document 0 and B = document 1 of the
    example store, [A.diff(B)] has one unit, with the source variant and the
    variants fr:Salut and de:Hallo. [B.diff(A)] is not empty: the variant
    fr:Bonjour of A has a key that the unit of B lacks. *)
Lemma diff_example :
  let st := hello_store no_parser in
  let ab := diff 0 1 st in
  let ba := diff 1 0 st in
  ab.1 = Returned 2 ∧ ba.1 = Returned 2 ∧
  (tu_variants <$> (get_unit ab.2 <$> tu (get_doc ab.2 2))) =
    [[mkVariant (Some "en") (Some "Hello");
      mkVariant (Some "fr") (Some "Salut");
      mkVariant (Some "de") (Some "Hallo")]] ∧
  (tu_variants <$> (get_unit ba.2 <$> tu (get_doc ba.2 2))) =
    [[mkVariant (Some "en") (Some "Hello");
      mkVariant (Some "fr") (Some "Bonjour")]].
Proof. repeat split; vm_compute; reflexivity. Qed.

(** Merge: merging document 1 into document 0 of the example store keeps
    fr:Bonjour and adds fr:Salut and de:Hallo; fr:Salut has another key than
    fr:Bonjour and is not dropped. *)
Lemma merge_example :
  let st := hello_store no_parser in
  let m := merge 0 [1] st in
  (tu_variants <$> (get_unit m.2 <$> tu (get_doc m.2 m.1))) =
    [[mkVariant (Some "en") (Some "Hello");
      mkVariant (Some "fr") (Some "Bonjour");
      mkVariant (Some "fr") (Some "Salut");
      mkVariant (Some "de") (Some "Hallo")]].
Proof. vm_compute; reflexivity. Qed.

(** When the unit built for the [other] category has the key of a unit that
    is already stored, here the unit of the [one] category with the same
    text, the document keeps the stored unit 0 and the extra segment lands
    on the built unit 1, which is not in the document. *)
Lemma plural_extra_on_unstored_unit :
  let st' := (addResource 0 (Some items_same_text) empty_store).2 in
  tu (get_doc st' 0) = [0] ∧
  (mkVariant (Some "fr") (Some "Q elements") ∉ tu_variants (get_unit st' 0)) ∧
  (mkVariant (Some "fr") (Some "Q elements") ∈ tu_variants (get_unit st' 1)).
Proof.
  split; [vm_compute; reflexivity|]. split; decide_by_computation.
Qed.

(** A target category with an empty text gives no target variant: the
    unit of the category [one] has its source variant only. *)
Lemma plural_empty_target_skipped :
  let st' := (addResource 0 (Some items_empty_target) empty_store).2 in
  (addResource 0 (Some items_empty_target) empty_store).1 = Returned tt ∧
  tu_variants <$> (get_unit st' <$> tu (get_doc st' 0)) =
    [[mkVariant (Some "en") (Some "1 item")];
     [mkVariant (Some "en") (Some "N items");
      mkVariant (Some "fr") (Some "N elements")]].
Proof. split; vm_compute; reflexivity. Qed.

(** A variant with an empty text is written but skipped when read back. *)
Lemma round_trip_drops_empty_text :
  let st := store_of empty_text_unit "1.4"
              (parser_of empty_text_unit "1.4") in
  let st' := (deserialize 1 (serialize st 0) st).2 in
  (tu_variants <$> (get_unit st <$> tu (get_doc st 0))) =
    [[mkVariant (Some "en") (Some "Hello"); mkVariant (Some "fr") (Some "")]] ∧
  (tu_variants <$> (get_unit st' <$> tu (get_doc st' 1))) =
    [[mkVariant (Some "en") (Some "Hello")]].
Proof. split; vm_compute; reflexivity. Qed.

(** Without a variant in the source locale the source text is not
    restored, and the unit comes back under another key. *)
Lemma round_trip_loses_source :
  let st := store_of no_source_variant_unit "1.4"
              (parser_of no_source_variant_unit "1.4") in
  let st' := (deserialize 1 (serialize st 0) st).2 in
  ukeys st 0 = [(Some "Hello", Some "en", Some "unknown")] ∧
  ukeys st' 1 = [(None, Some "en", Some "unknown")].
Proof. split; vm_compute; reflexivity. Qed.

(** A document of another version is written with that version and
    rejected when read back. *)
Lemma round_trip_rejects_version :
  let st := store_of hello_unit "1.1" (parser_of hello_unit "1.1") in
  (deserialize 1 (serialize st 0) st).1 = Returned None ∧
  ukeys (deserialize 1 (serialize st 0) st).2 1 = [].
Proof. split; vm_compute; reflexivity. Qed.

(** The hypotheses of X1 hold for the parts of the text [1.4.2]. *)
Lemma versionString_shape_witness :
  versionString "1" = "1.0" ∧
  versionString "1.4" = "1.4" ∧
  versionString "1.4.2" = versionString "1.4".
Proof.
  exact (versionString_shape "1" "4" "2" eq_refl eq_refl).
Defined.

(** The hypotheses of X2 hold for the two documents of the example store. *)
Lemma diff_merge_keep_index_witness :
  let st := hello_store no_parser in
  wf_doc (diff 0 1 st).2 2 ∧
  wf_doc (merge 0 [1] st).2 (merge 0 [1] st).1.
Proof.
  intros st.
  assert (H0 : wf_doc st 0) by decide_by_computation.
  assert (H1 : wf_doc st 1) by decide_by_computation.
  assert (Hl : Forall (wf_doc st) [1]) by decide_by_computation.
  destruct (diff_merge_keep_index st 0 1 [1] H0 H1 Hl) as [[Hd _] [Hm _]].
  exact (conj Hd Hm).
Defined.

(** The hypotheses of X3 hold for document 0 of the example store and its
    two units, which have the same key. *)
Lemma addTranslationUnits_spec_witness :
  let st := hello_store no_parser in
  wf_doc (addTranslationUnits 0 [1; 0] st) 0 ∧
  tu (get_doc (addTranslationUnits 0 [1; 0] st) 0) =
    tu (get_doc st 0) ++ first_of_keys (ukeys st 0) (hashKey st) [1; 0] ∧
  NoDup (ukeys (addTranslationUnits 0 [1; 0] st) 0).
Proof.
  intros st.
  assert (H0 : wf_doc st 0) by decide_by_computation.
  assert (Hl : Forall (λ r, r < length (units st)) [1; 0])
    by decide_by_computation.
  destruct (addTranslationUnits_spec st 0 [1; 0] H0 Hl)
    as (Hwf & _ & Htu & _ & Hnd & _).
  exact (conj Hwf (conj Htu Hnd)).
Defined.

(** The hypotheses of X4 hold for the two documents of the example store. *)
Lemma diff_empty_iff_witness :
  let st := hello_store no_parser in
  (∃ st', diff 0 1 st = (Returned 2, st') ∧ size st' 2 = 0) ↔
  Forall (covered st 0) (tu (get_doc st 1)).
Proof.
  intros st.
  assert (H0 : wf_doc st 0) by decide_by_computation.
  assert (H1 : wf_doc st 1) by decide_by_computation.
  exact (proj1 (diff_empty_iff st 0 1 H0 H1)).
Defined.

(** The hypothesis of X5 holds for document 0 of the example store. *)
Lemma diff_self_witness :
  let st := hello_store no_parser in
  ∃ st', diff 0 0 st = (Returned 2, st') ∧
         size st' 2 = 0 ∧ units st' = units st ∧ log st' = log st.
Proof.
  intros st.
  assert (H0 : wf_doc st 0) by decide_by_computation.
  exact (diff_self st 0 H0).
Defined.

(** The hypotheses of X6 hold for the empty document 1 and the document 0
    of the store with one unit. *)
Lemma diff_disjoint_witness :
  let st := javascript_store no_parser in
  ∃ st', diff 1 0 st = (Returned 2, st') ∧
         tu (get_doc st' 2) = tu (get_doc st 0) ∧
         units st' = units st.
Proof.
  intros st.
  assert (H0 : wf_doc st 0) by decide_by_computation.
  assert (H1 : wf_doc st 1) by decide_by_computation.
  assert (Hn : Forall (λ r, hashKey st r ∉ ukeys st 1) (tu (get_doc st 0)))
    by decide_by_computation.
  exact (diff_disjoint st 1 0 H1 H0 Hn).
Defined.

(** The hypotheses of X7 hold for document 0 of the example store merged
    with itself. *)
Lemma merge_absorbs_witness :
  let st := hello_store no_parser in
  (merge 0 [0] st).1 = length (docs st) ∧
  tu (get_doc (merge 0 [0] st).2 (merge 0 [0] st).1) = tu (get_doc st 0) ∧
  units (merge 0 [0] st).2 = units st.
Proof.
  intros st.
  assert (H0 : wf_doc st 0) by decide_by_computation.
  assert (Hl : Forall (wf_doc st) [0]) by decide_by_computation.
  assert (Hc : Forall (λ t, Forall (covered st 0) (tu (get_doc st t))) [0])
    by decide_by_computation.
  exact (merge_absorbs st 0 [0] H0 Hl ltac:(discriminate) Hc).
Defined.

(** The hypotheses of X9 hold for a translated string resource and the
    empty document. *)
Lemma addResource_string_size_witness :
  ∃ st', addResource 0 (Some hello_resource) empty_store
           = (Returned tt, st') ∧
         length (units st') = length (units empty_store) + 1 ∧
         size st' 0 ≤ size empty_store 0 + 1.
Proof.
  assert (H : wf_doc empty_store 0) by decide_by_computation.
  exact (addResource_string_size empty_store 0 hello_resource
           (Some "Hello") (Some "Bonjour") H eq_refl eq_refl).
Defined.

(** The hypotheses of X10 hold for the same resource and document: the
    document then has the unit of the text with its French variant. *)
Lemma addResource_string_stored_witness :
  ∃ st' t,
    addResource 0 (Some hello_resource) empty_store = (Returned tt, st') ∧
    tuhash (get_doc st' 0) !! (Some "Hello", Some "en", Some "javascript")
      = Some t ∧
    (Some "fr", Some "Bonjour")
      ∈ @vkeys (example_collaborators no_parser) (get_unit st' t).
Proof.
  assert (H : wf_doc empty_store 0) by decide_by_computation.
  destruct (addResource_string_stored empty_store 0 hello_resource
              (Some "Hello") (Some "Bonjour") H eq_refl eq_refl)
    as (st' & Hrun & Hst).
  destruct (Hst 0 "Hello" eq_refl) as (t & Ht & _ & _ & Htgt).
  exists st', t. split; [exact Hrun|]. split; [exact Ht|].
  exact (Htgt eq_refl eq_refl "Bonjour" eq_refl ltac:(discriminate)).
Defined.

(** The hypotheses of X11 hold for an array resource without a target
    array: the call raises and leaves the store as it was. *)
Lemma addResource_array_without_target_witness :
  ∃ what, addResource 0 (Some array_without_target) empty_store
            = (Thrown (TypeError what), empty_store).
Proof.
  destruct (addResource_array_without_target empty_store 0
              array_without_target [Some "Yes"; Some "No"]
              eq_refl eq_refl eq_refl) as [_ Hraise].
  apply Hraise. apply Exists_cons_hd. discriminate.
Defined.

(** The hypotheses of X12 hold for document 1 of the example store and a
    parser that returns the compact form of the tree written for document
    0: the unit that was read is a new object, and the unit list of
    document 0 is as it was. *)
Lemma deserialize_replaces_witness :
  let st := hello_store hello_parser in
  Forall (λ r, length (units st) ≤ r ∧
               r < length (units (deserialize 1 "" st).2))
         (tu (get_doc (deserialize 1 "" st).2 1)) ∧
  size (deserialize 1 "" st).2 1 ≤ length (tu_elements hello_root) ∧
  tu (get_doc (deserialize 1 "" st).2 0) = tu (get_doc st 0).
Proof.
  intros st.
  destruct (deserialize_replaces st 1 "" (xml_compact hello_written)
              hello_root ltac:(vm_compute; lia) eq_refl eq_refl eq_refl)
    as (_ & Hfresh & Hsize & _ & Hother).
  split; [exact Hfresh|]. split; [exact Hsize|].
  exact (proj1 (Hother 0 ltac:(discriminate))).
Defined.

(** The hypotheses of X13 hold for the same document and parser. *)
Lemma deserialize_header_witness :
  let st := hello_store hello_parser in
  version (get_doc (deserialize 1 "" st).2 1) = version (get_doc st 1) ∧
  path (get_doc (deserialize 1 "" st).2 1) = path (get_doc st 1).
Proof.
  intros st.
  destruct (deserialize_header st 1 "" (xml_compact hello_written)
              hello_root ltac:(vm_compute; lia) eq_refl eq_refl eq_refl)
    as (Hv & Hp & _).
  exact (conj Hv Hp).
Defined.

(** The hypotheses of X14 hold for the document with a unit of datatype
    [javascript] read back into the empty document 1, whose datatype is
    [unknown]. *)
Lemma deserialize_datatype_witness :
  let st := javascript_store javascript_parser in
  Forall (λ r, tu_datatype (get_unit (deserialize 1 "" st).2 r) =
                 obj_get (properties (get_doc (deserialize 1 "" st).2 1))
                         "datatype" ∧
               truthy (tu_sourceLocale (get_unit (deserialize 1 "" st).2 r))
                 = true)
         (tu (get_doc (deserialize 1 "" st).2 1)).
Proof.
  intros st.
  exact (deserialize_datatype st 1 ""
           (xml_compact javascript_written)
           (default (mkTmxElem None None None)
                    (json_tmx (xml_compact javascript_written)))
           ltac:(vm_compute; lia) eq_refl eq_refl eq_refl).
Defined.

(** The hypothesis of X15 holds for a plural resource in another source
    locale than the one of the document. *)
Lemma addResource_returns_witness :
  ∃ st', addResource 0 (Some (mkResource (Some "de") (Some "fr") None None
                                None None
                                (ResPlural [("one", Some "Ding")] None)))
           empty_store = (Returned tt, st').
Proof.
  apply addResource_returns. left. discriminate.
Defined.

(** The hypotheses of X16 hold for the documents of the example store. *)
Lemma diff_merge_header_witness :
  let st := hello_store no_parser in
  obj_get (properties (get_doc (diff 0 1 st).2 2)) "datatype"
    = Some "unknown" ∧
  adminLocale (get_doc (merge 0 [1] st).2 (merge 0 [1] st).1) = Some "en".
Proof.
  intros st.
  assert (H0 : wf_doc st 0) by decide_by_computation.
  assert (H1 : wf_doc st 1) by decide_by_computation.
  assert (Hl : Forall (wf_doc st) [1]) by decide_by_computation.
  destruct (diff_merge_header st 0 1 [1] H0 H1 Hl ltac:(discriminate))
    as [_ H].
  split.
  - by destruct (H _ (or_introl eq_refl)) as (_ & _ & _ & _ & Hd & _).
  - by destruct (H _ (or_intror eq_refl)) as (_ & _ & Ha & _).
Defined.

(** The hypotheses of X17 hold for document 0 of the example store, read
    into document 1 by a parser that returns the compact form of what was
    written. *)
Lemma header_round_trip_witness :
  let st := hello_store hello_parser in
  obj_get (properties (get_doc (deserialize 1 (serialize st 0) st).2 1))
          "creationtool" = Some "loctool" ∧
  version (get_doc (deserialize 1 (serialize st 0) st).2 1)
    = version (get_doc st 1).
Proof.
  intros st.
  assert (H1 : 1 < length (docs st)) by decide_by_computation.
  assert (H3 : header_faithful (serialize_json st 0)
                               (xml_compact hello_written))
    by decide_by_computation.
  destruct (header_round_trip st 0 1 (xml_compact hello_written)
              H1 eq_refl eq_refl H3)
    as (_ & _ & _ & _ & _ & _ & Hct & _ & _ & Hv).
  exact (conj Hct Hv).
Defined.

(** The hypotheses of X18 hold for the two documents of the example
    store. *)
Lemma merge_commutes_witness :
  let st := hello_store no_parser in
  (Some "Hello", Some "en", Some "unknown") ∈ ukeys (merge 0 [1] st).2
                                                    (merge 0 [1] st).1 ↔
  (Some "Hello", Some "en", Some "unknown") ∈ ukeys (merge 1 [0] st).2
                                                    (merge 1 [0] st).1.
Proof.
  intros st.
  assert (H0 : wf_doc st 0) by decide_by_computation.
  assert (H1 : wf_doc st 1) by decide_by_computation.
  destruct (merge_commutes st 0 1 H0 H1) as [Hk _].
  exact (Hk (Some "Hello", Some "en", Some "unknown")).
Defined.

(** The hypotheses of X19 hold for the two documents of the example
    store. *)
Lemma merge_diff_patch_witness :
  let st := hello_store no_parser in
  (diff 0 1 st).1 = Returned 2 ∧
  ((Some "Hello", Some "en", Some "unknown")
     ∈ ukeys (merge 0 [2] (diff 0 1 st).2).2
             (merge 0 [2] (diff 0 1 st).2).1 ↔
   (Some "Hello", Some "en", Some "unknown")
     ∈ ukeys (merge 0 [1] st).2 (merge 0 [1] st).1).
Proof.
  intros st.
  assert (H0 : wf_doc st 0) by decide_by_computation.
  assert (H1 : wf_doc st 1) by decide_by_computation.
  assert (Hs : Forall (λ r, @variant_hash (example_collaborators no_parser)
                              (tu_sourceLocale (get_unit st r))
                              (tu_source (get_unit st r))
                              ∈ @vkeys (example_collaborators no_parser)
                                       (get_unit st r))
                      (tu (get_doc st 1))) by decide_by_computation.
  assert (Hout : (diff 0 1 st).1 = Returned 2) by (vm_compute; reflexivity).
  assert (Hr : diff 0 1 st = (Returned 2, (diff 0 1 st).2)).
  { rewrite <- Hout. by destruct (diff 0 1 st). }
  destruct (merge_diff_patch st 0 1 2 (diff 0 1 st).2 H0 H1 Hs Hr)
    as [Hk _].
  split; [exact Hout|].
  exact (Hk (Some "Hello", Some "en", Some "unknown")).
Defined.

(** The hypotheses of X20 hold for document 0 of the example store and the
    unit of document 1, which has the same key as the unit of document 0. *)
Lemma addTranslationUnit_stores_witness :
  let st := hello_store no_parser in
  tu (get_doc (addTranslationUnit 0 1 st) 0) = tu (get_doc st 0).
Proof.
  intros st.
  assert (H0 : wf_doc st 0) by decide_by_computation.
  assert (H1 : 1 < length (units st)) by decide_by_computation.
  destruct (addTranslationUnit_stores st 0 1 H0 H1) as (_ & _ & Htu & _).
  exact Htu.
Defined.

(** The hypotheses of X21 hold for an array resource with a target array
    and the empty document. *)
Lemma addResource_array_stored_witness :
  ∃ t, tuhash (get_doc (addResource 0 (Some yes_no_resource) empty_store).2
                       0)
         !! (Some "No", Some "en", Some "javascript") = Some t ∧
       (Some "fr", Some "Non")
         ∈ @vkeys (example_collaborators no_parser)
             (get_unit (addResource 0 (Some yes_no_resource) empty_store).2
                       t).
Proof.
  assert (H : wf_doc empty_store 0) by decide_by_computation.
  destruct (addResource_array_stored empty_store 0 yes_no_resource
              [Some "Yes"; Some "No"] (Some [Some "Oui"; Some "Non"])
              (addResource 0 (Some yes_no_resource) empty_store).2
              H eq_refl eq_refl eq_refl 1 (Some "No") 0 "No"
              eq_refl eq_refl)
    as (t & Ht & _ & _ & Htgt).
  exists t. split; [exact Ht|].
  exact (Htgt eq_refl [Some "Oui"; Some "Non"] (Some "Non") eq_refl eq_refl
           ltac:(vm_compute; lia)).
Defined.

(** The hypotheses of X22 hold for the translated string resource added to
    the empty document. *)
Lemma addResource_again_witness :
  ∃ st2,
    addResource 0 (Some hello_resource)
      (addResource 0 (Some hello_resource) empty_store).2
      = (Returned tt, st2) ∧
    docs st2 = docs (addResource 0 (Some hello_resource) empty_store).2 ∧
    ∃ created,
      units st2 =
      units (addResource 0 (Some hello_resource) empty_store).2 ++ created.
Proof.
  assert (H : wf_doc empty_store 0) by decide_by_computation.
  exact (addResource_again empty_store 0 hello_resource
           (addResource 0 (Some hello_resource) empty_store).2 H
           (or_introl (ex_intro _ (Some "Hello")
                         (ex_intro _ (Some "Bonjour") eq_refl)))
           eq_refl).
Defined.

(** The hypotheses of X23 hold for the tree written for document 0 of the
    example store. *)
Lemma deserialize_returns_witness :
  ∃ st', deserialize 1 "" (hello_store hello_parser) =
         (Returned (Some (tu (get_doc st' 1))), st').
Proof.
  refine (proj1 (deserialize_returns (hello_store hello_parser) 1 ""
                   (xml_compact hello_written) hello_root
                   eq_refl eq_refl eq_refl _)).
  decide_by_computation.
Defined.

(** The hypotheses of X24 hold for the plural resource whose source lacks
    the [other] category. *)
Lemma addResource_plural_raises_witness :
  ∃ what st',
    addResource 0 (Some items_without_other) empty_store =
      (Thrown (TypeError what), st') ∧
    length (units st') = 1.
Proof.
  apply (addResource_plural_raises empty_store 0 items_without_other
           [("one", Some "1 item")]
           [("one", Some "1 element"); ("few", Some "Q elements")]
           eq_refl eq_refl eq_refl).
  - decide_by_computation.
  - decide_by_computation.
Defined.

(** The hypotheses of X25 hold for the plural resource with the extra
    target category [few] and the empty document. *)
Lemma addResource_plural_stored_witness :
  ∃ t, tuhash (get_doc (addResource 0 (Some items_resource) empty_store).2
                       0)
         !! (Some "1 item", Some "en", Some "javascript") = Some t ∧
       (Some "fr", Some "1 element")
         ∈ @vkeys (example_collaborators no_parser)
             (get_unit (addResource 0 (Some items_resource) empty_store).2
                       t).
Proof.
  assert (H : wf_doc empty_store 0) by decide_by_computation.
  destruct (addResource_plural_stored empty_store 0 items_resource
              [("one", Some "1 item"); ("other", Some "N items")]
              (Some [("one", Some "1 element"); ("few", Some "Q elements");
                     ("other", Some "N elements")])
              H eq_refl eq_refl [] "one" (Some "1 item")
              [("other", Some "N items")] 0 "1 item"
              eq_refl (Forall_nil_2 _) eq_refl)
    as (t & Ht & _ & _ & Htgt).
  exists t. split; [exact Ht|].
  exact (Htgt eq_refl _ (Some "1 element") eq_refl eq_refl eq_refl).
Defined.

(** The hypotheses of X28 hold for the two documents with units that have
    no source text. *)
Lemma diff_raises_exactly_witness :
  ∃ what st', diff 0 1 sourceless_store = (Thrown (PlainError what), st').
Proof.
  assert (H0 : wf_doc sourceless_store 0) by decide_by_computation.
  assert (H1 : wf_doc sourceless_store 1) by decide_by_computation.
  apply (proj1 (diff_raises_exactly sourceless_store 0 1 H0 H1)).
  apply Exists_cons_hd. exists 0.
  split; [reflexivity|]. split; [|by left].
  vm_compute. discriminate.
Defined.

(** The hypotheses of X29 hold for the plural resource whose category
    [one] has an empty source text. *)
Lemma addResource_plural_empty_source_witness :
  ∃ what st',
    addResource 0 (Some items_empty_one) empty_store =
      (Thrown (TypeError what), st') ∧
    length (units st') = 0.
Proof.
  exact (addResource_plural_empty_source empty_store 0 items_empty_one
           [("one", Some ""); ("other", Some "N items")] None
           [] "one" (Some "") [("other", Some "N items")]
           eq_refl eq_refl eq_refl (Forall_nil_2 _) eq_refl).
Defined.
